(** * SpheremapTool: cubemap to spheremap conversion (src/main.cpp)

    A shallow embedding of [Image], [Cubemap] with its constructor,
    [Cubemap::readTexel], [Cubemap::computeTexCoords],
    [Cubemap::sampleFace], [unlerp] and [main] with its pixel loop, and
    the properties of the specification stated over it.

    Modelling choices.
    - [int] is a mathematical integer ([Z]); an arithmetic result that
      leaves the 32-bit range is undefined behaviour and is reported as
      [Undefined] where the program computes indices and sizes.
    - [float] arithmetic is a parameter of the program ([FloatModel]).
      Two instances are given: [binary32], IEEE 754 single precision
      with round-to-nearest-even, built on the standard library's
      [SpecFloat] (what the compiled program computes), and [exact],
      where every operation is the real-number operation it rounds (the
      arithmetic in which the specification writes its formulas).
      The two are related in [Binary32Rounding]: on finite values each
      operation of [binary32] returns the value of the format nearest to
      the real result, or an infinity when that value overflows.
    - A run ends in a value, in a failed [assert], or in undefined
      behaviour ([outcome]).
    - A cubemap is six images in memory, and [generate] returns the
      output buffer. The constructors, the command line and [main] are
      embedded in [Tool], over an environment: the decoder [stbi_load]
      and [std::stoi] are parameters, and the call of the encoder
      [stbi_write_bmp] is recorded in the way the run ends.

    The file has two parts: the definitions (the program, the two
    arithmetics, the specification's formulas, the inputs used in
    concrete runs), then the lemmas and theorems. The theorems come in
    two groups: the statements of the specification, up to
    [BothArithmetics], and after them further properties of the code
    (the geometry of the mapping, texel addressing, values outside the
    domain, sizes, files and exit codes). *)

From Stdlib Require Import ZArith List Bool Lia.
From Stdlib Require Import Reals Lra Psatz.
From Stdlib Require Import Floats.SpecFloat.
From Stdlib Require Strings.String.
Import ListNotations.

Local Open Scope Z_scope.

(** ** Outcomes *)

Inductive outcome (A : Type) : Type :=
| Ok (a : A)
| AssertFail
| Undefined.

Arguments Ok {A} a.
Arguments AssertFail {A}.
Arguments Undefined {A}.

Definition bind {A B : Type} (c : outcome A) (k : A -> outcome B) : outcome B :=
  match c with
  | Ok a => k a
  | AssertFail => AssertFail
  | Undefined => Undefined
  end.

Notation "x <- c1 ;; c2" := (bind c1 (fun x => c2))
  (at level 61, c1 at next level, right associativity).
Notation "' pat <- c1 ;; c2" := (bind c1 (fun x => match x with pat => c2 end))
  (at level 61, pat pattern, c1 at next level, right associativity).

(** [assert(b)] *)
Definition c_assert (b : bool) : outcome unit :=
  if b then Ok tt else AssertFail.

(** ** Machine integers *)

Definition INT_MIN : Z := - 2 ^ 31.
Definition INT_MAX : Z := 2 ^ 31 - 1.

Definition in_int (z : Z) : bool := (INT_MIN <=? z) && (z <=? INT_MAX).

(** The result of a signed [int] operation: overflow is undefined. *)
Definition int_arith (z : Z) : outcome Z :=
  if in_int z then Ok z else Undefined.

(** [typedef uint32_t u32]: a packed 4-channel colour. *)
Definition u32 : Type := Z.

(** ** Floating-point interface *)

Class FloatModel : Type := {
  float : Type;
  (** conversion of an [int] to [float]; also the literals [0.0f], [1.0f],
      [2.0f], ... whose values are integers *)
  of_int : Z -> float;
  (** the literal [0.5f] *)
  half : float;
  fadd : float -> float -> float;
  fsub : float -> float -> float;
  fmul : float -> float -> float;
  fdiv : float -> float -> float;
  fneg : float -> float;
  fabs : float -> float;
  fsqrt : float -> float;
  (** [a < b] and [a >= b] *)
  flt : float -> float -> bool;
  fge : float -> float -> bool;
  (** [static_cast<int>]: truncation toward zero; [None] when the truncated
      value is not an [int] (undefined behaviour) *)
  to_int : float -> option Z
}.

(** ** Images and the cubemap *)

Record Image : Type := {
  width : Z;
  height : Z;
  (** the decoded buffer read as [u32] texels, row by row *)
  data : list u32
}.

(** [enum CubeFace] *)
Definition FACE_POS_X : Z := 0.
Definition FACE_NEG_X : Z := 1.
Definition FACE_POS_Y : Z := 2.
Definition FACE_NEG_Y : Z := 3.
Definition FACE_POS_Z : Z := 4.
Definition FACE_NEG_Z : Z := 5.
Definition NUM_FACES : Z := 6.

(** [Image faces[NUM_FACES]] *)
Record Cubemap : Type := {
  face_pos_x : Image;
  face_neg_x : Image;
  face_pos_y : Image;
  face_neg_y : Image;
  face_pos_z : Image;
  face_neg_z : Image
}.

(** [faces[face]]; [None] outside the array. *)
Definition faces (cm : Cubemap) (face : Z) : option Image :=
  match face with
  | 0 => Some (face_pos_x cm)
  | 1 => Some (face_neg_x cm)
  | 2 => Some (face_pos_y cm)
  | 3 => Some (face_neg_y cm)
  | 4 => Some (face_pos_z cm)
  | 5 => Some (face_neg_z cm)
  | _ => None
  end.

(** [img_data[i]]; reading outside the buffer is undefined. *)
Definition read_u32 (buf : list u32) (i : Z) : outcome u32 :=
  if i <? 0 then Undefined
  else match nth_error buf (Z.to_nat i) with
       | Some c => Ok c
       | None => Undefined
       end.

(** [Cubemap::readTexel] *)
Definition readTexel (cm : Cubemap) (face x y : Z) : outcome u32 :=
  _ <- c_assert (face <? NUM_FACES) ;;
  match faces cm face with
  | None => Undefined
  | Some face_img =>
      _ <- c_assert (x <? width face_img) ;;
      _ <- c_assert (y <? height face_img) ;;
      row <- int_arith (y * width face_img) ;;
      i <- int_arith (row + x) ;;
      read_u32 (data face_img) i
  end.

Section Program.

Context {FM : FloatModel}.

(** [v[major_axis]] for the three-element arrays [v] and [a]. *)
Definition index3 (v0 v1 v2 : float) (i : Z) : float :=
  match i with
  | 0 => v0
  | 1 => v1
  | _ => v2
  end.

(** The [if]/[else if] chain that sets [major_axis]; when no branch is
    taken the variable is read uninitialised. *)
Definition select_major_axis (a0 a1 a2 : float) : outcome Z :=
  if fge a0 a1 && fge a0 a2 then Ok 0
  else if fge a1 a0 && fge a1 a2 then Ok 1
  else if fge a2 a0 && fge a2 a1 then Ok 2
  else Undefined.

(** [if (v[major_axis] < 0.0f) major_axis = major_axis * 2 + 1; else major_axis *= 2;] *)
Definition face_of_axis (v0 v1 v2 : float) (major_axis : Z) : Z :=
  if flt (index3 v0 v1 v2 major_axis) (of_int 0)
  then major_axis * 2 + 1
  else major_axis * 2.

(** The [switch (major_axis)]: [(tmp_s, tmp_t, m)]; with no matching
    [case] the three variables are read uninitialised. *)
Definition project (x y z a0 a1 a2 : float) (face : Z)
  : outcome (float * float * float) :=
  match face with
  | 0 => Ok (fneg z, fneg y, a0)
  | 1 => Ok (z, fneg y, a0)
  | 2 => Ok (x, z, a1)
  | 3 => Ok (x, fneg z, a1)
  | 4 => Ok (x, fneg y, a2)
  | 5 => Ok (fneg x, fneg y, a2)
  | _ => Undefined
  end.

(** [0.5f * (tmp / m + 1.0f)] *)
Definition normalize (tmp m : float) : float :=
  fmul half (fadd (fdiv tmp m) (of_int 1)).

(** [Cubemap::computeTexCoords]: [(out_face, out_s, out_t)] *)
Definition computeTexCoords (x y z : float) : outcome (Z * float * float) :=
  let a0 := fabs x in
  let a1 := fabs y in
  let a2 := fabs z in
  major_axis <- select_major_axis a0 a1 a2 ;;
  let face := face_of_axis x y z major_axis in
  '(tmp_s, tmp_t, m) <- project x y z a0 a1 a2 face ;;
  Ok (face, normalize tmp_s m, normalize tmp_t m).

(** [static_cast<int>(f)] *)
Definition cast_int (f : float) : outcome Z :=
  match to_int f with
  | Some z => Ok z
  | None => Undefined
  end.

(** [std::min(static_cast<int>(c * dim), dim - 1)] *)
Definition texel_index (c : float) (dim : Z) : outcome Z :=
  i <- cast_int (fmul c (of_int dim)) ;;
  last <- int_arith (dim - 1) ;;
  Ok (Z.min i last).

(** [Cubemap::sampleFace] *)
Definition sampleFace (cm : Cubemap) (face : Z) (s t : float) : outcome u32 :=
  match faces cm face with
  | None => Undefined
  | Some face_img =>
      x <- texel_index s (width face_img) ;;
      y <- texel_index t (height face_img) ;;
      readTexel cm face x y
  end.

(** [unlerp] *)
Definition unlerp (val max : Z) : float :=
  fdiv (fadd (of_int val) half) (of_int max).

(** [s - s*s + t - t*t] *)
Definition paraboloid (s t : float) : float :=
  fsub (fadd (fsub s (fmul s s)) t) (fmul t t).

(** [16.0f * (s - s*s + t - t*t) - 4.0f] *)
Definition rev_p (s t : float) : float :=
  fsub (fmul (of_int 16) (paraboloid s t)) (of_int 4).

(** The body of the pixel loop up to the call of [computeTexCoords]:
    [(vx, vy, vz)]. *)
Definition pixel_direction (s t : float) : float * float * float :=
  if flt (rev_p s t) (of_int 0) then
    (of_int 0, of_int 0, fneg (of_int 1))
  else
    let rev_p_sqrt := fsqrt (rev_p s t) in
    (fmul rev_p_sqrt (fsub (fmul (of_int 2) s) (of_int 1)),
     fmul rev_p_sqrt (fneg (fsub (fmul (of_int 2) t) (of_int 1))),
     fsub (fmul (of_int 8) (paraboloid s t)) (of_int 3)).

(** The colour the loop body computes for output pixel [(x, y)]. *)
Definition pixel_color (cm : Cubemap) (output_size x y : Z) : outcome u32 :=
  let s := unlerp x output_size in
  let t := unlerp y output_size in
  let '(vx, vy, vz) := pixel_direction s t in
  '(cube_face, tex_s, tex_t) <- computeTexCoords vx vy vz ;;
  sampleFace cm cube_face tex_s tex_t.

End Program.

(** ** The output buffer and the pixel loop *)

(** [out_data[i] = c]; writing outside the vector is undefined. *)
Fixpoint store_nat (buf : list u32) (i : nat) (c : u32) : option (list u32) :=
  match buf, i with
  | [], _ => None
  | _ :: rest, O => Some (c :: rest)
  | b :: rest, S i' =>
      match store_nat rest i' c with
      | Some rest' => Some (b :: rest')
      | None => None
      end
  end.

Definition store_u32 (buf : list u32) (i : Z) (c : u32) : outcome (list u32) :=
  if i <? 0 then Undefined
  else match store_nat buf (Z.to_nat i) c with
       | Some buf' => Ok buf'
       | None => Undefined
       end.

(** [for (int i = lo; i < hi; ++i) body], threading the state [st]. *)
Fixpoint for_up {S : Type} (n : nat) (i : Z) (body : Z -> S -> outcome S) (st : S)
  : outcome S :=
  match n with
  | O => Ok st
  | Datatypes.S n' => st' <- body i st ;; for_up n' (i + 1) body st'
  end.

Definition for_loop {S : Type} (lo hi : Z) (body : Z -> S -> outcome S) (st : S)
  : outcome S :=
  for_up (Z.to_nat (hi - lo)) lo body st.

Section Generator.

Context {FM : FloatModel}.

(** One iteration of the inner loop of [main]. *)
Definition store_pixel (cm : Cubemap) (output_size y x : Z) (out_data : list u32)
  : outcome (list u32) :=
  c <- pixel_color cm output_size x y ;;
  row <- int_arith (y * output_size) ;;
  i <- int_arith (row + x) ;;
  store_u32 out_data i c.

(** [main] from the allocation of [out_data] to the end of the loops. *)
Definition generate (cm : Cubemap) (output_size : Z) : outcome (list u32) :=
  n <- int_arith (output_size * output_size) ;;
  let out_data := repeat 0 (Z.to_nat n) in
  for_loop 0 output_size
    (fun y => for_loop 0 output_size (store_pixel cm output_size y))
    out_data.

End Generator.

(** ** IEEE 754 single precision *)

Module Binary32.

Definition prec : Z := 24.
Definition emax : Z := 128.

(** Truncation toward zero of a finite value [(-1)^s * m * 2^e]. *)
Definition truncate (s : bool) (m : positive) (e : Z) : Z :=
  let magnitude :=
    match e with
    | Zneg p => Z.shiftr (Zpos m) (Zpos p)
    | _ => Z.shiftl (Zpos m) e
    end in
  if s then - magnitude else magnitude.

Definition b32_to_int (f : spec_float) : option Z :=
  match f with
  | S754_zero _ => Some 0
  | S754_finite s m e =>
      let z := truncate s m e in
      if in_int z then Some z else None
  | S754_infinity _ => None
  | S754_nan => None
  end.

Definition b32_of_int (z : Z) : spec_float := binary_normalize prec emax z 0 false.

Definition b32_half : spec_float := binary_normalize prec emax 1 (-1) false.

(** Classes of values. *)
Definition is_nan (f : spec_float) : bool :=
  match f with
  | S754_nan => true
  | _ => false
  end.

Definition is_zero (f : spec_float) : bool :=
  match f with
  | S754_zero _ => true
  | _ => false
  end.

(** Neither infinite nor NaN. *)
Definition is_finite (f : spec_float) : bool :=
  match f with
  | S754_zero _ => true
  | S754_finite _ _ _ => true
  | _ => false
  end.

(** The magnitude of a value as a key ordered lexicographically:
    zero, then the finite values by exponent and mantissa, then infinity. *)
Definition key (f : spec_float) : Z * Z * Z :=
  match f with
  | S754_zero _ => (0, 0, 0)
  | S754_finite _ m e => (1, e, Zpos m)
  | S754_infinity _ => (2, 0, 0)
  | S754_nan => (3, 0, 0)
  end.

Definition key_le (k1 k2 : Z * Z * Z) : Prop :=
  let '(c1, e1, m1) := k1 in
  let '(c2, e2, m2) := k2 in
  c1 < c2 \/ (c1 = c2 /\ (e1 < e2 \/ (e1 = e2 /\ m1 <= m2))).

End Binary32.

#[export] Instance binary32 : FloatModel := {|
  float := spec_float;
  of_int := Binary32.b32_of_int;
  half := Binary32.b32_half;
  fadd := SFadd Binary32.prec Binary32.emax;
  fsub := SFsub Binary32.prec Binary32.emax;
  fmul := SFmul Binary32.prec Binary32.emax;
  fdiv := SFdiv Binary32.prec Binary32.emax;
  fneg := SFopp;
  fabs := SFabs;
  fsqrt := SFsqrt Binary32.prec Binary32.emax;
  flt := SFltb;
  fge := fun a b => SFleb b a;
  to_int := Binary32.b32_to_int
|}.

(** ** Exact real arithmetic *)

Module Exact.

Definition Rltb (a b : R) : bool := if Rlt_dec a b then true else false.
Definition Rgeb (a b : R) : bool := if Rge_dec a b then true else false.

(** The integer part toward zero. *)
Definition Rtrunc (r : R) : Z :=
  if Rle_dec 0 r then Int_part r else - Int_part (- r).

Definition R_to_int (r : R) : option Z :=
  let z := Rtrunc r in
  if in_int z then Some z else None.

End Exact.

#[export] Instance exact : FloatModel := {|
  float := R;
  of_int := IZR;
  half := (/ 2)%R;
  fadd := Rplus;
  fsub := Rminus;
  fmul := Rmult;
  fdiv := Rdiv;
  fneg := Ropp;
  fabs := Rabs;
  fsqrt := sqrt;
  flt := Exact.Rltb;
  fge := Exact.Rgeb;
  to_int := Exact.R_to_int
|}.

(** ** The real values of single precision

    The value of a finite number, the numbers of the format, rounding to
    nearest, and what it means for an operation to return the correctly
    rounded result. *)

Module Binary32Real.

Import Binary32.

Local Open Scope R_scope.

(** [2^e] *)
Definition bpow (e : Z) : R := powerRZ 2 e.

Arguments bpow : simpl never.

(** The value [m * 2^e] of a mantissa and an exponent. *)
Definition F2R (m e : Z) : R := IZR m * bpow e.

(** The real value of a number; [0] for the zeros, and for the infinities
    and NaN, which have none. *)
Definition B2R (f : spec_float) : R :=
  match f with
  | S754_finite s m e => if s then - F2R (Zpos m) e else F2R (Zpos m) e
  | _ => 0
  end.

(** The exponent of the smallest positive value, [2^-149]. *)
Definition emin : Z := -149.

(** A real number of the format: [k * 2^e] with [|k| <= 2^24], [e >= emin]. *)
Definition format (r : R) : Prop :=
  exists k e, r = F2R k e /\ (Z.abs k <= 2 ^ 24)%Z /\ (emin <= e)%Z.

(** [r] is a value of the format nearest to [v]. *)
Definition nearest (v r : R) : Prop :=
  format r /\ forall f, format f -> Rabs (r - v) <= Rabs (f - v).

(** The position of [x] above the integer [m]: on [m], below the middle
    of [[m, m + 1]], on the middle, or above it. *)
Definition located (x : R) (m : Z) (l : location) : Prop :=
  match l with
  | loc_Exact => x = IZR m
  | loc_Inexact Lt => IZR m < x < IZR m + / 2
  | loc_Inexact Eq => x = IZR m + / 2
  | loc_Inexact Gt => IZR m + / 2 < x < IZR m + 1
  end.

(** The same for the record of a shifted mantissa. *)
Definition rec_located (x : R) (mrs : shr_record) : Prop :=
  located x (shr_m mrs) (loc_of_shr_record mrs).

(** The result of a rounding: a nearest value of the format, with the
    half-unit bound on the error. *)
Definition rounded (v r : R) : Prop :=
  nearest v r /\
  exists e, (emin <= e)%Z /\ Rabs (r - v) <= bpow e / 2 /\
            (e = emin \/ bpow (e + 23) <= Rabs v).

(** [v] with the sign [s]. *)
Definition signed (s : bool) (v : R) : R := if s then - v else v.

(** Finite and in canonical form. *)
Definition fin (f : spec_float) : Prop :=
  is_finite f = true /\ valid_binary prec emax f = true.

(** [r] is the correctly rounded result for the real value [xr]: finite
    with the rounded value, or infinite when the rounded value overflows. *)
Definition result_of (xr : R) (r : spec_float) : Prop :=
  valid_binary prec emax r = true /\ is_nan r = false /\
  exists v, rounded xr v /\
    (is_finite r = true -> B2R r = v) /\
    (is_finite r = false -> bpow 128 <= Rabs v).

(** The comparison [c] is the one of the reals [a] and [b]. *)
Definition compare_holds (c : option comparison) (a b : R) : Prop :=
  match c with
  | Some Lt => a < b
  | Some Eq => a = b
  | Some Gt => b < a
  | None => False
  end.

(** The chain of roundings of [s - s*s + t - t*t]. *)
Definition paraboloid_chain (s t q : R) : Prop :=
  exists ss a b tt,
    rounded (s * s) ss /\ rounded (s - ss) a /\ rounded (a + t) b /\
    rounded (t * t) tt /\ rounded (b - tt) q /\
    0 <= ss <= 1 /\ 0 <= tt <= 1.

(** The value of the [float] product [c * dim]. *)
Definition product_value (c : spec_float) (dim : Z) : R :=
  B2R (SFmul prec emax c (b32_of_int dim)).

End Binary32Real.

(** ** A small cubemap for concrete runs

    Six 2x2 faces; the texel [(x, y)] of the face with index [f] holds
    [10 * (f + 1) + 2 * y + x]. *)

Definition test_image (base : Z) : Image :=
  {| width := 2; height := 2; data := [base; base + 1; base + 2; base + 3] |}.

Definition test_cubemap : Cubemap :=
  {| face_pos_x := test_image 10; face_neg_x := test_image 20;
     face_pos_y := test_image 30; face_neg_y := test_image 40;
     face_pos_z := test_image 50; face_neg_z := test_image 60 |}.

(** ** The specification's description of [ComputeTexCoords] *)

Section TexCoordsSpec.

Context {FM : FloatModel}.

(** Axis [i] holds a largest absolute value: it compares [>=] against
    both other axes. *)
Definition is_largest (a0 a1 a2 : float) (i : Z) : Prop :=
  match i with
  | 0 => fge a0 a1 = true /\ fge a0 a2 = true
  | 1 => fge a1 a0 = true /\ fge a1 a2 = true
  | 2 => fge a2 a0 = true /\ fge a2 a1 = true
  | _ => False
  end.

(** The major axis of the specification: a largest component, and no
    axis of lower index is one. *)
Definition spec_major_axis (a0 a1 a2 : float) (i : Z) : Prop :=
  is_largest a0 a1 a2 i /\ forall k, 0 <= k < i -> ~ is_largest a0 a1 a2 k.

(** "doubled and incremented by 1 if that axis's signed value is negative" *)
Definition spec_face (v : float) (axis : Z) : Z :=
  if flt v (of_int 0) then 2 * axis + 1 else 2 * axis.

(** The per-face table of raw [s] and raw [t]. *)
Definition spec_raw (face : Z) (x y z : float) : float * float :=
  if face =? FACE_POS_X then (fneg z, fneg y)
  else if face =? FACE_NEG_X then (z, fneg y)
  else if face =? FACE_POS_Y then (x, z)
  else if face =? FACE_NEG_Y then (x, fneg z)
  else if face =? FACE_POS_Z then (x, fneg y)
  else (fneg x, fneg y).

(** "Final s = 0.5 (raw_s / m + 1)" *)
Definition spec_coord (raw m : float) : float :=
  fmul half (fadd (fdiv raw m) (of_int 1)).

End TexCoordsSpec.

(** ** The specification's steps of [Generate] *)

Section GeneratorSpec.

Context {FM : FloatModel}.

(** Step 1: "s = (x + 0.5) / output_size". *)
Definition spec_unit (x output_size : Z) : float :=
  fdiv (fadd (of_int x) half) (of_int output_size).

(** Step 2: "rev_p = 16 (s - s^2 + t - t^2) - 4". *)
Definition spec_rev_p (s t : float) : float :=
  fsub (fmul (of_int 16) (fsub (fadd (fsub s (fmul s s)) t) (fmul t t))) (of_int 4).

(** Steps 3 and 4: the direction [(0, 0, -1)] outside the disk, and
    "( r (2s - 1), - r (2t - 1), 8 (s - s^2 + t - t^2) - 3 )" inside. *)
Definition spec_direction (s t : float) : float * float * float :=
  if flt (spec_rev_p s t) (of_int 0) then
    (of_int 0, of_int 0, fneg (of_int 1))
  else
    let r := fsqrt (spec_rev_p s t) in
    (fmul r (fsub (fmul (of_int 2) s) (of_int 1)),
     fneg (fmul r (fsub (fmul (of_int 2) t) (of_int 1))),
     fsub (fmul (of_int 8) (fsub (fadd (fsub s (fmul s s)) t) (fmul t t))) (of_int 3)).

(** Negation commutes with multiplication: the program writes
    [r * -(2t - 1)] where the specification writes [- r (2t - 1)]. *)
Definition neg_commutes_with_mul : Prop :=
  forall a b : float, fmul a (fneg b) = fneg (fmul a b).

(** Steps 1 to 5 for the output pixel [(x, y)]: the sampled colour. *)
Definition spec_pixel (cm : Cubemap) (output_size x y : Z) : outcome u32 :=
  let s := spec_unit x output_size in
  let t := spec_unit y output_size in
  let '(vx, vy, vz) := spec_direction s t in
  '(face, tex_s, tex_t) <- computeTexCoords vx vy vz ;;
  sampleFace cm face tex_s tex_t.

(** Step 6 for every pixel: the buffer is the raster of the sampled colours. *)
Definition spec_raster (cm : Cubemap) (output_size : Z) (buf : list u32) : Prop :=
  Z.of_nat (length buf) = output_size * output_size /\
  forall x y, 0 <= x < output_size -> 0 <= y < output_size ->
    exists c, spec_pixel cm output_size x y = Ok c /\
              nth_error buf (Z.to_nat (y * output_size + x)) = Some c.

End GeneratorSpec.

(** Every pixel whose row-major index is below [k] holds its colour. *)
Definition filled {FM : FloatModel} (cm : Cubemap) (output_size : Z)
  (k : Z) (buf : list u32) : Prop :=
  Z.of_nat (length buf) = output_size * output_size /\
  forall x y, 0 <= x < output_size -> 0 <= y < output_size ->
    y * output_size + x < k ->
    exists c, pixel_color cm output_size x y = Ok c /\
              nth_error buf (Z.to_nat (y * output_size + x)) = Some c.

(** ** Texel coordinates and well-formed inputs *)

(** The texel coordinate as the specification writes it:
    [min(floor(c * dim), dim - 1)]. *)
Definition spec_texel (c : R) (dim : Z) : Z :=
  Z.min (Int_part (c * IZR dim)) (dim - 1).

(** An [int] dimension that is positive. *)
Definition positive_dim (dim : Z) : Prop := 0 < dim <= INT_MAX.

(** A decoded image: positive dimensions and a buffer of
    [width * height] texels whose size is an [int]. *)
Definition valid_image (img : Image) : Prop :=
  0 < width img /\ 0 < height img /\
  width img * height img <= INT_MAX /\
  Z.of_nat (length (data img)) = width img * height img.

(** All six faces were decoded. *)
Definition valid_cubemap (cm : Cubemap) : Prop :=
  forall face img, faces cm face = Some img -> valid_image img.

(** Every face of the cubemap has positive [int] dimensions. *)
Definition positive_faces (cm : Cubemap) : Prop :=
  forall face img, faces cm face = Some img ->
    positive_dim (width img) /\ positive_dim (height img).

(** A face of one row of [2^25] texels: the texels up to 16777215 hold 0,
    the texel 16777216 holds 1, the texels beyond hold 2. *)
Definition wide_image : Image :=
  {| width := 33554432;
     height := 1;
     data := repeat 0 (Z.to_nat 16777216) ++ 1 :: repeat 2 (Z.to_nat 16777215) |}.

(** The test cubemap with the wide face as +X. *)
Definition wide_cubemap : Cubemap :=
  {| face_pos_x := wide_image;
     face_neg_x := test_image 20;
     face_pos_y := test_image 30;
     face_neg_y := test_image 40;
     face_pos_z := test_image 50;
     face_neg_z := test_image 60 |}.

(** The largest [float] below [2^31]: a dimension up to it converts to a
    [float] that [static_cast<int>] takes back. *)
Definition max_dim : Z := 2147483520.

(** The dimensions convert to a [float] below [2^31]. *)
Definition bounded_faces (cm : Cubemap) : Prop :=
  forall face img, faces cm face = Some img ->
    width img <= max_dim /\ height img <= max_dim.

(** The decoded buffer of each face, 4 bytes a texel, has a size in bytes
    that is an [int]. *)
Definition int_sized_buffers (cm : Cubemap) : Prop :=
  forall face img, faces cm face = Some img ->
    4 * (width img * height img) <= INT_MAX.

(** A run of [generate] that returns [output_size * output_size] colours,
    each of them a texel inside one of the six faces. *)
Definition produces_texels (FM : FloatModel) (cm : Cubemap) (output_size : Z) : Prop :=
  exists buf,
    generate (FM := FM) cm output_size = Ok buf /\
    Z.of_nat (length buf) = output_size * output_size /\
    forall c, In c buf ->
      exists (face x y : Z) (img : Image),
        faces cm face = Some img /\
        0 <= x < width img /\ 0 <= y < height img /\
        readTexel cm face x y = Ok c.

(** Pixel [(x, y)] has a negative [rev_p], takes the direction
    [(0, 0, -1)] and receives the centre texel of the face -Z, [img]. *)
Definition samples_back_pole (FM : FloatModel) (cm : Cubemap)
  (output_size x y : Z) (img : Image) : Prop :=
  let s := unlerp (FM := FM) x output_size in
  let t := unlerp (FM := FM) y output_size in
  flt (FloatModel := FM) (rev_p (FM := FM) s t) (of_int 0) = true /\
  pixel_direction (FM := FM) s t = (of_int 0, of_int 0, fneg (of_int 1)) /\
  pixel_color (FM := FM) cm output_size x y =
    readTexel cm FACE_NEG_Z (width img / 2) (height img / 2).

(** The four corner pixels of an image of size [n]. *)
Definition is_corner (n x y : Z) : Prop :=
  (x = 0 \/ x = n - 1) /\ (y = 0 \/ y = n - 1).

(** ** The six canonical directions *)

(** Each axis direction is classified onto its own face, at the centre
    [(0.5, 0.5)]. *)
Definition canonical_directions_centred (FM : FloatModel) : Prop :=
  computeTexCoords (of_int 1) (of_int 0) (of_int 0) = Ok (FACE_POS_X, half, half) /\
  computeTexCoords (of_int (-1)) (of_int 0) (of_int 0) = Ok (FACE_NEG_X, half, half) /\
  computeTexCoords (of_int 0) (of_int 1) (of_int 0) = Ok (FACE_POS_Y, half, half) /\
  computeTexCoords (of_int 0) (of_int (-1)) (of_int 0) = Ok (FACE_NEG_Y, half, half) /\
  computeTexCoords (of_int 0) (of_int 0) (of_int 1) = Ok (FACE_POS_Z, half, half) /\
  computeTexCoords (of_int 0) (of_int 0) (of_int (-1)) = Ok (FACE_NEG_Z, half, half).

(** ** Cubemaps of a single colour *)

(** A 2x2 face filled with the colour [c]. *)
Definition flat_image (c : u32) : Image :=
  {| width := 2; height := 2; data := [c; c; c; c] |}.

Definition flat_cubemap (c : u32) : Cubemap :=
  {| face_pos_x := flat_image c; face_neg_x := flat_image c;
     face_pos_y := flat_image c; face_neg_y := flat_image c;
     face_pos_z := flat_image c; face_neg_z := flat_image c |}.

(** Every texel of every face holds the colour [c]. *)
Definition uniform_cubemap (c : u32) (cm : Cubemap) : Prop :=
  forall face img, faces cm face = Some img ->
    forall c', In c' (data img) -> c' = c.

(** ** The command line, the files and [main]

    The decoder, the encoder and [std::stoi] are not part of the source:
    the decoder and [std::stoi] are parameters, and the call of the encoder
    is recorded in the way the run ends. *)

Module Tool.

Import String.

Local Open Scope string_scope.

(** [Image()] : no buffer, and the dimensions [-1]. The null pointer is
    the empty buffer: every read of it is outside the buffer. *)
Definition Image_default : Image :=
  {| width := -1; height := -1; data := [] |}.

(** [Image& operator= (Image&& o)]: the values of [*this] and of [o] after
    the assignment. The dimensions are copied, the buffers are swapped. *)
Definition Image_move_assign (this o : Image) : Image * Image :=
  ({| width := width o; height := height o; data := data o |},
   {| width := width o; height := height o; data := data this |}).

(** The file of a face: [fname_prefix + "_right." + fname_extension] and
    the like, for the six faces of [enum CubeFace]; there is no file for
    any other index. *)
Definition face_filename (fname_prefix fname_extension : string) (face : Z) : string :=
  match face with
  | 0 => (fname_prefix ++ "_right.") ++ fname_extension
  | 1 => (fname_prefix ++ "_left.") ++ fname_extension
  | 2 => (fname_prefix ++ "_top.") ++ fname_extension
  | 3 => (fname_prefix ++ "_bottom.") ++ fname_extension
  | 4 => (fname_prefix ++ "_front.") ++ fname_extension
  | 5 => (fname_prefix ++ "_back.") ++ fname_extension
  | _ => EmptyString
  end.

(** [fname_prefix + "_spheremap.bmp"] *)
Definition output_filename (fname_prefix : string) : string :=
  fname_prefix ++ "_spheremap.bmp".

(** The arguments of a call [stbi_write_bmp(filename, w, h, comp, data)]. *)
Record bmp_file : Type := {
  bmp_filename : string;
  bmp_w : Z;
  bmp_h : Z;
  bmp_comp : Z;
  bmp_data : list u32
}.

(** How a run of [main] ends: it returns an exit code, having called
    [stbi_load] on the files [loaded] and [stbi_write_bmp] with [written];
    or [std::stoi] throws and nothing catches the exception; or an
    [assert] fails; or the behaviour is undefined. *)
Inductive ending : Type :=
| Returns (code : Z) (loaded : list string) (written : list bmp_file)
| Terminated
| AssertionFailed
| UndefinedBehaviour.

Section Environment.

Context {FM : FloatModel}.

(** [stbi_load(filename, &width, &height, nullptr, 4)]: the decoded image,
    or [None] when the call returns the null pointer. *)
Variable stbi_load : string -> option Image.

(** What the members [width] and [height] hold after a load that failed:
    the constructor does not initialise them and the failed call did not
    write them, so the program reads whatever values are there. (The
    language makes that read undefined already; the run is followed
    further here, and what is proved of it is that it ends in a failed
    [assert] or in undefined behaviour, which holds on either reading.) *)
Variable unwritten : string -> Z * Z.

(** [std::stoi(str)]: the integer, or [None] when it throws. *)
Variable stoi : string -> option Z.

(** [Image(const std::string& filename)] *)
Definition Image_load (filename : string) : Image :=
  match stbi_load filename with
  | Some img => img
  | None =>
      {| width := fst (unwritten filename);
         height := snd (unwritten filename);
         data := [] |}
  end.

(** [Cubemap(fname_prefix, fname_extension)]: each element of [faces] is
    first an [Image()] and is then assigned the loaded image. *)
Definition Cubemap_ctor (fname_prefix fname_extension : string) : Cubemap :=
  let load face :=
    fst (Image_move_assign Image_default
           (Image_load (face_filename fname_prefix fname_extension face))) in
  {| face_pos_x := load FACE_POS_X;
     face_neg_x := load FACE_NEG_X;
     face_pos_y := load FACE_POS_Y;
     face_neg_y := load FACE_NEG_Y;
     face_pos_z := load FACE_POS_Z;
     face_neg_z := load FACE_NEG_Z |}.

(** The files that the constructor loads, in its order. *)
Definition Cubemap_files (fname_prefix fname_extension : string) : list string :=
  map (face_filename fname_prefix fname_extension)
    [FACE_POS_X; FACE_NEG_X; FACE_POS_Y; FACE_NEG_Y; FACE_POS_Z; FACE_NEG_Z].

(** [main]; [argv] holds the [argc] arguments, the name of the program
    first. [generate] starts with the allocation of [out_data], which the
    source places before the construction of the cubemap; the constructor
    does not depend on it. After the loops the run reaches the end of
    [main] without a [return]: it returns 0, whatever [stbi_write_bmp]
    returned. *)
Definition main (argv : list string) : ending :=
  match argv with
  | [_; fname_prefix; fname_extension; size] =>
      match stoi size with
      | None => Terminated
      | Some output_size =>
          let output_fname := output_filename fname_prefix in
          let input_cubemap := Cubemap_ctor fname_prefix fname_extension in
          match generate input_cubemap output_size with
          | Ok out_data =>
              Returns 0 (Cubemap_files fname_prefix fname_extension)
                [{| bmp_filename := output_fname;
                    bmp_w := output_size;
                    bmp_h := output_size;
                    bmp_comp := 4;
                    bmp_data := out_data |}]
          | AssertFail => AssertionFailed
          | Undefined => UndefinedBehaviour
          end
      end
  | _ => Returns 1 [] []
  end.

End Environment.

(** All six files of the cubemap are decoded, into images whose buffer
    holds [width * height] texels. *)
Definition all_decoded (stbi_load : string -> option Image)
  (fname_prefix fname_extension : string) : Prop :=
  forall face, 0 <= face <= 5 ->
    exists img,
      stbi_load (face_filename fname_prefix fname_extension face) = Some img /\
      valid_image img.

(** A run of [main] that returns 0 after it has loaded the six files of
    the cubemap and written one file, [fname_prefix + "_spheremap.bmp"],
    as an image of [n] by [n] pixels with 4 components, whose [n * n]
    colours are texels of the decoded images. *)
Definition writes_spheremap (FM : FloatModel)
  (stbi_load : string -> option Image) (unwritten : string -> Z * Z)
  (stoi : string -> option Z)
  (argv : list string) (fname_prefix fname_extension : string) (n : Z) : Prop :=
  exists buf,
    main (FM := FM) stbi_load unwritten stoi argv =
      Returns 0 (Cubemap_files fname_prefix fname_extension)
        [{| bmp_filename := output_filename fname_prefix;
            bmp_w := n; bmp_h := n; bmp_comp := 4; bmp_data := buf |}] /\
    Z.of_nat (List.length buf) = n * n /\
    forall c, In c buf ->
      exists face img,
        0 <= face <= 5 /\
        stbi_load (face_filename fname_prefix fname_extension face) = Some img /\
        In c (data img).

(** A run of [main] that does not return: an [assert] fails or the
    behaviour is undefined. *)
Definition crashes (e : ending) : Prop :=
  e = AssertionFailed \/ e = UndefinedBehaviour.

(** An environment for concrete runs: every file decodes to the 2x2
    image [test_image 10], except those named in [missing]; the sizes
    "2" and "8" are read, any other text makes [std::stoi] throw. *)
Definition test_load (missing : list string) (filename : string) : option Image :=
  if existsb (String.eqb filename) missing then None else Some (test_image 10).

(** After a failed load both dimensions read as 0. *)
Definition test_unwritten (filename : string) : Z * Z := (0, 0).

Definition test_stoi (str : string) : option Z :=
  if String.eqb str "2" then Some 2
  else if String.eqb str "8" then Some 8
  else None.

End Tool.

(** ** Infinite components, and faces of any [int] size *)

(** An infinity of either sign. *)
Definition is_infinite (f : spec_float) : bool :=
  match f with
  | S754_infinity _ => true
  | _ => false
  end.

(** The number of infinite components of a direction. *)
Definition infinite_components (x y z : spec_float) : Z :=
  Z.b2z (is_infinite x) + Z.b2z (is_infinite y) + Z.b2z (is_infinite z).

(** The largest dimension whose [float] is below [2^31]: from 2147483584
    on a dimension converts to [2^31]. *)
Definition max_float_dim : Z := 2147483583.

(** The dimensions of the faces convert to a [float] below [2^31]. *)
Definition float_sized_faces (cm : Cubemap) : Prop :=
  forall face img, faces cm face = Some img ->
    width img <= max_float_dim /\ height img <= max_float_dim.

(** A face of one column of 2147483584 texels, all of them 0. *)
Definition tall_image : Image :=
  {| width := 1;
     height := 2147483584;
     data := repeat 0 (Z.to_nat 2147483584) |}.

(** The test cubemap with the tall face as -X. *)
Definition tall_cubemap : Cubemap :=
  {| face_pos_x := test_image 10;
     face_neg_x := tall_image;
     face_pos_y := test_image 30;
     face_neg_y := test_image 40;
     face_pos_z := test_image 50;
     face_neg_z := test_image 60 |}.

(** ** Outcome inversion *)

Lemma bind_Ok {A B : Type} (c : outcome A) (k : A -> outcome B) (b : B) :
  bind c k = Ok b -> exists a, c = Ok a /\ k a = Ok b.
Proof.
  destruct c as [a | |]; simpl; intros H; try discriminate.
  exists a; split; [reflexivity | exact H].
Qed.

Lemma int_arith_Ok (z r : Z) :
  int_arith z = Ok r -> r = z /\ INT_MIN <= z <= INT_MAX.
Proof.
  unfold int_arith, in_int. intros H.
  destruct (INT_MIN <=? z) eqn:Hlo; destruct (z <=? INT_MAX) eqn:Hhi;
    simpl in H; try discriminate.
  inversion H; subst. apply Z.leb_le in Hlo. apply Z.leb_le in Hhi. lia.
Qed.

Lemma int_arith_in_range (z : Z) :
  INT_MIN <= z <= INT_MAX -> int_arith z = Ok z.
Proof.
  intros [Hlo Hhi]. unfold int_arith, in_int.
  apply Z.leb_le in Hlo. apply Z.leb_le in Hhi. rewrite Hlo, Hhi. reflexivity.
Qed.

Lemma in_int_true (z : Z) : in_int z = true <-> INT_MIN <= z <= INT_MAX.
Proof.
  unfold in_int. rewrite andb_true_iff, !Z.leb_le. tauto.
Qed.

(** ** Classification follows the specification's table (any arithmetic) *)

Section TexCoordsStructure.

Context {FM : FloatModel}.

Lemma is_largest_range (a0 a1 a2 : float) (i : Z) :
  is_largest a0 a1 a2 i -> i = 0 \/ i = 1 \/ i = 2.
Proof.
  destruct i as [ | p | p]; simpl; try contradiction; auto.
  destruct p as [p | p | ]; auto; destruct p; try contradiction; auto.
Qed.

(** The [if] chain selects the specification's major axis ... *)
Lemma select_major_axis_spec (a0 a1 a2 : float) (i : Z) :
  spec_major_axis a0 a1 a2 i -> select_major_axis a0 a1 a2 = Ok i.
Proof.
  intros [Hmax Hleast]. unfold select_major_axis.
  destruct (is_largest_range _ _ _ _ Hmax) as [-> | [-> | ->]].
  - destruct Hmax as [Ha Hb]. rewrite Ha, Hb. reflexivity.
  - destruct (fge a0 a1 && fge a0 a2) eqn:H0.
    + exfalso. apply andb_true_iff in H0. apply (Hleast 0); [lia | exact H0].
    + destruct Hmax as [Ha Hb]. rewrite Ha, Hb. reflexivity.
  - destruct (fge a0 a1 && fge a0 a2) eqn:H0.
    + exfalso. apply andb_true_iff in H0. apply (Hleast 0); [lia | exact H0].
    + destruct (fge a1 a0 && fge a1 a2) eqn:H1.
      * exfalso. apply andb_true_iff in H1. apply (Hleast 1); [lia | exact H1].
      * destruct Hmax as [Ha Hb]. rewrite Ha, Hb. reflexivity.
Qed.

(** ... and selects nothing else. *)
Lemma select_major_axis_range (a0 a1 a2 : float) (i : Z) :
  select_major_axis a0 a1 a2 = Ok i -> spec_major_axis a0 a1 a2 i.
Proof.
  unfold select_major_axis, spec_major_axis.
  destruct (fge a0 a1 && fge a0 a2) eqn:H0.
  - intros H; inversion H; subst. split.
    + apply andb_true_iff in H0. exact H0.
    + intros k Hk; lia.
  - destruct (fge a1 a0 && fge a1 a2) eqn:H1.
    + intros H; inversion H; subst. split.
      * apply andb_true_iff in H1. exact H1.
      * intros k Hk. assert (k = 0) by lia; subst k. simpl.
        intros [Ha Hb]. rewrite Ha, Hb in H0. discriminate.
    + destruct (fge a2 a0 && fge a2 a1) eqn:H2; [ | discriminate].
      intros H; inversion H; subst. split.
      * apply andb_true_iff in H2. exact H2.
      * intros k Hk. assert (k = 0 \/ k = 1) as [-> | ->] by lia; simpl;
          intros [Ha Hb].
        -- rewrite Ha, Hb in H0. discriminate.
        -- rewrite Ha, Hb in H1. discriminate.
Qed.

(** The run of [computeTexCoords] once the major axis is known: the
    divisor is the absolute value of the major component and the raw
    coordinates are components of the direction, up to sign. *)
Lemma computeTexCoords_run (x y z : float) (axis : Z) :
  select_major_axis (fabs x) (fabs y) (fabs z) = Ok axis ->
  0 <= axis <= 2 ->
  exists tmp_s tmp_t,
    project x y z (fabs x) (fabs y) (fabs z) (face_of_axis x y z axis) =
      Ok (tmp_s, tmp_t, fabs (index3 x y z axis)) /\
    In tmp_s [x; y; z; fneg x; fneg y; fneg z] /\
    In tmp_t [x; y; z; fneg x; fneg y; fneg z] /\
    0 <= face_of_axis x y z axis <= 5 /\
    computeTexCoords x y z =
      Ok (face_of_axis x y z axis,
          normalize tmp_s (fabs (index3 x y z axis)),
          normalize tmp_t (fabs (index3 x y z axis))).
Proof.
  intros Haxis Hrange. unfold computeTexCoords. rewrite Haxis. simpl bind.
  unfold face_of_axis.
  assert (axis = 0 \/ axis = 1 \/ axis = 2) as [-> | [-> | ->]] by lia;
    simpl index3; destruct (flt _ (of_int 0)); simpl;
    eexists; eexists; (split; [reflexivity | ]); simpl; intuition lia.
Qed.

(** C1. Whenever [axis] is the major axis in the specification's sense
    (a component of largest absolute value, the lowest-indexed one on a
    tie), [computeTexCoords] returns the face [2 * axis] for a
    non-negative and [2 * axis + 1] for a negative major component, and
    [s = 0.5 * (raw_s / m + 1)], [t = 0.5 * (raw_t / m + 1)] with the raw
    coordinates of the per-face table and [m] the absolute value of the
    major component. This holds in every arithmetic. *)
Theorem computeTexCoords_follows_table (x y z : float) (axis : Z) :
  spec_major_axis (fabs x) (fabs y) (fabs z) axis ->
  let v := index3 x y z axis in
  let m := fabs v in
  let face := spec_face v axis in
  computeTexCoords x y z =
    Ok (face,
        spec_coord (fst (spec_raw face x y z)) m,
        spec_coord (snd (spec_raw face x y z)) m).
Proof.
  intros Hspec v m face. unfold computeTexCoords.
  rewrite (select_major_axis_spec _ _ _ _ Hspec). simpl bind.
  destruct Hspec as [Hmax _].
  subst face m v. unfold face_of_axis, spec_face.
  destruct (is_largest_range _ _ _ _ Hmax) as [-> | [-> | ->]]; simpl index3;
    destruct (flt _ (of_int 0)); reflexivity.
Qed.

End TexCoordsStructure.

(** C1 at the direction [(1, -2, 2)] in single precision: [y] and [z] tie,
    the major axis is [y], the face is -Y. *)
Lemma computeTexCoords_follows_table_witness :
  let x := @of_int binary32 1 in
  let y := @of_int binary32 (-2) in
  let z := @of_int binary32 2 in
  spec_major_axis (fabs x) (fabs y) (fabs z) 1 /\
  computeTexCoords x y z =
    Ok (FACE_NEG_Y, spec_coord x (fabs y), spec_coord (fneg z) (fabs y)).
Proof.
  intros x y z.
  assert (H : spec_major_axis (fabs x) (fabs y) (fabs z) 1).
  { split.
    - split; vm_compute; reflexivity.
    - intros k Hk. assert (k = 0) by lia. subst k.
      intros [H _]. vm_compute in H. discriminate. }
  split; [exact H | ].
  exact (computeTexCoords_follows_table x y z 1 H).
Defined.

(** ** Comparisons and truncation in exact arithmetic *)

Module ExactFacts.

Import Exact.

Local Open Scope R_scope.

Lemma Rltb_true (a b : R) : Rltb a b = true <-> a < b.
Proof.
  unfold Rltb. destruct (Rlt_dec a b); split; intros; try discriminate; tauto.
Qed.

Lemma Rltb_false (a b : R) : Rltb a b = false <-> b <= a.
Proof.
  unfold Rltb. destruct (Rlt_dec a b); split; intros; try discriminate;
    try reflexivity; lra.
Qed.

Lemma Rgeb_true (a b : R) : Rgeb a b = true <-> b <= a.
Proof.
  unfold Rgeb. destruct (Rge_dec a b); split; intros; try discriminate;
    try reflexivity; lra.
Qed.

Lemma Rgeb_false (a b : R) : Rgeb a b = false <-> a < b.
Proof.
  unfold Rgeb. destruct (Rge_dec a b); split; intros; try discriminate;
    try reflexivity; lra.
Qed.

(** [Int_part] is the floor. *)
Lemma Int_part_bounds (r : R) : IZR (Int_part r) <= r < IZR (Int_part r) + 1.
Proof.
  destruct (base_Int_part r) as [H1 H2]. lra.
Qed.

Lemma Int_part_unique (r : R) (z : Z) : IZR z <= r < IZR z + 1 -> Int_part r = z.
Proof.
  intros H. symmetry. apply Int_part_spec. lra.
Qed.

(** Truncation agrees with the floor on non-negative values. *)
Lemma Rtrunc_nonneg (r : R) : 0 <= r -> Rtrunc r = Int_part r.
Proof.
  intros H. unfold Rtrunc. destruct (Rle_dec 0 r); [reflexivity | contradiction].
Qed.

End ExactFacts.

(** ** Classification in exact arithmetic *)

Module ExactTexCoords.

Import Exact ExactFacts.

Local Open Scope R_scope.

(** The order on the reals is total, so some axis is always a largest one. *)
Lemma exact_major_axis_exists (a0 a1 a2 : R) :
  exists axis, spec_major_axis (FM := exact) a0 a1 a2 axis.
Proof.
  unfold spec_major_axis.
  destruct (Rle_dec a1 a0) as [H10 | H10]; destruct (Rle_dec a2 a0) as [H20 | H20].
  - exists 0%Z. split.
    + simpl. rewrite !Rgeb_true. lra.
    + intros k Hk. lia.
  - exists 2%Z. split.
    + simpl. rewrite !Rgeb_true. lra.
    + intros k Hk. assert (k = 0 \/ k = 1)%Z as [-> | ->] by lia; simpl;
        rewrite !Rgeb_true; lra.
  - destruct (Rle_dec a2 a1) as [H21 | H21].
    + exists 1%Z. split.
      * simpl. rewrite !Rgeb_true. lra.
      * intros k Hk. assert (k = 0)%Z by lia. subst k. simpl.
        rewrite !Rgeb_true. lra.
    + exists 2%Z. split.
      * simpl. rewrite !Rgeb_true. lra.
      * intros k Hk. assert (k = 0 \/ k = 1)%Z as [-> | ->] by lia; simpl;
          rewrite !Rgeb_true; lra.
  - destruct (Rle_dec a2 a1) as [H21 | H21].
    + exists 1%Z. split.
      * simpl. rewrite !Rgeb_true. lra.
      * intros k Hk. assert (k = 0)%Z by lia. subst k. simpl.
        rewrite !Rgeb_true. lra.
    + exists 2%Z. split.
      * simpl. rewrite !Rgeb_true. lra.
      * intros k Hk. assert (k = 0 \/ k = 1)%Z as [-> | ->] by lia; simpl;
          rewrite !Rgeb_true; lra.
Qed.

(** A largest absolute value bounds the other two. *)
Lemma is_largest_bounds (x y z : R) (axis : Z) :
  is_largest (FM := exact) (Rabs x) (Rabs y) (Rabs z) axis ->
  let m := Rabs (index3 (FM := exact) x y z axis) in
  Rabs x <= m /\ Rabs y <= m /\ Rabs z <= m.
Proof.
  intros Hmax.
  destruct (is_largest_range _ _ _ _ Hmax) as [-> | [-> | ->]];
    simpl in *; rewrite !Rgeb_true in Hmax; lra.
Qed.

(** The divisor is positive as soon as one component is not zero. *)
Lemma major_abs_pos (x y z : R) (axis : Z) :
  is_largest (FM := exact) (Rabs x) (Rabs y) (Rabs z) axis ->
  x <> 0 \/ y <> 0 \/ z <> 0 ->
  0 < Rabs (index3 (FM := exact) x y z axis).
Proof.
  intros Hmax Hnz. destruct (is_largest_bounds x y z axis Hmax) as (Hx & Hy & Hz).
  destruct Hnz as [H | [H | H]]; apply Rabs_pos_lt in H; lra.
Qed.

Lemma Rabs_le_both (a b : R) : Rabs a <= b -> - b <= a <= b.
Proof.
  unfold Rabs. destruct (Rcase_abs a); lra.
Qed.

(** [0.5 * (raw / m + 1)] lies in [[0, 1]] when [|raw| <= m] and [0 < m]. *)
Lemma spec_coord_range (raw m : R) :
  0 < m -> Rabs raw <= m ->
  0 <= spec_coord (FM := exact) raw m <= 1.
Proof.
  intros Hm Hraw. unfold spec_coord. simpl.
  assert (Hq : -1 <= raw / m <= 1).
  { apply Rabs_le_both in Hraw. split.
    - apply Rmult_le_reg_r with m; [exact Hm | ].
      unfold Rdiv. rewrite Rmult_assoc, Rinv_l by lra. lra.
    - apply Rmult_le_reg_r with m; [exact Hm | ].
      unfold Rdiv. rewrite Rmult_assoc, Rinv_l by lra. lra. }
  lra.
Qed.

(** Classification is total on non-zero vectors and lands in the unit square. *)
Lemma computeTexCoords_exact (x y z : R) :
  x <> 0 \/ y <> 0 \/ z <> 0 ->
  exists (axis face : Z) (s t : R),
    select_major_axis (FM := exact) (Rabs x) (Rabs y) (Rabs z) = Ok axis /\
    (0 <= axis <= 2)%Z /\
    face = face_of_axis (FM := exact) x y z axis /\
    (0 <= face <= 5)%Z /\
    0 < Rabs (index3 (FM := exact) x y z axis) /\
    computeTexCoords (FM := exact) x y z = Ok (face, s, t) /\
    0 <= s <= 1 /\ 0 <= t <= 1.
Proof.
  intros Hnz.
  destruct (exact_major_axis_exists (Rabs x) (Rabs y) (Rabs z)) as [axis Hspec].
  pose proof (select_major_axis_spec _ _ _ _ Hspec) as Haxis.
  destruct Hspec as [Hmax _].
  pose proof (major_abs_pos x y z axis Hmax Hnz) as Hm.
  destruct (is_largest_bounds x y z axis Hmax) as (Hx & Hy & Hz).
  assert (Hrange : (0 <= axis <= 2)%Z)
    by (destruct (is_largest_range _ _ _ _ Hmax) as [-> | [-> | ->]]; lia).
  destruct (computeTexCoords_run (FM := exact) x y z axis Haxis Hrange)
    as (tmp_s & tmp_t & _ & Hins & Hint & Hface & Hrun).
  set (m := Rabs (index3 (FM := exact) x y z axis)) in *.
  assert (Hbound : forall f, In f [x; y; z; - x; - y; - z] -> Rabs f <= m).
  { intros f Hin. simpl in Hin.
    destruct Hin as [<- | [<- | [<- | [<- | [<- | [<- | []]]]]]];
      rewrite ?Rabs_Ropp; assumption. }
  exists axis, (face_of_axis (FM := exact) x y z axis),
    (normalize (FM := exact) tmp_s m), (normalize (FM := exact) tmp_t m).
  split; [exact Haxis | ]. split; [exact Hrange | ]. split; [reflexivity | ].
  split; [exact Hface | ]. split; [exact Hm | ]. split; [exact Hrun | ].
  split; apply spec_coord_range; auto.
Qed.

End ExactTexCoords.

(** ** Sampling in exact arithmetic *)

Module ExactSampling.

Import Exact ExactFacts.

(** [texel_index] truncates toward zero and clamps from above. *)
Lemma texel_index_trunc (c : R) (dim : Z) :
  positive_dim dim ->
  INT_MIN <= Rtrunc (c * IZR dim) <= INT_MAX ->
  texel_index (FM := exact) c dim = Ok (Z.min (Rtrunc (c * IZR dim)) (dim - 1)).
Proof.
  intros [Hpos Hmax] Hrange. unfold texel_index, cast_int. simpl.
  unfold R_to_int. apply in_int_true in Hrange. rewrite Hrange. simpl.
  rewrite int_arith_in_range; [reflexivity | ].
  unfold INT_MIN, INT_MAX in *. lia.
Qed.

(** On a non-negative coordinate the truncation is the floor. *)
Lemma texel_index_floor (c : R) (dim : Z) :
  positive_dim dim ->
  (0 <= c)%R ->
  Int_part (c * IZR dim) <= INT_MAX ->
  texel_index (FM := exact) c dim = Ok (spec_texel c dim).
Proof.
  intros Hdim Hc Hmax.
  assert (Hprod : (0 <= c * IZR dim)%R).
  { apply Rmult_le_pos; [exact Hc | ]. apply IZR_le. destruct Hdim. lia. }
  assert (Hfloor : 0 <= Int_part (c * IZR dim)).
  { destruct (Z_lt_le_dec (Int_part (c * IZR dim)) 0) as [Hneg | ]; [ | lia].
    exfalso. pose proof (Int_part_bounds (c * IZR dim)) as [_ Hup].
    assert (Int_part (c * IZR dim) + 1 <= 0) as Hle by lia.
    apply IZR_le in Hle. rewrite plus_IZR in Hle. simpl in Hle. lra. }
  rewrite texel_index_trunc.
  - rewrite Rtrunc_nonneg by exact Hprod. reflexivity.
  - exact Hdim.
  - rewrite Rtrunc_nonneg by exact Hprod. unfold INT_MIN. lia.
Qed.

(** A coordinate in the unit interval indexes a texel of the face. *)
Lemma texel_index_unit (c : R) (dim : Z) :
  positive_dim dim ->
  (0 <= c <= 1)%R ->
  exists i, texel_index (FM := exact) c dim = Ok i /\ 0 <= i < dim.
Proof.
  intros Hdim [Hc0 Hc1].
  assert (Hd : (0 < IZR dim)%R) by (apply IZR_lt; destruct Hdim; lia).
  assert (Hprod : (0 <= c * IZR dim <= IZR dim)%R) by nra.
  pose proof (Int_part_bounds (c * IZR dim)) as [Hlo Hup].
  assert (Hfl : 0 <= Int_part (c * IZR dim) <= dim).
  { split.
    - destruct (Z_lt_le_dec (Int_part (c * IZR dim)) 0) as [Hneg | ]; [ | lia].
      exfalso. assert (Int_part (c * IZR dim) + 1 <= 0) as Hle by lia.
      apply IZR_le in Hle. rewrite plus_IZR in Hle. simpl in Hle. lra.
    - apply le_IZR. lra. }
  exists (spec_texel c dim). split.
  - apply texel_index_floor; [exact Hdim | exact Hc0 | destruct Hdim; lia].
  - unfold spec_texel. destruct Hdim. lia.
Qed.

(** The centre of texel [x] is sent back to [x]. *)
Lemma texel_index_centre (x dim : Z) :
  positive_dim dim -> 0 <= x < dim ->
  texel_index (FM := exact) (unlerp (FM := exact) x dim) dim = Ok x.
Proof.
  intros Hdim Hx.
  assert (Hd : (0 < IZR dim)%R) by (apply IZR_lt; destruct Hdim; lia).
  assert (Hx0 : (0 <= IZR x)%R) by (apply IZR_le; lia).
  assert (Hprod : (unlerp (FM := exact) x dim * IZR dim = IZR x + / 2)%R).
  { unfold unlerp. simpl. field. lra. }
  assert (Hfloor : Int_part (unlerp (FM := exact) x dim * IZR dim) = x).
  { rewrite Hprod. apply Int_part_unique. lra. }
  rewrite texel_index_floor.
  - unfold spec_texel. rewrite Hfloor. f_equal. lia.
  - exact Hdim.
  - unfold unlerp. simpl. apply Rmult_le_pos; [lra | ].
    apply Rlt_le, Rinv_0_lt_compat, Hd.
  - rewrite Hfloor. destruct Hdim. lia.
Qed.

End ExactSampling.

(** ** Texel reads *)

Lemma valid_image_dims (img : Image) :
  valid_image img -> positive_dim (width img) /\ positive_dim (height img).
Proof.
  intros (Hw & Hh & Hsize & _). unfold positive_dim. split; nia.
Qed.

Lemma faces_Some_range (cm : Cubemap) (face : Z) (img : Image) :
  faces cm face = Some img -> 0 <= face < NUM_FACES.
Proof.
  unfold faces, NUM_FACES.
  destruct face as [ | p | p]; try discriminate; [lia | ].
  do 3 (destruct p as [p | p | ]; try discriminate; try lia).
Qed.

Lemma read_u32_Ok (buf : list u32) (i : Z) (c : u32) :
  read_u32 buf i = Ok c <-> 0 <= i /\ nth_error buf (Z.to_nat i) = Some c.
Proof.
  unfold read_u32. destruct (i <? 0) eqn:Hneg.
  - apply Z.ltb_lt in Hneg. split; [discriminate | lia].
  - apply Z.ltb_ge in Hneg. destruct (nth_error buf (Z.to_nat i)) as [c' | ].
    + split.
      * intros H; inversion H; subst. auto.
      * intros [_ H]. inversion H. reflexivity.
    + split; [discriminate | intros [_ H]; discriminate].
Qed.

(** Inside a decoded face every texel read succeeds. *)
Lemma readTexel_in_bounds (cm : Cubemap) (face x y : Z) (img : Image) :
  faces cm face = Some img -> valid_image img ->
  0 <= x < width img -> 0 <= y < height img ->
  exists c, readTexel cm face x y = Ok c /\
            nth_error (data img) (Z.to_nat (y * width img + x)) = Some c.
Proof.
  intros Hface (Hw & Hh & Hsize & Hlen) Hx Hy.
  pose proof (faces_Some_range cm face img Hface) as Hrange.
  assert (Hidx : 0 <= y * width img + x < width img * height img) by nia.
  destruct (nth_error (data img) (Z.to_nat (y * width img + x))) as [c | ] eqn:Hnth.
  - exists c. split; [ | reflexivity].
    unfold readTexel, c_assert.
    replace (face <? NUM_FACES) with true by (symmetry; apply Z.ltb_lt; lia).
    simpl. rewrite Hface.
    replace (x <? width img) with true by (symmetry; apply Z.ltb_lt; lia).
    replace (y <? height img) with true by (symmetry; apply Z.ltb_lt; lia).
    simpl.
    rewrite int_arith_in_range by (unfold INT_MIN, INT_MAX in *; nia). simpl.
    rewrite int_arith_in_range by (unfold INT_MIN, INT_MAX in *; nia). simpl.
    apply read_u32_Ok. split; [lia | exact Hnth].
  - exfalso. apply nth_error_None in Hnth. lia.
Qed.

Lemma test_cubemap_valid : valid_cubemap test_cubemap.
Proof.
  intros face img Hface.
  pose proof (faces_Some_range _ _ _ Hface) as Hrange. unfold NUM_FACES in Hrange.
  assert (face = 0 \/ face = 1 \/ face = 2 \/ face = 3 \/ face = 4 \/ face = 5)
    as Hcases by lia.
  destruct Hcases as [-> | [-> | [-> | [-> | [-> | ->]]]]];
    inversion Hface; subst; unfold valid_image, INT_MAX; simpl; lia.
Qed.

(** ** [readTexel]: the precondition checks *)

(** The asserts fire exactly on an invalid face identifier and on a
    coordinate at or above the dimension: no lower bound is checked. *)
Lemma readTexel_asserts_upper_bounds_only (cm : Cubemap) (face x y : Z) :
  readTexel cm face x y = AssertFail <->
  NUM_FACES <= face \/
  exists img, faces cm face = Some img /\ (width img <= x \/ height img <= y).
Proof.
  unfold readTexel, c_assert.
  destruct (face <? NUM_FACES) eqn:Hface; simpl.
  - apply Z.ltb_lt in Hface.
    destruct (faces cm face) as [img | ] eqn:Himg.
    + destruct (x <? width img) eqn:Hx; simpl.
      * apply Z.ltb_lt in Hx. destruct (y <? height img) eqn:Hy; simpl.
        -- apply Z.ltb_lt in Hy. split.
           ++ unfold int_arith, read_u32.
              destruct (in_int (y * width img)); simpl; [ | discriminate].
              destruct (in_int (y * width img + x)); simpl; [ | discriminate].
              destruct (y * width img + x <? 0); [discriminate | ].
              destruct (nth_error _ _); discriminate.
           ++ intros [H | (img' & Himg' & H)]; [lia | ].
              inversion Himg'; subst img'. lia.
        -- apply Z.ltb_ge in Hy. split; [ | reflexivity].
           intros _. right. exists img. split; [reflexivity | lia].
      * apply Z.ltb_ge in Hx. split; [ | reflexivity].
        intros _. right. exists img. split; [reflexivity | lia].
    + split; [discriminate | ].
      intros [H | (img' & Himg' & _)]; [lia | discriminate].
  - apply Z.ltb_ge in Hface. split; [ | reflexivity]. intros _. left. exact Hface.
Qed.

(** C8. [readTexel(FACE_POS_X, -1, 1)] on a 2x2 face violates
    [0 <= x], yet both asserts pass and the call returns the texel
    [(1, 0)] of the image; with [y = -1] the read leaves the buffer. Only
    the upper bounds are asserted. *)
Theorem readTexel_negative_coordinate_not_caught :
  readTexel test_cubemap FACE_POS_X (-1) 1 = Ok 11 /\
  readTexel test_cubemap FACE_POS_X 1 0 = Ok 11 /\
  readTexel test_cubemap FACE_POS_X 0 (-1) = Undefined /\
  readTexel test_cubemap FACE_POS_X 2 0 = AssertFail /\
  readTexel test_cubemap FACE_POS_X 0 2 = AssertFail /\
  readTexel test_cubemap NUM_FACES 0 0 = AssertFail.
Proof.
  repeat split; vm_compute; reflexivity.
Qed.

(** ** [sampleFace] against the specification's formula *)

Module SampleFaceExact.

Import Exact ExactFacts ExactSampling.

Lemma Rtrunc_minus_half : Rtrunc (- / 4 * IZR 2) = 0.
Proof.
  unfold Rtrunc. destruct (Rle_dec 0 (- / 4 * 2)) as [H | H]; [exfalso; lra | ].
  replace (- (- / 4 * 2))%R with (/ 2)%R by field.
  rewrite (Int_part_unique (/ 2) 0); [reflexivity | simpl; lra].
Qed.

Lemma floor_minus_half : Int_part (- / 4 * IZR 2) = -1.
Proof. apply Int_part_unique. simpl. lra. Qed.

Lemma floor_three_halves : Int_part (3 / 4 * IZR 2) = 1.
Proof. apply Int_part_unique. simpl. lra. Qed.

(** C3, as stated, fails: at [s = -1/4], [t = 3/4] on a 2x2 face the
    conversion to [int] truncates [-1/2] to [0] and the texel [(0, 1)] is
    read (12), in single precision as in exact arithmetic, where the floor
    is [-1] and [ReadTexel(face, -1, 1)] is another texel (11). *)
Lemma sampleFace_is_not_floor_for_negative_s :
  sampleFace (FM := binary32) test_cubemap FACE_POS_X
    (fneg (fdiv (of_int 1) (of_int 4))) (fdiv (of_int 3) (of_int 4)) = Ok 12 /\
  sampleFace (FM := exact) test_cubemap FACE_POS_X (- / 4)%R (3 / 4)%R = Ok 12 /\
  readTexel test_cubemap FACE_POS_X
    (spec_texel (- / 4) (width (test_image 10)))
    (spec_texel (3 / 4) (height (test_image 10))) = Ok 11 /\
  sampleFace (FM := exact) test_cubemap FACE_POS_X (- / 4)%R (3 / 4)%R <>
  readTexel test_cubemap FACE_POS_X
    (spec_texel (- / 4) (width (test_image 10)))
    (spec_texel (3 / 4) (height (test_image 10))).
Proof.
  assert (Hdim : positive_dim 2) by (unfold positive_dim, INT_MAX; lia).
  assert (Hleft : sampleFace (FM := exact) test_cubemap FACE_POS_X (- / 4)%R (3 / 4)%R = Ok 12).
  { unfold sampleFace. simpl faces. cbv beta iota. simpl width. simpl height.
    rewrite (texel_index_trunc (- / 4) 2 Hdim)
      by (rewrite Rtrunc_minus_half; unfold INT_MIN, INT_MAX; lia).
    rewrite (texel_index_floor (3 / 4) 2 Hdim)
      by (try lra; rewrite floor_three_halves; unfold INT_MAX; lia).
    unfold spec_texel. rewrite Rtrunc_minus_half, floor_three_halves.
    vm_compute. reflexivity. }
  assert (Hright : readTexel test_cubemap FACE_POS_X
    (spec_texel (- / 4) (width (test_image 10)))
    (spec_texel (3 / 4) (height (test_image 10))) = Ok 11).
  { unfold spec_texel. simpl width. simpl height.
    rewrite floor_minus_half, floor_three_halves. vm_compute. reflexivity. }
  split; [vm_compute; reflexivity | ].
  split; [exact Hleft | ]. split; [exact Hright | ].
  rewrite Hleft, Hright. discriminate.
Qed.



(** In exact arithmetic, for a face with positive dimensions and coordinates
    whose products with the dimensions truncate to an [int], [sampleFace]
    returns [readTexel] at [min(trunc(s * width), width - 1)] and
    [min(trunc(t * height), height - 1)], [trunc] rounding toward zero;
    for [s, t >= 0] these are the floors the specification writes. *)
Lemma truncates_exact (cm : Cubemap) (face : Z) (img : Image) (s t : R) :
  faces cm face = Some img ->
  positive_dim (width img) -> positive_dim (height img) ->
  INT_MIN <= Rtrunc (s * IZR (width img)) <= INT_MAX ->
  INT_MIN <= Rtrunc (t * IZR (height img)) <= INT_MAX ->
  sampleFace (FM := exact) cm face s t =
    readTexel cm face
      (Z.min (Rtrunc (s * IZR (width img))) (width img - 1))
      (Z.min (Rtrunc (t * IZR (height img))) (height img - 1)) /\
  ((0 <= s)%R -> (0 <= t)%R ->
   sampleFace (FM := exact) cm face s t =
     readTexel cm face (spec_texel s (width img)) (spec_texel t (height img))).
Proof.
  intros Hface Hw Hh Hs Ht.
  assert (Hrun : sampleFace (FM := exact) cm face s t =
    readTexel cm face
      (Z.min (Rtrunc (s * IZR (width img))) (width img - 1))
      (Z.min (Rtrunc (t * IZR (height img))) (height img - 1))).
  { unfold sampleFace. rewrite Hface.
    rewrite (texel_index_trunc s _ Hw Hs), (texel_index_trunc t _ Hh Ht).
    reflexivity. }
  split; [exact Hrun | ].
  intros Hs0 Ht0. rewrite Hrun. unfold spec_texel.
  rewrite !Rtrunc_nonneg; [reflexivity | | ].
  - apply Rmult_le_pos; [exact Ht0 | ]. apply IZR_le. destruct Hh. lia.
  - apply Rmult_le_pos; [exact Hs0 | ]. apply IZR_le. destruct Hw. lia.
Qed.

(** In exact arithmetic, sampling a face at the centre
    [((x + 0.5) / width, (y + 0.5) / height)] of the texel [(x, y)] reads
    [readTexel(face, x, y)]. *)
Lemma texel_centre_exact (cm : Cubemap) (face : Z) (img : Image) (x y : Z) :
  faces cm face = Some img ->
  positive_dim (width img) -> positive_dim (height img) ->
  0 <= x < width img -> 0 <= y < height img ->
  sampleFace (FM := exact) cm face
    ((IZR x + / 2) / IZR (width img))%R ((IZR y + / 2) / IZR (height img))%R =
  readTexel cm face x y.
Proof.
  intros Hface Hw Hh Hx Hy. unfold sampleFace. rewrite Hface.
  change ((IZR x + / 2) / IZR (width img))%R with (unlerp (FM := exact) x (width img)).
  change ((IZR y + / 2) / IZR (height img))%R with (unlerp (FM := exact) y (height img)).
  rewrite (texel_index_centre x _ Hw Hx), (texel_index_centre y _ Hh Hy).
  reflexivity.
Qed.

End SampleFaceExact.

(** ** The six canonical directions *)

Module Canonical.

Import Exact ExactFacts.

Ltac eval_Rabs :=
  repeat match goal with
         | |- context [Rabs ?a] =>
             first [ rewrite (Rabs_pos_eq a) by lra
                   | rewrite (Rabs_left1 a) by lra ]
         end.

Ltac eval_Rcmp :=
  repeat match goal with
         | |- context [Rgeb ?a ?b] =>
             first [ rewrite (proj2 (Rgeb_true a b)) by lra
                   | rewrite (proj2 (Rgeb_false a b)) by lra ]
         | |- context [Rltb ?a ?b] =>
             first [ rewrite (proj2 (Rltb_true a b)) by lra
                   | rewrite (proj2 (Rltb_false a b)) by lra ]
         end.

Ltac run_exact :=
  unfold computeTexCoords, select_major_axis, face_of_axis, project, normalize;
  simpl; eval_Rabs; eval_Rcmp; simpl; eval_Rcmp; simpl.

Lemma exact_centred : canonical_directions_centred exact.
Proof.
  unfold canonical_directions_centred.
  repeat split; run_exact; unfold FACE_POS_X, FACE_NEG_X, FACE_POS_Y,
    FACE_NEG_Y, FACE_POS_Z, FACE_NEG_Z; repeat f_equal; field.
Qed.

Lemma binary32_centred : canonical_directions_centred binary32.
Proof.
  unfold canonical_directions_centred. repeat split; vm_compute; reflexivity.
Qed.

End Canonical.

(** C6. For the six directions [(1,0,0)], [(-1,0,0)], [(0,1,0)],
    [(0,-1,0)], [(0,0,1)] and [(0,0,-1)],
    [computeTexCoords] selects +X, -X, +Y, -Y, +Z, -Z respectively and
    returns [(s, t) = (0.5, 0.5)], in single precision and in exact
    arithmetic. *)
Theorem canonical_directions :
  canonical_directions_centred binary32 /\ canonical_directions_centred exact.
Proof.
  split; [exact Canonical.binary32_centred | exact Canonical.exact_centred].
Qed.

(** ** The per-pixel mapping in exact arithmetic *)

Lemma valid_cubemap_positive (cm : Cubemap) :
  valid_cubemap cm -> positive_faces cm.
Proof.
  intros Hvalid face img Hface. apply valid_image_dims. exact (Hvalid face img Hface).
Qed.

Lemma faces_in_range (cm : Cubemap) (face : Z) :
  0 <= face <= 5 -> exists img, faces cm face = Some img.
Proof.
  intros Hrange.
  assert (face = 0 \/ face = 1 \/ face = 2 \/ face = 3 \/ face = 4 \/ face = 5)
    as Hcases by lia.
  destruct Hcases as [-> | [-> | [-> | [-> | [-> | ->]]]]]; simpl; eauto.
Qed.

Module ExactPixel.

Import Exact ExactFacts ExactTexCoords ExactSampling.

Local Open Scope R_scope.

(** Both branches of the mapping give a direction that is not the zero
    vector, whatever [s] and [t] are. *)
Lemma pixel_direction_nonzero (s t : R) :
  forall vx vy vz, pixel_direction (FM := exact) s t = (vx, vy, vz) ->
  vx <> 0 \/ vy <> 0 \/ vz <> 0.
Proof.
  intros vx vy vz. unfold pixel_direction.
  destruct (flt (rev_p (FM := exact) s t) (of_int 0)) eqn:Hneg.
  - intros H. inversion H; subst. right; right. simpl. lra.
  - simpl in Hneg. apply Rltb_false in Hneg.
    intros H. inversion H as [[Hx Hy Hz]]. clear H.
    unfold rev_p, paraboloid in *. simpl in *.
    set (q := s - s * s + t - t * t) in *.
    destruct (Req_dec (8 * q - 3) 0) as [Hq | Hq]; [ | right; right; exact Hq].
    assert (Hrev : 16 * q - 4 = 2) by lra.
    rewrite Hrev.
    assert (Hroot : 0 < sqrt 2) by (apply sqrt_lt_R0; lra).
    destruct (Req_dec (2 * s - 1) 0) as [Hs | Hs].
    + destruct (Req_dec (2 * t - 1) 0) as [Ht | Ht].
      * exfalso. assert (s = / 2) by lra. assert (t = / 2) by lra.
        subst s t. unfold q in Hq. lra.
      * right; left. apply Rmult_integral_contrapositive. split; lra.
    + left. apply Rmult_integral_contrapositive. split; lra.
Qed.

(** The colour of an output pixel is a texel read inside a face. *)
Lemma pixel_color_in_face (cm : Cubemap) (output_size x y : Z) :
  positive_faces cm ->
  exists (face tx ty : Z) (img : Image),
    faces cm face = Some img /\
    (0 <= face <= 5)%Z /\
    (0 <= tx < width img)%Z /\ (0 <= ty < height img)%Z /\
    pixel_color (FM := exact) cm output_size x y = readTexel cm face tx ty.
Proof.
  intros Hpos. unfold pixel_color.
  destruct (pixel_direction (FM := exact)
              (unlerp (FM := exact) x output_size)
              (unlerp (FM := exact) y output_size)) as [[vx vy] vz] eqn:Hdir.
  pose proof (pixel_direction_nonzero _ _ _ _ _ Hdir) as Hnz.
  destruct (computeTexCoords_exact vx vy vz Hnz)
    as (axis & face & s & t & _ & _ & _ & Hface & _ & Hrun & Hs & Ht).
  destruct (faces_in_range cm face Hface) as [img Himg].
  destruct (Hpos face img Himg) as [Hw Hh].
  destruct (texel_index_unit s _ Hw Hs) as (tx & Htx & Hxr).
  destruct (texel_index_unit t _ Hh Ht) as (ty & Hty & Hyr).
  exists face, tx, ty, img.
  repeat split; try lia; try assumption.
  rewrite Hrun. simpl. unfold sampleFace. rewrite Himg, Htx, Hty. reflexivity.
Qed.

(** On a decoded cubemap every pixel receives a texel of one of the faces. *)
Lemma pixel_color_total (cm : Cubemap) (output_size x y : Z) :
  valid_cubemap cm ->
  exists (c : u32) (face tx ty : Z) (img : Image),
    pixel_color (FM := exact) cm output_size x y = Ok c /\
    faces cm face = Some img /\
    (0 <= tx < width img)%Z /\ (0 <= ty < height img)%Z /\
    readTexel cm face tx ty = Ok c.
Proof.
  intros Hvalid.
  destruct (pixel_color_in_face cm output_size x y (valid_cubemap_positive cm Hvalid))
    as (face & tx & ty & img & Himg & _ & Hx & Hy & Hrun).
  destruct (readTexel_in_bounds cm face tx ty img Himg (Hvalid face img Himg) Hx Hy)
    as (c & Hread & _).
  exists c, face, tx, ty, img. rewrite Hrun. tauto.
Qed.

End ExactPixel.

(** ** The output buffer *)

Lemma store_nat_length (buf : list u32) (i : nat) (c : u32) (buf' : list u32) :
  store_nat buf i c = Some buf' -> length buf' = length buf.
Proof.
  revert i buf'. induction buf as [ | b rest IH]; intros i buf' H.
  - destruct i; discriminate.
  - destruct i as [ | i']; simpl in H.
    + inversion H; subst. reflexivity.
    + destruct (store_nat rest i' c) as [rest' | ] eqn:Hrest; [ | discriminate].
      inversion H; subst. simpl. f_equal. exact (IH i' rest' Hrest).
Qed.

Lemma store_nat_same (buf : list u32) (i : nat) (c : u32) (buf' : list u32) :
  store_nat buf i c = Some buf' -> nth_error buf' i = Some c.
Proof.
  revert i buf'. induction buf as [ | b rest IH]; intros i buf' H.
  - destruct i; discriminate.
  - destruct i as [ | i']; simpl in H.
    + inversion H; subst. reflexivity.
    + destruct (store_nat rest i' c) as [rest' | ] eqn:Hrest; [ | discriminate].
      inversion H; subst. simpl. exact (IH i' rest' Hrest).
Qed.

Lemma store_nat_other (buf : list u32) (i j : nat) (c : u32) (buf' : list u32) :
  store_nat buf i c = Some buf' -> j <> i -> nth_error buf' j = nth_error buf j.
Proof.
  revert i j buf'. induction buf as [ | b rest IH]; intros i j buf' H Hne.
  - destruct i; discriminate.
  - destruct i as [ | i']; simpl in H.
    + inversion H; subst. destruct j; [contradiction | reflexivity].
    + destruct (store_nat rest i' c) as [rest' | ] eqn:Hrest; [ | discriminate].
      inversion H; subst. destruct j as [ | j']; [reflexivity | ].
      simpl. apply (IH i' j' rest' Hrest). intros Heq; apply Hne; now f_equal.
Qed.

Lemma store_nat_in_bounds (buf : list u32) (i : nat) (c : u32) :
  (i < length buf)%nat -> exists buf', store_nat buf i c = Some buf'.
Proof.
  revert i. induction buf as [ | b rest IH]; intros i Hi; simpl in Hi.
  - lia.
  - destruct i as [ | i']; simpl.
    + eauto.
    + destruct (IH i') as [rest' Hrest]; [lia | ]. rewrite Hrest. eauto.
Qed.

Lemma store_u32_Ok (buf : list u32) (i : Z) (c : u32) (buf' : list u32) :
  store_u32 buf i c = Ok buf' ->
  0 <= i /\ length buf' = length buf /\
  nth_error buf' (Z.to_nat i) = Some c /\
  forall j, j <> Z.to_nat i -> nth_error buf' j = nth_error buf j.
Proof.
  unfold store_u32. destruct (i <? 0) eqn:Hneg; [discriminate | ].
  apply Z.ltb_ge in Hneg.
  destruct (store_nat buf (Z.to_nat i) c) as [b | ] eqn:Hstore; [ | discriminate].
  intros H; inversion H; subst. split; [exact Hneg | ].
  split; [exact (store_nat_length _ _ _ _ Hstore) | ].
  split; [exact (store_nat_same _ _ _ _ Hstore) | ].
  intros j Hj. exact (store_nat_other _ _ _ _ _ Hstore Hj).
Qed.

Lemma store_u32_in_bounds (buf : list u32) (i : Z) (c : u32) :
  0 <= i < Z.of_nat (length buf) -> exists buf', store_u32 buf i c = Ok buf'.
Proof.
  intros Hi. unfold store_u32.
  replace (i <? 0) with false by (symmetry; apply Z.ltb_ge; lia).
  destruct (store_nat_in_bounds buf (Z.to_nat i) c) as [buf' Hstore]; [lia | ].
  rewrite Hstore. eauto.
Qed.

(** ** Counted loops *)

Section Loops.

Context {S : Type}.
Variable body : Z -> S -> outcome S.
(** The loop invariant, indexed by the next value of the counter. *)
Variable inv : Z -> S -> Prop.

Lemma for_up_invariant (n : nat) (i : Z) (st st' : S) :
  (forall j s s', i <= j < i + Z.of_nat n -> inv j s -> body j s = Ok s' -> inv (j + 1) s') ->
  inv i st ->
  for_up n i body st = Ok st' ->
  inv (i + Z.of_nat n) st'.
Proof.
  revert i st. induction n as [ | n IH]; intros i st Hstep Hinit Hrun.
  - simpl in Hrun. inversion Hrun; subst. replace (i + Z.of_nat 0) with i by lia.
    exact Hinit.
  - simpl in Hrun. apply bind_Ok in Hrun. destruct Hrun as (st1 & Hbody & Hrest).
    replace (i + Z.of_nat (Datatypes.S n)) with ((i + 1) + Z.of_nat n) by lia.
    apply (IH (i + 1) st1).
    + intros j s s' Hj. apply Hstep. lia.
    + apply (Hstep i st st1); [lia | exact Hinit | exact Hbody].
    + exact Hrest.
Qed.

Lemma for_up_runs (n : nat) (i : Z) (st : S) :
  (forall j s, i <= j < i + Z.of_nat n -> inv j s ->
     exists s', body j s = Ok s' /\ inv (j + 1) s') ->
  inv i st ->
  exists st', for_up n i body st = Ok st' /\ inv (i + Z.of_nat n) st'.
Proof.
  revert i st. induction n as [ | n IH]; intros i st Hstep Hinit.
  - exists st. split; [reflexivity | ].
    replace (i + Z.of_nat 0) with i by lia. exact Hinit.
  - destruct (Hstep i st) as (st1 & Hbody & Hinv1); [lia | exact Hinit | ].
    destruct (IH (i + 1) st1) as (st' & Hrun & Hinv').
    + intros j s Hj. apply Hstep. lia.
    + exact Hinv1.
    + exists st'. split.
      * simpl. rewrite Hbody. simpl. exact Hrun.
      * replace (i + Z.of_nat (Datatypes.S n)) with ((i + 1) + Z.of_nat n) by lia.
        exact Hinv'.
Qed.

Lemma for_loop_invariant (hi : Z) (st st' : S) :
  0 <= hi ->
  (forall j s s', 0 <= j < hi -> inv j s -> body j s = Ok s' -> inv (j + 1) s') ->
  inv 0 st ->
  for_loop 0 hi body st = Ok st' ->
  inv hi st'.
Proof.
  intros Hhi Hstep Hinit Hrun. unfold for_loop in Hrun.
  pose proof (for_up_invariant (Z.to_nat (hi - 0)) 0 st st') as Hinv.
  replace (0 + Z.of_nat (Z.to_nat (hi - 0))) with hi in Hinv by lia.
  apply Hinv; try assumption.
Qed.

Lemma for_loop_runs (hi : Z) (st : S) :
  0 <= hi ->
  (forall j s, 0 <= j < hi -> inv j s -> exists s', body j s = Ok s' /\ inv (j + 1) s') ->
  inv 0 st ->
  exists st', for_loop 0 hi body st = Ok st' /\ inv hi st'.
Proof.
  intros Hhi Hstep Hinit. unfold for_loop.
  destruct (for_up_runs (Z.to_nat (hi - 0)) 0 st) as (st' & Hrun & Hinv).
  - intros j s Hj. apply Hstep. lia.
  - exact Hinit.
  - exists st'. split; [exact Hrun | ].
    replace (0 + Z.of_nat (Z.to_nat (hi - 0))) with hi in Hinv by lia.
    exact Hinv.
Qed.

End Loops.

(** ** The generator against the specification's steps *)

Section GeneratorSteps.

Context {FM : FloatModel}.

Lemma pixel_direction_spec (s t : float) :
  neg_commutes_with_mul -> pixel_direction s t = spec_direction s t.
Proof.
  intros Hsym. unfold pixel_direction, spec_direction, rev_p, spec_rev_p, paraboloid.
  destruct (flt _ (of_int 0)); [reflexivity | ].
  cbv zeta. rewrite Hsym. reflexivity.
Qed.

End GeneratorSteps.

Lemma exact_neg_commutes_with_mul : neg_commutes_with_mul (FM := exact).
Proof.
  intros a b. simpl. ring.
Qed.

Lemma binary_round_aux_opp (s : bool) (m e : Z) (l : location) :
  binary_round_aux Binary32.prec Binary32.emax (negb s) m e l =
  SFopp (binary_round_aux Binary32.prec Binary32.emax s m e l).
Proof.
  unfold binary_round_aux.
  destruct (shr_fexp Binary32.prec Binary32.emax m e l) as [mrs' e'].
  destruct (shr_fexp Binary32.prec Binary32.emax
              (round_nearest_even (shr_m mrs') (loc_of_shr_record mrs')) e' loc_Exact)
    as [mrs'' e''].
  destruct (shr_m mrs'') as [ | p | p]; try reflexivity.
  destruct (e'' <=? Binary32.emax - Binary32.prec); reflexivity.
Qed.

Lemma binary32_neg_commutes_with_mul : neg_commutes_with_mul (FM := binary32).
Proof.
  intros a b. simpl.
  destruct a as [sa | sa | | sa ma ea]; destruct b as [sb | sb | | sb mb eb];
    simpl; try reflexivity;
    try (destruct sa, sb; reflexivity).
  replace (xorb sa (negb sb)) with (negb (xorb sa sb)) by (destruct sa, sb; reflexivity).
  apply binary_round_aux_opp.
Qed.

(** ** The pixel loop fills the buffer in raster order *)

Lemma row_major_injective (n x y x' y' : Z) :
  0 <= x < n -> 0 <= x' < n -> 0 <= y -> 0 <= y' ->
  y' * n + x' = y * n + x -> x' = x /\ y' = y.
Proof.
  intros Hx Hx' Hy Hy' Heq.
  assert (y' = y) by nia. subst y'. split; lia.
Qed.

Section GeneratorCorrect.

Context {FM : FloatModel}.
Variable cm : Cubemap.
Variable output_size : Z.

Local Abbreviation filled := (filled cm output_size).

Lemma store_pixel_step (x y : Z) (buf buf' : list u32) :
  0 <= x < output_size -> 0 <= y < output_size ->
  filled (y * output_size + x) buf ->
  store_pixel cm output_size y x buf = Ok buf' ->
  filled (y * output_size + (x + 1)) buf'.
Proof.
  intros Hx Hy [Hlen Hdone] Hrun. unfold store_pixel in Hrun.
  apply bind_Ok in Hrun. destruct Hrun as (c & Hc & Hrun).
  apply bind_Ok in Hrun. destruct Hrun as (row & Hrow & Hrun).
  apply bind_Ok in Hrun. destruct Hrun as (i & Hi & Hrun).
  apply int_arith_Ok in Hrow. destruct Hrow as [-> _].
  apply int_arith_Ok in Hi. destruct Hi as [-> _].
  apply store_u32_Ok in Hrun. destruct Hrun as (Hpos & Hlen' & Hsame & Hother).
  split; [lia | ].
  intros x' y' Hx' Hy' Hlt.
  destruct (Z.eq_dec (y' * output_size + x') (y * output_size + x)) as [Heq | Hne].
  - destruct (row_major_injective output_size x y x' y') as [-> ->]; try lia.
    exists c. split; [exact Hc | exact Hsame].
  - destruct (Hdone x' y' Hx' Hy') as (c' & Hc' & Hnth); [lia | ].
    exists c'. split; [exact Hc' | ].
    rewrite Hother; [exact Hnth | ]. nia.
Qed.

Lemma store_pixel_runs (x y : Z) (buf : list u32) :
  output_size * output_size <= INT_MAX ->
  0 <= x < output_size -> 0 <= y < output_size ->
  (exists c, pixel_color cm output_size x y = Ok c) ->
  filled (y * output_size + x) buf ->
  exists buf', store_pixel cm output_size y x buf = Ok buf'.
Proof.
  intros Hsize Hx Hy [c Hc] [Hlen _]. unfold store_pixel. rewrite Hc. simpl.
  rewrite int_arith_in_range by (unfold INT_MIN; nia). simpl.
  rewrite int_arith_in_range by (unfold INT_MIN; nia). simpl.
  apply store_u32_in_bounds. nia.
Qed.

(** One row: the inner loop. *)
Lemma row_fills (y : Z) (buf buf' : list u32) :
  0 <= y < output_size ->
  filled (y * output_size) buf ->
  for_loop 0 output_size (store_pixel cm output_size y) buf = Ok buf' ->
  filled ((y + 1) * output_size) buf'.
Proof.
  intros Hy Hinit Hrun.
  replace ((y + 1) * output_size) with (y * output_size + output_size) by lia.
  apply (for_loop_invariant (store_pixel cm output_size y)
           (fun x b => filled (y * output_size + x) b) output_size buf buf').
  - lia.
  - intros x b b' Hx Hinv Hbody. exact (store_pixel_step x y b b' Hx Hy Hinv Hbody).
  - replace (y * output_size + 0) with (y * output_size) by lia. exact Hinit.
  - exact Hrun.
Qed.

Lemma row_runs (y : Z) (buf : list u32) :
  output_size * output_size <= INT_MAX ->
  0 <= y < output_size ->
  (forall x, 0 <= x < output_size -> exists c, pixel_color cm output_size x y = Ok c) ->
  filled (y * output_size) buf ->
  exists buf', for_loop 0 output_size (store_pixel cm output_size y) buf = Ok buf' /\
               filled ((y + 1) * output_size) buf'.
Proof.
  intros Hsize Hy Hpix Hinit.
  replace ((y + 1) * output_size) with (y * output_size + output_size) by lia.
  apply (for_loop_runs (store_pixel cm output_size y)
           (fun x b => filled (y * output_size + x) b) output_size buf).
  - lia.
  - intros x b Hx Hinv.
    destruct (store_pixel_runs x y b Hsize Hx Hy (Hpix x Hx) Hinv) as [b' Hb'].
    exists b'. split; [exact Hb' | ].
    exact (store_pixel_step x y b b' Hx Hy Hinv Hb').
  - replace (y * output_size + 0) with (y * output_size) by lia. exact Hinit.
Qed.

Lemma initial_buffer_filled (n : Z) :
  n = output_size * output_size -> filled 0 (repeat 0 (Z.to_nat n)).
Proof.
  intros ->. split.
  - rewrite repeat_length. nia.
  - intros x y Hx Hy Hlt. nia.
Qed.

(** A finished run holds the colour of every pixel. *)
Lemma generate_filled (buf : list u32) :
  generate cm output_size = Ok buf ->
  filled (output_size * output_size) buf.
Proof.
  unfold generate. intros Hrun.
  apply bind_Ok in Hrun. destruct Hrun as (n & Hn & Hrun).
  apply int_arith_Ok in Hn. destruct Hn as [-> Hsize].
  destruct (Z_lt_le_dec output_size 0) as [Hneg | Hnonneg].
  - unfold for_loop in Hrun.
    replace (Z.to_nat (output_size - 0)) with O in Hrun by lia.
    simpl in Hrun. inversion Hrun; subst. split.
    + rewrite repeat_length. nia.
    + intros x y Hx Hy. lia.
  - apply (for_loop_invariant
             (fun y => for_loop 0 output_size (store_pixel cm output_size y))
             (fun y b => filled (y * output_size) b)
             output_size (repeat 0 (Z.to_nat (output_size * output_size))) buf).
    + exact Hnonneg.
    + intros y b b' Hy Hinv Hbody. exact (row_fills y b b' Hy Hinv Hbody).
    + simpl. apply initial_buffer_filled. reflexivity.
    + exact Hrun.
Qed.

(** The run finishes when the size is an [int] and every pixel can be
    classified and sampled. *)
Lemma generate_runs :
  0 <= output_size -> output_size * output_size <= INT_MAX ->
  (forall x y, 0 <= x < output_size -> 0 <= y < output_size ->
     exists c, pixel_color cm output_size x y = Ok c) ->
  exists buf, generate cm output_size = Ok buf.
Proof.
  intros Hnonneg Hsize Hpix. unfold generate.
  rewrite int_arith_in_range by (unfold INT_MIN; nia). simpl.
  destruct (for_loop_runs
              (fun y => for_loop 0 output_size (store_pixel cm output_size y))
              (fun y b => filled (y * output_size) b)
              output_size (repeat 0 (Z.to_nat (output_size * output_size))))
    as (buf & Hrun & _).
  - exact Hnonneg.
  - intros y b Hy Hinv. apply (row_runs y b Hsize Hy); [ | exact Hinv].
    intros x Hx. apply Hpix; assumption.
  - simpl. apply initial_buffer_filled. reflexivity.
  - exists buf. exact Hrun.
Qed.

End GeneratorCorrect.

(** ** The generated image *)

Section GeneratorTheorems.

Context {FM : FloatModel}.

Lemma pixel_color_spec (cm : Cubemap) (output_size x y : Z) :
  neg_commutes_with_mul ->
  pixel_color cm output_size x y = spec_pixel cm output_size x y.
Proof.
  intros Hsym. unfold pixel_color, spec_pixel.
  rewrite (pixel_direction_spec _ _ Hsym). reflexivity.
Qed.

Lemma raster_index (n i : Z) :
  0 < n -> 0 <= i < n * n ->
  0 <= i mod n < n /\ 0 <= i / n < n /\ (i / n) * n + i mod n = i.
Proof.
  intros Hn Hi.
  pose proof (Z.mod_pos_bound i n Hn) as Hmod.
  pose proof (Z.div_mod i n ltac:(lia)) as Hdm.
  assert (0 <= i / n) by (apply Z.div_pos; lia).
  assert (i / n < n) by (apply Z.div_lt_upper_bound; lia).
  lia.
Qed.

Lemma raster_unique (cm : Cubemap) (output_size : Z) (buf buf' : list u32) :
  0 <= output_size ->
  spec_raster cm output_size buf -> spec_raster cm output_size buf' -> buf = buf'.
Proof.
  intros Hn [Hlen Hpix] [Hlen' Hpix'].
  apply nth_error_ext. intros i.
  destruct (Nat.lt_ge_cases i (length buf)) as [Hlt | Hge].
  - assert (Hi : 0 <= Z.of_nat i < output_size * output_size) by lia.
    assert (Hpos : 0 < output_size) by nia.
    destruct (raster_index output_size (Z.of_nat i) Hpos Hi) as (Hx & Hy & Hidx).
    destruct (Hpix _ _ Hx Hy) as (c & Hc & Hnth).
    destruct (Hpix' _ _ Hx Hy) as (c' & Hc' & Hnth').
    rewrite Hidx, Nat2Z.id in Hnth, Hnth'.
    rewrite Hc in Hc'. inversion Hc'; subst. congruence.
  - assert (Hge' : (length buf' <= i)%nat) by lia.
    apply nth_error_None in Hge. apply nth_error_None in Hge'. congruence.
Qed.

(** C2, amended. In an arithmetic where [r * -u = -(r * u)], as single
    precision and exact arithmetic are: a run of the generator that
    returns the buffer [buf] has stored, for every pixel [(x, y)] with
    [0 <= x, y < N], at the row-major index [y * N + x] of the [N * N]
    entries of [buf], the colour obtained from [s = (x + 0.5) / N],
    [t = (y + 0.5) / N], [rev_p = 16 (s - s^2 + t - t^2) - 4], the
    direction [(0, 0, -1)] when [rev_p < 0] and
    [(r (2s - 1), - r (2t - 1), 8 (s - s^2 + t - t^2) - 3)] with
    [r = sqrt rev_p] otherwise, classified by [computeTexCoords] and
    sampled by [sampleFace]; on an output size [N >= 0] whose square is
    an [int] the generator returns [buf] exactly when [buf] is that
    raster; and when [N * N] is no [int] the generator computes
    [output_size * output_size] with overflow and stores nothing. *)
Theorem generate_is_raster_of_spec_pixels
  (cm : Cubemap) (output_size : Z) (buf : list u32) :
  neg_commutes_with_mul ->
  (generate cm output_size = Ok buf -> spec_raster cm output_size buf) /\
  (0 <= output_size -> output_size * output_size <= INT_MAX ->
   (generate cm output_size = Ok buf <-> spec_raster cm output_size buf)) /\
  (INT_MAX < output_size * output_size -> generate cm output_size = Undefined).
Proof.
  intros Hsym.
  assert (Hdone : forall b, generate cm output_size = Ok b -> spec_raster cm output_size b).
  { intros b Hrun. destruct (generate_filled cm output_size b Hrun) as [Hlen Hpix].
    split; [exact Hlen | ].
    intros x y Hx Hy. destruct (Hpix x y Hx Hy) as (c & Hc & Hnth); [nia | ].
    exists c. rewrite <- (pixel_color_spec cm output_size x y Hsym). tauto. }
  split; [apply Hdone | ]. split.
  - intros Hn Hsize. split; [apply Hdone | ].
    intros Hraster.
    destruct (generate_runs cm output_size Hn Hsize) as [buf' Hrun].
    + intros x y Hx Hy. destruct Hraster as [_ Hpix].
      destruct (Hpix x y Hx Hy) as (c & Hc & _).
      exists c. rewrite (pixel_color_spec cm output_size x y Hsym). exact Hc.
    + rewrite Hrun. f_equal.
      exact (raster_unique cm output_size buf' buf Hn (Hdone buf' Hrun) Hraster).
  - intros Hbig. unfold generate, int_arith, in_int.
    replace (output_size * output_size <=? INT_MAX) with false
      by (symmetry; apply Z.leb_gt; exact Hbig).
    rewrite andb_false_r. reflexivity.
Qed.

(** Whatever the arithmetic, a finished run only copies texels: every
    entry of the buffer was read from the buffer of one of the six faces. *)
Lemma generate_only_copies_texels (cm : Cubemap) (output_size : Z) (buf : list u32) :
  0 <= output_size ->
  generate cm output_size = Ok buf ->
  Z.of_nat (length buf) = output_size * output_size /\
  forall c, In c buf ->
    exists face x y, 0 <= face < NUM_FACES /\ readTexel cm face x y = Ok c.
Proof.
  intros Hn Hrun. destruct (generate_filled cm output_size buf Hrun) as [Hlen Hpix].
  split; [exact Hlen | ].
  intros c Hin. apply In_nth_error in Hin. destruct Hin as [i Hi].
  assert (Hlt : (i < length buf)%nat) by (apply nth_error_Some; congruence).
  assert (Hpos : 0 < output_size) by nia.
  destruct (raster_index output_size (Z.of_nat i) Hpos ltac:(lia)) as (Hx & Hy & Hidx).
  destruct (Hpix _ _ Hx Hy) as (c' & Hc' & Hnth); [nia | ].
  rewrite Hidx, Nat2Z.id, Hi in Hnth. inversion Hnth; subst c'.
  unfold pixel_color in Hc'.
  destruct (pixel_direction _ _) as [[vx vy] vz].
  apply bind_Ok in Hc'. destruct Hc' as ([[face s] t] & _ & Hsample).
  unfold sampleFace in Hsample.
  destruct (faces cm face) as [img | ] eqn:Hface; [ | discriminate].
  apply bind_Ok in Hsample. destruct Hsample as (tx & _ & Hsample).
  apply bind_Ok in Hsample. destruct Hsample as (ty & _ & Hread).
  exists face, tx, ty. split; [exact (faces_Some_range cm face img Hface) | exact Hread].
Qed.

End GeneratorTheorems.

(** C2 in single precision on the 2x2 test faces with [output_size = 2]. *)
Lemma generate_is_raster_of_spec_pixels_witness :
  generate (FM := binary32) test_cubemap 2 = Ok [21; 11; 23; 13] /\
  spec_raster (FM := binary32) test_cubemap 2 [21; 11; 23; 13].
Proof.
  assert (Hrun : generate (FM := binary32) test_cubemap 2 = Ok [21; 11; 23; 13])
    by (vm_compute; reflexivity).
  split; [exact Hrun | ].
  exact (proj1 (generate_is_raster_of_spec_pixels (FM := binary32) test_cubemap 2
                  [21; 11; 23; 13] binary32_neg_commutes_with_mul) Hrun).
Defined.

(** With [output_size = 46341] the pixel [(0, 0)] has a colour, the
    centre texel of the face -Z, but the generator stores it nowhere:
    [46341 * 46341 = 2147488281] is no [int] and the allocation of the
    buffer is already undefined. *)
Lemma generate_stores_nothing_at_46341 :
  0 <= 0 < 46341 /\
  spec_pixel (FM := binary32) test_cubemap 46341 0 0 = Ok 63 /\
  generate (FM := binary32) test_cubemap 46341 = Undefined /\
  generate (FM := exact) test_cubemap 46341 = Undefined.
Proof.
  split; [lia | ]. split; [vm_compute; reflexivity | ].
  split; reflexivity.
Qed.

(** ** Generation in exact arithmetic *)

Module ExactGenerate.

Import Exact ExactFacts ExactTexCoords ExactSampling ExactPixel.


(** On a decoded cubemap and an output size [N >= 0] whose square
    is an [int], generation in exact arithmetic returns a buffer of
    exactly [N * N] colours, and each of them is [readTexel(face, x, y)]
    for a texel [(x, y)] inside one of the six faces. *)
Lemma generate_exact (cm : Cubemap) (output_size : Z) :
  valid_cubemap cm ->
  0 <= output_size -> output_size * output_size <= INT_MAX ->
  exists buf,
    generate (FM := exact) cm output_size = Ok buf /\
    Z.of_nat (length buf) = output_size * output_size /\
    forall c, In c buf ->
      exists (face x y : Z) (img : Image),
        faces cm face = Some img /\
        0 <= x < width img /\ 0 <= y < height img /\
        readTexel cm face x y = Ok c.
Proof.
  intros Hvalid Hn Hsize.
  destruct (generate_runs (FM := exact) cm output_size Hn Hsize) as [buf Hrun].
  { intros x y _ _.
    destruct (pixel_color_total cm output_size x y Hvalid) as (c & _ & _ & _ & _ & Hc & _).
    exists c. exact Hc. }
  exists buf. split; [exact Hrun | ].
  destruct (generate_filled cm output_size buf Hrun) as [Hlen Hpix].
  split; [exact Hlen | ].
  intros c Hin. apply In_nth_error in Hin. destruct Hin as [i Hi].
  assert (Hlt : (i < length buf)%nat) by (apply nth_error_Some; congruence).
  assert (Hpos : 0 < output_size) by nia.
  destruct (raster_index output_size (Z.of_nat i) Hpos ltac:(lia)) as (Hx & Hy & Hidx).
  destruct (Hpix _ _ Hx Hy) as (c' & Hc' & Hnth); [nia | ].
  rewrite Hidx, Nat2Z.id, Hi in Hnth. inversion Hnth; subst c'.
  destruct (pixel_color_total cm output_size
              (Z.of_nat i mod output_size) (Z.of_nat i / output_size) Hvalid)
    as (c2 & face & tx & ty & img & Hc2 & Himg & Htx & Hty & Hread).
  rewrite Hc' in Hc2. inversion Hc2; subst c2.
  exists face, tx, ty, img. tauto.
Qed.

(** C10. In exact arithmetic: the direction computed for a pixel is never
    the zero vector, in either branch; a non-zero direction is classified
    with [s] and [t] in [[0, 1]]; and so, on faces of positive dimensions,
    every texel read of the generation has [0 <= x < width] and
    [0 <= y < height]. *)
Theorem generation_reads_inside_faces (cm : Cubemap) :
  positive_faces cm ->
  (forall (s t vx vy vz : R),
     pixel_direction (FM := exact) s t = (vx, vy, vz) ->
     vx <> 0%R \/ vy <> 0%R \/ vz <> 0%R) /\
  (forall (vx vy vz : R),
     vx <> 0%R \/ vy <> 0%R \/ vz <> 0%R ->
     exists (face : Z) (s t : R),
       computeTexCoords (FM := exact) vx vy vz = Ok (face, s, t) /\
       0 <= face <= 5 /\ (0 <= s <= 1)%R /\ (0 <= t <= 1)%R) /\
  (forall (face : Z) (img : Image) (s t : R),
     faces cm face = Some img -> (0 <= s <= 1)%R -> (0 <= t <= 1)%R ->
     exists x y,
       texel_index (FM := exact) s (width img) = Ok x /\
       texel_index (FM := exact) t (height img) = Ok y /\
       0 <= x < width img /\ 0 <= y < height img) /\
  (forall (output_size px py : Z),
     exists (face x y : Z) (img : Image),
       faces cm face = Some img /\
       0 <= x < width img /\ 0 <= y < height img /\
       pixel_color (FM := exact) cm output_size px py = readTexel cm face x y).
Proof.
  intros Hpos. split; [ | split; [ | split]].
  - intros s t vx vy vz. apply pixel_direction_nonzero.
  - intros vx vy vz Hnz.
    destruct (computeTexCoords_exact vx vy vz Hnz)
      as (axis & face & s & t & _ & _ & _ & Hface & _ & Hrun & Hs & Ht).
    exists face, s, t. tauto.
  - intros face img s t Himg Hs Ht. destruct (Hpos face img Himg) as [Hw Hh].
    destruct (texel_index_unit s _ Hw Hs) as (x & Hx & Hxr).
    destruct (texel_index_unit t _ Hh Ht) as (y & Hy & Hyr).
    exists x, y. tauto.
  - intros output_size px py.
    destruct (pixel_color_in_face cm output_size px py Hpos)
      as (face & x & y & img & Himg & _ & Hx & Hy & Hrun).
    exists face, x, y, img. tauto.
Qed.

Lemma generation_reads_inside_faces_witness :
  exists (face x y : Z) (img : Image),
    faces test_cubemap face = Some img /\
    0 <= x < width img /\ 0 <= y < height img /\
    pixel_color (FM := exact) test_cubemap 3 1 2 = readTexel test_cubemap face x y.
Proof.
  exact (proj2 (proj2 (proj2
           (generation_reads_inside_faces test_cubemap
              (valid_cubemap_positive test_cubemap test_cubemap_valid)))) 3 1 2).
Defined.

End ExactGenerate.

(** ** The corners of the output image *)

Module Corners.

Import Exact ExactFacts ExactSampling.

(** C7, as stated, fails for the output sizes 1, 2 and 3: the corner
    pixel [(0, 0)] has [rev_p >= 0], in single precision as in exact
    arithmetic, and its direction is not [(0, 0, -1)]; at size 1 it is
    the centre of +Z that is sampled (53), not the centre of -Z (63). *)
Lemma corner_is_not_back_pole_below_size_4 :
  (flt (FloatModel := binary32) (rev_p (unlerp 0 1) (unlerp 0 1)) (of_int 0) = false /\
   pixel_direction (FM := binary32) (unlerp 0 1) (unlerp 0 1) <>
     (of_int 0, of_int 0, fneg (of_int 1)) /\
   pixel_color (FM := binary32) test_cubemap 1 0 0 = Ok 53 /\
   sampleFace (FM := binary32) test_cubemap FACE_NEG_Z half half = Ok 63) /\
  (flt (FloatModel := binary32) (rev_p (unlerp 0 2) (unlerp 0 2)) (of_int 0) = false /\
   pixel_direction (FM := binary32) (unlerp 0 2) (unlerp 0 2) <>
     (of_int 0, of_int 0, fneg (of_int 1)) /\
   pixel_color (FM := binary32) test_cubemap 2 0 0 = Ok 21) /\
  (flt (FloatModel := binary32) (rev_p (unlerp 0 3) (unlerp 0 3)) (of_int 0) = false /\
   pixel_direction (FM := binary32) (unlerp 0 3) (unlerp 0 3) <>
     (of_int 0, of_int 0, fneg (of_int 1)) /\
   pixel_color (FM := binary32) test_cubemap 3 0 0 = Ok 61) /\
  (flt (FloatModel := exact)
     (rev_p (FM := exact) (unlerp (FM := exact) 0 1) (unlerp (FM := exact) 0 1))
     (of_int 0) = false /\
   flt (FloatModel := exact)
     (rev_p (FM := exact) (unlerp (FM := exact) 0 2) (unlerp (FM := exact) 0 2))
     (of_int 0) = false /\
   flt (FloatModel := exact)
     (rev_p (FM := exact) (unlerp (FM := exact) 0 3) (unlerp (FM := exact) 0 3))
     (of_int 0) = false).
Proof.
  split; [ | split; [ | split]].
  - repeat split; try (vm_compute; reflexivity); vm_compute; discriminate.
  - repeat split; try (vm_compute; reflexivity); vm_compute; discriminate.
  - repeat split; try (vm_compute; reflexivity); vm_compute; discriminate.
  - repeat split; simpl; apply Rltb_false; unfold rev_p, paraboloid, unlerp;
      simpl; lra.
Qed.

Local Open Scope R_scope.

(** At a corner of an image of size at least 4, [s - s * s <= 7 / 64]. *)
Lemma corner_term (n x : Z) :
  (4 <= n)%Z -> x = 0%Z \/ x = (n - 1)%Z ->
  let s := unlerp (FM := exact) x n in
  s - s * s <= 7 / 64.
Proof.
  intros Hn Hx. unfold unlerp. simpl.
  assert (Hr : 4 <= IZR n) by (apply IZR_le in Hn; exact Hn).
  set (a := / IZR n).
  assert (Ha : 0 < a) by (apply Rinv_0_lt_compat; lra).
  assert (Hna : IZR n * a = 1) by (unfold a; field; lra).
  assert (Ha4 : a <= / 4) by nra.
  unfold Rdiv. fold a.
  destruct Hx as [-> | ->].
  - nra.
  - rewrite minus_IZR.
    replace ((IZR n - 1 + / 2) * a) with (1 - a / 2) by nra.
    nra.
Qed.

Lemma corner_rev_p_negative (n x y : Z) :
  (4 <= n)%Z -> is_corner n x y ->
  flt (FloatModel := exact)
    (rev_p (FM := exact) (unlerp (FM := exact) x n) (unlerp (FM := exact) y n))
    (of_int 0) = true.
Proof.
  intros Hn [Hx Hy]. simpl. apply Rltb_true.
  pose proof (corner_term n x Hn Hx) as Hs.
  pose proof (corner_term n y Hn Hy) as Ht.
  unfold rev_p, paraboloid. simpl in *. lra.
Qed.

Lemma floor_half (w : Z) : (0 < w)%Z -> Int_part (/ 2 * IZR w) = (w / 2)%Z.
Proof.
  intros Hw. apply Int_part_unique.
  pose proof (Z.div_mod w 2 ltac:(lia)) as Hdm.
  pose proof (Z.mod_pos_bound w 2 ltac:(lia)) as Hmod.
  assert (H1 : (2 * (w / 2) <= w)%Z) by lia.
  assert (H2 : (w < 2 * (w / 2) + 2)%Z) by lia.
  apply IZR_le in H1. apply IZR_lt in H2.
  rewrite mult_IZR in H1. rewrite plus_IZR, mult_IZR in H2. simpl in H1, H2.
  lra.
Qed.

(** Sampling a face at [(0.5, 0.5)] reads its centre texel. *)
Lemma sampleFace_centre (cm : Cubemap) (face : Z) (img : Image) :
  faces cm face = Some img ->
  positive_dim (width img) -> positive_dim (height img) ->
  sampleFace (FM := exact) cm face (/ 2) (/ 2) =
  readTexel cm face (width img / 2) (height img / 2).
Proof.
  intros Himg Hw Hh. unfold sampleFace. rewrite Himg.
  assert (Hfw := floor_half (width img) ltac:(destruct Hw; lia)).
  assert (Hfh := floor_half (height img) ltac:(destruct Hh; lia)).
  destruct Hw as [Hw0 Hw1]. destruct Hh as [Hh0 Hh1].
  assert (Hcw : (0 <= width img / 2 <= width img - 1)%Z)
    by (Z.to_euclidean_division_equations; lia).
  assert (Hch : (0 <= height img / 2 <= height img - 1)%Z)
    by (Z.to_euclidean_division_equations; lia).
  rewrite (texel_index_floor (/ 2) _ (conj Hw0 Hw1))
    by (try lra; rewrite Hfw; lia).
  rewrite (texel_index_floor (/ 2) _ (conj Hh0 Hh1))
    by (try lra; rewrite Hfh; lia).
  unfold spec_texel. rewrite Hfw, Hfh. simpl.
  rewrite !Z.min_l by lia. reflexivity.
Qed.


(** In exact arithmetic, for every output size [N >= 4]
    and each of the four corner pixels, [rev_p] is negative, the direction
    is [(0, 0, -1)], and the sampled colour is the centre texel
    [(width / 2, height / 2)] of the face -Z. *)
Lemma corners_exact (cm : Cubemap) (output_size x y : Z) (img : Image) :
  (4 <= output_size)%Z ->
  is_corner output_size x y ->
  faces cm FACE_NEG_Z = Some img ->
  positive_dim (width img) -> positive_dim (height img) ->
  let s := unlerp (FM := exact) x output_size in
  let t := unlerp (FM := exact) y output_size in
  flt (FloatModel := exact) (rev_p (FM := exact) s t) (of_int 0) = true /\
  pixel_direction (FM := exact) s t = (of_int 0, of_int 0, fneg (of_int 1)) /\
  pixel_color (FM := exact) cm output_size x y =
    readTexel cm FACE_NEG_Z (width img / 2) (height img / 2).
Proof.
  intros Hn Hcorner Himg Hw Hh s t.
  pose proof (corner_rev_p_negative output_size x y Hn Hcorner) as Hneg.
  fold s t in Hneg.
  assert (Hdir : pixel_direction (FM := exact) s t =
                 (of_int 0, of_int 0, fneg (of_int 1))).
  { unfold pixel_direction. rewrite Hneg. reflexivity. }
  split; [exact Hneg | ]. split; [exact Hdir | ].
  unfold pixel_color. fold s t. rewrite Hdir.
  destruct Canonical.exact_centred as (_ & _ & _ & _ & _ & Hback).
  change (fneg (of_int 1)) with (of_int (FloatModel := exact) (-1)).
  rewrite Hback. simpl bind.
  exact (sampleFace_centre cm FACE_NEG_Z img Himg Hw Hh).
Qed.

End Corners.

(** ** Classification in single precision *)

Module Binary32Facts.

Import Binary32.

(** [|a| <= |b|] compares the keys. *)
Lemma SFleb_abs (a b : spec_float) :
  is_nan a = false -> is_nan b = false ->
  (SFleb (SFabs a) (SFabs b) = true <-> key_le (key a) (key b)).
Proof.
  intros Ha Hb.
  destruct a as [sa | sa | | sa ma ea]; destruct b as [sb | sb | | sb mb eb];
    try discriminate; unfold SFleb; simpl;
    try (split; [intros _; lia | reflexivity]);
    try (split; [discriminate | lia]).
  change (Pos.compare_cont Eq ma mb) with (Pos.compare ma mb).
  destruct (Z.compare_spec ea eb) as [Heq | Hlt | Hgt].
  - destruct (Pos.compare_spec ma mb) as [Hm | Hm | Hm];
      (split; [intros H; try discriminate; lia | intros H; try reflexivity; lia]).
  - split; [intros _; lia | reflexivity].
  - split; [discriminate | lia].
Qed.

Ltac key_order :=
  unfold key_le in *;
  repeat match goal with
         | |- context [key ?f] =>
             let c := fresh "c" in let e := fresh "e" in let m := fresh "m" in
             destruct (key f) as [[c e] m]
         end;
  lia.

Lemma key_le_dec (k1 k2 : Z * Z * Z) : {key_le k1 k2} + {~ key_le k1 k2}.
Proof.
  destruct k1 as [[c1 e1] m1]. destruct k2 as [[c2 e2] m2]. unfold key_le.
  destruct (Z_lt_dec c1 c2); [left; lia | ].
  destruct (Z.eq_dec c1 c2); [ | right; lia].
  destruct (Z_lt_dec e1 e2); [left; lia | ].
  destruct (Z.eq_dec e1 e2); [ | right; lia].
  destruct (Z_le_dec m1 m2); [left; lia | right; lia].
Qed.

(** Without NaN the comparisons are those of a total order: one of the
    three tests of the [if] chain succeeds. *)
Lemma binary32_major_axis_exists (x y z : spec_float) :
  is_nan x = false -> is_nan y = false -> is_nan z = false ->
  exists axis,
    spec_major_axis (FM := binary32) (SFabs x) (SFabs y) (SFabs z) axis.
Proof.
  intros Hx Hy Hz. unfold spec_major_axis.
  destruct (key_le_dec (key y) (key x)) as [H10 | H10];
    destruct (key_le_dec (key z) (key x)) as [H20 | H20];
    destruct (key_le_dec (key z) (key y)) as [H21 | H21];
    [ exists 0 | exists 0 | exists 2 | exists 2 | exists 1 | exists 2
    | exists 1 | exists 2 ];
    (split;
     [ simpl; rewrite !SFleb_abs by assumption; key_order
     | intros k Hk;
       first [ lia
             | assert (k = 0 \/ k = 1) as [-> | ->] by lia; simpl;
               rewrite !SFleb_abs by assumption; try lia; key_order ] ]).
Qed.

End Binary32Facts.

Module Binary32Classify.

Import Binary32 Binary32Facts.

(** *** Rounding never produces NaN from a non-negative mantissa *)

Lemma shr_1_nonneg (mrs : shr_record) : 0 <= shr_m mrs -> 0 <= shr_m (shr_1 mrs).
Proof.
  destruct mrs as [m r s]. simpl.
  destruct m as [ | p | p]; simpl; intros H; try lia; destruct p; simpl; lia.
Qed.

Lemma iter_shr_1_nonneg (p : positive) :
  forall mrs, 0 <= shr_m mrs -> 0 <= shr_m (iter_pos shr_1 p mrs).
Proof.
  induction p as [p IH | p IH | ]; intros mrs H; simpl.
  - apply IH, IH, shr_1_nonneg, H.
  - apply IH, IH, H.
  - apply shr_1_nonneg, H.
Qed.

Lemma shr_record_of_loc_m (m : Z) (l : location) : shr_m (shr_record_of_loc m l) = m.
Proof.
  destruct l as [ | [ | | ]]; reflexivity.
Qed.

Lemma shr_fexp_nonneg (m e : Z) (l : location) :
  0 <= m -> 0 <= shr_m (fst (shr_fexp prec emax m e l)).
Proof.
  intros H. unfold shr_fexp, shr.
  destruct (fexp prec emax (Zdigits2 m + e) - e) as [ | p | p]; simpl;
    try (rewrite shr_record_of_loc_m; exact H).
  apply iter_shr_1_nonneg. rewrite shr_record_of_loc_m. exact H.
Qed.

Lemma round_nearest_even_nonneg (m : Z) (l : location) :
  0 <= m -> 0 <= round_nearest_even m l.
Proof.
  intros H. destruct l as [ | [ | | ]]; simpl; try destruct (Z.even m); lia.
Qed.

Lemma binary_round_aux_not_nan (s : bool) (m e : Z) (l : location) :
  0 <= m -> is_nan (binary_round_aux prec emax s m e l) = false.
Proof.
  intros H. unfold binary_round_aux.
  pose proof (shr_fexp_nonneg m e l H) as H1.
  destruct (shr_fexp prec emax m e l) as [mrs' e']. simpl in H1.
  pose proof (shr_fexp_nonneg
                (round_nearest_even (shr_m mrs') (loc_of_shr_record mrs')) e' loc_Exact
                (round_nearest_even_nonneg _ _ H1)) as H2.
  destruct (shr_fexp prec emax
              (round_nearest_even (shr_m mrs') (loc_of_shr_record mrs')) e' loc_Exact)
    as [mrs'' e'']. simpl in H2.
  destruct (shr_m mrs'') as [ | p | p]; try reflexivity; [ | lia].
  destruct (e'' <=? emax - prec); reflexivity.
Qed.

Lemma binary_normalize_not_nan (m e : Z) (szero : bool) :
  is_nan (binary_normalize prec emax m e szero) = false.
Proof.
  unfold binary_normalize, binary_round.
  destruct m as [ | p | p]; [reflexivity | | ].
  - destruct (shl_align p e _) as [mz ez]. apply binary_round_aux_not_nan. lia.
  - destruct (shl_align p e _) as [mz ez]. apply binary_round_aux_not_nan. lia.
Qed.

(** *** The quotient, the sum and the product of [normalize] *)

Lemma div_not_nan (raw m : spec_float) :
  is_finite raw = true -> is_finite m = true -> is_zero m = false ->
  is_nan (SFdiv prec emax raw m) = false.
Proof.
  intros Hraw Hm Hnz.
  destruct m as [sm | sm | | sm mm em]; try discriminate.
  destruct raw as [sr | sr | | sr mr er]; try discriminate; [reflexivity | ].
  unfold SFdiv.
  destruct (SFdiv_core_binary prec emax (Z.pos mr) er (Z.pos mm) em)
    as [[mz ez] lz] eqn:Hcore.
  apply binary_round_aux_not_nan.
  unfold SFdiv_core_binary in Hcore.
  set (e' := Z.min _ _) in Hcore. set (sh := er - em - e') in Hcore.
  set (m' := match sh with Z0 => Z.pos mr | Zpos _ => Z.shiftl (Z.pos mr) sh | Zneg _ => 0 end)
    in Hcore.
  assert (Hm' : 0 <= m').
  { unfold m'. destruct sh; try lia. apply Z.shiftl_nonneg. lia. }
  pose proof (Z.div_pos m' (Z.pos mm) Hm' ltac:(lia)) as Hq.
  unfold Z.div in Hq. destruct (Z.div_eucl m' (Z.pos mm)) as [q r].
  inversion Hcore; subst. exact Hq.
Qed.

Lemma add_one_not_nan (q : spec_float) :
  is_nan q = false ->
  is_nan (fadd (FloatModel := binary32) q (of_int 1)) = false.
Proof.
  intros Hq. simpl. change (b32_of_int 1) with (S754_finite false 8388608 (-23)).
  destruct q as [sq | sq | | sq mq eq]; try discriminate; try reflexivity.
  unfold SFadd. apply binary_normalize_not_nan.
Qed.

Lemma mul_half_not_nan (r : spec_float) :
  is_nan r = false ->
  is_nan (fmul (FloatModel := binary32) half r) = false.
Proof.
  intros Hr. simpl. change b32_half with (S754_finite false 8388608 (-24)).
  destruct r as [sr | sr | | sr mr er]; try discriminate; try reflexivity.
  unfold SFmul. apply binary_round_aux_not_nan. lia.
Qed.

Lemma normalize_not_nan (raw m : spec_float) :
  is_finite raw = true -> is_finite m = true -> is_zero m = false ->
  is_nan (normalize (FM := binary32) raw m) = false.
Proof.
  intros Hraw Hm Hnz. unfold normalize.
  apply mul_half_not_nan, add_one_not_nan, div_not_nan; assumption.
Qed.

(** *** The divisor *)

Lemma is_finite_abs (f : spec_float) : is_finite (SFabs f) = is_finite f.
Proof. destruct f; reflexivity. Qed.

Lemma is_finite_opp (f : spec_float) : is_finite (SFopp f) = is_finite f.
Proof. destruct f; reflexivity. Qed.

Lemma is_zero_abs (f : spec_float) : is_zero (SFabs f) = is_zero f.
Proof. destruct f; reflexivity. Qed.

Lemma below_zero_is_zero (a b : spec_float) :
  is_nan b = false -> is_zero a = true -> key_le (key b) (key a) ->
  is_zero b = true.
Proof.
  destruct a; destruct b; simpl; intros Hb Ha Hle; try discriminate;
    try reflexivity; unfold key_le in Hle; lia.
Qed.

Lemma abs_positive (a : spec_float) :
  is_nan a = false -> is_zero a = false ->
  flt (FloatModel := binary32) (of_int 0) (fabs (FloatModel := binary32) a) = true.
Proof.
  destruct a; simpl; intros Hf Hz; try discriminate; reflexivity.
Qed.

(** C4, as stated, fails on a direction that is neither zero nor NaN:
    for [(+inf, +inf, 0)] the face +X is selected with the divisor
    [m = +inf], and [t = 0.5 * (-inf / inf + 1)] is NaN. *)
Lemma infinite_direction_gives_nan :
  is_nan (S754_infinity false) = false /\
  is_zero (S754_infinity false) = false /\
  computeTexCoords (FM := binary32)
    (S754_infinity false) (S754_infinity false) (of_int 0) =
    Ok (FACE_POS_X, half, S754_nan).
Proof.
  repeat split; vm_compute; reflexivity.
Qed.


End Binary32Classify.

(** ** Rounding in single precision

    [SpecFloat]'s operations return the correctly rounded real result:
    the value of the format nearest to the real operation on the values
    of the operands. *)

Module Binary32Rounding.

Import Binary32 Binary32Classify Binary32Real.

Local Open Scope R_scope.

(** *** Powers of two *)

Lemma bpow_pos (e : Z) : 0 < bpow e.
Proof. apply powerRZ_lt. lra. Qed.

Lemma bpow_add (e1 e2 : Z) : bpow (e1 + e2) = bpow e1 * bpow e2.
Proof. apply powerRZ_add. lra. Qed.

Lemma bpow_0 : bpow 0 = 1.
Proof. reflexivity. Qed.

Lemma bpow_1 : bpow 1 = 2.
Proof. unfold bpow. simpl. lra. Qed.

Lemma bpow_m1 : bpow (-1) = / 2.
Proof. unfold bpow. simpl. lra. Qed.

Lemma bpow_succ (e : Z) : bpow (e + 1) = 2 * bpow e.
Proof. rewrite bpow_add, bpow_1. lra. Qed.

Lemma bpow_opp (e : Z) : bpow (- e) = / bpow e.
Proof. apply powerRZ_neg'. Qed.

(** A non-negative power of two is an integer. *)
Lemma bpow_IZR (e : Z) : (0 <= e)%Z -> bpow e = IZR (2 ^ e).
Proof.
  intros He. unfold bpow.
  rewrite <- (Z2Nat.id e He) at 1. rewrite <- pow_powerRZ.
  rewrite pow_IZR. rewrite Z2Nat.id by exact He. reflexivity.
Qed.

Lemma bpow_ge_1 (e : Z) : (0 <= e)%Z -> 1 <= bpow e.
Proof.
  intros He. rewrite bpow_IZR by exact He. apply IZR_le.
  assert (0 < 2 ^ e)%Z by (apply Z.pow_pos_nonneg; lia). lia.
Qed.

Lemma bpow_le (e1 e2 : Z) : (e1 <= e2)%Z -> bpow e1 <= bpow e2.
Proof.
  intros H. replace e2 with (e1 + (e2 - e1))%Z by lia. rewrite bpow_add.
  pose proof (bpow_pos e1). pose proof (bpow_ge_1 (e2 - e1) ltac:(lia)). nra.
Qed.

Lemma bpow_lt (e1 e2 : Z) : (e1 < e2)%Z -> bpow e1 < bpow e2.
Proof.
  intros H. replace e2 with (e1 + 1 + (e2 - e1 - 1))%Z by lia.
  rewrite bpow_add, bpow_succ.
  pose proof (bpow_pos e1). pose proof (bpow_ge_1 (e2 - e1 - 1) ltac:(lia)). nra.
Qed.

(** *** Values *)

Lemma fexp_eq (e : Z) : fexp prec emax e = Z.max (e - 24) emin.
Proof. reflexivity. Qed.

Lemma format_0 : format 0.
Proof. exists 0%Z, 0%Z. unfold F2R, emin. simpl. split; [lra | lia]. Qed.

Lemma format_opp (r : R) : format r -> format (- r).
Proof.
  intros (k & e & -> & Hk & He). exists (- k)%Z, e. unfold F2R.
  rewrite opp_IZR. split; [lra | lia].
Qed.

Lemma nearest_opp (v r : R) : nearest v r -> nearest (- v) (- r).
Proof.
  intros [Hf Hn]. split; [apply format_opp, Hf | ].
  intros f Hff. specialize (Hn (- f) (format_opp f Hff)).
  replace (- r - - v) with (- (r - v)) by lra. rewrite Rabs_Ropp.
  replace (f - - v) with (- (- f - v)) by lra. rewrite Rabs_Ropp. exact Hn.
Qed.

(** Rounding to nearest is monotone against the values of the format. *)
Lemma nearest_le_upper (v r a : R) : nearest v r -> format a -> v <= a -> r <= a.
Proof.
  intros [_ Hn] Ha Hva. specialize (Hn a Ha).
  destruct (Rle_dec r a) as [H | H]; [exact H | exfalso].
  rewrite (Rabs_pos_eq (r - v)) in Hn by lra.
  rewrite (Rabs_pos_eq (a - v)) in Hn by lra. lra.
Qed.

Lemma nearest_ge_lower (v r a : R) : nearest v r -> format a -> a <= v -> a <= r.
Proof.
  intros Hn Ha Hav.
  pose proof (nearest_le_upper (- v) (- r) (- a) (nearest_opp _ _ Hn)
                (format_opp _ Ha) ltac:(lra)). lra.
Qed.

Lemma nearest_exact (v r : R) : nearest v r -> format v -> r = v.
Proof.
  intros Hn Hv.
  pose proof (nearest_le_upper v r v Hn Hv ltac:(lra)).
  pose proof (nearest_ge_lower v r v Hn Hv ltac:(lra)). lra.
Qed.

(** *** Positions between two consecutive integers *)

Lemma located_bounds (x : R) (m : Z) (l : location) :
  located x m l -> IZR m <= x < IZR m + 1.
Proof. destruct l as [ | [ | | ]]; simpl; lra. Qed.

Lemma rec_located_of_loc (x : R) (m : Z) (l : location) :
  rec_located x (shr_record_of_loc m l) <-> located x m l.
Proof. destruct l as [ | [ | | ]]; reflexivity. Qed.

Lemma IZR_xO (p : positive) : IZR (Zpos p~0) = 2 * IZR (Zpos p).
Proof. rewrite Pos2Z.inj_xO, mult_IZR. reflexivity. Qed.

Lemma IZR_xI (p : positive) : IZR (Zpos p~1) = 2 * IZR (Zpos p) + 1.
Proof. rewrite Pos2Z.inj_xI, plus_IZR, mult_IZR. reflexivity. Qed.

(** One shift to the right halves the value and keeps track of the position
    of the lost bits. *)
Lemma shr_1_located (x : R) (mrs : shr_record) :
  (0 <= shr_m mrs)%Z -> rec_located x mrs -> rec_located (x / 2) (shr_1 mrs).
Proof.
  destruct mrs as [m r s]. unfold rec_located. simpl.
  intros Hm H.
  destruct m as [ | p | p]; [ | | lia].
  - destruct r, s; cbn [shr_1 shr_m loc_of_shr_record orb located] in *; lra.
  - destruct p as [p | p | ]; destruct r, s;
      cbn [shr_1 shr_m loc_of_shr_record orb located] in *;
      try rewrite (IZR_xO p) in H; try rewrite (IZR_xI p) in H; lra.
Qed.

Lemma iter_shr_1_located (p : positive) :
  forall (x : R) (mrs : shr_record),
    (0 <= shr_m mrs)%Z -> rec_located x mrs ->
    (0 <= shr_m (iter_pos shr_1 p mrs))%Z /\
    rec_located (x * bpow (- Zpos p)) (iter_pos shr_1 p mrs).
Proof.
  induction p as [p IH | p IH | ]; intros x mrs Hm Hx; cbn [iter_pos].
  - pose proof (shr_1_nonneg mrs Hm) as H1.
    pose proof (shr_1_located x mrs Hm Hx) as L1.
    destruct (IH _ _ H1 L1) as [H2 L2].
    destruct (IH _ _ H2 L2) as [H3 L3].
    split; [exact H3 | ].
    replace (x * bpow (- Z.pos p~1)) with (x / 2 * bpow (- Z.pos p) * bpow (- Z.pos p)); [exact L3 | ].
    replace (- Z.pos p~1)%Z with (- Z.pos p + - Z.pos p + - 1)%Z by lia.
    rewrite !bpow_add, bpow_m1. field.
  - destruct (IH _ _ Hm Hx) as [H2 L2].
    destruct (IH _ _ H2 L2) as [H3 L3].
    split; [exact H3 | ].
    replace (x * bpow (- Z.pos p~0)) with (x * bpow (- Z.pos p) * bpow (- Z.pos p)); [exact L3 | ].
    replace (- Z.pos p~0)%Z with (- Z.pos p + - Z.pos p)%Z by lia.
    rewrite !bpow_add. ring.
  - split; [apply shr_1_nonneg, Hm | ].
    assert (E : x * bpow (- Z.pos 1) = x / 2)
      by (change (- Z.pos 1)%Z with (-1)%Z; rewrite bpow_m1; field).
    rewrite E. apply shr_1_located; assumption.
Qed.

Lemma shr_located (x : R) (mrs : shr_record) (e n : Z) :
  (0 <= shr_m mrs)%Z -> rec_located x mrs ->
  let '(mrs', e') := shr mrs e n in
  e' = (e + Z.max 0 n)%Z /\ (0 <= shr_m mrs')%Z /\
  rec_located (x * bpow (e - e')) mrs'.
Proof.
  intros Hm Hx. unfold shr. destruct n as [ | p | p].
  - split; [lia | ]. split; [exact Hm | ].
    replace (e - e)%Z with 0%Z by lia. rewrite bpow_0, Rmult_1_r. exact Hx.
  - destruct (iter_shr_1_located p x mrs Hm Hx) as [H1 L1].
    split; [lia | ]. split; [exact H1 | ].
    replace (e - (e + Z.pos p))%Z with (- Z.pos p)%Z by lia. exact L1.
  - split; [lia | ]. split; [exact Hm | ].
    replace (e - e)%Z with 0%Z by lia. rewrite bpow_0, Rmult_1_r. exact Hx.
Qed.

(** The shift to the exponent of the format keeps the value, with the
    position of what was shifted out. *)
Lemma shr_fexp_located (x : R) (m e : Z) (l : location) :
  (0 <= m)%Z -> located x m l ->
  let '(mrs', e') := shr_fexp prec emax m e l in
  e' = Z.max e (fexp prec emax (Zdigits2 m + e)) /\ (0 <= shr_m mrs')%Z /\
  rec_located (x * bpow (e - e')) mrs'.
Proof.
  intros Hm Hx. unfold shr_fexp.
  pose proof (shr_located x (shr_record_of_loc m l) e
                (fexp prec emax (Zdigits2 m + e) - e)) as H.
  rewrite shr_record_of_loc_m in H. specialize (H Hm).
  rewrite rec_located_of_loc in H. specialize (H Hx).
  destruct (shr (shr_record_of_loc m l) e (fexp prec emax (Zdigits2 m + e) - e))
    as [mrs' e'].
  destruct H as (He & H1 & L1). split; [lia | ]. split; assumption.
Qed.

(** *** Number of binary digits *)

(** [digits2_pos p] is the number of binary digits of [p]. *)
Lemma digits2_pos_bounds (p : positive) :
  (2 ^ (Zpos (digits2_pos p) - 1) <= Zpos p < 2 ^ Zpos (digits2_pos p))%Z.
Proof.
  induction p as [p IH | p IH | ]; simpl digits2_pos.
  - rewrite Pos2Z.inj_succ.
    replace (Z.succ (Z.pos (digits2_pos p)) - 1)%Z with (Z.succ (Z.pos (digits2_pos p) - 1))%Z by lia.
    rewrite !Z.pow_succ_r by lia. lia.
  - rewrite Pos2Z.inj_succ.
    replace (Z.succ (Z.pos (digits2_pos p)) - 1)%Z with (Z.succ (Z.pos (digits2_pos p) - 1))%Z by lia.
    rewrite !Z.pow_succ_r by lia. lia.
  - simpl. lia.
Qed.

Lemma Zdigits2_bounds (m : Z) :
  (0 < m)%Z -> (2 ^ (Zdigits2 m - 1) <= m < 2 ^ Zdigits2 m)%Z /\ (0 < Zdigits2 m)%Z.
Proof.
  destruct m as [ | p | p]; try lia. intros _. simpl.
  split; [apply digits2_pos_bounds | lia].
Qed.

(** *** The grid of the format around a value *)

Lemma F2R_shift (k e e1 : Z) :
  (e1 <= e)%Z -> F2R k e = F2R (k * 2 ^ (e - e1)) e1.
Proof.
  intros H. unfold F2R. rewrite mult_IZR, <- bpow_IZR by lia.
  rewrite Rmult_assoc, <- bpow_add. do 2 f_equal. lia.
Qed.

Lemma F2R_succ (m e : Z) : F2R (m + 1) e = F2R m e + bpow e.
Proof. unfold F2R. rewrite plus_IZR. ring. Qed.

Lemma IZR_pow2_24 : IZR (2 ^ 24) = bpow 24.
Proof. rewrite bpow_IZR by lia. reflexivity. Qed.

(** No value of the format lies strictly between [m1 * 2^e1] and
    [(m1 + 1) * 2^e1] when [m1] has 24 digits or [e1] is the least exponent. *)
Lemma format_grid (f : R) (m1 e1 : Z) :
  format f -> (emin <= e1)%Z -> (e1 = emin \/ (2 ^ 23 <= m1)%Z) -> (0 <= m1)%Z ->
  f <= F2R m1 e1 \/ F2R (m1 + 1) e1 <= f.
Proof.
  intros (k & e & -> & Hk & He) He1 Hnorm Hm1.
  pose proof (bpow_pos e1) as Hb.
  destruct (Z_le_gt_dec e1 e) as [Hle | Hgt].
  - rewrite (F2R_shift k e e1 Hle). set (K := (k * 2 ^ (e - e1))%Z).
    unfold F2R. destruct (Z_le_gt_dec K m1) as [HK | HK].
    + left. apply IZR_le in HK. nra.
    + right. assert (HK' : (m1 + 1 <= K)%Z) by lia. apply IZR_le in HK'. nra.
  - left. destruct Hnorm as [-> | Hnorm]; [lia | ].
    unfold F2R.
    assert (Hk1 : IZR k <= bpow 24).
    { rewrite <- IZR_pow2_24. apply IZR_le. lia. }
    assert (Hm : bpow 23 <= IZR m1).
    { rewrite bpow_IZR by lia. apply IZR_le. exact Hnorm. }
    assert (Hee : bpow e <= bpow (e1 - 1)) by (apply bpow_le; lia).
    assert (Hsplit : bpow e1 = 2 * bpow (e1 - 1)).
    { replace e1 with ((e1 - 1) + 1)%Z at 1 by lia. apply bpow_succ. }
    assert (H24 : bpow 24 = 2 * bpow 23) by (apply (bpow_succ 23)).
    pose proof (bpow_pos e) as Hbe. pose proof (bpow_pos (e1 - 1)) as Hb1.
    pose proof (bpow_pos 23) as Hb23.
    destruct (Rle_dec (IZR k) 0) as [Hneg | Hpos]; [nra | ].
    assert (IZR k * bpow e <= bpow 24 * bpow (e1 - 1)).
    { apply Rmult_le_compat; lra. }
    nra.
Qed.

(** An integer is located at itself, exactly. *)
Lemma located_integer (z m : Z) (l : location) :
  located (IZR z) m l -> m = z /\ l = loc_Exact.
Proof.
  destruct l as [ | [ | | ]]; simpl.
  - intros H. apply eq_IZR in H. auto.
  - intros H. exfalso.
    assert (H2 : 2 * IZR z = IZR (2 * m + 1)) by (rewrite plus_IZR, mult_IZR; lra).
    rewrite <- mult_IZR in H2. apply eq_IZR in H2. lia.
  - intros [H1 H2]. exfalso.
    assert (H3 : IZR z < IZR (m + 1)) by (rewrite plus_IZR; lra).
    apply lt_IZR in H1. apply lt_IZR in H3. lia.
  - intros [H1 H2]. exfalso.
    assert (H3 : IZR m < IZR z) by lra.
    assert (H4 : IZR z < IZR (m + 1)) by (rewrite plus_IZR; lra).
    apply lt_IZR in H3. apply lt_IZR in H4. lia.
Qed.

Lemma round_nearest_even_range (m : Z) (l : location) :
  (m <= round_nearest_even m l <= m + 1)%Z.
Proof.
  destruct l as [ | [ | | ]]; simpl; try destruct (Z.even m); lia.
Qed.

Ltac split_Rabs :=
  unfold Rabs in *;
  repeat match goal with
         | |- context [Rcase_abs ?a] => destruct (Rcase_abs a)
         | H : context [Rcase_abs ?a] |- _ => destruct (Rcase_abs a)
         end.

(** Rounding the mantissa to nearest even gives a nearest value of the format. *)
Lemma round_nearest (x : R) (m1 e1 : Z) (l1 : location) :
  (0 <= m1)%Z -> (m1 < 2 ^ 24)%Z -> (emin <= e1)%Z ->
  located x m1 l1 ->
  (e1 = emin \/ (2 ^ 23 <= m1)%Z) ->
  nearest (x * bpow e1) (F2R (round_nearest_even m1 l1) e1).
Proof.
  intros Hm0 Hm24 He1 Hloc Hnorm.
  pose proof (bpow_pos e1) as Hb.
  assert (Hfmt : forall m, (m1 <= m <= m1 + 1)%Z -> format (F2R m e1)).
  { intros m Hm. exists m, e1. split; [reflexivity | ]. split; [lia | exact He1]. }
  assert (Hgrid : forall f, format f -> f <= F2R m1 e1 \/ F2R m1 e1 + bpow e1 <= f).
  { intros f Hf. rewrite <- F2R_succ. apply format_grid; assumption. }
  split; [apply Hfmt, round_nearest_even_range | ].
  intros f Hf. specialize (Hgrid f Hf).
  unfold F2R in *. clear Hfmt.
  remember (bpow e1) as b eqn:Eb. remember (IZR m1) as M eqn:EM.
  destruct l1 as [ | [ | | ]]; simpl in Hloc; simpl round_nearest_even;
    rewrite <- ?EM in Hloc.
  - subst x. rewrite <- EM. split_Rabs; nra.
  - subst x. destruct (Z.even m1); [ | rewrite plus_IZR]; rewrite <- EM;
      destruct Hgrid as [Hg | Hg]; split_Rabs; nra.
  - rewrite <- EM. destruct Hgrid as [Hg | Hg]; split_Rabs; nra.
  - rewrite plus_IZR, <- EM. destruct Hgrid as [Hg | Hg]; split_Rabs; nra.
Qed.

(** *** The two shifts of [binary_round_aux] *)

Lemma Zdigits2_unique (m d : Z) :
  (2 ^ (d - 1) <= m < 2 ^ d)%Z -> (0 < d)%Z -> Zdigits2 m = d.
Proof.
  intros Hm Hd.
  assert (Hpos : (0 < m)%Z).
  { assert (0 < 2 ^ (d - 1))%Z by (apply Z.pow_pos_nonneg; lia). lia. }
  destruct (Zdigits2_bounds m Hpos) as [Hb Hd'].
  destruct (Z.lt_trichotomy (Zdigits2 m) d) as [Hlt | [Heq | Hgt]]; [ | exact Heq | ].
  - assert (2 ^ Zdigits2 m <= 2 ^ (d - 1))%Z by (apply Z.pow_le_mono_r; lia). lia.
  - assert (2 ^ d <= 2 ^ (Zdigits2 m - 1))%Z by (apply Z.pow_le_mono_r; lia). lia.
Qed.

Lemma Zdigits2_nonneg (m : Z) : (0 <= m)%Z -> (0 <= Zdigits2 m)%Z.
Proof. destruct m; simpl; lia. Qed.

Lemma IZR_lt_bpow (m e : Z) : (0 <= e)%Z -> IZR m < bpow e -> (m < 2 ^ e)%Z.
Proof. intros He H. rewrite bpow_IZR in H by exact He. apply lt_IZR, H. Qed.

Lemma bpow_le_IZR (m e : Z) : (0 <= e)%Z -> bpow e < IZR m + 1 -> (2 ^ e <= m)%Z.
Proof.
  intros He H. rewrite bpow_IZR in H by exact He.
  rewrite <- plus_IZR in H. apply lt_IZR in H. lia.
Qed.

(** The first shift of [binary_round_aux] leaves a mantissa of at most 24
    digits at the exponent of the format, normal unless the exponent is
    the least one. *)
Lemma first_shift (x : R) (mx ex : Z) (lx : location) :
  (0 <= mx)%Z -> located x mx lx ->
  (ex <= fexp prec emax (Zdigits2 mx + ex))%Z ->
  let '(mrs', e1) := shr_fexp prec emax mx ex lx in
  (emin <= e1)%Z /\ (0 <= shr_m mrs' < 2 ^ 24)%Z /\
  (e1 = emin \/ (2 ^ 23 <= shr_m mrs')%Z) /\
  rec_located (x * bpow (ex - e1)) mrs'.
Proof.
  intros Hm Hx He.
  pose proof (shr_fexp_located x mx ex lx Hm Hx) as H.
  destruct (shr_fexp prec emax mx ex lx) as [mrs' e1].
  destruct H as (He1 & Hm1 & Hloc).
  rewrite fexp_eq in He, He1.
  assert (Ee : e1 = Z.max (Zdigits2 mx + ex - 24) emin) by lia.
  pose proof (located_bounds _ _ _ Hloc) as Hy.
  pose proof (located_bounds _ _ _ Hx) as Hxb.
  pose proof (bpow_pos (ex - e1)) as Hb.
  set (d := Zdigits2 mx) in *.
  assert (Hd0 : (0 <= d)%Z) by (apply Zdigits2_nonneg, Hm).
  assert (Hxd : x < bpow d).
  { destruct (Z.eq_dec mx 0) as [-> | Hne].
    - simpl in Hxb. subst d. simpl. rewrite bpow_0. lra.
    - destruct (Zdigits2_bounds mx ltac:(lia)) as [[_ Hu] _]. fold d in Hu.
      rewrite bpow_IZR by exact Hd0.
      assert (IZR (mx + 1) <= IZR (2 ^ d)) by (apply IZR_le; lia).
      rewrite plus_IZR in H. lra. }
  assert (Hy24 : x * bpow (ex - e1) < bpow 24).
  { assert (bpow d * bpow (ex - e1) <= bpow 24).
    { rewrite <- bpow_add. apply bpow_le. lia. }
    pose proof (bpow_pos d). nra. }
  split; [lia | ]. split.
  - split; [exact Hm1 | ]. apply IZR_lt_bpow; [lia | lra].
  - split; [ | exact Hloc].
    destruct (Z.eq_dec e1 emin) as [Hem | Hem]; [left; exact Hem | right].
    assert (Ed : e1 = (d + ex - 24)%Z) by lia.
    assert (Hmx : (0 < mx)%Z).
    { destruct (Z.eq_dec mx 0) as [E0 | ]; [ | lia].
      exfalso. subst mx. subst d. simpl in *. lia. }
    destruct (Zdigits2_bounds mx Hmx) as [[Hl _] Hdp]. fold d in Hl, Hdp.
    apply bpow_le_IZR; [lia | ].
    assert (Hlow : bpow (d - 1) <= x).
    { rewrite bpow_IZR by lia. apply IZR_le in Hl. lra. }
    assert (E23 : bpow 23 = bpow (d - 1) * bpow (ex - e1)).
    { rewrite <- bpow_add. f_equal. lia. }
    pose proof (bpow_pos (d - 1)). nra.
Qed.

(** The second shift only renormalises a mantissa that the rounding
    carried to [2^24]; the value is unchanged. *)
Lemma second_shift (m2 e1 : Z) :
  (0 <= m2 <= 2 ^ 24)%Z -> (emin <= e1)%Z -> (e1 = emin \/ (2 ^ 23 <= m2)%Z) ->
  let '(mrs2, e2) := shr_fexp prec emax m2 e1 loc_Exact in
  F2R (shr_m mrs2) e2 = F2R m2 e1 /\ (0 <= shr_m mrs2 < 2 ^ 24)%Z /\
  (emin <= e2)%Z /\
  (shr_m mrs2 = 0%Z \/ fexp prec emax (Zdigits2 (shr_m mrs2) + e2) = e2) /\
  (e2 = emin \/ (2 ^ 23 <= shr_m mrs2)%Z).
Proof.
  intros Hm He Hnorm.
  pose proof (shr_fexp_located (IZR m2) m2 e1 loc_Exact ltac:(lia) eq_refl) as H.
  destruct (shr_fexp prec emax m2 e1 loc_Exact) as [mrs2 e2].
  destruct H as (He2 & Hm2 & Hloc). rewrite fexp_eq in He2. rewrite !fexp_eq.
  unfold rec_located in Hloc.
  destruct (Z.eq_dec m2 0) as [E0 | Hne0].
  { subst m2. simpl Zdigits2 in He2. rewrite Rmult_0_l in Hloc.
    apply (located_integer 0) in Hloc. destruct Hloc as [Em _]. rewrite Em.
    unfold F2R. rewrite !Rmult_0_l.
    split; [reflexivity | ]. split; [lia | ]. split; [lia | ].
    split; [left; reflexivity | ]. left. lia. }
  destruct (Z.eq_dec m2 (2 ^ 24)) as [E24 | Hne24].
  { subst m2. change (Zdigits2 (2 ^ 24)) with 25%Z in He2.
    assert (Ee : e2 = (e1 + 1)%Z) by lia. clear He2. subst e2.
    replace (e1 - (e1 + 1))%Z with (-1)%Z in Hloc by lia.
    assert (E : IZR (2 ^ 24) * bpow (-1) = IZR (2 ^ 23)).
    { rewrite bpow_m1. change (2 ^ 24)%Z with (2 * 2 ^ 23)%Z.
      rewrite mult_IZR. field. }
    rewrite E in Hloc. apply located_integer in Hloc. destruct Hloc as [Em _].
    rewrite Em. change (Zdigits2 (2 ^ 23)) with 24%Z.
    split.
    - unfold F2R. rewrite bpow_succ. change (2 ^ 24)%Z with (2 * 2 ^ 23)%Z.
      rewrite mult_IZR. ring.
    - split; [lia | ]. split; [lia | ]. split; [right; lia | right; lia]. }
  destruct (Zdigits2_bounds m2 ltac:(lia)) as [[Hl Hu] Hd].
  assert (Hd24 : (Zdigits2 m2 <= 24)%Z).
  { destruct (Z_le_gt_dec (Zdigits2 m2) 24) as [Hle | Hgt]; [exact Hle | exfalso].
    assert (2 ^ 24 <= 2 ^ (Zdigits2 m2 - 1))%Z by (apply Z.pow_le_mono_r; lia). lia. }
  assert (Ee : e2 = e1) by lia. clear He2. subst e2.
  replace (e1 - e1)%Z with 0%Z in Hloc by lia. rewrite bpow_0, Rmult_1_r in Hloc.
  apply located_integer in Hloc. destruct Hloc as [Em _]. rewrite Em.
  split; [reflexivity | ]. split; [lia | ]. split; [exact He | ].
  split.
  - right. destruct Hnorm as [-> | H23]; [lia | ].
    rewrite (Zdigits2_unique m2 24) by lia. lia.
  - destruct Hnorm as [-> | H23]; [left; reflexivity | right; exact H23].
Qed.

Lemma rounded_opp (v r : R) : rounded v r -> rounded (- v) (- r).
Proof.
  intros [Hn (e & He & Herr & Hnorm)]. split; [apply nearest_opp, Hn | ].
  exists e. split; [exact He | ]. split.
  - replace (- r - - v) with (- (r - v)) by lra. rewrite Rabs_Ropp. exact Herr.
  - rewrite Rabs_Ropp. exact Hnorm.
Qed.

(** The rounded mantissa is within half a unit of the value. *)
Lemma round_nearest_error (x : R) (m1 e1 : Z) (l1 : location) :
  located x m1 l1 ->
  Rabs (F2R (round_nearest_even m1 l1) e1 - x * bpow e1) <= bpow e1 / 2.
Proof.
  intros Hloc. pose proof (bpow_pos e1) as Hb. unfold F2R.
  remember (bpow e1) as b eqn:Eb. remember (IZR m1) as M eqn:EM.
  destruct l1 as [ | [ | | ]]; simpl in Hloc; simpl round_nearest_even;
    rewrite <- ?EM in Hloc.
  - subst x. rewrite <- EM. split_Rabs; nra.
  - subst x. destruct (Z.even m1); [ | rewrite plus_IZR]; rewrite <- EM;
      split_Rabs; nra.
  - rewrite <- EM. split_Rabs; nra.
  - rewrite plus_IZR, <- EM. split_Rabs; nra.
Qed.

(** [binary_round_aux] returns the value of the format nearest to
    [x * 2^ex], with the sign [sx], or the infinity of that sign when this
    value reaches [2^128]. *)
Lemma binary_round_aux_correct (sx : bool) (mx ex : Z) (lx : location) (x : R) :
  (0 <= mx)%Z -> located x mx lx ->
  (ex <= fexp prec emax (Zdigits2 mx + ex))%Z ->
  exists v, rounded (x * bpow ex) v /\ 0 <= v /\
    valid_binary prec emax (binary_round_aux prec emax sx mx ex lx) = true /\
    ((is_finite (binary_round_aux prec emax sx mx ex lx) = true /\
      B2R (binary_round_aux prec emax sx mx ex lx) = signed sx v) \/
     (binary_round_aux prec emax sx mx ex lx = S754_infinity sx /\ bpow 128 <= v)).
Proof.
  intros Hm Hx He. unfold binary_round_aux.
  pose proof (first_shift x mx ex lx Hm Hx He) as H1.
  destruct (shr_fexp prec emax mx ex lx) as [mrs1 e1].
  destruct H1 as (He1 & Hm1 & Hnorm1 & Hloc1). unfold rec_located in Hloc1.
  set (m1 := shr_m mrs1) in *. set (l1 := loc_of_shr_record mrs1) in *.
  set (m2 := round_nearest_even m1 l1).
  pose proof (round_nearest_even_range m1 l1) as Hr. fold m2 in Hr.
  assert (Hxe : x * bpow (ex - e1) * bpow e1 = x * bpow ex).
  { rewrite Rmult_assoc, <- bpow_add. do 2 f_equal. lia. }
  pose proof (round_nearest _ m1 e1 l1 ltac:(lia) ltac:(lia) He1 Hloc1 Hnorm1) as Hn.
  pose proof (round_nearest_error _ m1 e1 l1 Hloc1) as Herr.
  fold m2 in Hn, Herr. rewrite Hxe in Hn, Herr.
  pose proof (second_shift m2 e1 ltac:(lia) He1 ltac:(lia)) as H2.
  destruct (shr_fexp prec emax m2 e1 loc_Exact) as [mrs2 e2].
  destruct H2 as (Ev & Hm2 & He2 & Hcan & Hnorm2).
  exists (F2R m2 e1).
  pose proof (bpow_pos e1) as Hb1.
  assert (Hv0 : 0 <= F2R m2 e1).
  { unfold F2R. assert (0 <= IZR m2) by (apply IZR_le; lia). nra. }
  split.
  { split; [exact Hn | ]. exists e1. split; [exact He1 | ]. split; [exact Herr | ].
    destruct Hnorm1 as [-> | H23]; [left; reflexivity | right].
    pose proof (located_bounds _ _ _ Hloc1) as Hy.
    assert (bpow 23 <= IZR m1) by (rewrite bpow_IZR by lia; apply IZR_le; exact H23).
    rewrite <- Hxe. rewrite Rabs_pos_eq.
    - rewrite Z.add_comm, bpow_add. nra.
    - pose proof (bpow_pos 23). nra. }
  split; [exact Hv0 | ].
  destruct (shr_m mrs2) as [ | p | p] eqn:Ep; [ | | lia].
  - split; [reflexivity | ]. left. split; [reflexivity | ].
    simpl. rewrite <- Ev. unfold F2R. rewrite Rmult_0_l.
    destruct sx; simpl; lra.
  - destruct (Z.leb_spec e2 (emax - prec)) as [Hle | Hgt].
    + split.
      * simpl. unfold bounded, canonical_mantissa.
        destruct Hcan as [Hc | Hc]; [discriminate | ].
        simpl Zdigits2 in Hc. rewrite Hc, Z.eqb_refl. simpl.
        apply Z.leb_le. exact Hle.
      * left. split; [reflexivity | ]. simpl. rewrite Ev. reflexivity.
    + split; [reflexivity | ]. right. split; [reflexivity | ].
      rewrite <- Ev. unfold F2R.
      destruct Hnorm2 as [-> | H23]; [unfold emin, emax, prec in *; lia | ].
      assert (bpow 23 <= IZR (Z.pos p)) by (rewrite bpow_IZR by lia; apply IZR_le; exact H23).
      assert (bpow 105 <= bpow e2) by (apply bpow_le; unfold emax, prec in *; lia).
      replace 128%Z with (23 + 105)%Z by lia. rewrite bpow_add.
      pose proof (bpow_pos 23). pose proof (bpow_pos 105). nra.
Qed.

(** *** Finite values *)

Lemma fexp_ge_emin (e : Z) : (emin <= fexp prec emax e)%Z.
Proof. rewrite fexp_eq. lia. Qed.

(** The mantissa and exponent of a finite number in canonical form. *)
Lemma bounded_inv (m : positive) (e : Z) :
  bounded prec emax m e = true ->
  (emin <= e <= 104)%Z /\ (Zpos m < 2 ^ 24)%Z /\
  (e = emin \/ (2 ^ 23 <= Zpos m)%Z) /\
  fexp prec emax (Zdigits2 (Zpos m) + e) = e.
Proof.
  unfold bounded, canonical_mantissa. intros H.
  apply andb_prop in H. destruct H as [Hc Hb].
  apply Z.eqb_eq in Hc. apply Z.leb_le in Hb.
  change (Z.pos (digits2_pos m)) with (Zdigits2 (Zpos m)) in Hc.
  pose proof Hc as Hc'. rewrite fexp_eq in Hc'.
  destruct (Zdigits2_bounds (Zpos m) ltac:(lia)) as [[Hl Hu] Hd].
  set (d := Zdigits2 (Zpos m)) in *.
  assert (Hd24 : (d <= 24)%Z) by lia.
  split; [unfold emax, prec in Hb; lia | ].
  split.
  { assert (2 ^ d <= 2 ^ 24)%Z by (apply Z.pow_le_mono_r; lia). lia. }
  split; [ | exact Hc].
  destruct (Z.eq_dec e emin) as [E | E]; [left; exact E | right].
  assert (d = 24)%Z by lia.
  replace 23%Z with (d - 1)%Z by lia. exact Hl.
Qed.

Lemma format_F2R (m e : Z) : (Z.abs m <= 2 ^ 24)%Z -> (emin <= e)%Z -> format (F2R m e).
Proof. intros Hm He. exists m, e. auto. Qed.

Lemma fin_format (f : spec_float) : fin f -> format (B2R f).
Proof.
  intros [Hf Hv]. destruct f as [s | s | | s m e]; simpl in *; try discriminate.
  - apply format_0.
  - destruct (bounded_inv m e Hv) as (He & Hm & _ & _).
    assert (format (F2R (Zpos m) e)) by (apply format_F2R; lia).
    destruct s; [apply format_opp | ]; assumption.
Qed.

Lemma rounded_exact (v : R) : format v -> rounded v v.
Proof.
  intros Hf. split.
  - split; [exact Hf | ]. intros f _.
    replace (v - v) with 0 by lra. rewrite Rabs_R0. apply Rabs_pos.
  - exists emin. split; [lia | ]. split; [ | left; reflexivity].
    replace (v - v) with 0 by lra. rewrite Rabs_R0.
    pose proof (bpow_pos emin). lra.
Qed.

Lemma result_of_fin (f : spec_float) : fin f -> result_of (B2R f) f.
Proof.
  intros Hf. pose proof (fin_format f Hf) as Hfmt. destruct Hf as [Hfin Hv].
  split; [exact Hv | ]. split; [destruct f; simpl in *; congruence | ].
  exists (B2R f). split; [apply rounded_exact, Hfmt | ].
  split; [reflexivity | congruence].
Qed.

Lemma result_of_zero (s : bool) : result_of 0 (S754_zero s).
Proof. apply (result_of_fin (S754_zero s)). split; reflexivity. Qed.

Lemma rounded_abs_le (xr v B : R) :
  rounded xr v -> format B -> Rabs xr <= B -> Rabs v <= B.
Proof.
  intros [Hn _] HB Hx.
  assert (- B <= xr <= B) by (split_Rabs; lra).
  pose proof (nearest_le_upper _ _ _ Hn HB ltac:(lra)).
  pose proof (nearest_ge_lower _ _ _ Hn (format_opp _ HB) ltac:(lra)).
  split_Rabs; lra.
Qed.

(** A result whose real argument is bounded by a value of the format
    below [2^128] is finite. *)
Lemma result_finite (xr : R) (r : spec_float) (B : R) :
  result_of xr r -> format B -> Rabs xr <= B -> B < bpow 128 ->
  fin r /\ rounded xr (B2R r).
Proof.
  intros (Hv & Hnan & v & Hr & Hfin & Hinf) HB Hx HB128.
  pose proof (rounded_abs_le _ _ _ Hr HB Hx) as Hvb.
  destruct (is_finite r) eqn:E.
  - split; [split; [exact E | exact Hv] | ]. rewrite (Hfin eq_refl). exact Hr.
  - specialize (Hinf eq_refl). lra.
Qed.

Lemma Rabs_signed (s : bool) (v : R) : Rabs (signed s v) = Rabs v.
Proof. destruct s; simpl; [apply Rabs_Ropp | reflexivity]. Qed.

Lemma rounded_signed (s : bool) (x v : R) : rounded x v -> rounded (signed s x) (signed s v).
Proof. destruct s; simpl; [apply rounded_opp | auto]. Qed.

Lemma binary_round_aux_result (sx : bool) (mx ex : Z) (lx : location) (x : R) :
  (0 <= mx)%Z -> located x mx lx ->
  (ex <= fexp prec emax (Zdigits2 mx + ex))%Z ->
  result_of (signed sx (x * bpow ex)) (binary_round_aux prec emax sx mx ex lx).
Proof.
  intros Hm Hx He.
  destruct (binary_round_aux_correct sx mx ex lx x Hm Hx He)
    as (v & Hr & Hv0 & Hval & Hres).
  split; [exact Hval | ].
  destruct Hres as [[Hfin Hval'] | [Hinf Hbig]].
  - split; [destruct (binary_round_aux prec emax sx mx ex lx); simpl in *; congruence | ].
    exists (signed sx v). split; [apply rounded_signed, Hr | ].
    split; [intros _; exact Hval' | congruence].
  - rewrite Hinf. split; [reflexivity | ].
    exists (signed sx v). split; [apply rounded_signed, Hr | ].
    split; [discriminate | ]. intros _. rewrite Rabs_signed, Rabs_pos_eq; assumption.
Qed.

(** *** Multiplication *)

Lemma Zdigits2_gt (m k : Z) : (0 <= k)%Z -> (2 ^ k <= m)%Z -> (k < Zdigits2 m)%Z.
Proof.
  intros Hk Hm.
  assert (Hpos : (0 < m)%Z).
  { assert (0 < 2 ^ k)%Z by (apply Z.pow_pos_nonneg; lia). lia. }
  destruct (Zdigits2_bounds m Hpos) as [[_ Hu] Hd].
  destruct (Z_lt_le_dec k (Zdigits2 m)) as [H | H]; [exact H | exfalso].
  assert (2 ^ Zdigits2 m <= 2 ^ k)%Z by (apply Z.pow_le_mono_r; lia). lia.
Qed.

Lemma B2R_finite (s : bool) (m : positive) (e : Z) :
  B2R (S754_finite s m e) = signed s (F2R (Zpos m) e).
Proof. reflexivity. Qed.

Lemma signed_mult (s1 s2 : bool) (a b : R) :
  signed (xorb s1 s2) (a * b) = signed s1 a * signed s2 b.
Proof. destruct s1, s2; simpl; ring. Qed.

(** The product of two finite numbers is correctly rounded. *)
Lemma SFmul_result (x y : spec_float) :
  fin x -> fin y -> result_of (B2R x * B2R y) (SFmul prec emax x y).
Proof.
  intros [Hfx Hvx] [Hfy Hvy].
  destruct x as [sx | sx | | sx mx ex]; try discriminate;
    destruct y as [sy | sy | | sy my ey]; try discriminate;
    try (simpl B2R; rewrite ?Rmult_0_l, ?Rmult_0_r; apply result_of_zero).
  simpl in Hvx, Hvy.
  destruct (bounded_inv mx ex Hvx) as (Hex & Hmx & Hnx & Hcx).
  destruct (bounded_inv my ey Hvy) as (Hey & Hmy & Hny & Hcy).
  rewrite !B2R_finite, <- signed_mult. unfold SFmul.
  replace (F2R (Zpos mx) ex * F2R (Zpos my) ey)
    with (IZR (Zpos (mx * my)) * bpow (ex + ey)).
  2:{ unfold F2R. rewrite Pos2Z.inj_mul, mult_IZR, bpow_add. ring. }
  apply binary_round_aux_result; [lia | reflexivity | ].
  rewrite fexp_eq.
  destruct (Z_le_gt_dec (ex + ey) emin) as [Hle | Hgt]; [lia | ].
  assert (H46 : (2 ^ 23 <= Zpos mx * Zpos my)%Z).
  { destruct Hnx as [Ex | H23x]; destruct Hny as [Ey | H23y]; try nia.
    unfold emin in *. lia. }
  destruct (Zdigits2_bounds (Zpos mx) ltac:(lia)) as [[Hlx _] Hdx].
  destruct (Zdigits2_bounds (Zpos my) ltac:(lia)) as [[Hly _] Hdy].
  rewrite Pos2Z.inj_mul.
  pose proof (Zdigits2_gt (Zpos mx * Zpos my) 23 ltac:(lia) H46). lia.
Qed.

(** *** Normalisation of an integer mantissa *)

Lemma iter_xO (m d : positive) : Zpos (Pos.iter xO m d) = (Zpos m * 2 ^ Zpos d)%Z.
Proof.
  induction d as [ | d IH] using Pos.peano_ind.
  - simpl. lia.
  - rewrite Pos.iter_succ, Pos2Z.inj_xO, IH, Pos2Z.inj_succ, Z.pow_succ_r by lia. ring.
Qed.

(** [shl_align] shifts the mantissa to the left down to the exponent [e']. *)
Lemma shl_align_spec (m : positive) (e e' : Z) :
  exists k, (0 <= k)%Z /\
    shl_align m e e' = (Z.to_pos (Zpos m * 2 ^ k), (e - k)%Z) /\
    (e - k = Z.min e e')%Z.
Proof.
  unfold shl_align. destruct (e' - e)%Z as [ | d | d] eqn:Ed.
  - exists 0%Z. split; [lia | ]. split; [ | lia].
    rewrite Z.mul_1_r, Z.sub_0_r. reflexivity.
  - exists 0%Z. split; [lia | ]. split; [ | lia].
    rewrite Z.mul_1_r, Z.sub_0_r. reflexivity.
  - exists (Zpos d). split; [lia | ]. split; [ | lia].
    rewrite <- iter_xO. simpl Z.to_pos. f_equal. lia.
Qed.

Lemma Zdigits2_shift (m k : Z) :
  (0 < m)%Z -> (0 <= k)%Z -> Zdigits2 (m * 2 ^ k) = (Zdigits2 m + k)%Z.
Proof.
  intros Hm Hk. destruct (Zdigits2_bounds m Hm) as [[Hl Hu] Hd].
  assert (Hp : (0 < 2 ^ k)%Z) by (apply Z.pow_pos_nonneg; lia).
  apply Zdigits2_unique; [ | lia].
  replace (Zdigits2 m + k - 1)%Z with (Zdigits2 m - 1 + k)%Z by lia.
  rewrite !Z.pow_add_r by lia. nia.
Qed.

(** [binary_round] is correct for every mantissa and exponent. *)
Lemma binary_round_result (sx : bool) (mx : positive) (ex : Z) :
  result_of (signed sx (F2R (Zpos mx) ex)) (binary_round prec emax sx mx ex).
Proof.
  unfold binary_round.
  destruct (shl_align_spec mx ex (fexp prec emax (Zpos (digits2_pos mx) + ex)))
    as (k & Hk & -> & Hmin).
  change (Z.pos (digits2_pos mx)) with (Zdigits2 (Zpos mx)) in Hmin.
  assert (Hp : (0 < 2 ^ k)%Z) by (apply Z.pow_pos_nonneg; lia).
  assert (Hpos : (0 < Zpos mx * 2 ^ k)%Z) by lia.
  replace (F2R (Zpos mx) ex)
    with (IZR (Z.pos (Z.to_pos (Zpos mx * 2 ^ k))) * bpow (ex - k)).
  2:{ rewrite Z2Pos.id by exact Hpos. rewrite (F2R_shift (Zpos mx) ex (ex - k)) by lia.
      replace (ex - (ex - k))%Z with k by lia. reflexivity. }
  apply binary_round_aux_result; [lia | reflexivity | ].
  rewrite Z2Pos.id by exact Hpos.
  rewrite Zdigits2_shift by lia.
  replace (Zdigits2 (Zpos mx) + k + (ex - k))%Z with (Zdigits2 (Zpos mx) + ex)%Z by lia.
  lia.
Qed.

Lemma binary_normalize_result (m e : Z) (sz : bool) :
  result_of (F2R m e) (binary_normalize prec emax m e sz).
Proof.
  destruct m as [ | p | p]; simpl binary_normalize.
  - unfold F2R. rewrite Rmult_0_l. apply result_of_zero.
  - apply (binary_round_result false).
  - replace (F2R (Zneg p) e) with (signed true (F2R (Zpos p) e)).
    + apply binary_round_result.
    + unfold F2R. simpl. change (Zneg p) with (- Zpos p)%Z. rewrite opp_IZR. ring.
Qed.

(** *** Addition and subtraction *)

Lemma shl_align_fst (m : positive) (e e' : Z) :
  (e' <= e)%Z -> F2R (Zpos (fst (shl_align m e e'))) e' = F2R (Zpos m) e.
Proof.
  intros Hle. destruct (shl_align_spec m e e') as (k & Hk & -> & Hmin). cbn [fst].
  assert (Hp : (0 < 2 ^ k)%Z) by (apply Z.pow_pos_nonneg; lia).
  rewrite Z2Pos.id by lia.
  rewrite (F2R_shift (Zpos m) e e') by lia.
  replace (e - e')%Z with k by lia. reflexivity.
Qed.

Lemma F2R_cond_Zopp (s : bool) (m e : Z) : F2R (cond_Zopp s m) e = signed s (F2R m e).
Proof. destruct s; simpl; unfold F2R; [rewrite opp_IZR; ring | reflexivity]. Qed.

Lemma F2R_plus (a b e : Z) : F2R (a + b) e = F2R a e + F2R b e.
Proof. unfold F2R. rewrite plus_IZR. ring. Qed.

Lemma F2R_minus (a b e : Z) : F2R (a - b) e = F2R a e - F2R b e.
Proof. unfold F2R. rewrite minus_IZR. ring. Qed.

Lemma fin_opp (x : spec_float) : fin x -> fin (SFopp x).
Proof. intros [Hf Hv]. destruct x; simpl in *; try discriminate; split; auto. Qed.

Lemma B2R_opp (x : spec_float) : B2R (SFopp x) = - B2R x.
Proof. destruct x as [s | s | | s m e]; simpl; try lra. destruct s; simpl; lra. Qed.

Lemma fin_abs (x : spec_float) : fin x -> fin (SFabs x).
Proof. intros [Hf Hv]. destruct x; simpl in *; try discriminate; split; auto. Qed.

Lemma F2R_pos (m : positive) (e : Z) : 0 < F2R (Zpos m) e.
Proof.
  unfold F2R. pose proof (bpow_pos e).
  assert (0 < IZR (Zpos m)) by (apply IZR_lt; lia). nra.
Qed.

Lemma B2R_abs (x : spec_float) : B2R (SFabs x) = Rabs (B2R x).
Proof.
  destruct x as [s | s | | s m e]; simpl; rewrite ?Rabs_R0; try reflexivity.
  pose proof (F2R_pos m e). destruct s; split_Rabs; lra.
Qed.

(** The sum and the difference of two finite numbers are correctly rounded. *)
Lemma SFadd_result (x y : spec_float) :
  fin x -> fin y -> result_of (B2R x + B2R y) (SFadd prec emax x y).
Proof.
  intros Hx Hy. pose proof Hx as [Hfx Hvx]. pose proof Hy as [Hfy Hvy].
  destruct x as [sx | sx | | sx mx ex]; try discriminate;
    destruct y as [sy | sy | | sy my ey]; try discriminate.
  - simpl B2R. rewrite Rplus_0_l.
    destruct sx, sy; simpl; apply result_of_zero.
  - change (B2R (S754_zero sx)) with 0. rewrite Rplus_0_l.
    apply (result_of_fin _ Hy).
  - change (B2R (S754_zero sy)) with 0. rewrite Rplus_0_r.
    apply (result_of_fin _ Hx).
  - unfold SFadd. rewrite !B2R_finite.
    rewrite <- (shl_align_fst mx ex (Z.min ex ey)) by lia.
    rewrite <- (shl_align_fst my ey (Z.min ex ey)) by lia.
    rewrite <- !F2R_cond_Zopp, <- F2R_plus.
    apply binary_normalize_result.
Qed.

Lemma SFsub_result (x y : spec_float) :
  fin x -> fin y -> result_of (B2R x - B2R y) (SFsub prec emax x y).
Proof.
  intros Hx Hy. pose proof Hx as [Hfx Hvx]. pose proof Hy as [Hfy Hvy].
  destruct x as [sx | sx | | sx mx ex]; try discriminate;
    destruct y as [sy | sy | | sy my ey]; try discriminate.
  - simpl B2R. rewrite Rminus_0_r.
    destruct sx, sy; simpl; apply result_of_zero.
  - change (B2R (S754_zero sx)) with 0.
    replace (0 - B2R (S754_finite sy my ey)) with (B2R (SFopp (S754_finite sy my ey)))
      by (rewrite B2R_opp; lra).
    apply (result_of_fin _ (fin_opp _ Hy)).
  - change (B2R (S754_zero sy)) with 0. rewrite Rminus_0_r.
    apply (result_of_fin _ Hx).
  - unfold SFsub. rewrite !B2R_finite.
    rewrite <- (shl_align_fst mx ex (Z.min ex ey)) by lia.
    rewrite <- (shl_align_fst my ey (Z.min ex ey)) by lia.
    rewrite <- !F2R_cond_Zopp, <- F2R_minus.
    apply binary_normalize_result.
Qed.

(** *** Division *)

(** [new_location n k] is the position of [q + k / n] above [q]. *)
Lemma new_location_located (n k q : Z) :
  (0 < n)%Z -> (0 <= k < n)%Z ->
  located (IZR q + IZR k / IZR n) q (new_location n k).
Proof.
  intros Hn Hk.
  assert (HnR : 0 < IZR n) by (apply IZR_lt; lia).
  assert (HkR : 0 <= IZR k) by (apply IZR_le; lia).
  assert (Hdiv : forall a, a * IZR n / IZR n = a) by (intros a; field; lra).
  assert (Hlt : forall a b : R, a < b * IZR n -> a / IZR n < b).
  { intros a b H. apply (Rmult_lt_reg_r (IZR n)); [exact HnR | ].
    unfold Rdiv. rewrite Rmult_assoc, Rinv_l by lra. lra. }
  assert (Hgt : forall a b : R, b * IZR n < a -> b < a / IZR n).
  { intros a b H. apply (Rmult_lt_reg_r (IZR n)); [exact HnR | ].
    unfold Rdiv. rewrite Rmult_assoc, Rinv_l by lra. lra. }
  assert (Hk1 : IZR k / IZR n < 1).
  { apply Hlt. rewrite Rmult_1_l. apply IZR_lt. lia. }
  assert (Hk0R : k <> 0%Z -> 0 < IZR k / IZR n).
  { intros Hk0. apply Hgt. rewrite Rmult_0_l. apply IZR_lt. lia. }
  unfold new_location.
  destruct (Z.even n) eqn:Hev; unfold new_location_even, new_location_odd;
    (destruct (Z.eqb_spec k 0) as [-> | Hk0];
     [simpl; unfold Rdiv; rewrite Rmult_0_l; lra | specialize (Hk0R Hk0)]).
  - destruct (Z.compare_spec (2 * k) n) as [E | L | G]; simpl.
    + subst n. rewrite mult_IZR.
      assert (IZR k <> 0) by (apply not_0_IZR; exact Hk0). field. assumption.
    + split; [lra | ]. apply Rplus_lt_compat_l. apply Hlt.
      apply IZR_lt in L. rewrite mult_IZR in L. lra.
    + split; [ | lra]. apply Rplus_lt_compat_l. apply Hgt.
      apply IZR_lt in G. rewrite mult_IZR in G. lra.
  - assert (Hodd : (2 * k <> n)%Z).
    { intros E. subst n. rewrite Z.even_mul in Hev. discriminate. }
    destruct (Z.compare_spec (2 * k + 1) n) as [E | L | G]; simpl.
    + split; [lra | ]. apply Rplus_lt_compat_l. apply Hlt.
      assert (L : (2 * k < n)%Z) by lia.
      apply IZR_lt in L. rewrite mult_IZR in L. lra.
    + split; [lra | ]. apply Rplus_lt_compat_l. apply Hlt.
      assert (L' : (2 * k < n)%Z) by lia.
      apply IZR_lt in L'. rewrite mult_IZR in L'. lra.
    + split; [ | lra]. apply Rplus_lt_compat_l. apply Hgt.
      assert (G' : (n < 2 * k)%Z) by lia.
      apply IZR_lt in G'. rewrite mult_IZR in G'. lra.
Qed.

Lemma shift_mantissa (m s : Z) :
  (0 <= s)%Z ->
  match s with
  | Zpos _ => Z.shiftl m s
  | Z0 => m
  | Zneg _ => 0%Z
  end = (m * 2 ^ s)%Z.
Proof.
  intros Hs. destruct s as [ | p | p]; [ | | lia].
  - rewrite Z.mul_1_r. reflexivity.
  - apply Z.shiftl_mul_pow2. lia.
Qed.

(** The integer quotient of [SFdiv_core_binary], its exponent and the
    position of the real quotient. *)
Lemma SFdiv_core_binary_spec (m1 m2 : positive) (e1 e2 : Z) :
  let '(q, e', l) := SFdiv_core_binary prec emax (Zpos m1) e1 (Zpos m2) e2 in
  (0 <= q)%Z /\
  located (F2R (Zpos m1) e1 / F2R (Zpos m2) e2 * bpow (- e')) q l /\
  (e' <= fexp prec emax (Zdigits2 q + e'))%Z.
Proof.
  unfold SFdiv_core_binary.
  set (d1 := Zdigits2 (Zpos m1)). set (d2 := Zdigits2 (Zpos m2)).
  set (e' := Z.min (fexp prec emax (d1 + e1 - (d2 + e2))) (e1 - e2)).
  set (s := (e1 - e2 - e')%Z).
  assert (Hs : (0 <= s)%Z) by (unfold s, e'; lia).
  rewrite (shift_mantissa (Zpos m1) s Hs).
  assert (Hp : (0 < 2 ^ s)%Z) by (apply Z.pow_pos_nonneg; lia).
  pose proof (Z_div_mod (Zpos m1 * 2 ^ s) (Zpos m2) ltac:(lia)) as Hdiv.
  destruct (Z.div_eucl (Zpos m1 * 2 ^ s) (Zpos m2)) as [q r].
  destruct Hdiv as [Eq Hr].
  assert (Hq : (0 <= q)%Z) by nia.
  split; [exact Hq | ]. split.
  - replace (F2R (Zpos m1) e1 / F2R (Zpos m2) e2 * bpow (- e'))
      with (IZR q + IZR r / IZR (Zpos m2)).
    + apply new_location_located; lia.
    + unfold F2R.
      assert (H2 : 0 < IZR (Zpos m2)) by (apply IZR_lt; lia).
      pose proof (bpow_pos e2) as Hb2. pose proof (bpow_pos e') as Hb'.
      assert (E1 : bpow e1 = bpow s * bpow e2 * bpow e').
      { rewrite <- !bpow_add. f_equal. unfold s. lia. }
      rewrite E1, bpow_opp.
      assert (Em : IZR (Zpos m1) * bpow s = IZR (Zpos m2) * IZR q + IZR r).
      { rewrite bpow_IZR by exact Hs.
        rewrite <- !mult_IZR, <- plus_IZR. f_equal. exact Eq. }
      field_simplify; [ | lra | lra].
      replace (IZR (Z.pos m1) * bpow s ^ 2 * bpow e2 * bpow e')
        with ((IZR (Zpos m1) * bpow s) * (bpow s * bpow e2 * bpow e')) by ring.
      rewrite Em. field. pose proof (bpow_pos s). lra.
  - destruct (Z_le_gt_dec e' emin) as [Hle | Hgt].
    { pose proof (fexp_ge_emin (Zdigits2 q + e')). lia. }
    assert (HD : (e' <= d1 + e1 - (d2 + e2) - 24)%Z).
    { unfold e' in Hgt |- *. rewrite fexp_eq in *. lia. }
    destruct (Zdigits2_bounds (Zpos m1) ltac:(lia)) as [[Hl1 _] Hd1].
    destruct (Zdigits2_bounds (Zpos m2) ltac:(lia)) as [[_ Hu2] Hd2].
    fold d1 in Hl1, Hd1. fold d2 in Hu2, Hd2.
    set (n := (d1 - d2 + s)%Z).
    assert (Hn : (24 <= n)%Z) by (unfold n, s; lia).
    assert (Hq2 : (2 ^ (n - 1) <= q)%Z).
    { assert (Hm' : (2 ^ (n - 1) * 2 ^ d2 <= Zpos m1 * 2 ^ s)%Z).
      { rewrite <- Z.pow_add_r by lia.
        replace (n - 1 + d2)%Z with (d1 - 1 + s)%Z by (unfold n; lia).
        rewrite Z.pow_add_r by lia. nia. }
      assert (Hpn : (0 < 2 ^ (n - 1))%Z) by (apply Z.pow_pos_nonneg; lia).
      destruct (Z_le_gt_dec (2 ^ (n - 1)) q) as [H | H]; [exact H | exfalso].
      assert (q + 1 <= 2 ^ (n - 1))%Z by lia. nia. }
    pose proof (Zdigits2_gt q (n - 1) ltac:(lia) Hq2) as Hdq.
    rewrite fexp_eq. unfold n, s in Hdq. lia.
Qed.

Lemma signed_div (s1 s2 : bool) (a b : R) :
  b <> 0 -> signed (xorb s1 s2) (a / b) = signed s1 a / signed s2 b.
Proof. intros Hb. destruct s1, s2; simpl; field; exact Hb. Qed.

(** The quotient of two finite numbers, the divisor not zero, is correctly
    rounded. *)
Lemma SFdiv_result (x y : spec_float) :
  fin x -> fin y -> is_zero y = false ->
  result_of (B2R x / B2R y) (SFdiv prec emax x y).
Proof.
  intros [Hfx Hvx] [Hfy Hvy] Hy0.
  destruct x as [sx | sx | | sx mx ex]; try discriminate;
    destruct y as [sy | sy | | sy my ey]; try discriminate.
  - simpl B2R. unfold Rdiv. rewrite Rmult_0_l. apply result_of_zero.
  - rewrite !B2R_finite. pose proof (F2R_pos my ey) as Hpy.
    rewrite <- signed_div by lra. unfold SFdiv.
    pose proof (SFdiv_core_binary_spec mx my ex ey) as H.
    destruct (SFdiv_core_binary prec emax (Zpos mx) ex (Zpos my) ey) as [[mz ez] lz].
    destruct H as (Hq & Hloc & Hexp).
    replace (F2R (Zpos mx) ex / F2R (Zpos my) ey)
      with (F2R (Zpos mx) ex / F2R (Zpos my) ey * bpow (- ez) * bpow ez).
    + apply binary_round_aux_result; assumption.
    + rewrite Rmult_assoc, <- bpow_add. replace (- ez + ez)%Z with 0%Z by lia.
      rewrite bpow_0. ring.
Qed.

(** *** Square root *)

Lemma sqrt_gt (a b : R) : 0 <= a -> a * a < b -> a < sqrt b.
Proof.
  intros Ha H. rewrite <- (sqrt_square a Ha). apply sqrt_lt_1_alt. nra.
Qed.

Lemma sqrt_lt (a b : R) : 0 <= a -> 0 <= b -> b < a * a -> sqrt b < a.
Proof.
  intros Ha Hb H. rewrite <- (sqrt_square a Ha). apply sqrt_lt_1_alt. lra.
Qed.

(** The integer square root of [SFsqrt_core_binary], its exponent and the
    position of the real square root. *)
Lemma SFsqrt_core_binary_spec (m : positive) (e : Z) :
  let '(q, e', l) := SFsqrt_core_binary prec emax (Zpos m) e in
  (0 <= q)%Z /\
  located (sqrt (F2R (Zpos m) e) * bpow (- e')) q l /\
  (e' <= fexp prec emax (Zdigits2 q + e'))%Z.
Proof.
  unfold SFsqrt_core_binary.
  set (d := Zdigits2 (Zpos m)).
  set (D := Z.div2 (d + e + 1)).
  set (e' := Z.min (fexp prec emax D) (Z.div2 e)).
  set (s := (e - 2 * e')%Z).
  assert (HD : (2 * D <= d + e + 1)%Z).
  { unfold D. rewrite Z.div2_div. Z.to_euclidean_division_equations. lia. }
  assert (Hs : (0 <= s)%Z).
  { unfold s, e'. pose proof (Z.div2_div e) as E. rewrite E.
    Z.to_euclidean_division_equations. lia. }
  rewrite (shift_mantissa (Zpos m) s Hs).
  assert (Hp : (0 < 2 ^ s)%Z) by (apply Z.pow_pos_nonneg; lia).
  pose proof (Z.sqrtrem_spec (Zpos m * 2 ^ s) ltac:(lia)) as Hsq.
  destruct (Z.sqrtrem (Zpos m * 2 ^ s)) as [q r].
  destruct Hsq as [Eq Hr].
  assert (Hq : (0 <= q)%Z) by lia.
  assert (HqR : 0 <= IZR q) by (apply IZR_le; exact Hq).
  split; [exact Hq | ]. split.
  - assert (Ev : sqrt (F2R (Zpos m) e) * bpow (- e') = sqrt (IZR (q * q + r))).
    { rewrite <- Eq.
      pose proof (bpow_pos (- e')) as Hb.
      rewrite <- (sqrt_square (bpow (- e'))) at 1 by lra.
      rewrite <- sqrt_mult_alt by (pose proof (F2R_pos m e); lra).
      f_equal. unfold F2R. rewrite mult_IZR, <- bpow_IZR by exact Hs.
      rewrite Rmult_assoc, <- !bpow_add. do 2 f_equal. unfold s. lia. }
    rewrite Ev. rewrite plus_IZR, mult_IZR.
    assert (HrR : 0 <= IZR r) by (apply IZR_le; lia).
    destruct (Z.eqb_spec r 0) as [-> | Hr0].
    { simpl. rewrite Rplus_0_r. apply sqrt_square. exact HqR. }
    assert (Hrpos : 0 < IZR r) by (apply IZR_lt; lia).
    assert (Hup : IZR r < 2 * IZR q + 1).
    { rewrite <- mult_IZR, <- plus_IZR. apply IZR_lt. lia. }
    destruct (Z.leb_spec r q) as [Hle | Hgt]; simpl.
    + apply IZR_le in Hle. split.
      * apply sqrt_gt; [exact HqR | lra].
      * apply sqrt_lt; [lra | nra | nra].
    + assert (Hgt' : IZR q + 1 <= IZR r).
      { rewrite <- plus_IZR. apply IZR_le. lia. }
      split.
      * apply sqrt_gt; [lra | nra].
      * apply sqrt_lt; [lra | nra | nra].
  - destruct (Z_le_gt_dec e' emin) as [Hle | Hgt].
    { pose proof (fexp_ge_emin (Zdigits2 q + e')). lia. }
    assert (HDe : (e' <= D - 24)%Z).
    { unfold e' in Hgt |- *. rewrite fexp_eq in *. lia. }
    destruct (Zdigits2_bounds (Zpos m) ltac:(lia)) as [[Hl _] Hd]. fold d in Hl, Hd.
    set (n := (D - e')%Z).
    assert (Hn : (24 <= n)%Z) by (unfold n; lia).
    assert (Hq2 : (2 ^ (n - 1) <= q)%Z).
    { assert (Hm' : (2 ^ (n - 1) * 2 ^ (n - 1) <= Zpos m * 2 ^ s)%Z).
      { rewrite <- Z.pow_add_r by lia.
        assert (H1 : (2 ^ (n - 1 + (n - 1)) <= 2 ^ (d - 1 + s))%Z).
        { apply Z.pow_le_mono_r; [lia | ]. unfold n, s. lia. }
        assert (H2 : (2 ^ (d - 1 + s) = 2 ^ (d - 1) * 2 ^ s)%Z)
          by (apply Z.pow_add_r; lia).
        assert (H3 : (2 ^ (d - 1) * 2 ^ s <= Zpos m * 2 ^ s)%Z)
          by (apply Z.mul_le_mono_nonneg_r; lia).
        lia. }
      assert (Hpn : (0 < 2 ^ (n - 1))%Z) by (apply Z.pow_pos_nonneg; lia).
      destruct (Z_le_gt_dec (2 ^ (n - 1)) q) as [H | H]; [exact H | exfalso].
      assert (q + 1 <= 2 ^ (n - 1))%Z by lia. nia. }
    pose proof (Zdigits2_gt q (n - 1) ltac:(lia) Hq2) as Hdq.
    rewrite fexp_eq. unfold n in Hdq. lia.
Qed.

(** The square root of a finite non-negative number is correctly rounded. *)
Lemma SFsqrt_result (x : spec_float) :
  fin x -> 0 <= B2R x -> result_of (sqrt (B2R x)) (SFsqrt prec emax x).
Proof.
  intros Hx Hpos. pose proof Hx as [Hfx Hvx].
  destruct x as [sx | sx | | sx mx ex]; try discriminate.
  - simpl B2R. rewrite sqrt_0. apply (result_of_zero sx).
  - destruct sx.
    { exfalso. simpl in Hpos. pose proof (F2R_pos mx ex). lra. }
    unfold SFsqrt. rewrite B2R_finite. simpl signed.
    pose proof (SFsqrt_core_binary_spec mx ex) as H.
    destruct (SFsqrt_core_binary prec emax (Zpos mx) ex) as [[mz ez] lz].
    destruct H as (Hq & Hloc & Hexp).
    replace (sqrt (F2R (Zpos mx) ex))
      with (signed false (sqrt (F2R (Zpos mx) ex) * bpow (- ez) * bpow ez)).
    + apply binary_round_aux_result; assumption.
    + simpl. rewrite Rmult_assoc, <- bpow_add. replace (- ez + ez)%Z with 0%Z by lia.
      rewrite bpow_0. ring.
Qed.

(** *** Comparison *)

(** In canonical form a smaller exponent means a smaller magnitude. *)
Lemma canonical_lt (m1 m2 : positive) (e1 e2 : Z) :
  bounded prec emax m1 e1 = true -> bounded prec emax m2 e2 = true ->
  (e1 < e2)%Z -> F2R (Zpos m1) e1 < F2R (Zpos m2) e2.
Proof.
  intros H1 H2 Hlt.
  destruct (bounded_inv m1 e1 H1) as (He1 & Hm1 & _ & _).
  destruct (bounded_inv m2 e2 H2) as (He2 & _ & Hn2 & _).
  destruct Hn2 as [E | H23]; [lia | ].
  unfold F2R.
  assert (A : IZR (Zpos m1) < bpow 24) by (rewrite bpow_IZR by lia; apply IZR_lt; exact Hm1).
  assert (B : bpow 23 <= IZR (Zpos m2)) by (rewrite bpow_IZR by lia; apply IZR_le; exact H23).
  assert (C : bpow (e1 + 1) <= bpow e2) by (apply bpow_le; lia).
  rewrite bpow_succ in C. pose proof (bpow_succ 23) as E24. simpl in E24.
  pose proof (bpow_pos e1). pose proof (bpow_pos e2). pose proof (bpow_pos 23).
  apply Rlt_le_trans with (bpow 24 * bpow e1); [nra | ].
  apply Rle_trans with (bpow 23 * bpow e2); [nra | nra].
Qed.

Lemma magnitude_compare (m1 m2 : positive) (e1 e2 : Z) :
  bounded prec emax m1 e1 = true -> bounded prec emax m2 e2 = true ->
  compare_holds (Some match Z.compare e1 e2 with
                      | Lt => Lt
                      | Gt => Gt
                      | Eq => Pos.compare_cont Eq m1 m2
                      end)
                (F2R (Zpos m1) e1) (F2R (Zpos m2) e2).
Proof.
  intros H1 H2. destruct (Z.compare_spec e1 e2) as [E | L | G].
  - subst e2. change (Pos.compare_cont Eq m1 m2) with (Pos.compare m1 m2).
    pose proof (bpow_pos e1). unfold F2R.
    destruct (Pos.compare_spec m1 m2) as [Em | Lm | Gm]; simpl.
    + subst m2. reflexivity.
    + assert (IZR (Zpos m1) < IZR (Zpos m2)) by (apply IZR_lt; lia). nra.
    + assert (IZR (Zpos m2) < IZR (Zpos m1)) by (apply IZR_lt; lia). nra.
  - simpl. apply canonical_lt; assumption.
  - simpl. apply canonical_lt; assumption.
Qed.

(** On finite numbers [SFcompare] is the comparison of the real values. *)
Lemma SFcompare_holds (x y : spec_float) :
  fin x -> fin y -> compare_holds (SFcompare x y) (B2R x) (B2R y).
Proof.
  intros [Hfx Hvx] [Hfy Hvy].
  destruct x as [sx | sx | | sx mx ex]; try discriminate;
    destruct y as [sy | sy | | sy my ey]; try discriminate.
  - reflexivity.
  - pose proof (F2R_pos my ey). destruct sy; simpl; lra.
  - pose proof (F2R_pos mx ex). destruct sx; simpl; lra.
  - pose proof (F2R_pos mx ex). pose proof (F2R_pos my ey).
    simpl in Hvx, Hvy.
    pose proof (magnitude_compare mx my ex ey Hvx Hvy) as H1.
    destruct sx, sy; simpl SFcompare; simpl B2R; try (simpl; lra).
    + destruct (ex ?= ey)%Z; [ | simpl in *; lra | simpl in *; lra].
      destruct (Pos.compare_cont Eq mx my); simpl in *; lra.
    + exact H1.
Qed.

Lemma SFltb_true (x y : spec_float) :
  fin x -> fin y -> SFltb x y = true -> B2R x < B2R y.
Proof.
  intros Hx Hy. pose proof (SFcompare_holds x y Hx Hy) as H. unfold SFltb.
  destruct (SFcompare x y) as [[ | | ] | ]; simpl in H; try discriminate. auto.
Qed.

Lemma SFltb_false (x y : spec_float) :
  fin x -> fin y -> SFltb x y = false -> B2R y <= B2R x.
Proof.
  intros Hx Hy. pose proof (SFcompare_holds x y Hx Hy) as H. unfold SFltb.
  destruct (SFcompare x y) as [[ | | ] | ]; simpl in H; try discriminate;
    intros _; try lra; contradiction.
Qed.

Lemma SFleb_true (x y : spec_float) :
  fin x -> fin y -> SFleb x y = true -> B2R x <= B2R y.
Proof.
  intros Hx Hy. pose proof (SFcompare_holds x y Hx Hy) as H. unfold SFleb.
  destruct (SFcompare x y) as [[ | | ] | ]; simpl in H; try discriminate;
    intros _; lra.
Qed.

Lemma SFleb_false (x y : spec_float) :
  fin x -> fin y -> SFleb x y = false -> B2R y < B2R x.
Proof.
  intros Hx Hy. pose proof (SFcompare_holds x y Hx Hy) as H. unfold SFleb.
  destruct (SFcompare x y) as [[ | | ] | ]; simpl in H; try discriminate;
    intros _; try lra; contradiction.
Qed.

Lemma B2R_zero_iff (x : spec_float) : fin x -> (B2R x = 0 <-> is_zero x = true).
Proof.
  intros [Hf _]. destruct x as [s | s | | s m e]; try discriminate; simpl.
  - split; auto.
  - pose proof (F2R_pos m e). split; [ | discriminate].
    destruct s; simpl; lra.
Qed.

(** *** Conversion to an integer *)

(** The conversion of a non-negative finite number below [2^31] to [int]
    is the integer part of its value. *)
Lemma b32_to_int_floor (f : spec_float) :
  fin f -> 0 <= B2R f -> B2R f < bpow 31 ->
  exists z, b32_to_int f = Some z /\ (0 <= z)%Z /\ IZR z <= B2R f < IZR z + 1.
Proof.
  intros [Hf Hv] H0 H31.
  destruct f as [s | s | | s m e]; try discriminate.
  - exists 0%Z. simpl. split; [reflexivity | ]. split; [lia | lra].
  - destruct s.
    { exfalso. simpl in H0. pose proof (F2R_pos m e). lra. }
    simpl in H0, H31. unfold b32_to_int, truncate.
    set (z := match e with
              | Z.neg p => Z.shiftr (Z.pos m) (Z.pos p)
              | _ => Z.shiftl (Z.pos m) e
              end).
    assert (Hz : (0 <= z)%Z /\ IZR z <= F2R (Zpos m) e < IZR z + 1).
    { unfold z, F2R. destruct e as [ | p | p].
      - simpl. rewrite bpow_0. split; [lia | lra].
      - rewrite Z.shiftl_mul_pow2 by lia. rewrite mult_IZR, <- bpow_IZR by lia.
        split; [ | lra].
        assert (0 < 2 ^ Zpos p)%Z by (apply Z.pow_pos_nonneg; lia). lia.
      - rewrite Z.shiftr_div_pow2 by lia.
        assert (Hp : (0 < 2 ^ Zpos p)%Z) by (apply Z.pow_pos_nonneg; lia).
        pose proof (Z_div_mod_eq_full (Zpos m) (2 ^ Zpos p)) as Ed.
        pose proof (Z.mod_pos_bound (Zpos m) (2 ^ Zpos p) Hp) as Hr.
        set (q := (Zpos m / 2 ^ Zpos p)%Z) in *.
        set (r := (Zpos m mod 2 ^ Zpos p)%Z) in *.
        assert (Hq : (0 <= q)%Z) by (apply Z.div_pos; lia).
        split; [exact Hq | ].
        change (Z.neg p) with (- Zpos p)%Z. rewrite bpow_opp, bpow_IZR by lia.
        assert (HpR : 0 < IZR (2 ^ Zpos p)) by (apply IZR_lt; exact Hp).
        rewrite Ed, plus_IZR, mult_IZR.
        assert (0 <= IZR r) by (apply IZR_le; lia).
        assert (IZR r < IZR (2 ^ Zpos p)) by (apply IZR_lt; lia).
        remember (IZR (2 ^ Zpos p)) as P eqn:EP.
        replace ((P * IZR q + IZR r) * / P) with (IZR q + IZR r / P) by (field; lra).
        assert (0 <= IZR r / P) by (apply Rmult_le_pos; [lra | left; apply Rinv_0_lt_compat; lra]).
        assert (IZR r / P < 1).
        { apply (Rmult_lt_reg_r P); [lra | ]. unfold Rdiv.
          rewrite Rmult_assoc, Rinv_l by lra. lra. }
        lra. }
    destruct Hz as [Hz0 Hzb].
    assert (Hin : in_int z = true).
    { unfold in_int, INT_MIN, INT_MAX. apply andb_true_intro. split; [apply Z.leb_le; lia | ].
      apply Z.leb_le. assert (IZR z < bpow 31) by lra.
      apply IZR_lt_bpow in H; lia. }
    rewrite Hin. exists z. simpl. auto.
Qed.

(** *** Bounds and exact results *)

Lemma format_IZR (k : Z) : (Z.abs k <= 2 ^ 24)%Z -> format (IZR k).
Proof.
  intros Hk. replace (IZR k) with (F2R k 0) by (unfold F2R; rewrite bpow_0; ring).
  apply format_F2R; unfold emin; lia.
Qed.

Lemma format_bpow (e : Z) : (emin <= e)%Z -> format (bpow e).
Proof.
  intros He. replace (bpow e) with (F2R 1 e) by (unfold F2R; ring).
  apply format_F2R; lia.
Qed.

Lemma format_scale (f : R) (k : Z) : (0 <= k)%Z -> format f -> format (f * bpow k).
Proof.
  intros Hk (m & e & -> & Hm & He). exists m, (e + k)%Z.
  split; [unfold F2R; rewrite bpow_add; ring | ]. split; [exact Hm | lia].
Qed.

Lemma format_grid_emin (f : R) : format f -> exists k, f = IZR k * bpow emin.
Proof.
  intros (m & e & -> & _ & He). exists (m * 2 ^ (e - emin))%Z.
  apply (F2R_shift m e emin He).
Qed.

Lemma bpow_127_128 : bpow 127 < bpow 128.
Proof. apply bpow_lt. lia. Qed.

(** Rounding is monotone: a result is finite and stays between two values
    of the format that bound its real argument. *)
Lemma result_bounds (xr : R) (r : spec_float) (lo hi : R) :
  result_of xr r -> format lo -> format hi -> lo <= xr <= hi ->
  - bpow 127 <= lo -> hi <= bpow 127 ->
  fin r /\ lo <= B2R r <= hi /\ rounded xr (B2R r).
Proof.
  intros Hres Hlo Hhi Hx Hl Hh.
  assert (Habs : Rabs xr <= bpow 127) by (split_Rabs; lra).
  destruct (result_finite xr r (bpow 127) Hres (format_bpow 127 ltac:(unfold emin; lia))
              Habs bpow_127_128) as [Hfin Hr].
  split; [exact Hfin | ]. split; [ | exact Hr].
  destruct Hr as [Hn _]. split.
  - apply (nearest_ge_lower _ _ _ Hn Hlo). lra.
  - apply (nearest_le_upper _ _ _ Hn Hhi). lra.
Qed.

(** A real result that is itself in the format is returned unchanged. *)
Lemma result_exact (xr : R) (r : spec_float) :
  result_of xr r -> format xr -> Rabs xr <= bpow 127 ->
  fin r /\ B2R r = xr.
Proof.
  intros Hres Hfmt Habs.
  destruct (result_finite xr r (bpow 127) Hres (format_bpow 127 ltac:(unfold emin; lia))
              Habs bpow_127_128) as [Hfin [Hn _]].
  split; [exact Hfin | ]. apply nearest_exact; assumption.
Qed.

(** A rounded value is zero only for an argument below half the smallest
    positive value. *)
Lemma rounded_zero (xr : R) : rounded xr 0 -> Rabs xr <= bpow emin / 2.
Proof.
  intros [[_ Hn] _].
  pose proof (Hn _ (format_bpow emin ltac:(lia))) as H1.
  pose proof (Hn _ (format_opp _ (format_bpow emin ltac:(lia)))) as H2.
  pose proof (bpow_pos emin). split_Rabs; lra.
Qed.

Lemma grid_small_zero (f : R) : format f -> Rabs f <= bpow emin / 2 -> f = 0.
Proof.
  intros Hf Hs. destruct (format_grid_emin f Hf) as [k ->].
  pose proof (bpow_pos emin) as Hb.
  destruct (Z.eq_dec k 0) as [-> | Hk]; [ring | exfalso].
  assert (1 <= Rabs (IZR k)).
  { rewrite <- abs_IZR. apply IZR_le. lia. }
  rewrite Rabs_mult, (Rabs_pos_eq (bpow emin)) in Hs by lra. nra.
Qed.

(** A difference of two values of the format that rounds to zero is zero. *)
Lemma rounded_diff_zero (a b : R) :
  format a -> format b -> rounded (a - b) 0 -> a = b.
Proof.
  intros Ha Hb Hr. apply rounded_zero in Hr.
  destruct (format_grid_emin a Ha) as [ka Ea].
  destruct (format_grid_emin b Hb) as [kb Eb].
  pose proof (bpow_pos emin) as Hp.
  destruct (Z.eq_dec ka kb) as [E | Hk]; [subst; reflexivity | exfalso].
  assert (1 <= Rabs (IZR (ka - kb))).
  { rewrite <- abs_IZR. apply IZR_le. lia. }
  rewrite Ea, Eb in Hr.
  replace (IZR ka * bpow emin - IZR kb * bpow emin) with (IZR (ka - kb) * bpow emin) in Hr
    by (rewrite minus_IZR; ring).
  rewrite Rabs_mult, (Rabs_pos_eq (bpow emin)) in Hr by lra. nra.
Qed.

(** A product with a factor of magnitude at least one rounds to zero only
    when the other factor is zero. *)
Lemma rounded_mult_zero (a b : R) :
  1 <= Rabs a -> format b -> rounded (a * b) 0 -> b = 0.
Proof.
  intros Ha Hb Hr. apply rounded_zero in Hr.
  apply grid_small_zero; [exact Hb | ].
  rewrite Rabs_mult in Hr. pose proof (Rabs_pos b). nra.
Qed.

(** The error of a rounding: [2^-24] relative to the argument, or half the
    smallest positive value. *)
Lemma rounded_error (xr v : R) :
  rounded xr v -> Rabs (v - xr) <= bpow (-24) * Rabs xr + bpow (-150).
Proof.
  intros [_ (e & He & Herr & Hnorm)].
  pose proof (Rabs_pos xr) as Hx. pose proof (bpow_pos (-24)) as H24.
  pose proof (bpow_pos (-150)) as H150.
  destruct Hnorm as [-> | Hn].
  - replace (bpow emin / 2) with (bpow (-150)) in Herr.
    + nra.
    + replace emin with (-150 + 1)%Z by reflexivity. rewrite bpow_succ. field.
  - assert (E : bpow e / 2 = bpow (-24) * bpow (e + 23)).
    { rewrite <- bpow_add. replace (-24 + (e + 23))%Z with (e + -1)%Z by lia.
      rewrite bpow_add, bpow_m1. field. }
    rewrite E in Herr. nra.
Qed.

End Binary32Rounding.

(** ** The program in single precision *)

Module Binary32Program.

Import Binary32 Binary32Real Binary32Rounding.

Local Open Scope R_scope.

(** *** The operations of the program on finite values *)

Lemma bpow_127_ge : 4294967296 <= bpow 127.
Proof.
  change 4294967296 with (IZR (2 ^ 32)). rewrite <- bpow_IZR by lia.
  apply bpow_le. lia.
Qed.

Lemma of_int_bounds (k : Z) (lo hi : R) :
  format lo -> format hi -> lo <= IZR k <= hi ->
  - bpow 127 <= lo -> hi <= bpow 127 ->
  fin (b32_of_int k) /\ lo <= B2R (b32_of_int k) <= hi.
Proof.
  intros Hlo Hhi Hk Hl Hh. unfold b32_of_int.
  pose proof (binary_normalize_result k 0 false) as Hres.
  replace (F2R k 0) with (IZR k) in Hres by (unfold F2R; rewrite bpow_0; ring).
  destruct (result_bounds _ _ lo hi Hres Hlo Hhi Hk Hl Hh) as (Hf & Hb & _).
  split; assumption.
Qed.

(** An integer of magnitude at most [2^24] converts exactly. *)
Lemma of_int_exact (k : Z) :
  (Z.abs k <= 2 ^ 24)%Z -> fin (b32_of_int k) /\ B2R (b32_of_int k) = IZR k.
Proof.
  intros Hk. unfold b32_of_int.
  pose proof (binary_normalize_result k 0 false) as Hres.
  replace (F2R k 0) with (IZR k) in Hres by (unfold F2R; rewrite bpow_0; ring).
  apply (result_exact _ _ Hres (format_IZR k Hk)).
  pose proof bpow_127_ge.
  assert (Rabs (IZR k) <= IZR (2 ^ 24)) by (rewrite <- abs_IZR; apply IZR_le; exact Hk).
  simpl in H0. lra.
Qed.

Lemma half_exact : fin b32_half /\ B2R b32_half = / 2.
Proof.
  unfold b32_half.
  pose proof (binary_normalize_result 1 (-1) false) as Hres.
  replace (F2R 1 (-1)) with (/ 2) in Hres by (unfold F2R; rewrite bpow_m1; ring).
  apply (result_exact _ _ Hres).
  - rewrite <- bpow_m1. apply format_bpow. unfold emin. lia.
  - pose proof bpow_127_ge. rewrite Rabs_pos_eq; lra.
Qed.

Lemma format_1 : format 1.
Proof. apply (format_IZR 1). simpl. lia. Qed.

Lemma format_2 : format 2.
Proof. apply (format_IZR 2). simpl. lia. Qed.

Lemma fin_nonzero (m : spec_float) : fin m -> B2R m <> 0 -> is_zero m = false.
Proof.
  intros Hm Hne. destruct (is_zero m) eqn:E; [ | reflexivity].
  exfalso. apply Hne. apply (B2R_zero_iff m Hm). exact E.
Qed.

(** [0.5f * (tmp / m + 1.0f)] stays in [[0, 1]] when [|tmp| <= m]. *)
Lemma normalize_range (tmp m : spec_float) :
  fin tmp -> fin m -> 0 < B2R m -> Rabs (B2R tmp) <= B2R m ->
  fin (normalize (FM := binary32) tmp m) /\
  0 <= B2R (normalize (FM := binary32) tmp m) <= 1.
Proof.
  intros Ht Hm Hpos Hle. unfold normalize. cbn [fmul fadd fdiv half of_int binary32].
  pose proof bpow_127_ge as Hbig.
  assert (Hq : -1 <= B2R tmp / B2R m <= 1).
  { assert (Hinv : 0 < / B2R m) by (apply Rinv_0_lt_compat; exact Hpos).
    assert (E : B2R m * / B2R m = 1) by (apply Rinv_r; lra).
    assert (- B2R m <= B2R tmp <= B2R m) by (split_Rabs; lra).
    unfold Rdiv. split; nra. }
  destruct (result_bounds _ _ (-1) 1
              (SFdiv_result tmp m Ht Hm (fin_nonzero m Hm ltac:(lra)))
              (format_opp _ format_1) format_1 Hq ltac:(lra) ltac:(lra))
    as (Hfd & Hbd & _).
  destruct (of_int_exact 1 ltac:(simpl; lia)) as [Hf1 E1].
  destruct (result_bounds _ _ 0 2
              (SFadd_result _ _ Hfd Hf1) format_0 format_2
              ltac:(rewrite E1; lra) ltac:(lra) ltac:(lra))
    as (Hfa & Hba & _).
  destruct half_exact as [Hfh Eh].
  destruct (result_bounds _ _ 0 1
              (SFmul_result _ _ Hfh Hfa) format_0 format_1
              ltac:(rewrite Eh; lra) ltac:(lra) ltac:(lra))
    as (Hfr & Hbr & _).
  split; assumption.
Qed.

Lemma fin_not_nan (f : spec_float) : fin f -> is_nan f = false.
Proof. intros [Hf _]. destruct f; simpl in *; congruence. Qed.

(** Single precision: a finite direction that is not the zero vector is
    classified onto one of the six faces with [s] and [t] in [[0, 1]]. *)
Lemma computeTexCoords_binary32 (x y z : spec_float) :
  fin x -> fin y -> fin z ->
  is_zero x && is_zero y && is_zero z = false ->
  exists face s t,
    computeTexCoords (FM := binary32) x y z = Ok (face, s, t) /\
    (0 <= face <= 5)%Z /\
    fin s /\ fin t /\ 0 <= B2R s <= 1 /\ 0 <= B2R t <= 1.
Proof.
  intros Hx Hy Hz Hnz.
  destruct (Binary32Facts.binary32_major_axis_exists x y z
              (fin_not_nan x Hx) (fin_not_nan y Hy) (fin_not_nan z Hz))
    as [axis Hspec].
  pose proof (select_major_axis_spec (FM := binary32) _ _ _ _ Hspec) as Haxis.
  destruct Hspec as [Hmax _].
  pose proof (is_largest_range (FM := binary32) _ _ _ _ Hmax) as Hrange.
  set (m := SFabs (index3 (FM := binary32) x y z axis)).
  assert (Hm : fin m) by (unfold m; destruct Hrange as [-> | [-> | ->]]; apply fin_abs; assumption).
  assert (Hle : Rabs (B2R x) <= B2R m /\ Rabs (B2R y) <= B2R m /\ Rabs (B2R z) <= B2R m).
  { unfold m. rewrite B2R_abs.
    destruct Hrange as [-> | [-> | ->]]; simpl index3; simpl in Hmax;
      destruct Hmax as [Ha Hb];
      apply SFleb_true in Ha; try (apply fin_abs; assumption);
      apply SFleb_true in Hb; try (apply fin_abs; assumption);
      rewrite !B2R_abs in Ha, Hb; repeat split; lra. }
  destruct Hle as (Hlx & Hly & Hlz).
  assert (Hpos : 0 < B2R m).
  { destruct (Rle_lt_dec (B2R m) 0) as [H0 | H0]; [exfalso | exact H0].
    pose proof (Rabs_pos (B2R x)). pose proof (Rabs_pos (B2R y)).
    pose proof (Rabs_pos (B2R z)).
    assert (Ex : B2R x = 0) by (split_Rabs; lra).
    assert (Ey : B2R y = 0) by (split_Rabs; lra).
    assert (Ez : B2R z = 0) by (split_Rabs; lra).
    apply (B2R_zero_iff x Hx) in Ex. apply (B2R_zero_iff y Hy) in Ey.
    apply (B2R_zero_iff z Hz) in Ez. rewrite Ex, Ey, Ez in Hnz. discriminate. }
  assert (Hax : (0 <= axis <= 2)%Z) by lia.
  destruct (computeTexCoords_run (FM := binary32) x y z axis Haxis Hax)
    as (tmp_s & tmp_t & _ & Hins & Hint & Hface & Hrun).
  fold m in Hrun.
  assert (Hall : forall f, In f [x; y; z; fneg (FloatModel := binary32) x;
                                 fneg (FloatModel := binary32) y;
                                 fneg (FloatModel := binary32) z] ->
                           fin f /\ Rabs (B2R f) <= B2R m).
  { intros f Hin. simpl in Hin.
    destruct Hin as [<- | [<- | [<- | [<- | [<- | [<- | []]]]]]];
      (split; [try apply fin_opp; assumption | rewrite ?B2R_opp, ?Rabs_Ropp; assumption]). }
  destruct (Hall _ Hins) as [Hfs Hbs]. destruct (Hall _ Hint) as [Hft Hbt].
  destruct (normalize_range tmp_s m Hfs Hm Hpos Hbs) as [Hs1 Hs2].
  destruct (normalize_range tmp_t m Hft Hm Hpos Hbt) as [Ht1 Ht2].
  exists (face_of_axis (FM := binary32) x y z axis),
    (normalize (FM := binary32) tmp_s m), (normalize (FM := binary32) tmp_t m).
  repeat (split; [assumption | ]). assumption.
Qed.

(** *** Texel coordinates in single precision *)

Lemma format_max_dim : format (IZR max_dim).
Proof.
  replace (IZR max_dim) with (F2R 16777215 7).
  - apply format_F2R; unfold emin; simpl; lia.
  - unfold F2R. rewrite bpow_IZR by lia. rewrite <- mult_IZR. reflexivity.
Qed.

(** [std::min(static_cast<int>(c * dim), dim - 1)] for [c] in [[0, 1]]: the
    product stays below [2^31] and the index is inside the face. *)
Lemma texel_index_binary32 (c : spec_float) (dim : Z) :
  fin c -> 0 <= B2R c <= 1 -> (0 < dim <= max_dim)%Z ->
  exists i, texel_index (FM := binary32) c dim = Ok i /\ (0 <= i < dim)%Z.
Proof.
  intros Hc Hc01 Hdim. unfold texel_index, cast_int.
  cbn [fmul of_int to_int binary32].
  pose proof bpow_127_ge as Hbig.
  assert (HM : IZR max_dim = 2147483520) by reflexivity.
  assert (Hd : 1 <= IZR dim <= IZR max_dim).
  { split; apply IZR_le; lia. }
  destruct (of_int_bounds dim 1 (IZR max_dim) format_1 format_max_dim Hd
              ltac:(lra) ltac:(lra)) as [Hfd Hbd].
  destruct (result_bounds _ _ 0 (IZR max_dim)
              (SFmul_result _ _ Hc Hfd) format_0 format_max_dim
              ltac:(nra) ltac:(lra) ltac:(lra))
    as (Hfp & Hbp & _).
  assert (H31 : bpow 31 = 2147483648) by (rewrite bpow_IZR by lia; reflexivity).
  destruct (b32_to_int_floor _ Hfp ltac:(lra) ltac:(lra)) as (z & Ez & Hz0 & Hzb).
  rewrite Ez. simpl bind.
  assert (Hin : int_arith (dim - 1) = Ok (dim - 1)%Z).
  { unfold int_arith, in_int, INT_MIN, INT_MAX.
    replace ((- 2 ^ 31 <=? dim - 1)%Z && (dim - 1 <=? 2 ^ 31 - 1)%Z) with true; [reflexivity | ].
    symmetry. apply andb_true_intro. unfold max_dim in Hdim. split; apply Z.leb_le; lia. }
  rewrite Hin. simpl bind. eexists. split; [reflexivity | lia].
Qed.

(** *** The pixel mapping in single precision *)

Lemma rounded_format_eq (xr v : R) : rounded xr v -> format xr -> v = xr.
Proof. intros [Hn _] Hf. apply nearest_exact; assumption. Qed.

Lemma format_half_int (x : Z) : (0 <= x < 2 ^ 23)%Z -> format (IZR x + / 2).
Proof.
  intros Hx. replace (IZR x + / 2) with (F2R (2 * x + 1) (-1)).
  - apply format_F2R; unfold emin; lia.
  - unfold F2R. rewrite bpow_m1, plus_IZR, mult_IZR. field.
Qed.

(** [unlerp]: the quotient [(x + 0.5) / n], rounded once. *)
Lemma unlerp_binary32 (x n : Z) :
  (0 <= x < n)%Z -> (n <= 2 ^ 23)%Z ->
  fin (unlerp (FM := binary32) x n) /\
  0 <= B2R (unlerp (FM := binary32) x n) <= 1 /\
  rounded ((IZR x + / 2) / IZR n) (B2R (unlerp (FM := binary32) x n)).
Proof.
  intros Hx Hn. unfold unlerp. cbn [fdiv fadd of_int half binary32].
  pose proof bpow_127_ge as Hbig.
  destruct (of_int_exact x ltac:(lia)) as [Hfx Ex].
  destruct (of_int_exact n ltac:(lia)) as [Hfn En].
  destruct half_exact as [Hfh Eh].
  assert (HxR : 0 <= IZR x) by (apply IZR_le; lia).
  assert (HnR : IZR x + 1 <= IZR n) by (rewrite <- plus_IZR; apply IZR_le; lia).
  assert (Hn23 : IZR n <= 8388608) by (apply (IZR_le n (2 ^ 23)); exact Hn).
  destruct (result_exact _ _ (SFadd_result _ _ Hfx Hfh)) as [Hfa Ea].
  { rewrite Ex, Eh. apply format_half_int. lia. }
  { rewrite Ex, Eh. rewrite Rabs_pos_eq; lra. }
  rewrite Ex, Eh in Ea.
  assert (Hq : 0 <= (IZR x + / 2) / IZR n <= 1).
  { assert (Hinv : 0 < / IZR n) by (apply Rinv_0_lt_compat; lra).
    assert (E : IZR n * / IZR n = 1) by (apply Rinv_r; lra).
    unfold Rdiv. split; nra. }
  pose proof (SFdiv_result _ _ Hfa Hfn (fin_nonzero _ Hfn ltac:(lra))) as Hres.
  rewrite Ea, En in Hres.
  destruct (result_bounds _ _ 0 1 Hres format_0 format_1 Hq ltac:(lra) ltac:(lra))
    as (Hf & Hb & Hr).
  split; [exact Hf | ]. split; assumption.
Qed.

(** [s - s*s + t - t*t] on [[0, 1]]: finite, between [-2] and [2]. *)
Lemma paraboloid_binary32 (s t : spec_float) :
  fin s -> fin t -> 0 <= B2R s <= 1 -> 0 <= B2R t <= 1 ->
  fin (paraboloid (FM := binary32) s t) /\
  -2 <= B2R (paraboloid (FM := binary32) s t) <= 2 /\
  paraboloid_chain (B2R s) (B2R t) (B2R (paraboloid (FM := binary32) s t)).
Proof.
  intros Hs Ht Hs01 Ht01. unfold paraboloid. cbn [fmul fadd fsub binary32].
  pose proof bpow_127_ge as Hbig.
  assert (Fm1 : format (-1)) by (apply format_opp, format_1).
  assert (Fm2 : format (-2)) by (apply format_opp, format_2).
  destruct (result_bounds _ _ 0 1 (SFmul_result _ _ Hs Hs) format_0 format_1
              ltac:(nra) ltac:(lra) ltac:(lra)) as (Hfss & Hbss & Hrss).
  destruct (result_bounds _ _ (-1) 1 (SFsub_result _ _ Hs Hfss) Fm1 format_1
              ltac:(lra) ltac:(lra) ltac:(lra)) as (Hfa & Hba & Hra).
  destruct (result_bounds _ _ (-1) 2 (SFadd_result _ _ Hfa Ht) Fm1 format_2
              ltac:(lra) ltac:(lra) ltac:(lra)) as (Hfb & Hbb & Hrb).
  destruct (result_bounds _ _ 0 1 (SFmul_result _ _ Ht Ht) format_0 format_1
              ltac:(nra) ltac:(lra) ltac:(lra)) as (Hftt & Hbtt & Hrtt).
  destruct (result_bounds _ _ (-2) 2 (SFsub_result _ _ Hfb Hftt) Fm2 format_2
              ltac:(lra) ltac:(lra) ltac:(lra)) as (Hfq & Hbq & Hrq).
  split; [exact Hfq | ]. split; [exact Hbq | ].
  exists (B2R (SFmul prec emax s s)), (B2R (SFsub prec emax s (SFmul prec emax s s))),
    (B2R (SFadd prec emax (SFsub prec emax s (SFmul prec emax s s)) t)),
    (B2R (SFmul prec emax t t)).
  repeat (split; [assumption | ]). assumption.
Qed.

(** Multiplication by a small power of two is exact. *)
Lemma mul_pow2_exact (k e : Z) (q : spec_float) :
  (0 <= e <= 8)%Z -> k = (2 ^ e)%Z -> fin q -> Rabs (B2R q) <= 2 ->
  fin (SFmul prec emax (b32_of_int k) q) /\
  B2R (SFmul prec emax (b32_of_int k) q) = IZR k * B2R q.
Proof.
  intros He Hk Hq Hb.
  assert (H8 : (2 ^ e <= 2 ^ 8)%Z) by (apply Z.pow_le_mono_r; lia).
  assert (H0 : (0 < 2 ^ e)%Z) by (apply Z.pow_pos_nonneg; lia).
  destruct (of_int_exact k ltac:(lia)) as [Hfk Ek].
  pose proof (SFmul_result _ _ Hfk Hq) as Hres. rewrite Ek in Hres.
  apply (result_exact _ _ Hres).
  - rewrite Hk, <- bpow_IZR, Rmult_comm by lia.
    apply format_scale; [lia | apply fin_format, Hq].
  - pose proof bpow_127_ge.
    assert (0 <= IZR k <= 256).
    { split; [apply IZR_le; lia | apply (IZR_le k (2 ^ 8)); lia]. }
    rewrite Rabs_mult, (Rabs_pos_eq (IZR k)) by lra.
    pose proof (Rabs_pos (B2R q)). nra.
Qed.

Lemma sqrt_le_6 (x : R) : 0 <= x <= 36 -> 0 <= sqrt x <= 6.
Proof.
  intros Hx. split; [apply sqrt_pos | ].
  replace 6 with (sqrt (6 * 6)) by (apply sqrt_square; lra).
  apply sqrt_le_1_alt. lra.
Qed.

Lemma sqrt_2_ge_1 : 1 <= sqrt 2.
Proof. rewrite <- sqrt_1 at 1. apply sqrt_le_1_alt. lra. Qed.

Lemma format_frac (m e : Z) (r : R) :
  r = IZR m * bpow e -> (Z.abs m <= 2 ^ 24)%Z -> (emin <= e)%Z -> format r.
Proof. intros -> Hm He. apply (format_F2R m e Hm He). Qed.

Lemma bpow_m2 : bpow (-2) = / 4.
Proof. unfold bpow. simpl. lra. Qed.

(** With [s = t = 1/2] every step of the chain is exact. *)
Lemma paraboloid_chain_centre (q : R) : paraboloid_chain (/ 2) (/ 2) q -> q = / 2.
Proof.
  intros (ss & a & b & tt & Hss & Ha & Hb & Htt & Hq & _ & _).
  assert (F4 : format (/ 4)) by (rewrite <- bpow_m2; apply format_bpow; unfold emin; lia).
  assert (F2 : format (/ 2)) by (rewrite <- bpow_m1; apply format_bpow; unfold emin; lia).
  assert (F34 : format (3 / 4)).
  { apply (format_frac 3 (-2)); [rewrite bpow_m2; lra | lia | unfold emin; lia]. }
  apply rounded_format_eq in Hss; [ | replace (/ 2 * / 2) with (/ 4) by lra; exact F4].
  subst ss.
  apply rounded_format_eq in Ha; [ | replace (/ 2 - / 2 * / 2) with (/ 4) by lra; exact F4].
  subst a.
  apply rounded_format_eq in Hb;
    [ | replace (/ 2 - / 2 * / 2 + / 2) with (3 / 4) by lra; exact F34].
  subst b.
  apply rounded_format_eq in Htt; [ | replace (/ 2 * / 2) with (/ 4) by lra; exact F4].
  subst tt.
  apply rounded_format_eq in Hq;
    [ | replace (/ 2 - / 2 * / 2 + / 2 - / 2 * / 2) with (/ 2) by lra; exact F2].
  lra.
Qed.

(** The direction of a pixel is finite and is not the zero vector: a zero
    [vz] means that [s - s*s + t - t*t] is exactly [3/8] and [rev_p] exactly
    [2], and then zero [vx] and [vy] mean [s = t = 1/2], for which
    [s - s*s + t - t*t] is [1/2]. *)
Lemma pixel_direction_binary32 (s t : spec_float) :
  fin s -> fin t -> 0 <= B2R s <= 1 -> 0 <= B2R t <= 1 ->
  let '(vx, vy, vz) := pixel_direction (FM := binary32) s t in
  fin vx /\ fin vy /\ fin vz /\
  is_zero vx && is_zero vy && is_zero vz = false.
Proof.
  intros Hs Ht Hs01 Ht01. unfold pixel_direction.
  pose proof bpow_127_ge as Hbig.
  destruct (paraboloid_binary32 s t Hs Ht Hs01 Ht01) as (Hfq & Hbq & Hchain).
  set (q := paraboloid (FM := binary32) s t) in *.
  assert (Hqabs : Rabs (B2R q) <= 2) by (split_Rabs; lra).
  destruct (of_int_exact 0 ltac:(simpl; lia)) as [Hf0 E0].
  destruct (of_int_exact 1 ltac:(simpl; lia)) as [Hf1 E1].
  destruct (of_int_exact 3 ltac:(simpl; lia)) as [Hf3 E3].
  destruct (of_int_exact 4 ltac:(simpl; lia)) as [Hf4 E4].
  (* rev_p *)
  unfold rev_p. fold q. cbn [fmul fadd fsub fneg fsqrt flt of_int binary32].
  destruct (mul_pow2_exact 16 4 q ltac:(lia) eq_refl Hfq Hqabs) as [Hf16 E16].
  assert (F36 : format (-36)) by (apply (format_IZR (-36)); simpl; lia).
  assert (F28 : format 28) by (apply (format_IZR 28); simpl; lia).
  destruct (result_bounds _ _ (-36) 28 (SFsub_result _ _ Hf16 Hf4) F36 F28
              ltac:(rewrite E16, E4; lra) ltac:(lra) ltac:(lra))
    as (Hfrp & Hbrp & Hrrp).
  rewrite E16, E4 in Hrrp.
  set (rp := SFsub prec emax (SFmul prec emax (b32_of_int 16) q) (b32_of_int 4)) in *.
  destruct (SFltb rp (b32_of_int 0)) eqn:Hlt.
  { split; [exact Hf0 | ]. split; [exact Hf0 | ].
    split; [apply fin_opp, Hf1 | reflexivity]. }
  apply (SFltb_false _ _ Hfrp Hf0) in Hlt. rewrite E0 in Hlt.
  (* the square root *)
  assert (F6 : format 6) by (apply (format_IZR 6); simpl; lia).
  destruct (result_bounds _ _ 0 6 (SFsqrt_result rp Hfrp Hlt) format_0 F6
              ltac:(apply sqrt_le_6; lra) ltac:(lra) ltac:(lra))
    as (Hfr & Hbr & Hrr).
  set (r := SFsqrt prec emax rp) in *.
  (* 2s - 1 and 2t - 1 *)
  assert (Hu : forall c, fin c -> 0 <= B2R c <= 1 ->
             fin (SFsub prec emax (SFmul prec emax (b32_of_int 2) c) (b32_of_int 1)) /\
             -1 <= B2R (SFsub prec emax (SFmul prec emax (b32_of_int 2) c) (b32_of_int 1)) <= 1 /\
             rounded (2 * B2R c - 1)
               (B2R (SFsub prec emax (SFmul prec emax (b32_of_int 2) c) (b32_of_int 1)))).
  { intros c Hc Hc01.
    destruct (mul_pow2_exact 2 1 c ltac:(lia) eq_refl Hc ltac:(split_Rabs; lra)) as [Hf2 E2].
    destruct (result_bounds _ _ (-1) 1 (SFsub_result _ _ Hf2 Hf1)
                (format_opp _ format_1) format_1
                ltac:(rewrite E2, E1; lra) ltac:(lra) ltac:(lra)) as (Hfu & Hbu & Hru).
    rewrite E2, E1 in Hru. auto. }
  destruct (Hu s Hs Hs01) as (Hfus & Hbus & Hrus).
  destruct (Hu t Ht Ht01) as (Hfut & Hbut & Hrut).
  set (us := SFsub prec emax (SFmul prec emax (b32_of_int 2) s) (b32_of_int 1)) in *.
  set (ut := SFsub prec emax (SFmul prec emax (b32_of_int 2) t) (b32_of_int 1)) in *.
  assert (Fm6 : format (-6)) by (apply format_opp, F6).
  destruct (result_bounds _ _ (-6) 6 (SFmul_result _ _ Hfr Hfus) Fm6 F6
              ltac:(nra) ltac:(lra) ltac:(lra)) as (Hfvx & Hbvx & Hrvx).
  destruct (result_bounds _ _ (-6) 6 (SFmul_result _ _ Hfr (fin_opp _ Hfut)) Fm6 F6
              ltac:(rewrite B2R_opp; nra) ltac:(lra) ltac:(lra)) as (Hfvy & Hbvy & Hrvy).
  (* vz *)
  destruct (mul_pow2_exact 8 3 q ltac:(lia) eq_refl Hfq Hqabs) as [Hf8 E8].
  assert (F19 : format (-19)) by (apply (format_IZR (-19)); simpl; lia).
  assert (F13 : format 13) by (apply (format_IZR 13); simpl; lia).
  destruct (result_bounds _ _ (-19) 13 (SFsub_result _ _ Hf8 Hf3) F19 F13
              ltac:(rewrite E8, E3; lra) ltac:(lra) ltac:(lra)) as (Hfvz & Hbvz & Hrvz).
  split; [exact Hfvx | ]. split; [exact Hfvy | ]. split; [exact Hfvz | ].
  set (vx := SFmul prec emax r us) in *.
  set (vy := SFmul prec emax r (SFopp ut)) in *.
  set (vz := SFsub prec emax (SFmul prec emax (b32_of_int 8) q) (b32_of_int 3)) in *.
  destruct (is_zero vx) eqn:Zx; [ | reflexivity].
  destruct (is_zero vy) eqn:Zy; [ | reflexivity].
  destruct (is_zero vz) eqn:Zz; [exfalso | reflexivity].
  apply (B2R_zero_iff vx Hfvx) in Zx. apply (B2R_zero_iff vy Hfvy) in Zy.
  apply (B2R_zero_iff vz Hfvz) in Zz.
  rewrite Zx in Hrvx. rewrite Zy in Hrvy. rewrite Zz in Hrvz.
  (* vz = 0 forces q = 3/8 and rev_p = 2 *)
  apply rounded_diff_zero in Hrvz; [ | apply fin_format, Hf8 | apply fin_format, Hf3].
  rewrite E8, E3 in Hrvz.
  assert (Eq : B2R q = 3 / 8) by lra.
  assert (Erp : B2R rp = 2).
  { apply rounded_format_eq in Hrrp; [lra | ].
    replace (16 * B2R q - 4) with 2 by lra. exact format_2. }
  assert (Hr1 : 1 <= B2R r).
  { destruct Hrr as [Hn _]. apply (nearest_ge_lower _ _ _ Hn format_1).
    rewrite Erp. exact sqrt_2_ge_1. }
  (* vx = 0 and vy = 0 force s = t = 1/2 *)
  apply rounded_mult_zero in Hrvx;
    [ | rewrite Rabs_pos_eq; lra | apply fin_format, Hfus].
  apply rounded_mult_zero in Hrvy;
    [ | rewrite Rabs_pos_eq; lra | apply fin_format, fin_opp, Hfut].
  rewrite B2R_opp in Hrvy.
  assert (Hzero : forall c u, format c -> rounded (2 * c - 1) u -> u = 0 -> c = / 2).
  { intros c u Hc Hru ->.
    assert (2 * c = 1); [ | lra].
    apply rounded_diff_zero; [ | exact format_1 | exact Hru].
    replace (2 * c) with (c * bpow 1) by (rewrite bpow_1; ring).
    apply format_scale; [lia | exact Hc]. }
  pose proof (Hzero _ _ (fin_format s Hs) Hrus Hrvx) as Es.
  pose proof (Hzero _ _ (fin_format t Ht) Hrut ltac:(lra)) as Et.
  rewrite Es, Et in Hchain. apply paraboloid_chain_centre in Hchain. lra.
Qed.

(** *** Generation in single precision *)

(** Every pixel receives a texel of one of the faces. *)
Lemma pixel_color_binary32 (cm : Cubemap) (output_size x y : Z) :
  valid_cubemap cm -> bounded_faces cm ->
  (0 <= x < output_size)%Z -> (0 <= y < output_size)%Z ->
  (output_size <= 2 ^ 23)%Z ->
  exists (c : u32) (face tx ty : Z) (img : Image),
    pixel_color (FM := binary32) cm output_size x y = Ok c /\
    faces cm face = Some img /\
    (0 <= tx < width img)%Z /\ (0 <= ty < height img)%Z /\
    readTexel cm face tx ty = Ok c.
Proof.
  intros Hvalid Hbound Hx Hy Hn. unfold pixel_color.
  destruct (unlerp_binary32 x output_size Hx Hn) as (Hfs & Hs01 & _).
  destruct (unlerp_binary32 y output_size Hy Hn) as (Hft & Ht01 & _).
  pose proof (pixel_direction_binary32 _ _ Hfs Hft Hs01 Ht01) as Hdir.
  destruct (pixel_direction (FM := binary32) (unlerp (FM := binary32) x output_size)
              (unlerp (FM := binary32) y output_size)) as [[vx vy] vz].
  destruct Hdir as (Hvx & Hvy & Hvz & Hnz).
  destruct (computeTexCoords_binary32 vx vy vz Hvx Hvy Hvz Hnz)
    as (face & s & t & Hrun & Hface & Hs & Ht & Hsr & Htr).
  destruct (faces_in_range cm face Hface) as [img Himg].
  pose proof (Hvalid face img Himg) as Hv.
  destruct (Hbound face img Himg) as [Hw Hh].
  pose proof Hv as (Hw0 & Hh0 & _ & _).
  destruct (texel_index_binary32 s (width img) Hs Hsr ltac:(lia)) as (tx & Htx & Hxr).
  destruct (texel_index_binary32 t (height img) Ht Htr ltac:(lia)) as (ty & Hty & Hyr).
  destruct (readTexel_in_bounds cm face tx ty img Himg Hv Hxr Hyr) as (c & Hread & _).
  exists c, face, tx, ty, img.
  split; [ | tauto].
  rewrite Hrun. simpl bind. unfold sampleFace. rewrite Himg, Htx, Hty. simpl bind.
  exact Hread.
Qed.

(** A decoded buffer whose size in bytes is an [int] has dimensions that
    convert to a [float] below [2^31]. *)
Lemma int_sized_buffers_bounded (cm : Cubemap) :
  valid_cubemap cm -> int_sized_buffers cm -> bounded_faces cm.
Proof.
  intros Hvalid Hsize face img Hface.
  destruct (Hvalid face img Hface) as (Hw & Hh & _ & _).
  specialize (Hsize face img Hface). unfold INT_MAX in Hsize. unfold max_dim.
  split; nia.
Qed.

Lemma int_square_bound (n : Z) : (0 <= n)%Z -> (n * n <= INT_MAX)%Z -> (n <= 2 ^ 23)%Z.
Proof. unfold INT_MAX. intros H0 H. nia. Qed.

(** The run finishes and returns texels. *)
Lemma generate_binary32 (cm : Cubemap) (output_size : Z) :
  valid_cubemap cm -> bounded_faces cm ->
  (0 <= output_size)%Z -> (output_size * output_size <= INT_MAX)%Z ->
  exists buf,
    generate (FM := binary32) cm output_size = Ok buf /\
    Z.of_nat (length buf) = (output_size * output_size)%Z /\
    forall c, In c buf ->
      exists (face x y : Z) (img : Image),
        faces cm face = Some img /\
        (0 <= x < width img)%Z /\ (0 <= y < height img)%Z /\
        readTexel cm face x y = Ok c.
Proof.
  intros Hvalid Hbound Hn Hsize.
  pose proof (int_square_bound output_size Hn Hsize) as H23.
  destruct (generate_runs (FM := binary32) cm output_size Hn Hsize) as [buf Hrun].
  { intros x y Hx Hy.
    destruct (pixel_color_binary32 cm output_size x y Hvalid Hbound Hx Hy H23)
      as (c & _ & _ & _ & _ & Hc & _).
    exists c. exact Hc. }
  exists buf. split; [exact Hrun | ].
  destruct (generate_filled cm output_size buf Hrun) as [Hlen Hpix].
  split; [exact Hlen | ].
  intros c Hin. apply In_nth_error in Hin. destruct Hin as [i Hi].
  assert (Hlt : (i < length buf)%nat) by (apply nth_error_Some; congruence).
  assert (Hpos : (0 < output_size)%Z) by nia.
  destruct (raster_index output_size (Z.of_nat i) Hpos ltac:(lia)) as (Hx & Hy & Hidx).
  destruct (Hpix _ _ Hx Hy) as (c' & Hc' & Hnth); [nia | ].
  rewrite Hidx, Nat2Z.id, Hi in Hnth. inversion Hnth; subst c'.
  destruct (pixel_color_binary32 cm output_size
              (Z.of_nat i mod output_size) (Z.of_nat i / output_size)
              Hvalid Hbound Hx Hy H23)
    as (c2 & face & tx & ty & img & Hc2 & Himg & Htx & Hty & Hread).
  rewrite Hc' in Hc2. inversion Hc2; subst c2.
  exists face, tx, ty, img. tauto.
Qed.

(** *** The corners in single precision *)

Lemma bpow_m3 : bpow (-3) = / 8.
Proof. unfold bpow. simpl. lra. Qed.

Lemma bpow_m24 : bpow (-24) = / 16777216.
Proof.
  replace (-24)%Z with (- (24))%Z by reflexivity. rewrite bpow_opp, bpow_IZR by lia.
  reflexivity.
Qed.

Lemma bpow_m150_le : bpow (-150) <= bpow (-24).
Proof. apply bpow_le. lia. Qed.

Lemma rounded_error_unit (xr v : R) :
  rounded xr v -> Rabs xr <= 2 ->
  xr - / 4194304 <= v <= xr + / 4194304.
Proof.
  intros Hr Hx. pose proof (rounded_error xr v Hr) as He.
  pose proof bpow_m150_le as H150. rewrite bpow_m24 in *.
  pose proof (bpow_pos (-150)). pose proof (Rabs_pos xr).
  assert (Rabs (v - xr) <= / 4194304) by nra.
  split_Rabs; lra.
Qed.

(** The coordinate of a corner pixel is within [1/8] of [0] or of [1]. *)
Lemma corner_unlerp_binary32 (n x : Z) :
  (4 <= n <= 2 ^ 23)%Z -> x = 0%Z \/ x = (n - 1)%Z ->
  fin (unlerp (FM := binary32) x n) /\
  (0 <= B2R (unlerp (FM := binary32) x n) <= / 8 \/
   7 / 8 <= B2R (unlerp (FM := binary32) x n) <= 1).
Proof.
  intros Hn Hx.
  destruct (unlerp_binary32 x n ltac:(lia) ltac:(lia)) as (Hf & Hb & [Hnear _]).
  split; [exact Hf | ].
  assert (Hr : 4 <= IZR n) by (apply (IZR_le 4 n); lia).
  set (a := / IZR n) in *.
  assert (Ha : 0 < a) by (apply Rinv_0_lt_compat; lra).
  assert (Hna : IZR n * a = 1) by (unfold a; field; lra).
  assert (Ha4 : a <= / 4) by nra.
  unfold Rdiv in Hnear. fold a in Hnear.
  destruct Hx as [-> | ->].
  - left. split; [lra | ].
    apply (nearest_le_upper _ _ _ Hnear).
    + rewrite <- bpow_m3. apply format_bpow. unfold emin. lia.
    + simpl. nra.
  - right. split; [ | lra].
    apply (nearest_ge_lower _ _ _ Hnear).
    + apply (format_frac 7 (-3)); [rewrite bpow_m3; lra | lia | unfold emin; lia].
    + rewrite minus_IZR. replace ((IZR n - 1 + / 2) * a) with (1 - a / 2) by nra. lra.
Qed.

(** At two corner coordinates the rounded [s - s*s + t - t*t] stays below
    [1/4], the value at which [rev_p] changes sign. *)
Lemma corner_chain_bound (s t q : R) :
  0 <= s <= / 8 \/ 7 / 8 <= s <= 1 ->
  0 <= t <= / 8 \/ 7 / 8 <= t <= 1 ->
  paraboloid_chain s t q -> q <= 15 / 64.
Proof.
  intros Hs Ht (ss & a & b & tt & Hss & Ha & Hb & Htt & Hq & Hss01 & Htt01).
  assert (Hs01 : 0 <= s <= 1) by lra.
  assert (Ht01 : 0 <= t <= 1) by lra.
  assert (Hsq : s - s * s <= 7 / 64) by (destruct Hs; nra).
  assert (Htq : t - t * t <= 7 / 64) by (destruct Ht; nra).
  assert (Hs2 : 0 <= s * s <= 1) by nra.
  assert (Ht2 : 0 <= t * t <= 1) by nra.
  pose proof (rounded_error_unit _ _ Hss ltac:(split_Rabs; lra)) as Ess.
  pose proof (rounded_error_unit _ _ Htt ltac:(split_Rabs; lra)) as Ett.
  pose proof (rounded_error_unit _ _ Ha ltac:(split_Rabs; lra)) as Ea.
  pose proof (rounded_error_unit _ _ Hb ltac:(split_Rabs; lra)) as Eb.
  destruct Hq as [Hnear _].
  apply (nearest_le_upper _ _ _ Hnear).
  - apply (format_frac 15 (-6)); [ | lia | unfold emin; lia].
    unfold bpow. simpl. lra.
  - lra.
Qed.

Lemma corner_rev_p_binary32 (n x y : Z) :
  (4 <= n <= 2 ^ 23)%Z -> is_corner n x y ->
  flt (FloatModel := binary32)
    (rev_p (FM := binary32) (unlerp (FM := binary32) x n) (unlerp (FM := binary32) y n))
    (of_int 0) = true.
Proof.
  intros Hn [Hx Hy].
  destruct (corner_unlerp_binary32 n x Hn Hx) as [Hfs Hs].
  destruct (corner_unlerp_binary32 n y Hn Hy) as [Hft Ht].
  set (s := unlerp (FM := binary32) x n) in *.
  set (t := unlerp (FM := binary32) y n) in *.
  destruct (paraboloid_binary32 s t Hfs Hft ltac:(lra) ltac:(lra)) as (Hfq & Hbq & Hchain).
  pose proof (corner_chain_bound _ _ _ Hs Ht Hchain) as Hq.
  pose proof bpow_127_ge as Hbig.
  unfold rev_p. cbn [fmul fsub flt of_int binary32].
  set (q := paraboloid (FM := binary32) s t) in *.
  destruct (mul_pow2_exact 16 4 q ltac:(lia) eq_refl Hfq ltac:(split_Rabs; lra)) as [Hf16 E16].
  destruct (of_int_exact 4 ltac:(simpl; lia)) as [Hf4 E4].
  destruct (of_int_exact 0 ltac:(simpl; lia)) as [Hf0 E0].
  assert (F36 : format (-36)) by (apply (format_IZR (-36)); simpl; lia).
  assert (F14 : format (- / 4)).
  { apply format_opp. rewrite <- bpow_m2. apply format_bpow. unfold emin. lia. }
  destruct (result_bounds _ _ (-36) (- / 4) (SFsub_result _ _ Hf16 Hf4) F36 F14
              ltac:(rewrite E16, E4; lra) ltac:(lra) ltac:(lra))
    as (Hfrp & Hbrp & _).
  destruct (SFltb _ (b32_of_int 0)) eqn:Hlt; [reflexivity | exfalso].
  apply (SFltb_false _ _ Hfrp Hf0) in Hlt. rewrite E0 in Hlt. lra.
Qed.

(** [0.5f * dim] is exact and truncates to [dim / 2]. *)
Lemma texel_index_half_binary32 (w : Z) :
  (0 < w <= 2 ^ 24)%Z ->
  texel_index (FM := binary32) half w = Ok (w / 2)%Z.
Proof.
  intros Hw. unfold texel_index, cast_int. cbn [fmul of_int half to_int binary32].
  pose proof bpow_127_ge as Hbig.
  destruct (of_int_exact w ltac:(lia)) as [Hfw Ew].
  destruct half_exact as [Hfh Eh].
  assert (HwR : 0 < IZR w <= 16777216).
  { split; [apply IZR_lt; lia | apply (IZR_le w (2 ^ 24)); lia]. }
  pose proof (SFmul_result _ _ Hfh Hfw) as Hres. rewrite Eh, Ew in Hres.
  destruct (result_exact _ _ Hres) as [Hfp Ep].
  { apply (format_frac w (-1)); [rewrite bpow_m1; ring | lia | unfold emin; lia]. }
  { rewrite Rabs_pos_eq; lra. }
  assert (H31 : bpow 31 = 2147483648) by (rewrite bpow_IZR by lia; reflexivity).
  destruct (b32_to_int_floor _ Hfp ltac:(lra) ltac:(lra)) as (z & Ez & Hz0 & Hzb).
  rewrite Ez. simpl bind.
  rewrite int_arith_in_range by (unfold INT_MIN, INT_MAX; lia). simpl bind.
  rewrite Ep in Hzb.
  assert (H1 : (2 * z <= w)%Z).
  { apply le_IZR. rewrite mult_IZR. lra. }
  assert (H2 : (w < 2 * z + 2)%Z).
  { apply lt_IZR. rewrite plus_IZR, mult_IZR. lra. }
  assert (E : z = (w / 2)%Z) by (Z.to_euclidean_division_equations; lia).
  subst z. f_equal. Z.to_euclidean_division_equations. lia.
Qed.

(** Sampling a face of at most [2^24] texels a side at [(0.5, 0.5)] reads
    its centre texel. *)
Lemma sampleFace_centre_binary32 (cm : Cubemap) (face : Z) (img : Image) :
  faces cm face = Some img ->
  (0 < width img <= 2 ^ 24)%Z -> (0 < height img <= 2 ^ 24)%Z ->
  sampleFace (FM := binary32) cm face half half =
  readTexel cm face (width img / 2) (height img / 2).
Proof.
  intros Himg Hw Hh. unfold sampleFace. rewrite Himg.
  rewrite (texel_index_half_binary32 _ Hw), (texel_index_half_binary32 _ Hh).
  reflexivity.
Qed.

(** In single precision, from size 4 on, the four corners take the
    back pole and the centre texel of -Z. *)
Lemma corners_binary32 (cm : Cubemap) (output_size x y : Z) (img : Image) :
  (4 <= output_size <= 2 ^ 23)%Z ->
  is_corner output_size x y ->
  faces cm FACE_NEG_Z = Some img ->
  (0 < width img <= 2 ^ 24)%Z -> (0 < height img <= 2 ^ 24)%Z ->
  let s := unlerp (FM := binary32) x output_size in
  let t := unlerp (FM := binary32) y output_size in
  flt (FloatModel := binary32) (rev_p (FM := binary32) s t) (of_int 0) = true /\
  pixel_direction (FM := binary32) s t = (of_int 0, of_int 0, fneg (of_int 1)) /\
  pixel_color (FM := binary32) cm output_size x y =
    readTexel cm FACE_NEG_Z (width img / 2) (height img / 2).
Proof.
  intros Hn Hcorner Himg Hw Hh s t.
  pose proof (corner_rev_p_binary32 output_size x y Hn Hcorner) as Hneg.
  fold s t in Hneg.
  assert (Hdir : pixel_direction (FM := binary32) s t =
                 (of_int 0, of_int 0, fneg (of_int 1))).
  { unfold pixel_direction. rewrite Hneg. reflexivity. }
  split; [exact Hneg | ]. split; [exact Hdir | ].
  unfold pixel_color. fold s t. rewrite Hdir.
  destruct Canonical.binary32_centred as (_ & _ & _ & _ & _ & Hback).
  change (fneg (FloatModel := binary32) (of_int 1)) with (of_int (FloatModel := binary32) (-1)).
  rewrite Hback. simpl bind.
  exact (sampleFace_centre_binary32 cm FACE_NEG_Z img Himg Hw Hh).
Qed.

(** *** The round trip through a texel centre in single precision *)

Lemma bpow_m150_small : bpow (-150) <= / 1152921504606846976.
Proof.
  apply Rle_trans with (bpow (-60)); [apply bpow_le; lia | ].
  replace (-60)%Z with (- (60))%Z by reflexivity. rewrite bpow_opp, bpow_IZR by lia.
  apply Req_le. reflexivity.
Qed.

(** Below [1] the error of a rounding is at most [2^-25]. *)
Lemma rounded_error_below_1 (xr v : R) :
  rounded xr v -> Rabs xr < 1 -> Rabs (v - xr) <= / 33554432.
Proof.
  intros [_ (e & He & Herr & Hnorm)] Hx.
  assert (E25 : bpow (-24) / 2 = / 33554432) by (rewrite bpow_m24; lra).
  assert (Hle : bpow e <= bpow (-24)).
  { apply bpow_le. destruct Hnorm as [-> | Hn]; [unfold emin; lia | ].
    destruct (Z_lt_le_dec (e + 23) 0) as [Hlt | Hge]; [lia | exfalso].
    pose proof (bpow_ge_1 (e + 23) Hge). lra. }
  lra.
Qed.

(** The centre of texel [x], divided by the width and multiplied back,
    stays within [1/4] of [x + 1/2], which is itself a [float]; the
    rounded product is then within [1/2] of it and truncates to [x]. *)
Lemma texel_index_centre_binary32 (x w : Z) :
  (0 <= x < w)%Z -> (w <= 2 ^ 23)%Z ->
  texel_index (FM := binary32) (unlerp (FM := binary32) x w) w = Ok x.
Proof.
  intros Hx Hw.
  destruct (unlerp_binary32 x w Hx Hw) as (Hfc & Hc01 & Hrc).
  set (c := unlerp (FM := binary32) x w) in *.
  unfold texel_index, cast_int. cbn [fmul of_int to_int binary32].
  pose proof bpow_127_ge as Hbig.
  destruct (of_int_exact w ltac:(lia)) as [Hfw Ew].
  assert (HW : 1 <= IZR w <= 8388608).
  { split; [apply (IZR_le 1 w); lia | apply (IZR_le w (2 ^ 23)); lia]. }
  assert (HX : 0 <= IZR x <= IZR w - 1).
  { split; [apply (IZR_le 0 x); lia | ].
    rewrite <- minus_IZR. apply IZR_le. lia. }
  assert (Fw : format (IZR w)) by (apply format_IZR; lia).
  assert (Fx : format (IZR x + / 2)) by (apply format_half_int; lia).
  pose proof (SFmul_result _ _ Hfc Hfw) as Hres. rewrite Ew in Hres.
  (* the error of the quotient, times the width, is below 1/4 *)
  assert (Hquarter : Rabs (B2R c * IZR w - (IZR x + / 2)) <= / 4 - / 67108864).
  { assert (Hinv : 0 < / IZR w) by (apply Rinv_0_lt_compat; lra).
    assert (E : IZR w * / IZR w = 1) by (apply Rinv_r; lra).
    assert (EX : (IZR x + / 2) / IZR w * IZR w = IZR x + / 2) by (field; lra).
    assert (HX01 : 0 <= (IZR x + / 2) / IZR w < 1).
    { unfold Rdiv. split; nra. }
    destruct (Z_lt_le_dec x (2 ^ 22)) as [Hsmall | Hlarge].
    - pose proof (rounded_error _ _ Hrc) as Ec. rewrite bpow_m24 in Ec.
      rewrite (Rabs_pos_eq ((IZR x + / 2) / IZR w)) in Ec by lra.
      pose proof bpow_m150_small as Hd. pose proof (bpow_pos (-150)) as Hd0.
      assert (Hx22 : IZR x <= 4194303) by (apply (IZR_le x 4194303); lia).
      remember (bpow (-150)) as d eqn:Ed.
      remember (IZR w) as W eqn:EW. remember (IZR x) as Xr eqn:EXr.
      remember ((Xr + / 2) / W) as X eqn:EXX.
      assert (Ec' : - (/ 16777216 * X + d) <= B2R c - X <= / 16777216 * X + d)
        by (split_Rabs; lra).
      rewrite <- EX.
      assert (HXW : / 16777216 * X * W <= / 4 - / 33554432) by nra.
      assert (HdW : d * W <= / 67108864) by nra.
      assert (Hdiff : - (/ 4 - / 67108864) <= B2R c * W - X * W <= / 4 - / 67108864)
        by (split; nra).
      split_Rabs; lra.
    - destruct (Z.eq_dec w (2 ^ 23)) as [-> | Hne].
      + assert (Fq : format ((IZR x + / 2) / IZR (2 ^ 23))).
        { apply (format_frac (2 * x + 1) (-24)); [ | lia | unfold emin; lia].
          rewrite bpow_m24, plus_IZR, mult_IZR.
          change (IZR (2 ^ 23)) with 8388608. field. }
        rewrite (rounded_format_eq _ _ Hrc Fq), EX.
        replace (IZR x + / 2 - (IZR x + / 2)) with 0 by ring.
        rewrite Rabs_R0. lra.
      + pose proof (rounded_error_below_1 _ _ Hrc
                      ltac:(rewrite Rabs_pos_eq by lra; lra)) as Ec.
        assert (HW' : IZR w <= 8388607) by (apply (IZR_le w 8388607); lia).
        remember (IZR w) as W eqn:EW. remember (IZR x) as Xr eqn:EXr.
        remember ((Xr + / 2) / W) as X eqn:EXX.
        assert (Ec' : - / 33554432 <= B2R c - X <= / 33554432) by (split_Rabs; lra).
        rewrite <- EX.
        assert (Hdiff : - (/ 4 - / 33554432) <= B2R c * W - X * W <= / 4 - / 33554432)
          by (split; nra).
        split_Rabs; lra. }
  (* the product is finite; it is at least as near to [c * w] as [x + 1/2] is *)
  destruct (result_bounds _ _ 0 (IZR w) Hres format_0 Fw
              ltac:(split; [ | assert (0 <= IZR w) by lra ]; nra) ltac:(lra) ltac:(lra))
    as (Hfp & Hbp & Hrp).
  pose proof (proj2 (proj1 Hrp) _ Fx) as Hnear.
  assert (H31 : bpow 31 = 2147483648) by (rewrite bpow_IZR by lia; reflexivity).
  destruct (b32_to_int_floor _ Hfp ltac:(lra) ltac:(lra)) as (z & Ez & Hz0 & Hzb).
  rewrite Ez. simpl bind.
  rewrite int_arith_in_range by (unfold INT_MIN, INT_MAX; lia). simpl bind.
  remember (B2R (SFmul prec emax c (b32_of_int w))) as p eqn:Hp.
  remember (B2R c * IZR w) as cw eqn:Hcw. remember (IZR x) as Xr eqn:EXr.
  assert (Hpx : Xr < p < Xr + 1) by (split_Rabs; lra).
  assert (H1 : (z < x + 1)%Z).
  { apply lt_IZR. rewrite plus_IZR, <- EXr. lra. }
  assert (H2 : (x < z + 1)%Z).
  { apply lt_IZR. rewrite plus_IZR, <- EXr. lra. }
  f_equal. lia.
Qed.

(** Sampling at the centre of a texel reads that texel, on faces of at
    most [2^23] texels a side. *)
Lemma sampleFace_centre_round_trip_binary32 (cm : Cubemap) (face x y : Z) (img : Image) :
  faces cm face = Some img ->
  (0 <= x < width img)%Z -> (0 <= y < height img)%Z ->
  (width img <= 2 ^ 23)%Z -> (height img <= 2 ^ 23)%Z ->
  sampleFace (FM := binary32) cm face
    (unlerp (FM := binary32) x (width img)) (unlerp (FM := binary32) y (height img)) =
  readTexel cm face x y.
Proof.
  intros Himg Hx Hy Hw Hh. unfold sampleFace. rewrite Himg.
  rewrite (texel_index_centre_binary32 x _ Hx Hw).
  rewrite (texel_index_centre_binary32 y _ Hy Hh).
  reflexivity.
Qed.

(** *** Truncation in single precision *)

(** [static_cast<int>] is the truncation toward zero of the value. *)
Lemma b32_to_int_trunc (f : spec_float) :
  fin f -> Rabs (B2R f) < bpow 31 ->
  b32_to_int f = Some (Exact.Rtrunc (B2R f)).
Proof.
  intros Hf Habs. unfold Exact.Rtrunc.
  destruct (Rle_dec 0 (B2R f)) as [Hpos | Hneg].
  - destruct (b32_to_int_floor f Hf Hpos ltac:(split_Rabs; lra)) as (z & Ez & _ & Hz).
    rewrite Ez. f_equal. symmetry. apply ExactFacts.Int_part_unique. exact Hz.
  - assert (Hneg' : B2R f < 0) by lra.
    pose proof (fin_opp f Hf) as Hfo.
    destruct (b32_to_int_floor (SFopp f) Hfo
                ltac:(rewrite B2R_opp; lra) ltac:(rewrite B2R_opp; split_Rabs; lra))
      as (z & Ez & Hz0 & Hz).
    rewrite B2R_opp in Hz.
    rewrite (ExactFacts.Int_part_unique _ z Hz).
    destruct f as [s | s | | s m e]; simpl in Hneg'; try lra.
    destruct s; [ | exfalso; simpl in Hneg'; pose proof (F2R_pos m e); lra].
    simpl SFopp in Ez. unfold b32_to_int, truncate in Ez |- *.
    set (mag := match e with
                | Z.neg p => Z.shiftr (Z.pos m) (Z.pos p)
                | _ => Z.shiftl (Z.pos m) e
                end) in *.
    destruct (in_int mag) eqn:Hin; [ | discriminate].
    inversion Ez; subst z.
    apply in_int_true in Hin.
    assert (Hin' : in_int (- mag) = true).
    { apply in_int_true. unfold INT_MIN, INT_MAX in *. lia. }
    rewrite Hin'. reflexivity.
Qed.

(** [std::min(static_cast<int>(c * dim), dim - 1)]: the product is
    rounded, then truncated toward zero. *)
Lemma texel_index_trunc_binary32 (c : spec_float) (dim : Z) :
  fin c -> (0 < dim <= 2 ^ 24)%Z ->
  Rabs (B2R c * IZR dim) <= IZR max_dim ->
  rounded (B2R c * IZR dim) (product_value c dim) /\
  texel_index (FM := binary32) c dim =
    Ok (Z.min (Exact.Rtrunc (product_value c dim)) (dim - 1)).
Proof.
  intros Hc Hdim Habs. unfold product_value, texel_index, cast_int.
  cbn [fmul of_int to_int binary32].
  pose proof bpow_127_ge as Hbig.
  assert (HM : IZR max_dim = 2147483520) by reflexivity.
  destruct (of_int_exact dim ltac:(lia)) as [Hfd Ed].
  pose proof (SFmul_result _ _ Hc Hfd) as Hres. rewrite Ed in Hres.
  destruct (result_bounds _ _ (- IZR max_dim) (IZR max_dim) Hres
              (format_opp _ format_max_dim) format_max_dim
              ltac:(split_Rabs; lra) ltac:(lra) ltac:(lra))
    as (Hfp & Hbp & Hrp).
  split; [exact Hrp | ].
  assert (H31 : bpow 31 = 2147483648) by (rewrite bpow_IZR by lia; reflexivity).
  rewrite (b32_to_int_trunc _ Hfp) by (split_Rabs; lra).
  simpl bind.
  rewrite int_arith_in_range by (unfold INT_MIN, INT_MAX; lia).
  reflexivity.
Qed.

Lemma sampleFace_truncates_binary32 (cm : Cubemap) (face : Z) (img : Image)
  (s t : spec_float) :
  faces cm face = Some img ->
  (0 < width img <= 2 ^ 24)%Z -> (0 < height img <= 2 ^ 24)%Z ->
  fin s -> fin t ->
  Rabs (B2R s * IZR (width img)) <= IZR max_dim ->
  Rabs (B2R t * IZR (height img)) <= IZR max_dim ->
  rounded (B2R s * IZR (width img)) (product_value s (width img)) /\
  rounded (B2R t * IZR (height img)) (product_value t (height img)) /\
  sampleFace (FM := binary32) cm face s t =
    readTexel cm face
      (Z.min (Exact.Rtrunc (product_value s (width img))) (width img - 1))
      (Z.min (Exact.Rtrunc (product_value t (height img))) (height img - 1)).
Proof.
  intros Hface Hw Hh Hs Ht Hsb Htb.
  destruct (texel_index_trunc_binary32 s _ Hs Hw Hsb) as [Hrs Hxs].
  destruct (texel_index_trunc_binary32 t _ Ht Hh Htb) as [Hrt Hxt].
  split; [exact Hrs | ]. split; [exact Hrt | ].
  unfold sampleFace. rewrite Hface, Hxs, Hxt. reflexivity.
Qed.

(** *** A face wider than the precision

    On a row of [2^25] texels the texel 16777217 has no [float] of its
    own: [val + 0.5f] is computed from 16777216, the nearest [float], and
    is 16777216 again; the quotient by [2^25] is [0.5], the product
    16777216. *)

Lemma wide_image_valid : valid_image wide_image.
Proof.
  unfold valid_image.
  change (width wide_image) with 33554432%Z. change (height wide_image) with 1%Z.
  change (data wide_image)
    with (repeat 0%Z (Z.to_nat 16777216) ++ 1%Z :: repeat 2%Z (Z.to_nat 16777215)).
  split; [lia | ]. split; [lia | ]. split; [unfold INT_MAX; lia | ].
  rewrite length_app, repeat_length.
  change (length (1%Z :: repeat 2%Z (Z.to_nat 16777215)))
    with (S (length (repeat 2%Z (Z.to_nat 16777215)))).
  rewrite repeat_length. lia.
Qed.

(** The texels 16777216 and 16777217 of the wide face. *)
Lemma wide_image_texels :
  nth_error (data wide_image) (Z.to_nat (0 * width wide_image + 16777216)) = Some 1%Z /\
  nth_error (data wide_image) (Z.to_nat (0 * width wide_image + 16777217)) = Some 2%Z.
Proof.
  change (width wide_image) with 33554432%Z.
  change (data wide_image)
    with (repeat 0%Z (Z.to_nat 16777216) ++ 1%Z :: repeat 2%Z (Z.to_nat 16777215)).
  split.
  - rewrite nth_error_app2 by (rewrite repeat_length; lia).
    rewrite repeat_length.
    replace (Z.to_nat (0 * 33554432 + 16777216) - Z.to_nat 16777216)%nat with 0%nat by lia.
    reflexivity.
  - rewrite nth_error_app2 by (rewrite repeat_length; lia).
    rewrite repeat_length.
    replace (Z.to_nat (0 * 33554432 + 16777217) - Z.to_nat 16777216)%nat with 1%nat by lia.
    change (nth_error (1%Z :: repeat 2%Z (Z.to_nat 16777215)) 1)
      with (nth_error (repeat 2%Z (Z.to_nat 16777215)) 0).
    apply nth_error_repeat. lia.
Qed.

(** A texel of the wide face is read from its buffer. *)
Lemma readTexel_wide (x : Z) (c : u32) :
  (0 <= x < 33554432)%Z ->
  nth_error (data wide_image) (Z.to_nat (0 * width wide_image + x)) = Some c ->
  readTexel wide_cubemap FACE_POS_X x 0 = Ok c.
Proof.
  intros Hx Hnth.
  destruct (readTexel_in_bounds wide_cubemap FACE_POS_X x 0 wide_image eq_refl
              wide_image_valid Hx ltac:(change (height wide_image) with 1%Z; lia))
    as (c' & Hread & Hnth').
  rewrite Hnth in Hnth'. inversion Hnth'; subst c'. exact Hread.
Qed.

(** C5, as stated, fails in single precision on a face wider than the
    precision of a [float]: at the centre of the texel 16777217 of a row
    of [2^25] texels, computed as [unlerp] does, [sampleFace] reads the
    texel 16777216 (1), not [readTexel(face, 16777217, 0)] (2). *)
Lemma texel_centre_lost_on_wide_face :
  sampleFace (FM := binary32) wide_cubemap FACE_POS_X
    (unlerp (FM := binary32) 16777217 (width wide_image))
    (unlerp (FM := binary32) 0 (height wide_image)) = Ok 1%Z /\
  readTexel wide_cubemap FACE_POS_X 16777217 0 = Ok 2%Z.
Proof.
  destruct wide_image_texels as [H1 H2].
  split.
  - unfold sampleFace.
    change (faces wide_cubemap FACE_POS_X) with (Some wide_image).
    cbv beta iota.
    change (width wide_image) with 33554432%Z. change (height wide_image) with 1%Z.
    assert (Hx : texel_index (FM := binary32)
                   (unlerp (FM := binary32) 16777217 33554432) 33554432 = Ok 16777216%Z)
      by (vm_compute; reflexivity).
    assert (Hy : texel_index (FM := binary32) (unlerp (FM := binary32) 0 1) 1 = Ok 0%Z)
      by (vm_compute; reflexivity).
    rewrite Hx, Hy. cbv beta iota delta [bind].
    apply readTexel_wide; [lia | exact H1].
  - apply readTexel_wide; [lia | exact H2].
Qed.

(** *** Where the sizes end

    The round trip through a texel centre is lost on a row of [2^23 + 1]
    texels, and [0.5f * width] is no longer the centre texel on a row of
    [2^24 + 3] texels. A dimension above 2147483583 converts to [2^31],
    which [static_cast<int>] cannot take back, and a coordinate [1.0] does
    occur: for [output_size = 2] the pixel [(0, 1)] is classified onto -X
    with [t = 1.0]. *)

Lemma texel_centre_lost_above_2_23 :
  texel_index (FM := binary32) (unlerp (FM := binary32) 6291456 8388609) 8388609 =
    Ok 6291457%Z.
Proof. vm_compute. reflexivity. Qed.

Lemma centre_texel_lost_above_2_24 :
  texel_index (FM := binary32) half 16777219 = Ok 8388610%Z /\
  (16777219 / 2 = 8388609)%Z.
Proof. split; vm_compute; reflexivity. Qed.

Lemma dimension_beyond_int :
  (let '(vx, vy, vz) :=
     pixel_direction (FM := binary32) (unlerp (FM := binary32) 0 2)
       (unlerp (FM := binary32) 1 2) in
   computeTexCoords (FM := binary32) vx vy vz) = Ok (FACE_NEG_X, half, of_int 1) /\
  texel_index (FM := binary32) (of_int 1) 2147483647 = Undefined.
Proof. split; vm_compute; reflexivity. Qed.

End Binary32Program.

(** ** Infinite components, sizes beyond the precision, and the limits
    of the generator *)

Module Binary32Limits.

Import Binary32 Binary32Facts Binary32Classify.
Import Binary32Real Binary32Rounding Binary32Program.

(** *** Directions with infinite components *)

Lemma normalize_at_infinity (tmp : spec_float) :
  is_finite tmp = true ->
  normalize (FM := binary32) tmp (S754_infinity false) = b32_half.
Proof.
  intros Hf. destruct tmp as [s | s | | s m e]; try discriminate;
    destruct s; vm_compute; reflexivity.
Qed.

Lemma normalize_infinite (tmp : spec_float) :
  is_infinite tmp = true ->
  normalize (FM := binary32) tmp (S754_infinity false) = S754_nan.
Proof.
  intros Hi. destruct tmp as [s | s | | s m e]; try discriminate.
  destruct s; vm_compute; reflexivity.
Qed.

Lemma is_infinite_opp (f : spec_float) : is_infinite (SFopp f) = is_infinite f.
Proof. destruct f; reflexivity. Qed.

Lemma finite_or_infinite (f : spec_float) :
  is_nan f = false -> is_finite f = negb (is_infinite f).
Proof. destruct f; simpl; congruence. Qed.

Lemma abs_infinite (f : spec_float) :
  is_infinite f = true -> SFabs f = S754_infinity false.
Proof. destruct f; try discriminate. reflexivity. Qed.

(** Nothing is larger than an infinity. *)
Lemma above_infinite (a b : spec_float) :
  is_nan b = false -> is_infinite a = true -> key_le (key a) (key b) ->
  is_infinite b = true.
Proof.
  intros Hb Ha Hle.
  destruct a as [sa | sa | | sa ma ea]; try discriminate.
  destruct b as [sb | sb | | sb mb eb]; try discriminate; try reflexivity;
    unfold key_le in Hle; simpl in Hle; lia.
Qed.

(** The value [0.5 * (tmp / inf + 1)] for a component [c] of the direction,
    taken with either sign. *)
Lemma normalize_component (c tmp : spec_float) :
  is_nan c = false -> tmp = c \/ tmp = SFopp c ->
  (is_infinite c = false ->
   normalize (FM := binary32) tmp (S754_infinity false) = b32_half) /\
  (is_infinite c = true ->
   normalize (FM := binary32) tmp (S754_infinity false) = S754_nan).
Proof.
  intros Hn Htmp.
  assert (Hnt : is_nan tmp = false) by (destruct Htmp as [-> | ->]; destruct c; auto).
  assert (Hit : is_infinite tmp = is_infinite c)
    by (destruct Htmp as [-> | ->]; [reflexivity | apply is_infinite_opp]).
  split; intros Hc.
  - apply normalize_at_infinity. rewrite (finite_or_infinite tmp Hnt), Hit, Hc. reflexivity.
  - apply normalize_infinite. rewrite Hit. exact Hc.
Qed.

(** The raw coordinates of each axis: the two other components, up to
    the signs of the per-face table. *)
Lemma computeTexCoords_components (x y z : spec_float) (axis : Z) :
  select_major_axis (FM := binary32) (SFabs x) (SFabs y) (SFabs z) = Ok axis ->
  0 <= axis <= 2 ->
  exists tmp_s tmp_t,
    computeTexCoords (FM := binary32) x y z =
      Ok (face_of_axis (FM := binary32) x y z axis,
          normalize (FM := binary32) tmp_s (SFabs (index3 (FM := binary32) x y z axis)),
          normalize (FM := binary32) tmp_t (SFabs (index3 (FM := binary32) x y z axis))) /\
    match axis with
    | 0 => (tmp_s = z \/ tmp_s = SFopp z) /\ (tmp_t = y \/ tmp_t = SFopp y)
    | 1 => (tmp_s = x \/ tmp_s = SFopp x) /\ (tmp_t = z \/ tmp_t = SFopp z)
    | _ => (tmp_s = x \/ tmp_s = SFopp x) /\ (tmp_t = y \/ tmp_t = SFopp y)
    end.
Proof.
  intros Haxis Hrange. unfold computeTexCoords.
  cbn [fabs binary32]. rewrite Haxis. cbn [bind]. unfold face_of_axis.
  assert (axis = 0 \/ axis = 1 \/ axis = 2) as [-> | [-> | ->]] by lia;
    cbn [index3]; destruct (flt _ (of_int 0));
    cbn [Z.mul Z.add Pos.mul Pos.add project bind fneg binary32];
    eexists; eexists; (split; [reflexivity | ]); auto.
Qed.

(** The major component is infinite as soon as one component is. *)
Lemma largest_is_infinite (x y z : spec_float) (axis : Z) :
  is_nan x = false -> is_nan y = false -> is_nan z = false ->
  is_largest (FM := binary32) (SFabs x) (SFabs y) (SFabs z) axis ->
  0 < infinite_components x y z ->
  is_infinite (index3 (FM := binary32) x y z axis) = true.
Proof.
  intros Hnx Hny Hnz Hmax Hsome.
  pose proof (is_largest_range (FM := binary32) _ _ _ _ Hmax) as Hrange.
  unfold infinite_components in Hsome.
  assert (Hle : forall a b, is_nan a = false -> is_nan b = false ->
                            SFleb (SFabs a) (SFabs b) = true ->
                            is_infinite a = true -> is_infinite b = true).
  { intros a b Ha Hb Hab Hi. apply (above_infinite a b Hb Hi).
    apply SFleb_abs; assumption. }
  destruct Hrange as [-> | [-> | ->]]; cbn [index3];
    cbn [is_largest fge binary32] in Hmax; destruct Hmax as [Ha Hb];
    match type of Ha with
    | SFleb (SFabs ?a) (SFabs ?b) = true =>
        pose proof (Hle a b ltac:(assumption) ltac:(assumption) Ha) as Ha'
    end;
    match type of Hb with
    | SFleb (SFabs ?a) (SFabs ?b) = true =>
        pose proof (Hle a b ltac:(assumption) ltac:(assumption) Hb) as Hb'
    end;
    destruct (is_infinite x); destruct (is_infinite y);
      destruct (is_infinite z); cbn [Z.b2z] in Hsome; try lia;
      try reflexivity;
    first [ apply Ha'; reflexivity | apply Hb'; reflexivity ].
Qed.

(** The pair [(s, t)] is free of NaN exactly when at most one component
    of the direction is infinite; with exactly one, both are [0.5]. *)
Lemma infinite_components_decide (x y z : spec_float) (face : Z) (s t : spec_float) :
  is_nan x = false -> is_nan y = false -> is_nan z = false ->
  computeTexCoords (FM := binary32) x y z = Ok (face, s, t) ->
  (is_finite x = true -> is_finite y = true -> is_finite z = true ->
   is_nan s = false /\ is_nan t = false) ->
  (infinite_components x y z <= 1 <-> is_nan s = false /\ is_nan t = false) /\
  (infinite_components x y z = 1 -> s = b32_half /\ t = b32_half).
Proof.
  intros Hnx Hny Hnz Hrun Hfinite.
  destruct (binary32_major_axis_exists x y z Hnx Hny Hnz) as [axis Hspec].
  pose proof (select_major_axis_spec (FM := binary32) _ _ _ _ Hspec) as Haxis.
  destruct Hspec as [Hmax _].
  pose proof (is_largest_range (FM := binary32) _ _ _ _ Hmax) as Hrange.
  destruct (computeTexCoords_components x y z axis Haxis ltac:(lia))
    as (tmp_s & tmp_t & Hrun' & Htmp).
  rewrite Hrun in Hrun'.
  assert (Hs : normalize (FM := binary32) tmp_s
                 (SFabs (index3 (FM := binary32) x y z axis)) = s) by congruence.
  assert (Ht : normalize (FM := binary32) tmp_t
                 (SFabs (index3 (FM := binary32) x y z axis)) = t) by congruence.
  clear Hrun'.
  pose proof (largest_is_infinite x y z axis Hnx Hny Hnz Hmax) as Hinf.
  pose proof (finite_or_infinite x Hnx) as Fx.
  pose proof (finite_or_infinite y Hny) as Fy.
  pose proof (finite_or_infinite z Hnz) as Fz.
  destruct (Z.eq_dec (infinite_components x y z) 0) as [Hnone | Hsome].
  { unfold infinite_components in *.
    destruct (is_infinite x); destruct (is_infinite y); destruct (is_infinite z);
      cbn [Z.b2z negb] in *; try lia.
    split; [split; [intros _; apply Hfinite; assumption
                   | intros _; lia]
           | intros H; exfalso; lia]. }
  assert (Hpos : 0 < infinite_components x y z).
  { unfold infinite_components in *.
    destruct (is_infinite x); destruct (is_infinite y); destruct (is_infinite z);
      cbn [Z.b2z] in *; lia. }
  specialize (Hinf Hpos). rewrite (abs_infinite _ Hinf) in Hs, Ht.
  subst s t. clear Hfinite Fx Fy Fz Hsome Hpos Haxis Hmax Hrun.
  unfold infinite_components.
  destruct Hrange as [-> | [-> | ->]]; cbn [index3] in Hinf; rewrite Hinf;
    destruct Htmp as [Hts Htt];
    match type of Hts with
    | _ = ?c \/ _ =>
        destruct (normalize_component c tmp_s ltac:(assumption) Hts) as [Hs0 Hs1]
    end;
    match type of Htt with
    | _ = ?c \/ _ =>
        destruct (normalize_component c tmp_t ltac:(assumption) Htt) as [Ht0 Ht1]
    end;
    repeat match goal with
           | H : is_infinite ?c = _ -> _ |- _ =>
               destruct (is_infinite c); [clear H | specialize (H eq_refl)]
           | H : true = false -> _ |- _ => clear H
           | H : false = true -> _ |- _ => clear H
           | H : ?a = ?a -> _ |- _ => specialize (H eq_refl)
           end;
    repeat match goal with
           | H : normalize _ _ = _ |- _ => rewrite H
           end;
    cbn [Z.b2z];
    (split; [split; [intros Hc; first [lia | split; reflexivity]
                    | intros [H1 H2]; first [lia | discriminate]]
            | intros Hc; first [lia | split; reflexivity]]).
Qed.

(** *** Truncation of any finite value *)

(** The shifted mantissa is the integer part of [m * 2^e]. *)
Lemma magnitude_floor (m : positive) (e : Z) :
  let z := match e with
           | Z.neg p => Z.shiftr (Z.pos m) (Z.pos p)
           | _ => Z.shiftl (Z.pos m) e
           end in
  (0 <= z)%Z /\ (IZR z <= F2R (Zpos m) e < IZR z + 1)%R.
Proof.
  cbv zeta. unfold F2R. destruct e as [ | p | p].
  - simpl. rewrite bpow_0. split; [lia | lra].
  - rewrite Z.shiftl_mul_pow2 by lia. rewrite mult_IZR, <- bpow_IZR by lia.
    split; [ | lra].
    assert (0 < 2 ^ Zpos p)%Z by (apply Z.pow_pos_nonneg; lia). lia.
  - rewrite Z.shiftr_div_pow2 by lia.
    assert (Hp : (0 < 2 ^ Zpos p)%Z) by (apply Z.pow_pos_nonneg; lia).
    pose proof (Z_div_mod_eq_full (Zpos m) (2 ^ Zpos p)) as Ed.
    pose proof (Z.mod_pos_bound (Zpos m) (2 ^ Zpos p) Hp) as Hr.
    set (q := (Zpos m / 2 ^ Zpos p)%Z) in *.
    set (r := (Zpos m mod 2 ^ Zpos p)%Z) in *.
    assert (Hq : (0 <= q)%Z) by (apply Z.div_pos; lia).
    split; [exact Hq | ].
    change (Z.neg p) with (- Zpos p)%Z. rewrite bpow_opp, bpow_IZR by lia.
    assert (HpR : (0 < IZR (2 ^ Zpos p))%R) by (apply IZR_lt; exact Hp).
    rewrite Ed, plus_IZR, mult_IZR.
    assert (0 <= IZR r)%R by (apply IZR_le; lia).
    assert (IZR r < IZR (2 ^ Zpos p))%R by (apply IZR_lt; lia).
    remember (IZR (2 ^ Zpos p)) as P eqn:EP.
    replace ((P * IZR q + IZR r) * / P)%R with (IZR q + IZR r / P)%R by (field; lra).
    assert (0 <= IZR r / P)%R
      by (apply Rmult_le_pos; [lra | left; apply Rinv_0_lt_compat; lra]).
    assert (IZR r / P < 1)%R.
    { apply (Rmult_lt_reg_r P); [lra | ]. unfold Rdiv.
      rewrite Rmult_assoc, Rinv_l by lra. lra. }
    lra.
Qed.

(** [truncate] is the truncation toward zero of the value, whatever the
    mantissa and the exponent. *)
Lemma truncate_Rtrunc (s : bool) (m : positive) (e : Z) :
  truncate s m e = Exact.Rtrunc (B2R (S754_finite s m e)).
Proof.
  unfold truncate. destruct (magnitude_floor m e) as [Hz0 Hz].
  cbv zeta in Hz0, Hz.
  set (z := match e with
            | Z.neg p => Z.shiftr (Z.pos m) (Z.pos p)
            | _ => Z.shiftl (Z.pos m) e
            end) in *.
  pose proof (F2R_pos m e) as Hpos.
  unfold Exact.Rtrunc. simpl B2R. destruct s.
  - destruct (Rle_dec 0 (- F2R (Z.pos m) e)) as [H | H]; [lra | ].
    rewrite Ropp_involutive.
    rewrite (ExactFacts.Int_part_unique _ z Hz). reflexivity.
  - destruct (Rle_dec 0 (F2R (Z.pos m) e)) as [H | H]; [ | lra].
    rewrite (ExactFacts.Int_part_unique _ z Hz). reflexivity.
Qed.

(** [static_cast<int>] of a [float]: defined on the finite values whose
    truncation is an [int]. *)
Lemma b32_to_int_cases (f : spec_float) :
  b32_to_int f =
    if is_finite f && in_int (Exact.Rtrunc (B2R f))
    then Some (Exact.Rtrunc (B2R f)) else None.
Proof.
  destruct f as [s | s | | s m e]; try reflexivity.
  - simpl. assert (E : Exact.Rtrunc 0 = 0).
    { unfold Exact.Rtrunc. destruct (Rle_dec 0 0) as [H | H]; [ | lra].
      apply ExactFacts.Int_part_unique. simpl. lra. }
    rewrite E. reflexivity.
  - unfold b32_to_int. rewrite truncate_Rtrunc. reflexivity.
Qed.

(** [std::min(static_cast<int>(c * dim), dim - 1)] for any coordinate and
    any positive [int] dimension. *)
Lemma texel_index_cases (c : spec_float) (dim : Z) :
  positive_dim dim ->
  texel_index (FM := binary32) c dim =
    if is_finite (SFmul prec emax c (b32_of_int dim)) &&
       in_int (Exact.Rtrunc (product_value c dim))
    then Ok (Z.min (Exact.Rtrunc (product_value c dim)) (dim - 1))
    else Undefined.
Proof.
  intros [Hd0 Hd1]. unfold texel_index, cast_int, product_value.
  cbn [fmul of_int to_int binary32]. rewrite b32_to_int_cases.
  destruct (is_finite _ && in_int _); [ | reflexivity].
  cbn [bind]. rewrite int_arith_in_range by (unfold INT_MIN, INT_MAX in *; lia).
  reflexivity.
Qed.

Lemma texel_index_cases_exact (c : R) (dim : Z) :
  positive_dim dim ->
  texel_index (FM := exact) c dim =
    if in_int (Exact.Rtrunc (c * IZR dim))
    then Ok (Z.min (Exact.Rtrunc (c * IZR dim)) (dim - 1))
    else Undefined.
Proof.
  intros [Hd0 Hd1]. unfold texel_index, cast_int.
  cbn [fmul of_int to_int exact]. unfold Exact.R_to_int.
  destruct (in_int _); [ | reflexivity].
  cbn [bind]. rewrite int_arith_in_range by (unfold INT_MIN, INT_MAX in *; lia).
  reflexivity.
Qed.

(** [sampleFace] in both arithmetics: the texel at the truncated
    products, and undefined when a product has no [int] truncation. *)
Lemma sampleFace_cases_exact (cm : Cubemap) (face : Z) (img : Image) (s t : R) :
  faces cm face = Some img ->
  positive_dim (width img) -> positive_dim (height img) ->
  sampleFace (FM := exact) cm face s t =
    if in_int (Exact.Rtrunc (s * IZR (width img))) &&
       in_int (Exact.Rtrunc (t * IZR (height img)))
    then readTexel cm face
           (Z.min (Exact.Rtrunc (s * IZR (width img))) (width img - 1))
           (Z.min (Exact.Rtrunc (t * IZR (height img))) (height img - 1))
    else Undefined.
Proof.
  intros Hface Hw Hh. unfold sampleFace. rewrite Hface.
  rewrite (texel_index_cases_exact s _ Hw), (texel_index_cases_exact t _ Hh).
  destruct (in_int (Exact.Rtrunc (s * IZR (width img))));
    destruct (in_int (Exact.Rtrunc (t * IZR (height img)))); reflexivity.
Qed.

Lemma sampleFace_cases_binary32 (cm : Cubemap) (face : Z) (img : Image)
  (s t : spec_float) :
  faces cm face = Some img ->
  positive_dim (width img) -> positive_dim (height img) ->
  sampleFace (FM := binary32) cm face s t =
    if is_finite (SFmul prec emax s (b32_of_int (width img))) &&
       in_int (Exact.Rtrunc (product_value s (width img))) &&
       (is_finite (SFmul prec emax t (b32_of_int (height img))) &&
        in_int (Exact.Rtrunc (product_value t (height img))))
    then readTexel cm face
           (Z.min (Exact.Rtrunc (product_value s (width img))) (width img - 1))
           (Z.min (Exact.Rtrunc (product_value t (height img))) (height img - 1))
    else Undefined.
Proof.
  intros Hface Hw Hh. unfold sampleFace. rewrite Hface.
  rewrite (texel_index_cases s _ Hw), (texel_index_cases t _ Hh).
  destruct (is_finite (SFmul prec emax s (b32_of_int (width img))) &&
            in_int (Exact.Rtrunc (product_value s (width img))));
    destruct (is_finite (SFmul prec emax t (b32_of_int (height img))) &&
              in_int (Exact.Rtrunc (product_value t (height img)))); reflexivity.
Qed.

(** *** Faces up to the last dimension that converts below [2^31] *)

(** A dimension up to 2147483583 converts to a [float] of at most
    2147483520: the integers from 2147483521 on round down to it. *)
Lemma of_int_float_sized (dim : Z) :
  (0 < dim <= max_float_dim)%Z ->
  fin (b32_of_int dim) /\ (1 <= B2R (b32_of_int dim) <= IZR max_dim)%R.
Proof.
  intros [Hd0 Hd1]. unfold max_float_dim in Hd1.
  pose proof bpow_127_ge as Hbig.
  assert (HM : IZR max_dim = 2147483520%R) by reflexivity.
  destruct (Z_le_gt_dec dim max_dim) as [Hle | Hgt].
  - apply (of_int_bounds dim 1 (IZR max_dim) format_1 format_max_dim);
      [split; apply IZR_le; lia | lra | lra].
  - unfold max_dim in Hgt.
    assert (H31 : bpow 31 = 2147483648%R) by (rewrite bpow_IZR by lia; reflexivity).
    assert (Hk : (IZR max_dim <= IZR dim <= bpow 31)%R).
    { rewrite H31, HM. split; apply IZR_le; lia. }
    assert (Hk' : (IZR dim <= 2147483583)%R) by (apply IZR_le; lia).
    pose proof (binary_normalize_result dim 0 false) as Hres.
    replace (F2R dim 0) with (IZR dim) in Hres by (unfold F2R; rewrite bpow_0; ring).
    destruct (result_bounds _ _ (IZR max_dim) (bpow 31) Hres format_max_dim
                (format_bpow 31 ltac:(unfold emin; lia)) Hk ltac:(lra) ltac:(lra))
      as (Hf & Hb & [[Hfmt Hnear] _]).
    fold (b32_of_int dim) in Hf, Hb, Hfmt, Hnear.
    split; [exact Hf | ]. split; [lra | ].
    pose proof (Hnear _ format_max_dim) as Hclose.
    assert (Hup : (B2R (b32_of_int dim) < bpow 31)%R).
    { rewrite H31. revert Hclose. rewrite HM. split_Rabs; lra. }
    destruct (format_grid _ 16777215 7 Hfmt ltac:(unfold emin; lia)
                ltac:(right; lia) ltac:(lia)) as [Hlow | Hhigh].
    + replace (F2R 16777215 7) with (IZR max_dim) in Hlow; [exact Hlow | ].
      unfold F2R. rewrite bpow_IZR by lia. rewrite <- mult_IZR. reflexivity.
    + exfalso. replace (F2R (16777215 + 1) 7) with (bpow 31) in Hhigh; [lra | ].
      unfold F2R. rewrite H31, bpow_IZR by lia. rewrite <- mult_IZR. reflexivity.
Qed.

(** [std::min(static_cast<int>(c * dim), dim - 1)] for [c] in [[0, 1]] on
    such a dimension: the index is inside the face. *)
Lemma texel_index_float_sized (c : spec_float) (dim : Z) :
  fin c -> (0 <= B2R c <= 1)%R -> (0 < dim <= max_float_dim)%Z ->
  exists i, texel_index (FM := binary32) c dim = Ok i /\ (0 <= i < dim)%Z.
Proof.
  intros Hc Hc01 Hdim. unfold texel_index, cast_int.
  cbn [fmul of_int to_int binary32].
  pose proof bpow_127_ge as Hbig.
  assert (HM : IZR max_dim = 2147483520%R) by reflexivity.
  destruct (of_int_float_sized dim Hdim) as [Hfd Hbd].
  destruct (result_bounds _ _ 0 (IZR max_dim)
              (SFmul_result _ _ Hc Hfd) format_0 format_max_dim
              ltac:(nra) ltac:(lra) ltac:(lra))
    as (Hfp & Hbp & _).
  assert (H31 : bpow 31 = 2147483648%R) by (rewrite bpow_IZR by lia; reflexivity).
  destruct (b32_to_int_floor _ Hfp ltac:(lra) ltac:(lra)) as (z & Ez & Hz0 & Hzb).
  rewrite Ez. cbn [bind].
  rewrite int_arith_in_range
    by (unfold INT_MIN, INT_MAX; unfold max_float_dim in Hdim; lia).
  cbn [bind]. eexists. split; [reflexivity | lia].
Qed.

(** Every pixel receives a texel of one of the faces. *)
Lemma pixel_color_float_sized (cm : Cubemap) (output_size x y : Z) :
  valid_cubemap cm -> float_sized_faces cm ->
  (0 <= x < output_size)%Z -> (0 <= y < output_size)%Z ->
  (output_size <= 2 ^ 23)%Z ->
  exists (c : u32) (face tx ty : Z) (img : Image),
    pixel_color (FM := binary32) cm output_size x y = Ok c /\
    faces cm face = Some img /\
    (0 <= tx < width img)%Z /\ (0 <= ty < height img)%Z /\
    readTexel cm face tx ty = Ok c.
Proof.
  intros Hvalid Hbound Hx Hy Hn. unfold pixel_color.
  destruct (unlerp_binary32 x output_size Hx Hn) as (Hfs & Hs01 & _).
  destruct (unlerp_binary32 y output_size Hy Hn) as (Hft & Ht01 & _).
  pose proof (pixel_direction_binary32 _ _ Hfs Hft Hs01 Ht01) as Hdir.
  destruct (pixel_direction (FM := binary32) (unlerp (FM := binary32) x output_size)
              (unlerp (FM := binary32) y output_size)) as [[vx vy] vz].
  destruct Hdir as (Hvx & Hvy & Hvz & Hnz).
  destruct (computeTexCoords_binary32 vx vy vz Hvx Hvy Hvz Hnz)
    as (face & s & t & Hrun & Hface & Hs & Ht & Hsr & Htr).
  destruct (faces_in_range cm face Hface) as [img Himg].
  pose proof (Hvalid face img Himg) as Hv.
  destruct (Hbound face img Himg) as [Hw Hh].
  pose proof Hv as (Hw0 & Hh0 & _ & _).
  destruct (texel_index_float_sized s (width img) Hs Hsr ltac:(lia)) as (tx & Htx & Hxr).
  destruct (texel_index_float_sized t (height img) Ht Htr ltac:(lia)) as (ty & Hty & Hyr).
  destruct (readTexel_in_bounds cm face tx ty img Himg Hv Hxr Hyr) as (c & Hread & _).
  exists c, face, tx, ty, img.
  split; [ | tauto].
  rewrite Hrun. cbn [bind]. unfold sampleFace. rewrite Himg, Htx, Hty. cbn [bind].
  exact Hread.
Qed.

(** The run finishes and returns texels. *)
Lemma generate_float_sized (cm : Cubemap) (output_size : Z) :
  valid_cubemap cm -> float_sized_faces cm ->
  (0 <= output_size)%Z -> (output_size * output_size <= INT_MAX)%Z ->
  produces_texels binary32 cm output_size.
Proof.
  intros Hvalid Hbound Hn Hsize.
  pose proof (int_square_bound output_size Hn Hsize) as H23.
  destruct (generate_runs (FM := binary32) cm output_size Hn Hsize) as [buf Hrun].
  { intros x y Hx Hy.
    destruct (pixel_color_float_sized cm output_size x y Hvalid Hbound Hx Hy H23)
      as (c & _ & _ & _ & _ & Hc & _).
    exists c. exact Hc. }
  exists buf. split; [exact Hrun | ].
  destruct (generate_filled cm output_size buf Hrun) as [Hlen Hpix].
  split; [exact Hlen | ].
  intros c Hin. apply In_nth_error in Hin. destruct Hin as [i Hi].
  assert (Hlt : (i < length buf)%nat) by (apply nth_error_Some; congruence).
  assert (Hpos : (0 < output_size)%Z) by nia.
  destruct (raster_index output_size (Z.of_nat i) Hpos ltac:(lia)) as (Hx & Hy & Hidx).
  destruct (Hpix _ _ Hx Hy) as (c' & Hc' & Hnth); [nia | ].
  rewrite Hidx, Nat2Z.id, Hi in Hnth. inversion Hnth; subst c'.
  destruct (pixel_color_float_sized cm output_size
              (Z.of_nat i mod output_size) (Z.of_nat i / output_size)
              Hvalid Hbound Hx Hy H23)
    as (c2 & face & tx & ty & img & Hc2 & Himg & Htx & Hty & Hread).
  rewrite Hc' in Hc2. inversion Hc2; subst c2.
  exists face, tx, ty, img. tauto.
Qed.

(** The faces of the test cubemap are of such a size, and so are the
    faces whose dimensions are at most [max_dim]. *)
Lemma bounded_faces_float_sized (cm : Cubemap) :
  bounded_faces cm -> float_sized_faces cm.
Proof.
  intros Hb face img Hface. destruct (Hb face img Hface) as [Hw Hh].
  unfold max_dim in Hw, Hh. unfold max_float_dim. lia.
Qed.

(** *** A face beyond: the tall face

    The height 2147483584 converts to [2^31]. With [output_size = 2] the
    pixel [(0, 1)] is sent to the face -X with [t = 1]: the product
    [1.0f * 2^31] is [2^31], which [static_cast<int>] cannot take. *)

Lemma tall_image_valid : valid_image tall_image.
Proof.
  unfold valid_image.
  change (width tall_image) with 1%Z. change (height tall_image) with 2147483584%Z.
  change (data tall_image) with (repeat 0%Z (Z.to_nat 2147483584)).
  split; [lia | ]. split; [lia | ]. split; [unfold INT_MAX; lia | ].
  rewrite repeat_length. lia.
Qed.

Lemma tall_cubemap_valid : valid_cubemap tall_cubemap.
Proof.
  intros face img Hface.
  pose proof (faces_Some_range _ _ _ Hface) as Hrange. unfold NUM_FACES in Hrange.
  assert (face = 0 \/ face = 1 \/ face = 2 \/ face = 3 \/ face = 4 \/ face = 5)%Z
    as Hcases by lia.
  destruct Hcases as [-> | [-> | [-> | [-> | [-> | ->]]]]];
    inversion Hface; subst;
    first [ exact tall_image_valid | unfold valid_image, INT_MAX; simpl; lia ].
Qed.

Lemma tall_face_pixel :
  pixel_color (FM := binary32) tall_cubemap 2 0 1 = Undefined.
Proof.
  unfold pixel_color.
  assert (Hdir : (let '(vx, vy, vz) :=
                    pixel_direction (FM := binary32) (unlerp (FM := binary32) 0 2)
                      (unlerp (FM := binary32) 1 2) in
                  computeTexCoords (FM := binary32) vx vy vz) =
                 Ok (FACE_NEG_X, half, of_int 1))
    by (vm_compute; reflexivity).
  destruct (pixel_direction (FM := binary32) (unlerp (FM := binary32) 0 2)
              (unlerp (FM := binary32) 1 2)) as [[vx vy] vz].
  rewrite Hdir. cbn [bind]. unfold sampleFace.
  change (faces tall_cubemap FACE_NEG_X) with (Some tall_image). cbv beta iota.
  change (width tall_image) with 1%Z. change (height tall_image) with 2147483584%Z.
  assert (Hx : texel_index (FM := binary32) half 1 = Ok 0%Z)
    by (vm_compute; reflexivity).
  assert (Hy : texel_index (FM := binary32) (of_int 1) 2147483584 = Undefined)
    by (vm_compute; reflexivity).
  rewrite Hx, Hy. reflexivity.
Qed.

(** On the tall face the run does not finish, although every face is a
    decoded image. *)
Lemma tall_face_stops_generation :
  valid_cubemap tall_cubemap /\
  forall buf, generate (FM := binary32) tall_cubemap 2 <> Ok buf.
Proof.
  split; [exact tall_cubemap_valid | ].
  intros buf Hrun.
  destruct (generate_filled tall_cubemap 2 buf Hrun) as [_ Hpix].
  destruct (Hpix 0%Z 1%Z ltac:(lia) ltac:(lia) ltac:(lia)) as (c & Hc & _).
  rewrite tall_face_pixel in Hc. discriminate.
Qed.

(** *** Sizes outside the range of the loops *)

(** The product [output_size * output_size] overflows. *)
Lemma generate_beyond_int {FM : FloatModel} (cm : Cubemap) (output_size : Z) :
  (INT_MAX < output_size * output_size)%Z ->
  generate cm output_size = Undefined.
Proof.
  intros Hbig. unfold generate, int_arith, in_int.
  replace (output_size * output_size <=? INT_MAX)%Z with false
    by (symmetry; apply Z.leb_gt; exact Hbig).
  rewrite andb_false_r. reflexivity.
Qed.

(** A negative size: the loops have no iteration. *)
Lemma generate_negative_size {FM : FloatModel} (cm : Cubemap) (output_size : Z) :
  (output_size < 0)%Z -> (output_size * output_size <= INT_MAX)%Z ->
  generate cm output_size = Ok (repeat 0%Z (Z.to_nat (output_size * output_size))).
Proof.
  intros Hn Hsize. unfold generate.
  rewrite int_arith_in_range by (unfold INT_MIN; nia). cbn [bind].
  unfold for_loop. replace (Z.to_nat (output_size - 0)) with O by lia.
  reflexivity.
Qed.

(** No texel of the test cubemap is 0. *)
Lemma test_cubemap_has_no_zero (face x y : Z) :
  readTexel test_cubemap face x y <> Ok 0%Z.
Proof.
  unfold readTexel. intros Hrun.
  apply bind_Ok in Hrun. destruct Hrun as (_ & _ & Hrun).
  destruct (faces test_cubemap face) as [img | ] eqn:Hface; [ | discriminate].
  apply bind_Ok in Hrun. destruct Hrun as (_ & _ & Hrun).
  apply bind_Ok in Hrun. destruct Hrun as (_ & _ & Hrun).
  apply bind_Ok in Hrun. destruct Hrun as (row & _ & Hrun).
  apply bind_Ok in Hrun. destruct Hrun as (i & _ & Hrun).
  apply read_u32_Ok in Hrun. destruct Hrun as [_ Hnth].
  apply nth_error_In in Hnth.
  pose proof (faces_Some_range _ _ _ Hface) as Hrange. unfold NUM_FACES in Hrange.
  assert (face = 0 \/ face = 1 \/ face = 2 \/ face = 3 \/ face = 4 \/ face = 5)%Z
    as Hcases by lia.
  destruct Hcases as [-> | [-> | [-> | [-> | [-> | ->]]]]];
    inversion Hface; subst; simpl in Hnth; lia.
Qed.

End Binary32Limits.

(** ** The statements about computed values, in both arithmetics *)

Module BothArithmetics.

Import Binary32 Binary32Facts Binary32Classify.
Import Binary32Real Binary32Rounding Binary32Program Binary32Limits.

(** C4, amended. In single precision, for every direction without NaN
    whose components are not all zero: one branch of the [if] chain is
    taken (the uninitialised read is unreachable) and [computeTexCoords]
    returns one face among the six; the divisor [m] of the selected case
    is strictly positive; the [s] and [t] returned,
    [0.5 * (tmp / m + 1)], are free of NaN exactly when at most one
    component of the direction is infinite, and with exactly one
    infinite component both are [0.5]; and when the three components
    are finite values in canonical form, as every value the arithmetic
    produces is, [s] and [t] are finite and lie in [[0, 1]]. *)
Theorem classification_total (x y z : spec_float) :
  is_nan x = false -> is_nan y = false -> is_nan z = false ->
  is_zero x && is_zero y && is_zero z = false ->
  exists (axis face : Z) (tmp_s tmp_t m s t : spec_float),
    select_major_axis (FM := binary32) (SFabs x) (SFabs y) (SFabs z) = Ok axis /\
    0 <= axis <= 2 /\
    face = face_of_axis (FM := binary32) x y z axis /\
    0 <= face <= 5 /\
    project (FM := binary32) x y z (SFabs x) (SFabs y) (SFabs z) face =
      Ok (tmp_s, tmp_t, m) /\
    flt (FloatModel := binary32) (of_int 0) m = true /\
    computeTexCoords (FM := binary32) x y z = Ok (face, s, t) /\
    s = normalize (FM := binary32) tmp_s m /\
    t = normalize (FM := binary32) tmp_t m /\
    (is_finite x = true -> is_finite y = true -> is_finite z = true ->
     is_nan s = false /\ is_nan t = false) /\
    (fin x -> fin y -> fin z ->
     fin s /\ fin t /\ (0 <= B2R s <= 1)%R /\ (0 <= B2R t <= 1)%R) /\
    (infinite_components x y z <= 1 <-> is_nan s = false /\ is_nan t = false) /\
    (infinite_components x y z = 1 ->
     s = half (FloatModel := binary32) /\ t = half (FloatModel := binary32)).
Proof.
  intros Hnx Hny Hnz' Hnz.
  destruct (binary32_major_axis_exists x y z Hnx Hny Hnz') as [axis Hspec].
  pose proof (select_major_axis_spec _ _ _ _ Hspec) as Haxis.
  destruct Hspec as [Hmax _].
  assert (Hall : is_zero x = true -> is_zero y = true -> is_zero z = true -> False).
  { intros H1 H2 H3. rewrite H1, H2, H3 in Hnz. discriminate. }
  pose proof (is_largest_range _ _ _ _ Hmax) as Hrange.
  assert (Hm : is_zero (index3 (FM := binary32) x y z axis) = false /\
               is_nan (index3 (FM := binary32) x y z axis) = false /\
               (is_finite x = true -> is_finite y = true -> is_finite z = true ->
                is_finite (index3 (FM := binary32) x y z axis) = true)).
  { destruct Hrange as [-> | [-> | ->]]; simpl index3; simpl in Hmax;
      rewrite !SFleb_abs in Hmax by assumption; destruct Hmax as [Ha Hb];
      (split; [ | split; [assumption | intros; assumption]]).
    - destruct (is_zero x) eqn:Hzx; [exfalso | reflexivity].
      apply Hall; [reflexivity | | ]; eapply below_zero_is_zero; eauto.
    - destruct (is_zero y) eqn:Hzy; [exfalso | reflexivity].
      apply Hall; [ | reflexivity | ]; eapply below_zero_is_zero; eauto.
    - destruct (is_zero z) eqn:Hzz; [exfalso | reflexivity].
      apply Hall; [ | | reflexivity]; eapply below_zero_is_zero; eauto. }
  destruct Hm as (Hmz & Hmn & Hmf).
  assert (Hpos : flt (FloatModel := binary32) (of_int 0)
                   (fabs (FloatModel := binary32) (index3 (FM := binary32) x y z axis)) = true)
    by (apply abs_positive; assumption).
  assert (Hax : 0 <= axis <= 2) by lia.
  destruct (computeTexCoords_run (FM := binary32) x y z axis Haxis Hax)
    as (tmp_s & tmp_t & Hproj & Hins & Hint & Hface & Hrun).
  assert (Hfinite : is_finite x = true -> is_finite y = true -> is_finite z = true ->
            is_nan (normalize (FM := binary32) tmp_s
                      (SFabs (index3 (FM := binary32) x y z axis))) = false /\
            is_nan (normalize (FM := binary32) tmp_t
                      (SFabs (index3 (FM := binary32) x y z axis))) = false).
  { intros Hx Hy Hz.
    assert (Hfin : forall f, In f [x; y; z; fneg (FloatModel := binary32) x;
                                   fneg (FloatModel := binary32) y;
                                   fneg (FloatModel := binary32) z] ->
                             is_finite f = true).
    { intros f Hin. simpl in Hin.
      destruct Hin as [<- | [<- | [<- | [<- | [<- | [<- | []]]]]]];
        rewrite ?is_finite_opp; assumption. }
    split; apply normalize_not_nan; auto;
      rewrite ?is_finite_abs, ?is_zero_abs; auto. }
  destruct (infinite_components_decide x y z _ _ _ Hnx Hny Hnz' Hrun Hfinite)
    as [Hiff Hone].
  exists axis, (face_of_axis (FM := binary32) x y z axis), tmp_s, tmp_t,
    (SFabs (index3 (FM := binary32) x y z axis)),
    (normalize (FM := binary32) tmp_s (SFabs (index3 (FM := binary32) x y z axis))),
    (normalize (FM := binary32) tmp_t (SFabs (index3 (FM := binary32) x y z axis))).
  split; [exact Haxis | ]. split; [exact Hax | ]. split; [reflexivity | ].
  split; [exact Hface | ]. split; [exact Hproj | ]. split; [exact Hpos | ].
  split; [exact Hrun | ]. split; [reflexivity | ]. split; [reflexivity | ].
  split; [exact Hfinite | ].
  split; [ | split; [exact Hiff | exact Hone]].
  intros Fx Fy Fz.
  destruct (computeTexCoords_binary32 x y z Fx Fy Fz Hnz)
    as (face' & s' & t' & Hrun' & _ & Hs & Ht & Hsr & Htr).
  rewrite Hrun in Hrun'. inversion Hrun'; subst s' t'.
  split; [exact Hs | ]. split; [exact Ht | ]. split; assumption.
Qed.

(** C4 at the direction [(1, -3, 2)]: the face is -Y, the divisor is 3. *)
Lemma classification_total_witness :
  exists (s t : spec_float),
    computeTexCoords (FM := binary32) (b32_of_int 1) (b32_of_int (-3)) (b32_of_int 2) =
      Ok (FACE_NEG_Y, s, t) /\
    is_nan s = false /\ is_nan t = false.
Proof.
  destruct (classification_total (b32_of_int 1) (b32_of_int (-3)) (b32_of_int 2)
              eq_refl eq_refl eq_refl eq_refl)
    as (axis & face & tmp_s & tmp_t & m & s & t &
        _ & _ & _ & _ & _ & _ & Hrun & _ & _ & Hfinite & _).
  exists s, t.
  assert (Hface : face = FACE_NEG_Y).
  { assert (Hval : computeTexCoords (FM := binary32)
              (b32_of_int 1) (b32_of_int (-3)) (b32_of_int 2) =
              Ok (FACE_NEG_Y,
                  normalize (FM := binary32) (b32_of_int 1) (SFabs (b32_of_int (-3))),
                  normalize (FM := binary32) (SFopp (b32_of_int 2)) (SFabs (b32_of_int (-3)))))
      by (vm_compute; reflexivity).
    rewrite Hval in Hrun. inversion Hrun. reflexivity. }
  subst face. split; [exact Hrun | ].
  exact (Hfinite eq_refl eq_refl eq_refl).
Defined.

(** C3, amended. For a face with positive dimensions, [sampleFace]
    returns [readTexel] at [min(trunc(s * width), width - 1)] and
    [min(trunc(t * height), height - 1)], [trunc] rounding toward zero,
    when the two truncated products are [int]s, and is undefined when
    one of them is not; for [s, t >= 0] the truncations are the floors
    the specification writes. In single precision the products are the
    [float] products of [s] and [t] with the dimensions converted to
    [float], the result is the same texel when both products are finite
    with truncations that are [int]s, and undefined otherwise; for finite
    [s] and [t], a face of at most [2^24] texels a side and products of
    magnitude up to 2147483520 the [float] products are the real
    products rounded to nearest. *)
Theorem sampleFace_truncates (cm : Cubemap) (face : Z) (img : Image) (s t : R) :
  faces cm face = Some img ->
  positive_dim (width img) -> positive_dim (height img) ->
  sampleFace (FM := exact) cm face s t =
    (if in_int (Exact.Rtrunc (s * IZR (width img))) &&
        in_int (Exact.Rtrunc (t * IZR (height img)))
     then readTexel cm face
            (Z.min (Exact.Rtrunc (s * IZR (width img))) (width img - 1))
            (Z.min (Exact.Rtrunc (t * IZR (height img))) (height img - 1))
     else Undefined) /\
  (INT_MIN <= Exact.Rtrunc (s * IZR (width img)) <= INT_MAX ->
   INT_MIN <= Exact.Rtrunc (t * IZR (height img)) <= INT_MAX ->
   sampleFace (FM := exact) cm face s t =
     readTexel cm face
       (Z.min (Exact.Rtrunc (s * IZR (width img))) (width img - 1))
       (Z.min (Exact.Rtrunc (t * IZR (height img))) (height img - 1)) /\
   ((0 <= s)%R -> (0 <= t)%R ->
    sampleFace (FM := exact) cm face s t =
      readTexel cm face (spec_texel s (width img)) (spec_texel t (height img)))) /\
  (forall sf tf : spec_float,
     sampleFace (FM := binary32) cm face sf tf =
       if is_finite (SFmul prec emax sf (b32_of_int (width img))) &&
          in_int (Exact.Rtrunc (product_value sf (width img))) &&
          (is_finite (SFmul prec emax tf (b32_of_int (height img))) &&
           in_int (Exact.Rtrunc (product_value tf (height img))))
       then readTexel cm face
              (Z.min (Exact.Rtrunc (product_value sf (width img))) (width img - 1))
              (Z.min (Exact.Rtrunc (product_value tf (height img))) (height img - 1))
       else Undefined) /\
  (forall sf tf : spec_float,
     fin sf -> fin tf ->
     width img <= 2 ^ 24 -> height img <= 2 ^ 24 ->
     (Rabs (B2R sf * IZR (width img)) <= IZR max_dim)%R ->
     (Rabs (B2R tf * IZR (height img)) <= IZR max_dim)%R ->
     rounded (B2R sf * IZR (width img)) (product_value sf (width img)) /\
     rounded (B2R tf * IZR (height img)) (product_value tf (height img)) /\
     sampleFace (FM := binary32) cm face sf tf =
       readTexel cm face
         (Z.min (Exact.Rtrunc (product_value sf (width img))) (width img - 1))
         (Z.min (Exact.Rtrunc (product_value tf (height img))) (height img - 1))).
Proof.
  intros Hface Hw Hh.
  split; [exact (sampleFace_cases_exact cm face img s t Hface Hw Hh) | ].
  split; [exact (SampleFaceExact.truncates_exact cm face img s t Hface Hw Hh) | ].
  split; [intros sf tf; exact (sampleFace_cases_binary32 cm face img sf tf Hface Hw Hh) | ].
  intros sf tf Hsf Htf Hw24 Hh24 Hsb Htb.
  destruct Hw as [Hw0 _]. destruct Hh as [Hh0 _].
  exact (sampleFace_truncates_binary32 cm face img sf tf Hface
           (conj Hw0 Hw24) (conj Hh0 Hh24) Hsf Htf Hsb Htb).
Qed.

(** C3 on the 2x2 test face -Z: at [(3/4, 3/4)] in exact arithmetic, at
    [(0.5f, 0.5f)] in single precision. *)
Lemma sampleFace_truncates_witness :
  sampleFace (FM := exact) test_cubemap FACE_NEG_Z (3 / 4)%R (3 / 4)%R =
  readTexel test_cubemap FACE_NEG_Z
    (spec_texel (3 / 4) (width (test_image 60)))
    (spec_texel (3 / 4) (height (test_image 60))) /\
  sampleFace (FM := binary32) test_cubemap FACE_NEG_Z b32_half b32_half =
  readTexel test_cubemap FACE_NEG_Z
    (Z.min (Exact.Rtrunc (product_value b32_half 2)) (2 - 1))
    (Z.min (Exact.Rtrunc (product_value b32_half 2)) (2 - 1)).
Proof.
  assert (Hdim : positive_dim 2) by (unfold positive_dim, INT_MAX; lia).
  assert (Hrange : INT_MIN <= Exact.Rtrunc (3 / 4 * IZR 2) <= INT_MAX).
  { rewrite ExactFacts.Rtrunc_nonneg by (simpl; lra).
    rewrite SampleFaceExact.floor_three_halves. unfold INT_MIN, INT_MAX. lia. }
  destruct (sampleFace_truncates test_cubemap FACE_NEG_Z (test_image 60)
              (3 / 4)%R (3 / 4)%R eq_refl Hdim Hdim)
    as (_ & Hexact & _ & Hsingle).
  split; [apply (Hexact Hrange Hrange); lra | ].
  destruct half_exact as [Hfh Eh].
  assert (Hb : (Rabs (B2R b32_half * IZR 2) <= IZR max_dim)%R).
  { rewrite Eh. unfold max_dim. rewrite Rabs_pos_eq; lra. }
  exact (proj2 (proj2 (Hsingle b32_half b32_half Hfh Hfh
                         ltac:(simpl; lia) ltac:(simpl; lia) Hb Hb))).
Defined.

(** C5, amended. Sampling a face at the centre of the texel [(x, y)]
    reads [readTexel(face, x, y)]: in exact arithmetic at the centre
    [((x + 0.5) / width, (y + 0.5) / height)], for every face; and in
    single precision at the centre as [unlerp] computes it, for the
    faces of at most [2^23] texels a side. *)
Theorem sampleFace_texel_centre (cm : Cubemap) (face : Z) (img : Image) (x y : Z) :
  faces cm face = Some img ->
  positive_dim (width img) -> positive_dim (height img) ->
  0 <= x < width img -> 0 <= y < height img ->
  sampleFace (FM := exact) cm face
    ((IZR x + / 2) / IZR (width img))%R ((IZR y + / 2) / IZR (height img))%R =
  readTexel cm face x y /\
  (width img <= 2 ^ 23 -> height img <= 2 ^ 23 ->
   sampleFace (FM := binary32) cm face
     (unlerp (FM := binary32) x (width img)) (unlerp (FM := binary32) y (height img)) =
   readTexel cm face x y).
Proof.
  intros Hface Hw Hh Hx Hy. split.
  - exact (SampleFaceExact.texel_centre_exact cm face img x y Hface Hw Hh Hx Hy).
  - intros Hw23 Hh23.
    exact (sampleFace_centre_round_trip_binary32 cm face x y img Hface Hx Hy Hw23 Hh23).
Qed.

(** C5 on the 2x2 test face +Y at the texel [(1, 0)]. *)
Lemma sampleFace_texel_centre_witness :
  sampleFace (FM := exact) test_cubemap FACE_POS_Y
    ((IZR 1 + / 2) / IZR 2)%R ((IZR 0 + / 2) / IZR 2)%R =
  readTexel test_cubemap FACE_POS_Y 1 0 /\
  sampleFace (FM := binary32) test_cubemap FACE_POS_Y
    (unlerp (FM := binary32) 1 2) (unlerp (FM := binary32) 0 2) =
  readTexel test_cubemap FACE_POS_Y 1 0.
Proof.
  assert (Hdim : positive_dim 2) by (unfold positive_dim, INT_MAX; lia).
  destruct (sampleFace_texel_centre test_cubemap FACE_POS_Y (test_image 30) 1 0
              eq_refl Hdim Hdim ltac:(simpl; lia) ltac:(simpl; lia)) as [Hexact Hsingle].
  split; [exact Hexact | ].
  apply Hsingle; simpl; lia.
Defined.

(** C7, amended. For every output size [N >= 4] and each of the four
    corner pixels, [rev_p] is negative, the direction is [(0, 0, -1)],
    and the sampled colour is the centre texel [(width / 2, height / 2)]
    of the face -Z: in exact arithmetic, and in single precision for the
    output sizes up to [2^23] and a face -Z of at most [2^24] texels a
    side. *)
Theorem corners_sample_back_pole (cm : Cubemap) (output_size x y : Z) (img : Image) :
  4 <= output_size ->
  is_corner output_size x y ->
  faces cm FACE_NEG_Z = Some img ->
  positive_dim (width img) -> positive_dim (height img) ->
  samples_back_pole exact cm output_size x y img /\
  (output_size <= 2 ^ 23 -> width img <= 2 ^ 24 -> height img <= 2 ^ 24 ->
   samples_back_pole binary32 cm output_size x y img).
Proof.
  intros Hn Hcorner Himg Hw Hh. split.
  - exact (Corners.corners_exact cm output_size x y img Hn Hcorner Himg Hw Hh).
  - intros Hn23 Hw24 Hh24. destruct Hw as [Hw0 _]. destruct Hh as [Hh0 _].
    exact (corners_binary32 cm output_size x y img (conj Hn Hn23) Hcorner Himg
             (conj Hw0 Hw24) (conj Hh0 Hh24)).
Qed.

(** C7 at the corner [(3, 0)] of an image of size 4. *)
Lemma corners_sample_back_pole_witness :
  pixel_color (FM := exact) test_cubemap 4 3 0 =
  readTexel test_cubemap FACE_NEG_Z 1 1 /\
  pixel_color (FM := binary32) test_cubemap 4 3 0 =
  readTexel test_cubemap FACE_NEG_Z 1 1.
Proof.
  assert (Hdim : positive_dim 2) by (unfold positive_dim, INT_MAX; lia).
  assert (Hcorner : is_corner 4 3 0) by (unfold is_corner; lia).
  destruct (corners_sample_back_pole test_cubemap 4 3 0 (test_image 60)
              ltac:(lia) Hcorner eq_refl Hdim Hdim) as [Hexact Hsingle].
  split.
  - exact (proj2 (proj2 Hexact)).
  - exact (proj2 (proj2 (Hsingle ltac:(lia) ltac:(simpl; lia) ltac:(simpl; lia)))).
Defined.

Lemma test_cubemap_bounded : bounded_faces test_cubemap.
Proof.
  intros face img Hface.
  pose proof (faces_Some_range _ _ _ Hface) as Hrange. unfold NUM_FACES in Hrange.
  assert (face = 0 \/ face = 1 \/ face = 2 \/ face = 3 \/ face = 4 \/ face = 5)
    as Hcases by lia.
  destruct Hcases as [-> | [-> | [-> | [-> | [-> | ->]]]]];
    inversion Hface; subst; unfold max_dim; simpl; lia.
Qed.

Lemma test_cubemap_float_sized : float_sized_faces test_cubemap.
Proof. exact (bounded_faces_float_sized _ test_cubemap_bounded). Qed.

(** C9, amended. On a decoded cubemap: for an output size [N >= 0]
    whose square is an [int], [generate] returns a buffer of exactly
    [N * N] colours, and each of them is [readTexel(face, x, y)] for a
    texel [(x, y)] inside one of the six faces, in exact arithmetic, and
    in single precision when the dimensions of the faces are at most
    2147483583, the last one that converts to a [float] below [2^31];
    in single precision on larger faces a run that returns still returns
    [N * N] colours that [readTexel] read from one of the six faces; for
    a negative [N] whose square is an [int] the loops have no iteration
    and the buffer holds [N * N] zeros; and when [N * N] is no [int] the
    size of the buffer overflows and the run is undefined. *)
Theorem generate_produces_texels (cm : Cubemap) (output_size : Z) :
  valid_cubemap cm ->
  (0 <= output_size -> output_size * output_size <= INT_MAX ->
   produces_texels exact cm output_size /\
   (float_sized_faces cm -> produces_texels binary32 cm output_size)) /\
  (0 <= output_size ->
   forall buf, generate (FM := binary32) cm output_size = Ok buf ->
     Z.of_nat (length buf) = output_size * output_size /\
     forall c, In c buf ->
       exists face x y, 0 <= face < NUM_FACES /\ readTexel cm face x y = Ok c) /\
  (output_size < 0 -> output_size * output_size <= INT_MAX ->
   forall FM : FloatModel,
     generate (FM := FM) cm output_size =
       Ok (repeat 0 (Z.to_nat (output_size * output_size)))) /\
  (INT_MAX < output_size * output_size ->
   forall FM : FloatModel, generate (FM := FM) cm output_size = Undefined).
Proof.
  intros Hvalid. split; [ | split; [ | split]].
  - intros Hn Hsize. split.
    + exact (ExactGenerate.generate_exact cm output_size Hvalid Hn Hsize).
    + intros Hbound.
      exact (generate_float_sized cm output_size Hvalid Hbound Hn Hsize).
  - intros Hn buf Hrun.
    exact (generate_only_copies_texels (FM := binary32) cm output_size buf Hn Hrun).
  - intros Hn Hsize FM. exact (generate_negative_size cm output_size Hn Hsize).
  - intros Hbig FM. exact (generate_beyond_int cm output_size Hbig).
Qed.

(** C9 on the test cubemap with [output_size = 3]. *)
Lemma generate_produces_texels_witness :
  produces_texels exact test_cubemap 3 /\ produces_texels binary32 test_cubemap 3.
Proof.
  destruct (proj1 (generate_produces_texels test_cubemap 3 test_cubemap_valid)
              ltac:(lia) ltac:(unfold INT_MAX; simpl; lia)) as [Hexact Hsingle].
  split; [exact Hexact | exact (Hsingle test_cubemap_float_sized)].
Defined.

(** With [output_size = 46341] the run is undefined and there is no
    buffer: [46341 * 46341 = 2147488281] is no [int]. With
    [output_size = -3] the run returns nine colours, all of them the 0
    of the allocation, and 0 is no texel of the six faces. *)
Lemma generate_without_texels :
  valid_cubemap test_cubemap /\
  generate (FM := binary32) test_cubemap 46341 = Undefined /\
  generate (FM := exact) test_cubemap 46341 = Undefined /\
  generate (FM := binary32) test_cubemap (-3) = Ok [0; 0; 0; 0; 0; 0; 0; 0; 0] /\
  generate (FM := exact) test_cubemap (-3) = Ok [0; 0; 0; 0; 0; 0; 0; 0; 0] /\
  forall face x y, readTexel test_cubemap face x y <> Ok 0.
Proof.
  split; [exact test_cubemap_valid | ].
  split; [reflexivity | ]. split; [reflexivity | ].
  split; [reflexivity | ]. split; [reflexivity | ].
  exact test_cubemap_has_no_zero.
Qed.

End BothArithmetics.

(** * Further properties of the code *)

(** ** The geometry of the mapping, in exact arithmetic

    The pixel loop sends the point [(s, t)] of the unit square to a
    direction; [computeTexCoords] sends a direction to a face and a point
    of that face. *)

Module ExactMapping.

Import Exact ExactFacts ExactTexCoords ExactSampling ExactPixel Corners.

Local Open Scope R_scope.

Lemma paraboloid_squares (s t : R) :
  s - s * s + t - t * t = / 2 - ((s - / 2) * (s - / 2) + (t - / 2) * (t - / 2)).
Proof. field. Qed.

(** The direction of the sqrt branch, with [r] the root of [rev_p]. *)
Lemma pixel_direction_inside (s t : R) :
  0 <= 16 * (s - s * s + t - t * t) - 4 ->
  pixel_direction (FM := exact) s t =
    (sqrt (16 * (s - s * s + t - t * t) - 4) * (2 * s - 1),
     sqrt (16 * (s - s * s + t - t * t) - 4) * - (2 * t - 1),
     8 * (s - s * s + t - t * t) - 3).
Proof.
  intros Hpos. unfold pixel_direction.
  replace (flt (rev_p (FM := exact) s t) (of_int 0)) with false.
  - reflexivity.
  - symmetry. simpl. apply Rltb_false. unfold rev_p, paraboloid. simpl. lra.
Qed.

Lemma pixel_direction_outside (s t : R) :
  16 * (s - s * s + t - t * t) - 4 < 0 ->
  pixel_direction (FM := exact) s t = (0, 0, - 1).
Proof.
  intros Hneg. unfold pixel_direction.
  replace (flt (rev_p (FM := exact) s t) (of_int 0)) with true.
  - reflexivity.
  - symmetry. simpl. apply Rltb_true. unfold rev_p, paraboloid. simpl. lra.
Qed.

Lemma pixel_direction_back_pole (s t : R) :
  16 * (s - s * s + t - t * t) - 4 <= 0 ->
  pixel_direction (FM := exact) s t = (0, 0, - 1).
Proof.
  intros [Hneg | Hzero]; [exact (pixel_direction_outside s t Hneg) | ].
  rewrite (pixel_direction_inside s t) by lra.
  rewrite Hzero, sqrt_0. f_equal; [f_equal; ring | lra].
Qed.

(** X1. In exact arithmetic the direction computed for a point [(s, t)]
    of the image is a unit vector, in both branches: the components
    satisfy [vx^2 + vy^2 + vz^2 = 1] for every [s] and [t]. *)
Theorem pixel_direction_unit (s t : R) :
  let '(vx, vy, vz) := pixel_direction (FM := exact) s t in
  vx * vx + vy * vy + vz * vz = 1.
Proof.
  destruct (Rlt_le_dec (16 * (s - s * s + t - t * t) - 4) 0) as [Hneg | Hpos].
  - rewrite (pixel_direction_outside s t Hneg). ring.
  - rewrite (pixel_direction_inside s t Hpos).
    set (q := s - s * s + t - t * t) in *.
    pose proof (sqrt_sqrt (16 * q - 4) Hpos) as Hroot.
    set (r := sqrt (16 * q - 4)) in *.
    replace (r * (2 * s - 1) * (r * (2 * s - 1)) +
             r * - (2 * t - 1) * (r * - (2 * t - 1)) +
             (8 * q - 3) * (8 * q - 3))
      with ((r * r) * (2 - 4 * q) + (8 * q - 3) * (8 * q - 3))
      by (unfold q; ring).
    rewrite Hroot. ring.
Qed.

(** X2. In exact arithmetic the direction is the back pole [(0, 0, -1)]
    exactly for the points outside or on the circle inscribed in the unit
    square, [(s - 1/2)^2 + (t - 1/2)^2 >= 1/4]: outside it [rev_p] is
    negative, on it [rev_p] is zero and the sqrt branch gives the same
    vector. *)
Theorem back_pole_outside_disc (s t : R) :
  pixel_direction (FM := exact) s t = (0, 0, - 1) <->
  / 4 <= (s - / 2) * (s - / 2) + (t - / 2) * (t - / 2).
Proof.
  pose proof (paraboloid_squares s t) as Hq.
  destruct (Rlt_le_dec (16 * (s - s * s + t - t * t) - 4) 0) as [Hneg | Hpos].
  - rewrite (pixel_direction_outside s t Hneg). split; [intros _; lra | reflexivity].
  - rewrite (pixel_direction_inside s t Hpos). split.
    + intros H. inversion H as [[Hx Hy Hz]]. lra.
    + intros Hout. rewrite <- (pixel_direction_inside s t Hpos).
      apply pixel_direction_back_pole. lra.
Qed.

(** X3. In exact arithmetic every unit vector other than the back pole
    is the direction of one and only one point of the image, and that
    point lies inside the inscribed circle: the mapping of the pixel loop
    covers the whole sphere and looks in no direction twice. *)
Theorem direction_of_one_point (vx vy vz : R) :
  vx * vx + vy * vy + vz * vz = 1 -> vz <> - 1 ->
  exists s t,
    (s - / 2) * (s - / 2) + (t - / 2) * (t - / 2) < / 4 /\
    pixel_direction (FM := exact) s t = (vx, vy, vz) /\
    forall s' t', pixel_direction (FM := exact) s' t' = (vx, vy, vz) ->
                  s' = s /\ t' = t.
Proof.
  intros Hunit Hpole.
  assert (Hz : - 1 < vz) by nra.
  set (r := 2 * (1 + vz)).
  assert (Hr : 0 < r) by (unfold r; lra).
  pose proof (sqrt_sqrt r (Rlt_le _ _ Hr)) as Hroot.
  pose proof (sqrt_lt_R0 r Hr) as Hsig.
  set (sig := sqrt r) in *.
  set (s := (1 + vx / sig) / 2). set (t := (1 - vy / sig) / 2).
  assert (Hs : 2 * s - 1 = vx / sig) by (unfold s; field; lra).
  assert (Ht : 2 * t - 1 = - (vy / sig)) by (unfold t; field; lra).
  assert (Hsq : (vx / sig) * (vx / sig) + (vy / sig) * (vy / sig) = (1 - vz) / 2).
  { replace ((vx / sig) * (vx / sig) + (vy / sig) * (vy / sig))
      with ((vx * vx + vy * vy) / (sig * sig)) by (field; lra).
    rewrite Hroot. replace (vx * vx + vy * vy) with ((1 - vz) * (1 + vz)) by lra.
    unfold r. field. lra. }
  assert (Hq : 16 * (s - s * s + t - t * t) - 4 = r).
  { replace (16 * (s - s * s + t - t * t) - 4)
      with (4 - 4 * ((2 * s - 1) * (2 * s - 1) + (2 * t - 1) * (2 * t - 1))) by ring.
    rewrite Hs, Ht.
    replace (- (vy / sig) * - (vy / sig)) with ((vy / sig) * (vy / sig)) by ring.
    rewrite Hsq. unfold r. field. }
  assert (Hdir : pixel_direction (FM := exact) s t = (vx, vy, vz)).
  { rewrite (pixel_direction_inside s t) by lra.
    rewrite Hq. fold sig. rewrite Hs, Ht.
    f_equal; [f_equal | ].
    - field. lra.
    - field. lra.
    - unfold r in Hq. lra. }
  exists s, t. split; [ | split; [exact Hdir | ]].
  - pose proof (paraboloid_squares s t). lra.
  - intros s' t' Hdir'.
    destruct (Rle_lt_dec (16 * (s' - s' * s' + t' - t' * t') - 4) 0) as [Hout | Hin].
    + rewrite (pixel_direction_back_pole s' t' Hout) in Hdir'.
      inversion Hdir'. lra.
    + rewrite (pixel_direction_inside s' t') in Hdir' by lra.
      inversion Hdir' as [[Hx Hy Hz']].
      assert (Hq' : 16 * (s' - s' * s' + t' - t' * t') - 4 = r) by (unfold r; lra).
      rewrite Hq' in Hx, Hy. fold sig in Hx, Hy.
      assert (Hs' : 2 * s' - 1 = vx / sig) by (rewrite <- Hx; field; lra).
      assert (Ht' : 2 * t' - 1 = - (vy / sig)) by (rewrite <- Hy; field; lra).
      split; lra.
Qed.

Lemma direction_of_one_point_witness :
  exists s t,
    (s - / 2) * (s - / 2) + (t - / 2) * (t - / 2) < / 4 /\
    pixel_direction (FM := exact) s t = (0, 0, 1) /\
    forall s' t', pixel_direction (FM := exact) s' t' = (0, 0, 1) ->
                  s' = s /\ t' = t.
Proof.
  apply (direction_of_one_point 0 0 1); lra.
Defined.

Lemma unlerp_centred (x n : Z) :
  (0 < n)%Z ->
  unlerp (FM := exact) x n - / 2 = IZR (2 * x + 1 - n) / (2 * IZR n).
Proof.
  intros Hn. apply IZR_lt in Hn. unfold unlerp. cbn [fdiv fadd of_int half exact].
  rewrite minus_IZR, plus_IZR, mult_IZR. field. lra.
Qed.

Lemma outside_disc_rev_p (n x y : Z) :
  (0 < n)%Z ->
  (n * n <= (2 * x + 1 - n) * (2 * x + 1 - n) + (2 * y + 1 - n) * (2 * y + 1 - n))%Z ->
  let s := unlerp (FM := exact) x n in
  let t := unlerp (FM := exact) y n in
  16 * (s - s * s + t - t * t) - 4 <= 0.
Proof.
  intros Hn Hout s t.
  pose proof (paraboloid_squares s t) as Hq.
  pose proof (unlerp_centred x n Hn) as Hs. pose proof (unlerp_centred y n Hn) as Ht.
  fold s in Hs. fold t in Ht. rewrite Hs, Ht in Hq.
  apply IZR_le in Hout. rewrite plus_IZR, !mult_IZR in Hout.
  apply IZR_lt in Hn.
  set (a := IZR (2 * x + 1 - n)) in *. set (b := IZR (2 * y + 1 - n)) in *.
  assert (E : a / (2 * IZR n) * (a / (2 * IZR n)) + b / (2 * IZR n) * (b / (2 * IZR n)) =
              (a * a + b * b) / (4 * (IZR n * IZR n))) by (field; lra).
  rewrite E in Hq.
  assert (Hge : 1 <= (a * a + b * b) / (IZR n * IZR n)).
  { apply (Rmult_le_reg_r (IZR n * IZR n)); [nra | ].
    replace ((a * a + b * b) / (IZR n * IZR n) * (IZR n * IZR n)) with (a * a + b * b)
      by (field; lra).
    lra. }
  replace ((a * a + b * b) / (4 * (IZR n * IZR n)))
    with ((a * a + b * b) / (IZR n * IZR n) / 4) in Hq by (field; lra).
  lra.
Qed.

(** X4. In exact arithmetic every output pixel whose centre is outside
    the inscribed circle, [(2x + 1 - N)^2 + (2y + 1 - N)^2 >= N^2], takes
    the direction [(0, 0, -1)] and receives the centre texel
    [(width / 2, height / 2)] of the face -Z, for every output size
    [N > 0]. *)
Theorem outside_disc_samples_back_pole (cm : Cubemap) (output_size x y : Z) (img : Image) :
  (0 < output_size)%Z ->
  faces cm FACE_NEG_Z = Some img ->
  positive_dim (width img) -> positive_dim (height img) ->
  (output_size * output_size <=
   (2 * x + 1 - output_size) * (2 * x + 1 - output_size) +
   (2 * y + 1 - output_size) * (2 * y + 1 - output_size))%Z ->
  pixel_direction (FM := exact)
    (unlerp (FM := exact) x output_size) (unlerp (FM := exact) y output_size) =
    (0, 0, - 1) /\
  pixel_color (FM := exact) cm output_size x y =
    readTexel cm FACE_NEG_Z (width img / 2) (height img / 2).
Proof.
  intros Hn Himg Hw Hh Hout.
  pose proof (pixel_direction_back_pole _ _ (outside_disc_rev_p output_size x y Hn Hout))
    as Hdir.
  split; [exact Hdir | ].
  unfold pixel_color. rewrite Hdir.
  destruct Canonical.exact_centred as (_ & _ & _ & _ & _ & Hback).
  simpl in Hback. rewrite Hback. simpl bind.
  exact (sampleFace_centre cm FACE_NEG_Z img Himg Hw Hh).
Qed.

Lemma outside_disc_samples_back_pole_witness :
  pixel_direction (FM := exact)
    (unlerp (FM := exact) 1 8) (unlerp (FM := exact) 0 8) = (0, 0, - 1) /\
  pixel_color (FM := exact) test_cubemap 8 1 0 =
    readTexel test_cubemap FACE_NEG_Z (width (test_image 60) / 2) (height (test_image 60) / 2).
Proof.
  apply (outside_disc_samples_back_pole test_cubemap 8 1 0 (test_image 60)).
  - lia.
  - reflexivity.
  - unfold positive_dim, INT_MAX. simpl. lia.
  - unfold positive_dim, INT_MAX. simpl. lia.
  - simpl. lia.
Defined.

Lemma Rgeb_scale (k a b : R) : 0 < k -> Rgeb (k * a) (k * b) = Rgeb a b.
Proof.
  intros Hk. unfold Rgeb.
  destruct (Rge_dec (k * a) (k * b)), (Rge_dec a b); try reflexivity; exfalso; nra.
Qed.

Lemma Rltb_scale (k a : R) : 0 < k -> Rltb (k * a) 0 = Rltb a 0.
Proof.
  intros Hk. unfold Rltb.
  destruct (Rlt_dec (k * a) 0), (Rlt_dec a 0); try reflexivity; exfalso; nra.
Qed.

Lemma normalize_scale (k tmp m : R) :
  0 < k -> normalize (FM := exact) (k * tmp) (k * m) = normalize (FM := exact) tmp m.
Proof.
  intros Hk. unfold normalize. cbn [fmul fadd fdiv half of_int exact].
  destruct (Req_dec m 0) as [-> | Hm].
  - rewrite Rmult_0_r. unfold Rdiv. rewrite Rinv_0. change (@eq float) with (@eq R). ring.
  - change (@eq float) with (@eq R). field. split; lra.
Qed.

Lemma computeTexCoords_scaled (k x y z : R) :
  0 < k ->
  computeTexCoords (FM := exact) (k * x) (k * y) (k * z) =
  computeTexCoords (FM := exact) x y z.
Proof.
  intros Hk. unfold computeTexCoords, select_major_axis.
  cbn [fabs fge exact].
  rewrite !Rabs_mult, (Rabs_pos_eq k) by lra.
  rewrite !(Rgeb_scale k) by exact Hk.
  assert (Hneg : forall a, - (k * a) = k * - a) by (intros a; ring).
  destruct (Rgeb (Rabs x) (Rabs y) && Rgeb (Rabs x) (Rabs z));
    [ | destruct (Rgeb (Rabs y) (Rabs x) && Rgeb (Rabs y) (Rabs z));
        [ | destruct (Rgeb (Rabs z) (Rabs x) && Rgeb (Rabs z) (Rabs y));
            [ | reflexivity]]];
    cbn [bind]; unfold face_of_axis, index3; cbn [flt of_int exact];
    rewrite (Rltb_scale k) by exact Hk;
    destruct (Rltb _ 0); cbn [Z.mul Z.add Pos.mul Pos.add project bind fneg exact];
    rewrite ?Hneg, !(normalize_scale k) by exact Hk; reflexivity.
Qed.

Lemma normalize_inv (tmp m c : R) :
  0 < m -> c = normalize (FM := exact) tmp m -> tmp = m * (2 * c - 1).
Proof.
  intros Hm ->. unfold normalize. cbn [fmul fadd fdiv half of_int exact].
  change (@eq float) with (@eq R). field. lra.
Qed.

(** What a classification says about the direction: the major component
    is [m] or [- m] with [m > 0], and the two others are [m (2s - 1)] and
    [m (2t - 1)], up to the signs of the per-face table. *)
Lemma computeTexCoords_inv (x y z : R) (face : Z) (s t : R) :
  x <> 0 \/ y <> 0 \/ z <> 0 ->
  computeTexCoords (FM := exact) x y z = Ok (face, s, t) ->
  exists m, 0 < m /\
    match face with
    | 0%Z => x = m /\ - z = m * (2 * s - 1) /\ - y = m * (2 * t - 1)
    | 1%Z => x = - m /\ z = m * (2 * s - 1) /\ - y = m * (2 * t - 1)
    | 2%Z => y = m /\ x = m * (2 * s - 1) /\ z = m * (2 * t - 1)
    | 3%Z => y = - m /\ x = m * (2 * s - 1) /\ - z = m * (2 * t - 1)
    | 4%Z => z = m /\ x = m * (2 * s - 1) /\ - y = m * (2 * t - 1)
    | 5%Z => z = - m /\ - x = m * (2 * s - 1) /\ - y = m * (2 * t - 1)
    | _ => False
    end.
Proof.
  intros Hnz Hrun.
  destruct (exact_major_axis_exists (Rabs x) (Rabs y) (Rabs z)) as [axis Hspec].
  pose proof (select_major_axis_spec _ _ _ _ Hspec) as Haxis.
  destruct Hspec as [Hmax _].
  pose proof (major_abs_pos x y z axis Hmax Hnz) as Hm.
  unfold computeTexCoords in Hrun. cbn [fabs exact] in Hrun.
  rewrite Haxis in Hrun. cbn [bind] in Hrun. unfold face_of_axis in Hrun.
  destruct (is_largest_range _ _ _ _ Hmax) as [-> | [-> | ->]];
    cbn [index3] in Hrun, Hm; cbn [flt of_int exact] in Hrun;
    match type of Hrun with
    | context [Rltb ?v 0] =>
        destruct (Rltb v 0) eqn:Hsign;
        [apply Rltb_true in Hsign | apply Rltb_false in Hsign];
        cbn [Z.mul Z.add Pos.mul Pos.add project bind fneg exact] in Hrun;
        inversion Hrun as [[Hf Hs Ht]]; clear Hrun;
        exists (Rabs v); (split; [exact Hm | ]);
        (split; [first [rewrite Rabs_left by lra; ring | rewrite Rabs_pos_eq by lra; reflexivity]
                | split; apply normalize_inv; auto])
    end.
Qed.

(** X5. In exact arithmetic two directions that are not the zero vector
    receive the same face and the same [(s, t)] exactly when one is a
    positive multiple of the other: [computeTexCoords] depends on the ray
    only, and tells any two rays apart. *)
Theorem same_texel_coordinates_same_ray (x y z x' y' z' : R) :
  x <> 0 \/ y <> 0 \/ z <> 0 ->
  x' <> 0 \/ y' <> 0 \/ z' <> 0 ->
  computeTexCoords (FM := exact) x' y' z' = computeTexCoords (FM := exact) x y z <->
  exists k, 0 < k /\ x' = k * x /\ y' = k * y /\ z' = k * z.
Proof.
  intros Hnz Hnz'. split.
  - intros Heq.
    destruct (computeTexCoords_exact x y z Hnz)
      as (_ & face & s & t & _ & _ & _ & _ & _ & Hrun & _).
    rewrite Hrun in Heq.
    destruct (computeTexCoords_inv x y z face s t Hnz Hrun) as (m & Hm & Hv).
    destruct (computeTexCoords_inv x' y' z' face s t Hnz' Heq) as (m' & Hm' & Hv').
    exists (m' / m).
    assert (Hk : 0 < m' / m) by (apply Rdiv_lt_0_compat; assumption).
    assert (E : m' = m' / m * m) by (field; lra).
    remember (m' / m) as k eqn:Ek. clear Ek.
    split; [exact Hk | ].
    destruct face as [ | p | p]; [ | | contradiction];
      [ | do 3 (try destruct p as [p | p | ]; try contradiction)];
      destruct Hv as (H1 & H2 & H3); destruct Hv' as (H1' & H2' & H3');
      rewrite E in H1', H2', H3'; rewrite Rmult_assoc in H2', H3';
      rewrite <- ?H2, <- ?H3 in H2', H3';
      repeat split; nra.
  - intros (k & Hk & -> & -> & ->). apply computeTexCoords_scaled. exact Hk.
Qed.

Lemma same_texel_coordinates_same_ray_witness :
  computeTexCoords (FM := exact) 2 (- 6) 4 = computeTexCoords (FM := exact) 1 (- 3) 2 <->
  exists k, 0 < k /\ 2 = k * 1 /\ - 6 = k * - 3 /\ 4 = k * 2.
Proof.
  apply (same_texel_coordinates_same_ray 1 (- 3) 2 2 (- 6) 4); left; lra.
Defined.

Lemma triple_eq (a b c a' b' c' : R) :
  a = a' -> b = b' -> c = c' -> (a, b, c) = (a', b', c').
Proof. intros -> -> ->. reflexivity. Qed.

(** X6. In exact arithmetic the mapping of the pixel loop is symmetric:
    mirroring the point in [s] negates [vx], mirroring it in [t] negates
    [vy], and exchanging [s] and [t] exchanges [vx] and [vy] and negates
    both. *)
Theorem pixel_direction_mirror (s t : R) :
  let '(vx, vy, vz) := pixel_direction (FM := exact) s t in
  pixel_direction (FM := exact) (1 - s) t = (- vx, vy, vz) /\
  pixel_direction (FM := exact) s (1 - t) = (vx, - vy, vz) /\
  pixel_direction (FM := exact) t s = (- vy, - vx, vz).
Proof.
  assert (Hq1 : (1 - s) - (1 - s) * (1 - s) + t - t * t = s - s * s + t - t * t) by ring.
  assert (Hq2 : s - s * s + (1 - t) - (1 - t) * (1 - t) = s - s * s + t - t * t) by ring.
  assert (Hq3 : t - t * t + s - s * s = s - s * s + t - t * t) by ring.
  destruct (Rlt_le_dec (16 * (s - s * s + t - t * t) - 4) 0) as [Hneg | Hpos].
  - rewrite (pixel_direction_outside s t Hneg).
    rewrite !pixel_direction_outside by lra.
    repeat split; apply triple_eq; ring.
  - rewrite (pixel_direction_inside s t Hpos).
    rewrite !pixel_direction_inside by lra.
    rewrite Hq1, Hq2, Hq3.
    repeat split; apply triple_eq; ring.
Qed.

End ExactMapping.

(** ** Texel addressing *)

Module TexelAddressing.

Import Exact ExactFacts ExactSampling.

Lemma readTexel_below_buffer (cm : Cubemap) (face x y : Z) (img : Image) :
  faces cm face = Some img ->
  x < width img -> y < height img ->
  y * width img + x < 0 ->
  readTexel cm face x y = Undefined.
Proof.
  intros Hface Hx Hy Hneg.
  pose proof (faces_Some_range cm face img Hface) as Hrange.
  unfold readTexel, c_assert.
  replace (face <? NUM_FACES) with true by (symmetry; apply Z.ltb_lt; lia).
  simpl. rewrite Hface.
  replace (x <? width img) with true by (symmetry; apply Z.ltb_lt; lia).
  replace (y <? height img) with true by (symmetry; apply Z.ltb_lt; lia).
  simpl. unfold int_arith.
  destruct (in_int (y * width img)); [ | reflexivity]. simpl.
  destruct (in_int (y * width img + x)); [ | reflexivity]. simpl.
  unfold read_u32.
  replace (y * width img + x <? 0) with true by (symmetry; apply Z.ltb_lt; lia).
  reflexivity.
Qed.

Lemma readTexel_flat (cm : Cubemap) (face x y : Z) (img : Image) :
  faces cm face = Some img -> valid_image img ->
  x < width img -> y < height img ->
  0 <= y * width img + x ->
  exists c, readTexel cm face x y = Ok c /\
            nth_error (data img) (Z.to_nat (y * width img + x)) = Some c.
Proof.
  intros Hface (Hw & Hh & Hsize & Hlen) Hx Hy Hidx.
  pose proof (faces_Some_range cm face img Hface) as Hrange.
  assert (Hy0 : 0 <= y) by nia.
  assert (Hlt : y * width img + x < width img * height img) by nia.
  destruct (nth_error (data img) (Z.to_nat (y * width img + x))) as [c | ] eqn:Hnth.
  - exists c. split; [ | reflexivity].
    unfold readTexel, c_assert.
    replace (face <? NUM_FACES) with true by (symmetry; apply Z.ltb_lt; lia).
    simpl. rewrite Hface.
    replace (x <? width img) with true by (symmetry; apply Z.ltb_lt; lia).
    replace (y <? height img) with true by (symmetry; apply Z.ltb_lt; lia).
    simpl.
    rewrite int_arith_in_range by (unfold INT_MIN, INT_MAX in *; nia). simpl.
    rewrite int_arith_in_range by (unfold INT_MIN, INT_MAX in *; nia). simpl.
    apply read_u32_Ok. split; [lia | exact Hnth].
  - exfalso. apply nth_error_None in Hnth. lia.
Qed.

(** X7. The outcomes of [readTexel] on a decoded face, with
    [i = y * width + x] the flat index that it reads. An [assert] fails
    exactly when [x >= width] or [y >= height]. Otherwise a negative
    index is a read before the buffer (undefined), and an index that is
    not negative is inside the buffer: the call returns the texel at
    column [i mod width] of row [i / width], so a negative [x] on a row
    [y >= 1] silently reads the end of the row above. *)
Theorem readTexel_outcomes (cm : Cubemap) (face x y : Z) (img : Image) :
  faces cm face = Some img -> valid_image img ->
  let i := y * width img + x in
  (readTexel cm face x y = AssertFail <-> width img <= x \/ height img <= y) /\
  (x < width img -> y < height img -> i < 0 ->
   readTexel cm face x y = Undefined) /\
  (x < width img -> y < height img -> 0 <= i ->
   0 <= i mod width img < width img /\ 0 <= i / width img < height img /\
   readTexel cm face x y = readTexel cm face (i mod width img) (i / width img) /\
   exists c, readTexel cm face x y = Ok c /\ nth_error (data img) (Z.to_nat i) = Some c).
Proof.
  intros Hface Hvalid i. split; [ | split].
  - rewrite readTexel_asserts_upper_bounds_only. split.
    + intros [Hbad | (img' & Himg' & Hout)].
      * pose proof (faces_Some_range cm face img Hface). lia.
      * rewrite Hface in Himg'. inversion Himg'; subst img'. exact Hout.
    + intros Hout. right. exists img. split; [exact Hface | exact Hout].
  - intros Hx Hy Hneg. exact (readTexel_below_buffer cm face x y img Hface Hx Hy Hneg).
  - intros Hx Hy Hidx.
    destruct (readTexel_flat cm face x y img Hface Hvalid Hx Hy Hidx) as (c & Hread & Hnth).
    destruct Hvalid as (Hw & Hh & Hsize & Hlen).
    assert (Hy0 : 0 <= y) by (unfold i in Hidx; nia).
    assert (Hlt : i < width img * height img) by (unfold i; nia).
    pose proof (Z.mod_pos_bound i (width img) Hw) as Hmod.
    pose proof (Z.div_mod i (width img) ltac:(lia)) as Hdm.
    assert (Hq0 : 0 <= i / width img) by (apply Z.div_pos; lia).
    assert (Hq1 : i / width img < height img)
      by (apply Z.div_lt_upper_bound; lia).
    split; [exact Hmod | ]. split; [lia | ]. split.
    + destruct (readTexel_in_bounds cm face (i mod width img) (i / width img) img
                  Hface (conj Hw (conj Hh (conj Hsize Hlen))) Hmod (conj Hq0 Hq1))
        as (c' & Hread' & Hnth').
      replace (i / width img * width img + i mod width img) with i in Hnth' by lia.
      fold i in Hnth. rewrite Hnth in Hnth'. inversion Hnth'; subst c'.
      rewrite Hread, Hread'. reflexivity.
    + exists c. split; [exact Hread | exact Hnth].
Qed.

(** On the 2x2 test face, [readTexel(FACE_POS_X, -1, 1)]. *)
Lemma readTexel_outcomes_witness :
  let i := 1 * width (test_image 10) + (- 1) in
  (readTexel test_cubemap FACE_POS_X (- 1) 1 = AssertFail <->
   width (test_image 10) <= - 1 \/ height (test_image 10) <= 1) /\
  (- 1 < width (test_image 10) -> 1 < height (test_image 10) -> i < 0 ->
   readTexel test_cubemap FACE_POS_X (- 1) 1 = Undefined) /\
  (- 1 < width (test_image 10) -> 1 < height (test_image 10) -> 0 <= i ->
   0 <= i mod width (test_image 10) < width (test_image 10) /\
   0 <= i / width (test_image 10) < height (test_image 10) /\
   readTexel test_cubemap FACE_POS_X (- 1) 1 =
     readTexel test_cubemap FACE_POS_X (i mod width (test_image 10)) (i / width (test_image 10)) /\
   exists c, readTexel test_cubemap FACE_POS_X (- 1) 1 = Ok c /\
             nth_error (data (test_image 10)) (Z.to_nat i) = Some c).
Proof.
  apply (readTexel_outcomes test_cubemap FACE_POS_X (- 1) 1 (test_image 10)).
  - reflexivity.
  - unfold valid_image, INT_MAX. simpl. lia.
Defined.

Local Open Scope R_scope.

Lemma texel_index_cell (c : R) (x dim : Z) :
  positive_dim dim -> (0 <= x < dim)%Z ->
  IZR x / IZR dim <= c < IZR (x + 1) / IZR dim ->
  texel_index (FM := exact) c dim = Ok x.
Proof.
  intros Hdim Hx [Hlo Hhi].
  assert (Hd : 0 < IZR dim) by (apply IZR_lt; destruct Hdim; lia).
  assert (Hx0 : 0 <= IZR x) by (apply IZR_le; lia).
  rewrite plus_IZR in Hhi.
  assert (Hprod : IZR x <= c * IZR dim < IZR x + 1).
  { split.
    - apply (Rmult_le_compat_r (IZR dim)) in Hlo; [ | lra].
      replace (IZR x / IZR dim * IZR dim) with (IZR x) in Hlo by (field; lra). exact Hlo.
    - apply (Rmult_lt_compat_r (IZR dim)) in Hhi; [ | lra].
      replace ((IZR x + 1) / IZR dim * IZR dim) with (IZR x + 1) in Hhi by (field; lra).
      exact Hhi. }
  assert (Hfloor : Int_part (c * IZR dim) = x) by (apply Int_part_unique; lra).
  assert (Hc : 0 <= c).
  { apply Rle_trans with (IZR x / IZR dim); [ | exact Hlo].
    apply Rmult_le_pos; [exact Hx0 | ]. apply Rlt_le, Rinv_0_lt_compat, Hd. }
  rewrite texel_index_floor.
  - unfold spec_texel. rewrite Hfloor. f_equal. lia.
  - exact Hdim.
  - exact Hc.
  - rewrite Hfloor. destruct Hdim. lia.
Qed.

(** X8. Point sampling in exact arithmetic: on a face of positive
    dimensions [sampleFace] is constant on the cell of each texel, it
    returns [readTexel(face, x, y)] for every [s] in
    [[x / width, (x + 1) / width)] and [t] in
    [[y / height, (y + 1) / height)]. *)
Theorem sampleFace_constant_on_texel (cm : Cubemap) (face : Z) (img : Image)
  (x y : Z) (s t : R) :
  faces cm face = Some img ->
  positive_dim (width img) -> positive_dim (height img) ->
  (0 <= x < width img)%Z -> (0 <= y < height img)%Z ->
  IZR x / IZR (width img) <= s < IZR (x + 1) / IZR (width img) ->
  IZR y / IZR (height img) <= t < IZR (y + 1) / IZR (height img) ->
  sampleFace (FM := exact) cm face s t = readTexel cm face x y.
Proof.
  intros Himg Hw Hh Hx Hy Hs Ht. unfold sampleFace. rewrite Himg.
  rewrite (texel_index_cell s x _ Hw Hx Hs), (texel_index_cell t y _ Hh Hy Ht).
  reflexivity.
Qed.

Lemma sampleFace_constant_on_texel_witness :
  sampleFace (FM := exact) test_cubemap FACE_POS_Y (3 / 4) (/ 4) =
  readTexel test_cubemap FACE_POS_Y 1 0.
Proof.
  apply (sampleFace_constant_on_texel test_cubemap FACE_POS_Y (test_image 30) 1 0).
  - reflexivity.
  - unfold positive_dim, INT_MAX. simpl. lia.
  - unfold positive_dim, INT_MAX. simpl. lia.
  - simpl. lia.
  - simpl. lia.
  - simpl. lra.
  - simpl. lra.
Defined.

Lemma texel_index_clamps (c : R) (dim : Z) :
  positive_dim dim -> 1 <= c -> c * IZR dim < 2147483648 ->
  texel_index (FM := exact) c dim = Ok (dim - 1)%Z.
Proof.
  intros Hdim Hc Hmax.
  assert (Hd : 0 < IZR dim) by (apply IZR_lt; destruct Hdim; lia).
  pose proof (Int_part_bounds (c * IZR dim)) as [Hlo Hup].
  assert (Hge : (dim <= Int_part (c * IZR dim))%Z).
  { apply Z.lt_succ_r. apply lt_IZR. rewrite succ_IZR. nra. }
  assert (Hle : (Int_part (c * IZR dim) <= INT_MAX)%Z).
  { unfold INT_MAX. apply Z.lt_succ_r. apply lt_IZR.
    replace (IZR (Z.succ (2 ^ 31 - 1))) with 2147483648 by (simpl; lra). lra. }
  rewrite texel_index_floor; [ | exact Hdim | lra | exact Hle].
  unfold spec_texel. f_equal. lia.
Qed.

End TexelAddressing.

(** ** Values outside the domain, in single precision *)

Module Binary32Edges.

Import Binary32 Binary32Real Binary32Rounding Binary32Program.

Lemma SFleb_nan_l (a : spec_float) : SFleb S754_nan a = false.
Proof. reflexivity. Qed.

Lemma SFleb_nan_r (a : spec_float) : SFleb a S754_nan = false.
Proof. destruct a; reflexivity. Qed.

Lemma computeTexCoords_nan (x y z : spec_float) :
  is_nan x || is_nan y || is_nan z = true ->
  computeTexCoords (FM := binary32) x y z = Undefined.
Proof.
  intros Hnan. unfold computeTexCoords, select_major_axis.
  cbn [fabs fge binary32].
  apply orb_true_iff in Hnan. destruct Hnan as [Hnan | Hz].
  - apply orb_true_iff in Hnan. destruct Hnan as [Hx | Hy].
    + destruct x; try discriminate. simpl SFabs.
      rewrite !SFleb_nan_l, !SFleb_nan_r. reflexivity.
    + destruct y; try discriminate. simpl SFabs.
      rewrite !SFleb_nan_l, !SFleb_nan_r, !andb_false_r. reflexivity.
  - destruct z; try discriminate. simpl SFabs.
    rewrite !SFleb_nan_l, !SFleb_nan_r, !andb_false_r. reflexivity.
Qed.

(** X9. In single precision [computeTexCoords] reads [major_axis]
    uninitialised (undefined behaviour) exactly when a component of the
    direction is NaN: each of the three tests of the [if] chain then
    compares against a NaN and fails. *)
Theorem computeTexCoords_undefined_iff_nan (x y z : spec_float) :
  computeTexCoords (FM := binary32) x y z = Undefined <->
  is_nan x || is_nan y || is_nan z = true.
Proof.
  split; [ | apply computeTexCoords_nan].
  intros Hundef.
  destruct (is_nan x) eqn:Hx; [reflexivity | ].
  destruct (is_nan y) eqn:Hy; [reflexivity | ].
  destruct (is_nan z) eqn:Hz; [reflexivity | exfalso].
  destruct (Binary32Facts.binary32_major_axis_exists x y z Hx Hy Hz) as [axis Hspec].
  pose proof (select_major_axis_spec (FM := binary32) _ _ _ _ Hspec) as Haxis.
  destruct Hspec as [Hmax _].
  pose proof (is_largest_range (FM := binary32) _ _ _ _ Hmax) as Hrange.
  destruct (computeTexCoords_run (FM := binary32) x y z axis Haxis ltac:(lia))
    as (tmp_s & tmp_t & _ & _ & _ & _ & Hrun).
  rewrite Hrun in Hundef. discriminate.
Qed.

Lemma texel_index_non_finite (c : spec_float) (dim : Z) :
  is_finite c = false -> texel_index (FM := binary32) c dim = Undefined.
Proof.
  intros Hc. unfold texel_index, cast_int. cbn [fmul of_int to_int binary32].
  destruct c; try discriminate; destruct (b32_of_int dim); reflexivity.
Qed.

Lemma texel_index_Ok_or_Undefined {FM : FloatModel} (c : float) (dim : Z) :
  texel_index c dim = Undefined \/ exists i, texel_index c dim = Ok i.
Proof.
  unfold texel_index, cast_int, int_arith.
  destruct (to_int (fmul c (of_int dim))); simpl; [ | left; reflexivity].
  destruct (in_int (dim - 1)); simpl; [right; eexists; reflexivity | left; reflexivity].
Qed.

Lemma sampleFace_non_finite_undefined (cm : Cubemap) (face : Z) (img : Image)
  (s t : spec_float) :
  faces cm face = Some img ->
  is_finite s = false \/ is_finite t = false ->
  sampleFace (FM := binary32) cm face s t = Undefined.
Proof.
  intros Himg Hst. unfold sampleFace. rewrite Himg.
  destruct Hst as [Hs | Ht].
  - rewrite (texel_index_non_finite s _ Hs). reflexivity.
  - destruct (texel_index_Ok_or_Undefined (FM := binary32) s (width img)) as [-> | [i ->]].
    + reflexivity.
    + simpl bind. rewrite (texel_index_non_finite t _ Ht). reflexivity.
Qed.

(** X10. In single precision [sampleFace] has undefined behaviour on
    every face as soon as [s] or [t] is an infinity or NaN: the product
    with the dimension is again infinite or NaN, and its conversion to
    [int] is undefined. *)
Theorem sampleFace_non_finite (cm : Cubemap) (face : Z) (s t : spec_float) :
  0 <= face < NUM_FACES ->
  is_finite s && is_finite t = false ->
  sampleFace (FM := binary32) cm face s t = Undefined.
Proof.
  intros Hface Hst.
  destruct (faces_in_range cm face ltac:(unfold NUM_FACES in Hface; lia)) as [img Himg].
  apply (sampleFace_non_finite_undefined cm face img s t Himg).
  apply andb_false_iff. exact Hst.
Qed.

Lemma sampleFace_non_finite_witness :
  sampleFace (FM := binary32) test_cubemap FACE_NEG_Y (S754_infinity false) half = Undefined.
Proof.
  apply (sampleFace_non_finite test_cubemap FACE_NEG_Y).
  - unfold FACE_NEG_Y, NUM_FACES. lia.
  - reflexivity.
Defined.

(** X11. In single precision the zero direction (any signs of the three
    zeros) is classified onto the face +X with [m = 0], and both
    coordinates are [0 / 0], NaN; sampling them is undefined behaviour,
    whatever the cubemap. *)
Theorem zero_direction_has_no_texel (cm : Cubemap) (x y z : spec_float) :
  is_zero x = true -> is_zero y = true -> is_zero z = true ->
  computeTexCoords (FM := binary32) x y z = Ok (FACE_POS_X, S754_nan, S754_nan) /\
  ('(face, s, t) <- computeTexCoords (FM := binary32) x y z ;;
   sampleFace (FM := binary32) cm face s t) = Undefined.
Proof.
  intros Hx Hy Hz.
  assert (Hrun : computeTexCoords (FM := binary32) x y z =
                 Ok (FACE_POS_X, S754_nan, S754_nan)).
  { destruct x as [sx | | | ]; try discriminate.
    destruct y as [sy | | | ]; try discriminate.
    destruct z as [sz | | | ]; try discriminate.
    destruct sx, sy, sz; vm_compute; reflexivity. }
  split; [exact Hrun | ].
  rewrite Hrun. simpl bind.
  destruct (faces_in_range cm FACE_POS_X ltac:(unfold FACE_POS_X; lia)) as [img Himg].
  apply (sampleFace_non_finite_undefined cm FACE_POS_X img _ _ Himg).
  left. reflexivity.
Qed.

Lemma zero_direction_has_no_texel_witness :
  computeTexCoords (FM := binary32) (S754_zero false) (S754_zero true) (S754_zero false) =
    Ok (FACE_POS_X, S754_nan, S754_nan) /\
  ('(face, s, t) <- computeTexCoords (FM := binary32)
                      (S754_zero false) (S754_zero true) (S754_zero false) ;;
   sampleFace (FM := binary32) test_cubemap face s t) = Undefined.
Proof.
  apply (zero_direction_has_no_texel test_cubemap); reflexivity.
Defined.

Local Open Scope R_scope.

(** Two finite values with the same non-zero real value are the same
    encoding. *)
Lemma B2R_inj (a b : spec_float) :
  fin a -> fin b -> B2R a = B2R b -> B2R a <> 0 -> a = b.
Proof.
  intros [Hfa Hva] [Hfb Hvb] Heq Hnz.
  destruct a as [sa | sa | | sa ma ea]; try (simpl in Hnz; lra).
  destruct b as [sb | sb | | sb mb eb];
    try (rewrite Heq in Hnz; simpl in Hnz; lra).
  simpl in Hva, Hvb.
  pose proof (F2R_pos ma ea) as Hpa. pose proof (F2R_pos mb eb) as Hpb.
  rewrite !B2R_finite in Heq.
  assert (Hs : sa = sb).
  { destruct sa, sb; try reflexivity; unfold signed in Heq; exfalso; lra. }
  subst sb.
  assert (Hval : F2R (Zpos ma) ea = F2R (Zpos mb) eb).
  { destruct sa; unfold signed in Heq; lra. }
  assert (He : ea = eb).
  { destruct (Z.lt_trichotomy ea eb) as [Hlt | [He | Hgt]]; [exfalso | exact He | exfalso].
    - pose proof (canonical_lt ma mb ea eb Hva Hvb Hlt). lra.
    - pose proof (canonical_lt mb ma eb ea Hvb Hva ltac:(lia)). lra. }
  subst eb. unfold F2R in Hval.
  pose proof (bpow_pos ea) as Hb.
  apply Rmult_eq_reg_r in Hval; [ | lra].
  apply eq_IZR in Hval. inversion Hval. reflexivity.
Qed.

End Binary32Edges.

(** ** The unit square: pixel centres, the middle and the far edge *)

Module UnitSquare.

Import Exact ExactFacts ExactSampling Corners.
Import Binary32 Binary32Real Binary32Rounding Binary32Program Binary32Edges.
Import ExactMapping TexelAddressing.

Local Open Scope R_scope.

Lemma unlerp_exact_range (x n : Z) :
  (0 <= x < n)%Z ->
  0 < unlerp (FM := exact) x n < 1 /\
  unlerp (FM := exact) (n - 1 - x) n = 1 - unlerp (FM := exact) x n.
Proof.
  intros Hx. unfold unlerp. cbn [fdiv fadd of_int half exact].
  assert (Hn : 0 < IZR n) by (apply IZR_lt; lia).
  assert (Hx0 : 0 <= IZR x) by (apply IZR_le; lia).
  assert (Hx1 : IZR x + 1 <= IZR n) by (rewrite <- plus_IZR; apply IZR_le; lia).
  assert (Hinv : 0 < / IZR n) by (apply Rinv_0_lt_compat; exact Hn).
  assert (E : IZR n * / IZR n = 1) by (apply Rinv_r; lra).
  split.
  - unfold Rdiv. split; nra.
  - rewrite !minus_IZR. change (@eq float) with (@eq R). field. lra.
Qed.

Lemma format_below_1 : format (1 - bpow (- 24)).
Proof.
  replace (1 - bpow (- 24)) with (F2R 16777215 (- 24)).
  - apply format_F2R; unfold emin; simpl; lia.
  - unfold F2R. rewrite bpow_m24. lra.
Qed.

Lemma unlerp_binary32_range (x n : Z) :
  (0 <= x < n)%Z -> (n <= 2 ^ 23)%Z ->
  fin (unlerp (FM := binary32) x n) /\
  bpow (- 24) <= B2R (unlerp (FM := binary32) x n) <= 1 - bpow (- 24).
Proof.
  intros Hx Hn.
  destruct (unlerp_binary32 x n Hx Hn) as (Hf & _ & [Hnear _]).
  split; [exact Hf | ].
  assert (HnR : 0 < IZR n) by (apply IZR_lt; lia).
  assert (Hn23 : IZR n <= 8388608) by (apply (IZR_le n (2 ^ 23)); exact Hn).
  assert (Hx0 : 0 <= IZR x) by (apply IZR_le; lia).
  assert (Hx1 : IZR x + 1 <= IZR n) by (rewrite <- plus_IZR; apply IZR_le; lia).
  assert (Hinv : / 8388608 <= / IZR n) by (apply Rinv_le_contravar; lra).
  assert (E : IZR n * / IZR n = 1) by (apply Rinv_r; lra).
  rewrite bpow_m24.
  split.
  - apply (nearest_ge_lower _ _ _ Hnear).
    + rewrite <- bpow_m24. apply format_bpow. unfold emin. lia.
    + unfold Rdiv. nra.
  - apply (nearest_le_upper _ _ _ Hnear).
    + rewrite <- bpow_m24. exact format_below_1.
    + unfold Rdiv. nra.
Qed.

(** X12. [unlerp] sends the indices [0 .. n - 1] strictly inside the
    unit interval, never onto 0 or 1. In exact arithmetic
    [0 < unlerp(x, n) < 1] and [unlerp(n - 1 - x, n) = 1 - unlerp(x, n)];
    in single precision, for [n <= 2^23], the result is finite and lies
    between [2^-24] and [1 - 2^-24]. *)
Theorem unlerp_strictly_inside (x n : Z) :
  (0 <= x < n)%Z ->
  (0 < unlerp (FM := exact) x n < 1 /\
   unlerp (FM := exact) (n - 1 - x) n = 1 - unlerp (FM := exact) x n) /\
  ((n <= 2 ^ 23)%Z ->
   fin (unlerp (FM := binary32) x n) /\
   / 16777216 <= B2R (unlerp (FM := binary32) x n) <= 1 - / 16777216).
Proof.
  intros Hx. split; [exact (unlerp_exact_range x n Hx) | ].
  intros Hn. rewrite <- bpow_m24. exact (unlerp_binary32_range x n Hx Hn).
Qed.

Lemma unlerp_strictly_inside_witness :
  (0 < unlerp (FM := exact) 2 3 < 1 /\
   unlerp (FM := exact) (3 - 1 - 2) 3 = 1 - unlerp (FM := exact) 2 3) /\
  ((3 <= 2 ^ 23)%Z ->
   fin (unlerp (FM := binary32) 2 3) /\
   / 16777216 <= B2R (unlerp (FM := binary32) 2 3) <= 1 - / 16777216).
Proof.
  apply (unlerp_strictly_inside 2 3). lia.
Defined.

(** *** The middle pixel of an odd size *)

Lemma unlerp_middle_exact (k : Z) :
  (0 <= k)%Z -> unlerp (FM := exact) k (2 * k + 1) = / 2.
Proof.
  intros Hk. unfold unlerp. cbn [fdiv fadd of_int half exact].
  assert (0 <= IZR k) by (apply IZR_le; lia).
  rewrite plus_IZR, mult_IZR. change (@eq float) with (@eq R). field. lra.
Qed.

Lemma unlerp_middle_binary32 (k : Z) :
  (0 <= k)%Z -> (2 * k + 1 <= 2 ^ 23)%Z ->
  unlerp (FM := binary32) k (2 * k + 1) = b32_half.
Proof.
  intros Hk Hn.
  destruct (unlerp_binary32 k (2 * k + 1) ltac:(lia) Hn) as (Hf & _ & Hr).
  destruct half_exact as [Hfh Eh].
  assert (Hmid : (IZR k + / 2) / IZR (2 * k + 1) = / 2).
  { assert (0 <= IZR k) by (apply IZR_le; lia).
    rewrite plus_IZR, mult_IZR. field. lra. }
  rewrite Hmid in Hr.
  assert (Hv : B2R (unlerp (FM := binary32) k (2 * k + 1)) = / 2).
  { apply (rounded_format_eq _ _ Hr). rewrite <- Eh. apply fin_format. exact Hfh. }
  apply B2R_inj; [exact Hf | exact Hfh | rewrite Hv, Eh; reflexivity | rewrite Hv; lra].
Qed.

Lemma pixel_direction_middle_exact :
  pixel_direction (FM := exact) (/ 2) (/ 2) = (0, 0, 1).
Proof.
  rewrite pixel_direction_inside by lra.
  replace (2 * / 2 - 1) with 0 by lra.
  f_equal; [f_equal | ]; try ring. lra.
Qed.

Lemma pixel_middle_binary32 :
  (let '(vx, vy, vz) := pixel_direction (FM := binary32) b32_half b32_half in
   computeTexCoords (FM := binary32) vx vy vz) = Ok (FACE_POS_Z, b32_half, b32_half).
Proof. vm_compute. reflexivity. Qed.

(** X13. For an odd output size [N = 2k + 1] the middle pixel [(k, k)]
    has [s = t = 1/2], looks along [(0, 0, 1)] and receives the centre
    texel [(width / 2, height / 2)] of the face +Z: in exact arithmetic,
    and in single precision for [N <= 2^23] and a face +Z of at most
    [2^24] texels a side. *)
Theorem middle_pixel_samples_front (cm : Cubemap) (k : Z) (img : Image) :
  (0 <= k)%Z ->
  faces cm FACE_POS_Z = Some img ->
  positive_dim (width img) -> positive_dim (height img) ->
  let n := (2 * k + 1)%Z in
  (pixel_direction (FM := exact) (unlerp (FM := exact) k n) (unlerp (FM := exact) k n) =
     (0, 0, 1) /\
   pixel_color (FM := exact) cm n k k =
     readTexel cm FACE_POS_Z (width img / 2) (height img / 2)) /\
  ((n <= 2 ^ 23)%Z -> (width img <= 2 ^ 24)%Z -> (height img <= 2 ^ 24)%Z ->
   pixel_color (FM := binary32) cm n k k =
     readTexel cm FACE_POS_Z (width img / 2) (height img / 2)).
Proof.
  intros Hk Himg Hw Hh n. split.
  - assert (Hdir : pixel_direction (FM := exact)
                     (unlerp (FM := exact) k n) (unlerp (FM := exact) k n) = (0, 0, 1)).
    { unfold n. rewrite (unlerp_middle_exact k Hk). exact pixel_direction_middle_exact. }
    split; [exact Hdir | ].
    unfold pixel_color. rewrite Hdir.
    destruct Canonical.exact_centred as (_ & _ & _ & _ & Hfront & _).
    simpl in Hfront. rewrite Hfront. simpl bind.
    exact (sampleFace_centre cm FACE_POS_Z img Himg Hw Hh).
  - intros Hn Hw24 Hh24. unfold pixel_color, n.
    rewrite (unlerp_middle_binary32 k Hk Hn).
    pose proof pixel_middle_binary32 as Hrun.
    destruct (pixel_direction (FM := binary32) b32_half b32_half) as [[vx vy] vz].
    rewrite Hrun. simpl bind.
    apply (sampleFace_centre_binary32 cm FACE_POS_Z img Himg).
    + destruct Hw. lia.
    + destruct Hh. lia.
Qed.

Lemma middle_pixel_samples_front_witness :
  let n := (2 * 1 + 1)%Z in
  (pixel_direction (FM := exact) (unlerp (FM := exact) 1 n) (unlerp (FM := exact) 1 n) =
     (0, 0, 1) /\
   pixel_color (FM := exact) test_cubemap n 1 1 =
     readTexel test_cubemap FACE_POS_Z (width (test_image 50) / 2) (height (test_image 50) / 2)) /\
  ((n <= 2 ^ 23)%Z -> (width (test_image 50) <= 2 ^ 24)%Z ->
   (height (test_image 50) <= 2 ^ 24)%Z ->
   pixel_color (FM := binary32) test_cubemap n 1 1 =
     readTexel test_cubemap FACE_POS_Z (width (test_image 50) / 2) (height (test_image 50) / 2)).
Proof.
  apply (middle_pixel_samples_front test_cubemap 1 (test_image 50)).
  - lia.
  - reflexivity.
  - unfold positive_dim, INT_MAX. simpl. lia.
  - unfold positive_dim, INT_MAX. simpl. lia.
Defined.

(** *** The far edge *)

Lemma Rtrunc_IZR (z : Z) : (0 <= z)%Z -> Rtrunc (IZR z) = z.
Proof.
  intros Hz. rewrite Rtrunc_nonneg by (apply IZR_le; exact Hz).
  apply Int_part_unique. lra.
Qed.

Lemma texel_index_one_binary32 (dim : Z) :
  (0 < dim <= 2 ^ 24)%Z ->
  texel_index (FM := binary32) (of_int 1) dim = Ok (dim - 1)%Z.
Proof.
  intros Hdim. cbn [of_int binary32].
  destruct (of_int_exact 1 ltac:(simpl; lia)) as [Hf1 E1].
  assert (Hd : 1 <= IZR dim <= 16777216).
  { split; [apply (IZR_le 1) | apply (IZR_le dim (2 ^ 24))]; lia. }
  destruct (texel_index_trunc_binary32 (b32_of_int 1) dim Hf1 Hdim) as [Hr Hrun].
  { rewrite E1. change (IZR max_dim) with 2147483520. rewrite Rabs_pos_eq; lra. }
  rewrite E1, Rmult_1_l in Hr.
  assert (Hv : product_value (b32_of_int 1) dim = IZR dim).
  { apply (rounded_format_eq _ _ Hr). apply format_IZR. lia. }
  cbn [of_int binary32] in Hrun. rewrite Hrun, Hv, Rtrunc_IZR by lia.
  f_equal. lia.
Qed.

(** X14. The far edge is clamped: [sampleFace] at [s >= 1], [t >= 1]
    reads the last texel [(width - 1, height - 1)] in exact arithmetic
    (as long as the products are below [2^31]), and so does
    [sampleFace(face, 1.0f, 1.0f)] in single precision on a face of at
    most [2^24] texels a side. *)
Theorem sampleFace_far_edge (cm : Cubemap) (face : Z) (img : Image) :
  faces cm face = Some img ->
  positive_dim (width img) -> positive_dim (height img) ->
  (forall s t : R,
     1 <= s -> 1 <= t ->
     s * IZR (width img) < 2147483648 -> t * IZR (height img) < 2147483648 ->
     sampleFace (FM := exact) cm face s t =
       readTexel cm face (width img - 1) (height img - 1)) /\
  ((width img <= 2 ^ 24)%Z -> (height img <= 2 ^ 24)%Z ->
   sampleFace (FM := binary32) cm face (of_int 1) (of_int 1) =
     readTexel cm face (width img - 1) (height img - 1)).
Proof.
  intros Himg Hw Hh. split.
  - intros s t Hs Ht Hsw Hth. unfold sampleFace. rewrite Himg.
    rewrite (texel_index_clamps s _ Hw Hs Hsw), (texel_index_clamps t _ Hh Ht Hth).
    reflexivity.
  - intros Hw24 Hh24. unfold sampleFace. rewrite Himg.
    rewrite (texel_index_one_binary32 (width img)) by (destruct Hw; lia).
    rewrite (texel_index_one_binary32 (height img)) by (destruct Hh; lia).
    reflexivity.
Qed.

Lemma sampleFace_far_edge_witness :
  (forall s t : R,
     1 <= s -> 1 <= t ->
     s * IZR (width (test_image 20)) < 2147483648 ->
     t * IZR (height (test_image 20)) < 2147483648 ->
     sampleFace (FM := exact) test_cubemap FACE_NEG_X s t =
       readTexel test_cubemap FACE_NEG_X
         (width (test_image 20) - 1) (height (test_image 20) - 1)) /\
  ((width (test_image 20) <= 2 ^ 24)%Z -> (height (test_image 20) <= 2 ^ 24)%Z ->
   sampleFace (FM := binary32) test_cubemap FACE_NEG_X (of_int 1) (of_int 1) =
     readTexel test_cubemap FACE_NEG_X
       (width (test_image 20) - 1) (height (test_image 20) - 1)).
Proof.
  apply (sampleFace_far_edge test_cubemap FACE_NEG_X (test_image 20)).
  - reflexivity.
  - unfold positive_dim, INT_MAX. simpl. lia.
  - unfold positive_dim, INT_MAX. simpl. lia.
Defined.

End UnitSquare.

(** ** The outline of the disc in single precision *)

Module Silhouette.

Import Exact ExactFacts.
Import Binary32 Binary32Real Binary32Rounding Binary32Program.
Import ExactMapping UnitSquare.

(** A pixel centre is never on the inscribed circle: the two sides of
    the equation differ modulo 4. *)
Lemma centre_off_circle (n x y : Z) :
  (2 * x + 1 - n) * (2 * x + 1 - n) + (2 * y + 1 - n) * (2 * y + 1 - n) <> n * n.
Proof.
  destruct (Z.Even_or_Odd n) as [[m ->] | [m ->]]; intros H; ring_simplify in H; lia.
Qed.

Local Open Scope R_scope.

(** The exact value of [s - s*s + t - t*t] at a pixel centre keeps a
    distance of [1 / (4 N^2)] from [1/4]. *)
Lemma centre_margin (n x y : Z) :
  (1 <= n <= 512)%Z ->
  let s := unlerp (FM := exact) x n in
  let t := unlerp (FM := exact) y n in
  let d := ((2 * x + 1 - n) * (2 * x + 1 - n) + (2 * y + 1 - n) * (2 * y + 1 - n))%Z in
  ((n * n < d)%Z -> s - s * s + t - t * t <= / 4 - / 1048576) /\
  ((d < n * n)%Z -> / 4 + / 1048576 <= s - s * s + t - t * t).
Proof.
  intros Hn s t d.
  pose proof (paraboloid_squares s t) as Hq.
  pose proof (unlerp_centred x n ltac:(lia)) as Hs.
  pose proof (unlerp_centred y n ltac:(lia)) as Ht.
  fold s in Hs. fold t in Ht. rewrite Hs, Ht in Hq.
  assert (Hn1 : 1 <= IZR n) by (apply (IZR_le 1 n); lia).
  assert (Hn2 : IZR n <= 512) by (apply (IZR_le n 512); lia).
  set (N2 := IZR n * IZR n).
  assert (HN2 : 1 <= N2 <= 262144) by (unfold N2; nra).
  assert (Hinv : / 262144 <= / N2) by (apply Rinv_le_contravar; lra).
  assert (Hone : N2 * / N2 = 1) by (apply Rinv_r; lra).
  assert (E : IZR (2 * x + 1 - n) / (2 * IZR n) * (IZR (2 * x + 1 - n) / (2 * IZR n)) +
              IZR (2 * y + 1 - n) / (2 * IZR n) * (IZR (2 * y + 1 - n) / (2 * IZR n)) =
              IZR d * / N2 / 4).
  { unfold d, N2. rewrite plus_IZR, !mult_IZR. field. lra. }
  rewrite E in Hq. rewrite Hq.
  split; intros Hd.
  - assert (Hd1 : (n * n + 1 <= d)%Z) by lia.
    apply IZR_le in Hd1. rewrite plus_IZR, mult_IZR in Hd1. fold N2 in Hd1.
    assert (1 + / N2 <= IZR d * / N2) by nra.
    lra.
  - assert (Hd1 : (d <= n * n - 1)%Z) by lia.
    apply IZR_le in Hd1. rewrite minus_IZR, mult_IZR in Hd1. fold N2 in Hd1.
    assert (IZR d * / N2 <= 1 - / N2) by nra.
    lra.
Qed.

(** The error of the four inner roundings of [s - s*s + t - t*t]. *)
Lemma chain_error (s t q : R) :
  0 <= s < 1 -> 0 <= t < 1 ->
  paraboloid_chain s t q ->
  exists pre, rounded pre q /\
    Rabs (pre - (s - s * s + t - t * t)) <= 18 / 33554432.
Proof.
  intros Hs Ht (ss & a & b & tt & Hss & Ha & Hb & Htt & Hq & Hss01 & Htt01).
  exists (b - tt). split; [exact Hq | ].
  assert (Hs2 : 0 <= s * s < 1) by nra.
  assert (Ht2 : 0 <= t * t < 1) by nra.
  pose proof (rounded_error_below_1 _ _ Hss ltac:(rewrite Rabs_pos_eq; lra)) as Ess.
  pose proof (rounded_error_below_1 _ _ Htt ltac:(rewrite Rabs_pos_eq; lra)) as Ett.
  pose proof (rounded_error_unit _ _ Ha ltac:(split_Rabs; lra)) as Ea.
  pose proof (rounded_abs_le _ _ 1 Ha format_1 ltac:(split_Rabs; lra)) as Ba.
  pose proof (rounded_error_unit _ _ Hb ltac:(split_Rabs; lra)) as Eb.
  split_Rabs; lra.
Qed.

(** The rounded [s - s*s + t - t*t] at a pixel, against its exact value. *)
Lemma pixel_chain_error (n x y : Z) :
  (0 <= x < n)%Z -> (0 <= y < n)%Z -> (n <= 2 ^ 23)%Z ->
  let q := paraboloid (FM := binary32) (unlerp (FM := binary32) x n)
             (unlerp (FM := binary32) y n) in
  let s := unlerp (FM := exact) x n in
  let t := unlerp (FM := exact) y n in
  fin q /\ -2 <= B2R q <= 2 /\
  exists pre, rounded pre (B2R q) /\
    Rabs (pre - (s - s * s + t - t * t)) <= 20 / 33554432.
Proof.
  intros Hx Hy Hn q s t.
  destruct (unlerp_binary32 x n Hx Hn) as (Hfs & _ & Hrs).
  destruct (unlerp_binary32 y n Hy Hn) as (Hft & _ & Hrt).
  destruct (unlerp_binary32_range x n Hx Hn) as (_ & Hs0 & Hs1).
  destruct (unlerp_binary32_range y n Hy Hn) as (_ & Ht0 & Ht1).
  destruct (unlerp_exact_range x n Hx) as [Hse _].
  destruct (unlerp_exact_range y n Hy) as [Hte _].
  fold s in Hse. fold t in Hte.
  change ((IZR x + / 2) / IZR n) with s in Hrs.
  change ((IZR y + / 2) / IZR n) with t in Hrt.
  pose proof (rounded_error_below_1 _ _ Hrs ltac:(rewrite Rabs_pos_eq; lra)) as Es.
  pose proof (rounded_error_below_1 _ _ Hrt ltac:(rewrite Rabs_pos_eq; lra)) as Et.
  rewrite bpow_m24 in Hs0, Hs1, Ht0, Ht1.
  set (sf := B2R (unlerp (FM := binary32) x n)) in *.
  set (tf := B2R (unlerp (FM := binary32) y n)) in *.
  destruct (paraboloid_binary32 _ _ Hfs Hft ltac:(fold sf; lra) ltac:(fold tf; lra))
    as (Hfq & Hbq & Hchain).
  fold q in Hfq, Hbq, Hchain. fold sf tf in Hchain.
  split; [exact Hfq | ]. split; [exact Hbq | ].
  destruct (chain_error sf tf (B2R q) ltac:(lra) ltac:(lra) Hchain) as (pre & Hpre & Epre).
  exists pre. split; [exact Hpre | ].
  assert (Hds : Rabs ((sf - sf * sf) - (s - s * s)) <= / 33554432).
  { replace ((sf - sf * sf) - (s - s * s)) with ((sf - s) * (1 - sf - s)) by ring.
    rewrite Rabs_mult.
    assert (Rabs (1 - sf - s) <= 1) by (split_Rabs; lra).
    pose proof (Rabs_pos (sf - s)). pose proof (Rabs_pos (1 - sf - s)). nra. }
  assert (Hdt : Rabs ((tf - tf * tf) - (t - t * t)) <= / 33554432).
  { replace ((tf - tf * tf) - (t - t * t)) with ((tf - t) * (1 - tf - t)) by ring.
    rewrite Rabs_mult.
    assert (Rabs (1 - tf - t) <= 1) by (split_Rabs; lra).
    pose proof (Rabs_pos (tf - t)). pose proof (Rabs_pos (1 - tf - t)). nra. }
  split_Rabs; lra.
Qed.

Lemma format_quarter : format (/ 4).
Proof. rewrite <- bpow_m2. apply format_bpow. unfold emin. lia. Qed.

Lemma format_below_quarter : format (/ 4 - / 67108864).
Proof.
  apply (format_frac 16777215 (- 26)); [ | lia | unfold emin; lia].
  unfold bpow. simpl. lra.
Qed.

(** The sign of [16.0f * q - 4.0f]. *)
Lemma rev_p_sign (q : spec_float) :
  fin q -> -2 <= B2R q <= 2 ->
  let r := SFsub prec emax (SFmul prec emax (b32_of_int 16) q) (b32_of_int 4) in
  (B2R q <= / 4 - / 67108864 -> SFltb r (b32_of_int 0) = true) /\
  (/ 4 <= B2R q -> SFltb r (b32_of_int 0) = false).
Proof.
  intros Hfq Hbq r.
  pose proof bpow_127_ge as Hbig.
  destruct (mul_pow2_exact 16 4 q ltac:(lia) eq_refl Hfq ltac:(split_Rabs; lra)) as [Hf16 E16].
  destruct (of_int_exact 4 ltac:(simpl; lia)) as [Hf4 E4].
  destruct (of_int_exact 0 ltac:(simpl; lia)) as [Hf0 E0].
  assert (F36 : format (-36)) by (apply (format_IZR (-36)); simpl; lia).
  assert (F28 : format 28) by (apply (format_IZR 28); simpl; lia).
  assert (Fneg : format (- / 4194304)).
  { apply format_opp. apply (format_frac 1 (- 22)); [ | simpl; lia | unfold emin; lia].
    unfold bpow. simpl. lra. }
  split; intros Hq.
  - destruct (result_bounds _ _ (-36) (- / 4194304) (SFsub_result _ _ Hf16 Hf4) F36 Fneg
                ltac:(rewrite E16, E4; simpl; lra) ltac:(lra) ltac:(lra))
      as (Hfr & Hbr & _).
    fold r in Hfr, Hbr.
    destruct (SFltb r (b32_of_int 0)) eqn:Hlt; [reflexivity | exfalso].
    apply (SFltb_false _ _ Hfr Hf0) in Hlt. rewrite E0 in Hlt. lra.
  - destruct (result_bounds _ _ 0 28 (SFsub_result _ _ Hf16 Hf4) format_0 F28
                ltac:(rewrite E16, E4; simpl; lra) ltac:(lra) ltac:(lra))
      as (Hfr & Hbr & _).
    fold r in Hfr, Hbr.
    destruct (SFltb r (b32_of_int 0)) eqn:Hlt; [exfalso | reflexivity].
    apply (SFltb_true _ _ Hfr Hf0) in Hlt. rewrite E0 in Hlt. lra.
Qed.

Lemma rev_p_outside_binary32 (n x y : Z) :
  (1 <= n <= 512)%Z -> (0 <= x < n)%Z -> (0 <= y < n)%Z ->
  flt (FloatModel := binary32)
    (rev_p (FM := binary32) (unlerp (FM := binary32) x n) (unlerp (FM := binary32) y n))
    (of_int 0) = true <->
  (n * n < (2 * x + 1 - n) * (2 * x + 1 - n) + (2 * y + 1 - n) * (2 * y + 1 - n))%Z.
Proof.
  intros Hn Hx Hy.
  destruct (pixel_chain_error n x y Hx Hy ltac:(lia)) as (Hfq & Hbq & pre & Hpre & Epre).
  destruct (centre_margin n x y Hn) as [Hout Hin].
  destruct (rev_p_sign _ Hfq Hbq) as [Hneg Hpos].
  unfold rev_p. cbn [fmul fsub flt of_int binary32].
  pose proof (centre_off_circle n x y) as Hoff.
  destruct Hpre as [Hnear _].
  destruct (Z_lt_le_dec (n * n)
              ((2 * x + 1 - n) * (2 * x + 1 - n) + (2 * y + 1 - n) * (2 * y + 1 - n)))
    as [Hd | Hd].
  - split; [intros _; exact Hd | intros _].
    apply Hneg. specialize (Hout Hd).
    apply (nearest_le_upper _ _ _ Hnear format_below_quarter).
    split_Rabs; lra.
  - split; [ | intros H; exfalso; lia].
    intros Htrue. exfalso.
    assert (Hd' : ((2 * x + 1 - n) * (2 * x + 1 - n) + (2 * y + 1 - n) * (2 * y + 1 - n)
                   < n * n)%Z) by lia.
    specialize (Hin Hd').
    rewrite Hpos in Htrue; [discriminate | ].
    apply (nearest_ge_lower _ _ _ Hnear format_quarter).
    split_Rabs; lra.
Qed.

Lemma rev_p_outside_exact (n x y : Z) :
  (1 <= n)%Z ->
  flt (FloatModel := exact)
    (rev_p (FM := exact) (unlerp (FM := exact) x n) (unlerp (FM := exact) y n))
    (of_int 0) = true <->
  (n * n < (2 * x + 1 - n) * (2 * x + 1 - n) + (2 * y + 1 - n) * (2 * y + 1 - n))%Z.
Proof.
  intros Hn.
  pose proof (centre_off_circle n x y) as Hoff.
  pose proof (paraboloid_squares (unlerp (FM := exact) x n) (unlerp (FM := exact) y n)) as Hq.
  rewrite (unlerp_centred x n ltac:(lia)), (unlerp_centred y n ltac:(lia)) in Hq.
  assert (Hn1 : 1 <= IZR n) by (apply (IZR_le 1 n); lia).
  set (d := ((2 * x + 1 - n) * (2 * x + 1 - n) + (2 * y + 1 - n) * (2 * y + 1 - n))%Z) in *.
  set (N2 := IZR n * IZR n).
  assert (HN2 : 1 <= N2) by (unfold N2; nra).
  assert (Hone : N2 * / N2 = 1) by (apply Rinv_r; lra).
  assert (Hinv : 0 < / N2) by (apply Rinv_0_lt_compat; lra).
  assert (E : IZR (2 * x + 1 - n) / (2 * IZR n) * (IZR (2 * x + 1 - n) / (2 * IZR n)) +
              IZR (2 * y + 1 - n) / (2 * IZR n) * (IZR (2 * y + 1 - n) / (2 * IZR n)) =
              IZR d * / N2 / 4).
  { unfold d, N2. rewrite plus_IZR, !mult_IZR. field. lra. }
  rewrite E in Hq.
  cbn [flt of_int exact]. unfold rev_p, paraboloid. cbn [fsub fmul fadd of_int exact].
  split.
  - intros Hlt. apply Rltb_true in Hlt.
    destruct (Z_lt_le_dec (n * n) d) as [Hd | Hd]; [exact Hd | exfalso].
    apply IZR_le in Hd. rewrite mult_IZR in Hd. fold N2 in Hd.
    assert (IZR d * / N2 <= 1) by nra.
    lra.
  - intros Hd. apply Rltb_true.
    apply IZR_lt in Hd. rewrite mult_IZR in Hd. fold N2 in Hd.
    assert (1 < IZR d * / N2) by nra.
    lra.
Qed.

Lemma back_pole_binary32 :
  computeTexCoords (FM := binary32) (of_int 0) (of_int 0) (fneg (of_int 1)) =
  Ok (FACE_NEG_Z, half, half).
Proof. vm_compute. reflexivity. Qed.

(** X22. For the output sizes up to 512 the program in single precision
    draws the outline of the disc where exact arithmetic draws it: at
    every pixel the test [rev_p < 0.0f] succeeds exactly when the centre
    of the pixel is outside the inscribed circle,
    [(2x + 1 - N)^2 + (2y + 1 - N)^2 > N^2], as it does in exact
    arithmetic (no centre is on the circle), and every such pixel receives
    the centre texel of the face -Z (a face of at most [2^24] texels a
    side). *)
Theorem disc_outline_in_single_precision (cm : Cubemap) (output_size x y : Z) :
  (1 <= output_size <= 512)%Z ->
  (0 <= x < output_size)%Z -> (0 <= y < output_size)%Z ->
  let outside :=
    (output_size * output_size <
     (2 * x + 1 - output_size) * (2 * x + 1 - output_size) +
     (2 * y + 1 - output_size) * (2 * y + 1 - output_size))%Z in
  (flt (FloatModel := exact)
     (rev_p (FM := exact) (unlerp (FM := exact) x output_size)
        (unlerp (FM := exact) y output_size)) (of_int 0) = true <-> outside) /\
  (flt (FloatModel := binary32)
     (rev_p (FM := binary32) (unlerp (FM := binary32) x output_size)
        (unlerp (FM := binary32) y output_size)) (of_int 0) = true <-> outside) /\
  (outside ->
   forall img, faces cm FACE_NEG_Z = Some img ->
     (0 < width img <= 2 ^ 24)%Z -> (0 < height img <= 2 ^ 24)%Z ->
     pixel_direction (FM := binary32) (unlerp (FM := binary32) x output_size)
       (unlerp (FM := binary32) y output_size) = (of_int 0, of_int 0, fneg (of_int 1)) /\
     pixel_color (FM := binary32) cm output_size x y =
       readTexel cm FACE_NEG_Z (width img / 2) (height img / 2)).
Proof.
  intros Hn Hx Hy outside.
  pose proof (rev_p_outside_binary32 output_size x y Hn Hx Hy) as Hfloat.
  split; [exact (rev_p_outside_exact output_size x y ltac:(lia)) | ].
  split; [exact Hfloat | ].
  intros Hout img Himg Hw Hh.
  apply Hfloat in Hout.
  assert (Hdir : pixel_direction (FM := binary32) (unlerp (FM := binary32) x output_size)
                   (unlerp (FM := binary32) y output_size) =
                 (of_int 0, of_int 0, fneg (of_int 1))).
  { unfold pixel_direction. rewrite Hout. reflexivity. }
  split; [exact Hdir | ].
  unfold pixel_color. rewrite Hdir, back_pole_binary32. simpl bind.
  exact (sampleFace_centre_binary32 cm FACE_NEG_Z img Himg Hw Hh).
Qed.

Lemma disc_outline_in_single_precision_witness :
  let outside := (8 * 8 < (2 * 1 + 1 - 8) * (2 * 1 + 1 - 8) + (2 * 0 + 1 - 8) * (2 * 0 + 1 - 8))%Z in
  (flt (FloatModel := exact)
     (rev_p (FM := exact) (unlerp (FM := exact) 1 8) (unlerp (FM := exact) 0 8))
     (of_int 0) = true <-> outside) /\
  (flt (FloatModel := binary32)
     (rev_p (FM := binary32) (unlerp (FM := binary32) 1 8) (unlerp (FM := binary32) 0 8))
     (of_int 0) = true <-> outside) /\
  (outside ->
   forall img, faces test_cubemap FACE_NEG_Z = Some img ->
     (0 < width img <= 2 ^ 24)%Z -> (0 < height img <= 2 ^ 24)%Z ->
     pixel_direction (FM := binary32) (unlerp (FM := binary32) 1 8)
       (unlerp (FM := binary32) 0 8) = (of_int 0, of_int 0, fneg (of_int 1)) /\
     pixel_color (FM := binary32) test_cubemap 8 1 0 =
       readTexel test_cubemap FACE_NEG_Z (width img / 2) (height img / 2)).
Proof.
  apply (disc_outline_in_single_precision test_cubemap 8 1 0); lia.
Defined.

(** Beyond, the outlines part: at the size 1953 the centre of the pixel
    [(1640, 1692)] is inside the circle and the pixel takes the branch of
    the back pole. *)
Lemma disc_outline_lost_at_1953 :
  flt (FloatModel := binary32)
    (rev_p (FM := binary32) (unlerp (FM := binary32) 1640 1953)
       (unlerp (FM := binary32) 1692 1953)) (of_int 0) = true /\
  ((2 * 1640 + 1 - 1953) * (2 * 1640 + 1 - 1953) +
   (2 * 1692 + 1 - 1953) * (2 * 1692 + 1 - 1953) < 1953 * 1953)%Z.
Proof. split; [vm_compute; reflexivity | lia]. Qed.

End Silhouette.

(** ** What a run of the generator returns *)

Section GeneratorRuns.

Context {FM : FloatModel}.

Lemma readTexel_Ok_In (cm : Cubemap) (face x y : Z) (c : u32) :
  readTexel cm face x y = Ok c ->
  exists img, faces cm face = Some img /\ In c (data img).
Proof.
  unfold readTexel. intros Hrun.
  apply bind_Ok in Hrun. destruct Hrun as (_ & _ & Hrun).
  destruct (faces cm face) as [img | ]; [ | discriminate].
  apply bind_Ok in Hrun. destruct Hrun as (_ & _ & Hrun).
  apply bind_Ok in Hrun. destruct Hrun as (_ & _ & Hrun).
  apply bind_Ok in Hrun. destruct Hrun as (row & _ & Hrun).
  apply bind_Ok in Hrun. destruct Hrun as (i & _ & Hrun).
  apply read_u32_Ok in Hrun. destruct Hrun as [_ Hnth].
  exists img. split; [reflexivity | exact (nth_error_In _ _ Hnth)].
Qed.

Lemma sampleFace_Ok_In (cm : Cubemap) (face : Z) (s t : float) (c : u32) :
  sampleFace cm face s t = Ok c ->
  exists img, faces cm face = Some img /\ In c (data img).
Proof.
  unfold sampleFace. intros Hrun.
  destruct (faces cm face) as [img | ] eqn:Hface; [ | discriminate].
  apply bind_Ok in Hrun. destruct Hrun as (tx & _ & Hrun).
  apply bind_Ok in Hrun. destruct Hrun as (ty & _ & Hrun).
  destruct (readTexel_Ok_In cm face tx ty c Hrun) as (img' & Himg' & Hin).
  rewrite Hface in Himg'. exists img'. split; assumption.
Qed.

Lemma pixel_color_Ok_In (cm : Cubemap) (output_size x y : Z) (c : u32) :
  pixel_color cm output_size x y = Ok c ->
  exists face img, faces cm face = Some img /\ In c (data img).
Proof.
  unfold pixel_color. intros Hrun.
  destruct (pixel_direction _ _) as [[vx vy] vz].
  apply bind_Ok in Hrun. destruct Hrun as ([[face s] t] & _ & Hsample).
  destruct (sampleFace_Ok_In cm face s t c Hsample) as (img & Himg & Hin).
  exists face, img. split; assumption.
Qed.

Lemma generate_first_pixel (cm : Cubemap) (output_size : Z) (buf : list u32) :
  1 <= output_size ->
  generate cm output_size = Ok buf ->
  exists c, pixel_color cm output_size 0 0 = Ok c.
Proof.
  intros Hn Hrun.
  destruct (generate_filled cm output_size buf Hrun) as [_ Hpix].
  destruct (Hpix 0 0 ltac:(lia) ltac:(lia) ltac:(nia)) as (c & Hc & _).
  exists c. exact Hc.
Qed.

Lemma generate_overflow (cm : Cubemap) (output_size : Z) :
  INT_MAX < output_size * output_size ->
  generate cm output_size = Undefined.
Proof.
  intros Hbig. unfold generate, int_arith, in_int.
  replace (output_size * output_size <=? INT_MAX) with false
    by (symmetry; apply Z.leb_gt; exact Hbig).
  rewrite andb_false_r. reflexivity.
Qed.

Lemma generate_no_pixel (cm : Cubemap) (output_size : Z) :
  output_size <= 0 -> output_size * output_size <= INT_MAX ->
  generate cm output_size = Ok (repeat 0 (Z.to_nat (output_size * output_size))).
Proof.
  intros Hn Hsize. unfold generate.
  rewrite int_arith_in_range by (unfold INT_MIN; nia). simpl bind.
  unfold for_loop. replace (Z.to_nat (output_size - 0)) with O by lia.
  reflexivity.
Qed.

(** X15. Point sampling invents no colour: whatever the arithmetic and
    whatever the cubemap, when the generator finishes on a size
    [output_size >= 0] the buffer holds [output_size * output_size]
    colours and each of them occurs in the buffer of one of the six
    faces. *)
Theorem generate_copies_face_colours (cm : Cubemap) (output_size : Z) (buf : list u32) :
  0 <= output_size ->
  generate cm output_size = Ok buf ->
  Z.of_nat (length buf) = output_size * output_size /\
  forall c, In c buf ->
    exists face img, faces cm face = Some img /\ In c (data img).
Proof.
  intros Hn Hrun.
  destruct (generate_only_copies_texels cm output_size buf Hn Hrun) as [Hlen Hall].
  split; [exact Hlen | ].
  intros c Hin. destruct (Hall c Hin) as (face & x & y & _ & Hread).
  destruct (readTexel_Ok_In cm face x y c Hread) as (img & Himg & Hc).
  exists face, img. split; assumption.
Qed.

End GeneratorRuns.

Lemma generate_copies_face_colours_witness :
  Z.of_nat (length [21; 11; 23; 13]) = 2 * 2 /\
  forall c, In c [21; 11; 23; 13] ->
    exists face img, faces test_cubemap face = Some img /\ In c (data img).
Proof.
  apply (generate_copies_face_colours (FM := binary32) test_cubemap 2 [21; 11; 23; 13]).
  - lia.
  - vm_compute. reflexivity.
Defined.

(** ** Sizes and colours of the generated image *)

Module GeneratedImage.

Import Exact ExactGenerate Binary32 Binary32Program.

Lemma int_square_limit (n : Z) : n * n <= INT_MAX <-> - 46340 <= n <= 46340.
Proof. unfold INT_MAX. split; intros H; nia. Qed.

(** X16. The generator finishes exactly for the output sizes between
    -46340 and 46340, on a decoded cubemap, in exact arithmetic and (for
    faces of at most 2147483520 texels a side) in single precision. Beyond,
    [output_size * output_size] overflows [int] in the expression that
    sizes [out_data], which is undefined, whatever the arithmetic. A size
    that is zero or negative is not rejected: no loop iteration runs, no
    face is read, and the buffer is left as it was allocated,
    [output_size * output_size] zeros. *)
Theorem generate_size_limit (cm : Cubemap) (output_size : Z) :
  valid_cubemap cm ->
  ((exists buf, generate (FM := exact) cm output_size = Ok buf) <->
   - 46340 <= output_size <= 46340) /\
  (bounded_faces cm ->
   ((exists buf, generate (FM := binary32) cm output_size = Ok buf) <->
    - 46340 <= output_size <= 46340)) /\
  (forall FM : FloatModel,
     ~ - 46340 <= output_size <= 46340 ->
     generate (FM := FM) cm output_size = Undefined) /\
  (forall FM : FloatModel,
     - 46340 <= output_size <= 0 ->
     generate (FM := FM) cm output_size =
       Ok (repeat 0 (Z.to_nat (output_size * output_size)))).
Proof.
  intros Hvalid.
  assert (Hback : forall FM : FloatModel, forall buf,
            generate (FM := FM) cm output_size = Ok buf ->
            - 46340 <= output_size <= 46340).
  { intros FM buf Hrun. apply int_square_limit.
    unfold generate in Hrun. apply bind_Ok in Hrun. destruct Hrun as (n & Hn & _).
    apply int_arith_Ok in Hn. destruct Hn as [_ Hr]. lia. }
  split; [ | split; [ | split]].
  - split; [intros [buf Hrun]; exact (Hback exact buf Hrun) | ].
    intros Hn. apply int_square_limit in Hn.
    destruct (Z_lt_le_dec output_size 0) as [Hneg | Hpos].
    + eexists. apply generate_no_pixel; [lia | exact Hn].
    + destruct (generate_exact cm output_size Hvalid Hpos Hn) as (buf & Hrun & _).
      exists buf. exact Hrun.
  - intros Hbounded.
    split; [intros [buf Hrun]; exact (Hback binary32 buf Hrun) | ].
    intros Hn. apply int_square_limit in Hn.
    destruct (Z_lt_le_dec output_size 0) as [Hneg | Hpos].
    + eexists. apply generate_no_pixel; [lia | exact Hn].
    + destruct (generate_binary32 cm output_size Hvalid Hbounded Hpos Hn)
        as (buf & Hrun & _).
      exists buf. exact Hrun.
  - intros FM Hout. apply generate_overflow.
    destruct (Z_lt_le_dec INT_MAX (output_size * output_size)) as [H | H]; [exact H | ].
    exfalso. apply Hout. apply int_square_limit. exact H.
  - intros FM Hn. apply generate_no_pixel; [lia | ].
    apply int_square_limit. lia.
Qed.

Lemma generate_size_limit_witness :
  ((exists buf, generate (FM := exact) test_cubemap 46341 = Ok buf) <->
   - 46340 <= 46341 <= 46340) /\
  (bounded_faces test_cubemap ->
   ((exists buf, generate (FM := binary32) test_cubemap 46341 = Ok buf) <->
    - 46340 <= 46341 <= 46340)) /\
  (forall FM : FloatModel,
     ~ - 46340 <= 46341 <= 46340 ->
     generate (FM := FM) test_cubemap 46341 = Undefined) /\
  (forall FM : FloatModel,
     - 46340 <= 46341 <= 0 ->
     generate (FM := FM) test_cubemap 46341 =
       Ok (repeat 0 (Z.to_nat (46341 * 46341)))).
Proof.
  apply (generate_size_limit test_cubemap 46341). exact test_cubemap_valid.
Defined.

Lemma uniform_buffer (cm : Cubemap) (c : u32) (n : Z) (buf : list u32) :
  uniform_cubemap c cm ->
  Z.of_nat (length buf) = n ->
  (forall c', In c' buf ->
     exists (face x y : Z) (img : Image),
       faces cm face = Some img /\
       0 <= x < width img /\ 0 <= y < height img /\
       readTexel cm face x y = Ok c') ->
  buf = repeat c (Z.to_nat n).
Proof.
  intros Hu Hlen Hall.
  replace (Z.to_nat n) with (length buf) by lia.
  apply Forall_eq_repeat. apply Forall_forall. intros c' Hin.
  destruct (Hall c' Hin) as (face & x & y & img & Himg & _ & _ & Hread).
  destruct (readTexel_Ok_In cm face x y c' Hread) as (img' & Himg' & Hc).
  symmetry. exact (Hu face img' Himg' c' Hc).
Qed.

(** X17. A cubemap whose six decoded faces hold one colour [c] gives the
    image of that colour: the generator returns
    [output_size * output_size] copies of [c], in exact arithmetic and (for
    faces of at most 2147483520 texels a side) in single precision. *)
Theorem uniform_cubemap_gives_uniform_image (cm : Cubemap) (c : u32) (output_size : Z) :
  valid_cubemap cm -> uniform_cubemap c cm ->
  0 <= output_size -> output_size * output_size <= INT_MAX ->
  generate (FM := exact) cm output_size =
    Ok (repeat c (Z.to_nat (output_size * output_size))) /\
  (bounded_faces cm ->
   generate (FM := binary32) cm output_size =
     Ok (repeat c (Z.to_nat (output_size * output_size)))).
Proof.
  intros Hvalid Hu Hn Hsize. split.
  - destruct (generate_exact cm output_size Hvalid Hn Hsize) as (buf & Hrun & Hlen & Hall).
    rewrite Hrun. f_equal. exact (uniform_buffer cm c _ buf Hu Hlen Hall).
  - intros Hb.
    destruct (generate_binary32 cm output_size Hvalid Hb Hn Hsize)
      as (buf & Hrun & Hlen & Hall).
    rewrite Hrun. f_equal. exact (uniform_buffer cm c _ buf Hu Hlen Hall).
Qed.

Lemma flat_cubemap_valid (c : u32) : valid_cubemap (flat_cubemap c).
Proof.
  intros face img Hface.
  pose proof (faces_Some_range _ _ _ Hface) as Hrange. unfold NUM_FACES in Hrange.
  assert (face = 0 \/ face = 1 \/ face = 2 \/ face = 3 \/ face = 4 \/ face = 5)
    as Hcases by lia.
  destruct Hcases as [-> | [-> | [-> | [-> | [-> | ->]]]]];
    inversion Hface; subst; unfold valid_image, INT_MAX; simpl; lia.
Qed.

Lemma flat_cubemap_uniform (c : u32) : uniform_cubemap c (flat_cubemap c).
Proof.
  intros face img Hface c' Hin.
  pose proof (faces_Some_range _ _ _ Hface) as Hrange. unfold NUM_FACES in Hrange.
  assert (face = 0 \/ face = 1 \/ face = 2 \/ face = 3 \/ face = 4 \/ face = 5)
    as Hcases by lia.
  destruct Hcases as [-> | [-> | [-> | [-> | [-> | ->]]]]];
    inversion Hface; subst; simpl in Hin; intuition congruence.
Qed.

Lemma uniform_cubemap_gives_uniform_image_witness :
  generate (FM := exact) (flat_cubemap 7) 5 = Ok (repeat 7 (Z.to_nat (5 * 5))) /\
  (bounded_faces (flat_cubemap 7) ->
   generate (FM := binary32) (flat_cubemap 7) 5 = Ok (repeat 7 (Z.to_nat (5 * 5)))).
Proof.
  apply (uniform_cubemap_gives_uniform_image (flat_cubemap 7) 7 5).
  - exact (flat_cubemap_valid 7).
  - exact (flat_cubemap_uniform 7).
  - lia.
  - unfold INT_MAX. simpl. lia.
Defined.

End GeneratedImage.

(** ** Runs of [main] *)

Module ToolRuns.

Import String.
Import Tool.

Local Open Scope string_scope.

(** *** File names *)





(** *** The constructor *)

Section Runs.

Context {FM : FloatModel}.
Variable stbi_load : string -> option Image.
Variable unwritten : string -> Z * Z.
Variable stoi : string -> option Z.

Lemma Image_move_assign_fst (this o : Image) : fst (Image_move_assign this o) = o.
Proof. destruct o. reflexivity. Qed.

Lemma Cubemap_ctor_faces (fname_prefix fname_extension : string) (face : Z) (img : Image) :
  faces (Cubemap_ctor stbi_load unwritten fname_prefix fname_extension) face = Some img ->
  0 <= face <= 5 /\
  img = Image_load stbi_load unwritten (face_filename fname_prefix fname_extension face).
Proof.
  intros Hface.
  pose proof (faces_Some_range _ _ _ Hface) as Hrange. unfold NUM_FACES in Hrange.
  split; [lia | ].
  assert (face = 0 \/ face = 1 \/ face = 2 \/ face = 3 \/ face = 4 \/ face = 5)
    as Hcases by lia.
  destruct Hcases as [-> | [-> | [-> | [-> | [-> | ->]]]]];
    unfold faces, Cubemap_ctor in Hface;
    cbn [face_pos_x face_neg_x face_pos_y face_neg_y face_pos_z face_neg_z] in Hface;
    rewrite Image_move_assign_fst in Hface;
    inversion Hface; reflexivity.
Qed.

Lemma Image_load_decoded (filename : string) (img : Image) :
  stbi_load filename = Some img -> Image_load stbi_load unwritten filename = img.
Proof. intros H. unfold Image_load. rewrite H. reflexivity. Qed.

Lemma Image_load_failed (filename : string) :
  stbi_load filename = None -> data (Image_load stbi_load unwritten filename) = [].
Proof. intros H. unfold Image_load. rewrite H. reflexivity. Qed.

Lemma Cubemap_ctor_valid (fname_prefix fname_extension : string) :
  all_decoded stbi_load fname_prefix fname_extension ->
  valid_cubemap (Cubemap_ctor stbi_load unwritten fname_prefix fname_extension).
Proof.
  intros Hall face img Hface.
  destruct (Cubemap_ctor_faces _ _ _ _ Hface) as [Hrange ->].
  destruct (Hall face Hrange) as (img' & Hload & Hvalid).
  rewrite (Image_load_decoded _ _ Hload). exact Hvalid.
Qed.

(** *** The ways [main] ends *)

Lemma main_run (prog fname_prefix fname_extension size : string) (output_size : Z) :
  stoi size = Some output_size ->
  main stbi_load unwritten stoi [prog; fname_prefix; fname_extension; size] =
  match generate (Cubemap_ctor stbi_load unwritten fname_prefix fname_extension)
          output_size with
  | Ok out_data =>
      Returns 0 (Cubemap_files fname_prefix fname_extension)
        [{| bmp_filename := output_filename fname_prefix;
            bmp_w := output_size; bmp_h := output_size;
            bmp_comp := 4; bmp_data := out_data |}]
  | AssertFail => AssertionFailed
  | Undefined => UndefinedBehaviour
  end.
Proof. intros Hsize. unfold main. rewrite Hsize. reflexivity. Qed.



Lemma main_crashes (prog fname_prefix fname_extension size : string) (output_size : Z) :
  stoi size = Some output_size ->
  (forall buf,
     generate (Cubemap_ctor stbi_load unwritten fname_prefix fname_extension)
       output_size <> Ok buf) ->
  crashes (main stbi_load unwritten stoi [prog; fname_prefix; fname_extension; size]).
Proof.
  intros Hsize Hgen. rewrite (main_run _ _ _ _ _ Hsize). unfold crashes.
  destruct (generate _ output_size) as [buf | | ].
  - exfalso. exact (Hgen buf eq_refl).
  - left. reflexivity.
  - right. reflexivity.
Qed.

Lemma main_writes (prog fname_prefix fname_extension size : string) (output_size : Z) :
  stoi size = Some output_size ->
  all_decoded stbi_load fname_prefix fname_extension ->
  (exists buf,
     generate (Cubemap_ctor stbi_load unwritten fname_prefix fname_extension)
       output_size = Ok buf /\
     Z.of_nat (List.length buf) = output_size * output_size /\
     forall c, In c buf ->
       exists (face x y : Z) (img : Image),
         faces (Cubemap_ctor stbi_load unwritten fname_prefix fname_extension) face =
           Some img /\
         0 <= x < width img /\ 0 <= y < height img /\
         readTexel (Cubemap_ctor stbi_load unwritten fname_prefix fname_extension)
           face x y = Ok c) ->
  writes_spheremap FM stbi_load unwritten stoi
    [prog; fname_prefix; fname_extension; size] fname_prefix fname_extension output_size.
Proof.
  intros Hsize Hall (buf & Hgen & Hlen & Hcol).
  exists buf. split; [ | split; [exact Hlen | ]].
  - rewrite (main_run _ _ _ _ _ Hsize), Hgen. reflexivity.
  - intros c Hin. destruct (Hcol c Hin) as (face & x & y & img & _ & _ & _ & Hread).
    destruct (readTexel_Ok_In _ face x y c Hread) as (img' & Himg' & Hc).
    destruct (Cubemap_ctor_faces _ _ _ _ Himg') as [Hrange ->].
    destruct (Hall face Hrange) as (img2 & Hload & _).
    rewrite (Image_load_decoded _ _ Hload) in Hc.
    exists face, img2. split; [exact Hrange | ]. split; [exact Hload | exact Hc].
Qed.

(** A pixel that looks at the face [face] cannot be coloured when the
    buffer of that face is null. *)
Lemma first_pixel_needs_face (cm : Cubemap) (output_size face : Z) (img : Image)
  (vx vy vz s t : float) :
  1 <= output_size ->
  pixel_direction (unlerp 0 output_size) (unlerp 0 output_size) = (vx, vy, vz) ->
  computeTexCoords vx vy vz = Ok (face, s, t) ->
  faces cm face = Some img -> data img = [] ->
  forall buf, generate cm output_size <> Ok buf.
Proof.
  intros Hn Hdir Hclass Himg Hnull buf Hgen.
  destruct (generate_first_pixel cm output_size buf Hn Hgen) as [c Hc].
  unfold pixel_color in Hc. rewrite Hdir, Hclass in Hc. simpl bind in Hc.
  destruct (sampleFace_Ok_In cm face s t c Hc) as (img' & Himg' & Hin).
  rewrite Himg in Himg'. inversion Himg'; subst img'.
  rewrite Hnull in Hin. exact Hin.
Qed.

Lemma no_face_no_pixel (cm : Cubemap) (output_size : Z) :
  1 <= output_size ->
  (forall face img, faces cm face = Some img -> data img = []) ->
  forall buf, generate cm output_size <> Ok buf.
Proof.
  intros Hn Hnull buf Hgen.
  destruct (generate_first_pixel cm output_size buf Hn Hgen) as [c Hc].
  destruct (pixel_color_Ok_In cm output_size 0 0 c Hc) as (face & img & Himg & Hin).
  rewrite (Hnull face img Himg) in Hin. exact Hin.
Qed.

End Runs.

Import Exact ExactGenerate Binary32 Binary32Program.

(** X20. A run of [main] on four arguments whose last one reads as a
    size [0 <= output_size <= 46340], with the six files decoded, returns
    0 and writes the spheremap: one file of [output_size] by
    [output_size] pixels whose colours are texels of the decoded images.
    In exact arithmetic, and in single precision for images of at most
    2147483520 texels a side. *)
Theorem main_writes_the_spheremap
  (stbi_load : string -> option Image) (unwritten : string -> Z * Z)
  (stoi : string -> option Z)
  (prog fname_prefix fname_extension size : string) (output_size : Z) :
  stoi size = Some output_size ->
  0 <= output_size <= 46340 ->
  all_decoded stbi_load fname_prefix fname_extension ->
  writes_spheremap exact stbi_load unwritten stoi
    [prog; fname_prefix; fname_extension; size] fname_prefix fname_extension output_size /\
  ((forall face img,
      stbi_load (face_filename fname_prefix fname_extension face) = Some img ->
      width img <= max_dim /\ height img <= max_dim) ->
   writes_spheremap binary32 stbi_load unwritten stoi
     [prog; fname_prefix; fname_extension; size] fname_prefix fname_extension output_size).
Proof.
  intros Hsize Hn Hall.
  pose proof (Cubemap_ctor_valid stbi_load unwritten _ _ Hall) as Hvalid.
  assert (Hsq : output_size * output_size <= INT_MAX)
    by (apply GeneratedImage.int_square_limit; lia).
  split.
  - apply (main_writes (FM := exact) _ _ _ _ _ _ _ _ Hsize Hall).
    exact (generate_exact _ output_size Hvalid (proj1 Hn) Hsq).
  - intros Hdim.
    apply (main_writes (FM := binary32) _ _ _ _ _ _ _ _ Hsize Hall).
    apply (generate_binary32 _ output_size Hvalid); [ | lia | exact Hsq].
    intros face img Hface.
    destruct (Cubemap_ctor_faces stbi_load unwritten _ _ _ _ Hface) as [Hrange ->].
    destruct (Hall face Hrange) as (img' & Hload & _).
    rewrite (Image_load_decoded _ _ _ _ Hload). exact (Hdim face img' Hload).
Qed.

Lemma test_load_all_decoded : all_decoded (test_load []) "sky" "png".
Proof.
  intros face _. exists (test_image 10). split; [reflexivity | ].
  unfold valid_image, INT_MAX. simpl. lia.
Qed.

Lemma main_writes_the_spheremap_witness :
  writes_spheremap exact (test_load []) test_unwritten test_stoi
    ["spheremap"; "sky"; "png"; "2"] "sky" "png" 2 /\
  ((forall face img,
      test_load [] (face_filename "sky" "png" face) = Some img ->
      width img <= max_dim /\ height img <= max_dim) ->
   writes_spheremap binary32 (test_load []) test_unwritten test_stoi
     ["spheremap"; "sky"; "png"; "2"] "sky" "png" 2).
Proof.
  apply (main_writes_the_spheremap (test_load []) test_unwritten test_stoi
           "spheremap" "sky" "png" "2" 2).
  - reflexivity.
  - lia.
  - exact test_load_all_decoded.
Defined.

Lemma back_pole_exact :
  computeTexCoords (FM := exact) (of_int 0) (of_int 0) (fneg (of_int 1)) =
  Ok (FACE_NEG_Z, half, half).
Proof.
  destruct Canonical.exact_centred as (_ & _ & _ & _ & _ & Hback).
  change (fneg (FloatModel := exact) (of_int 1)) with (of_int (FloatModel := exact) (-1)).
  exact Hback.
Qed.

(** X21. A file that cannot be decoded is not reported. When no file of
    the cubemap is decoded and the size is at least 1, or when the file
    of the face -Z is not decoded and the size is at least 4 (the first
    pixel is a corner and looks at the back pole), [main] returns no exit
    code: it runs into a failed [assert] or into undefined behaviour,
    reading the null buffer. The first holds in any arithmetic, the
    second in exact arithmetic and in single precision. *)
Theorem missing_faces_crash
  (stbi_load : string -> option Image) (unwritten : string -> Z * Z)
  (stoi : string -> option Z)
  (prog fname_prefix fname_extension size : string) (output_size : Z) :
  stoi size = Some output_size ->
  (1 <= output_size ->
   (forall face, 0 <= face <= 5 ->
      stbi_load (face_filename fname_prefix fname_extension face) = None) ->
   forall FM : FloatModel,
     crashes (main (FM := FM) stbi_load unwritten stoi
                [prog; fname_prefix; fname_extension; size])) /\
  (4 <= output_size ->
   stbi_load (face_filename fname_prefix fname_extension FACE_NEG_Z) = None ->
   crashes (main (FM := exact) stbi_load unwritten stoi
              [prog; fname_prefix; fname_extension; size]) /\
   crashes (main (FM := binary32) stbi_load unwritten stoi
              [prog; fname_prefix; fname_extension; size])).
Proof.
  intros Hsize. split.
  - intros Hn Hnone FM. apply (main_crashes _ _ _ _ _ _ _ _ Hsize).
    apply no_face_no_pixel; [exact Hn | ].
    intros face img Hface.
    destruct (Cubemap_ctor_faces stbi_load unwritten _ _ _ _ Hface) as [Hrange ->].
    apply Image_load_failed. exact (Hnone face Hrange).
  - intros Hn Hback.
    set (cm := Cubemap_ctor stbi_load unwritten fname_prefix fname_extension).
    destruct (faces_in_range cm FACE_NEG_Z ltac:(unfold FACE_NEG_Z; lia)) as [img Himg].
    assert (Hnull : data img = []).
    { destruct (Cubemap_ctor_faces stbi_load unwritten _ _ _ _ Himg) as [_ ->].
      apply Image_load_failed. exact Hback. }
    assert (Hcorner : is_corner output_size 0 0) by (split; left; reflexivity).
    split; apply (main_crashes _ _ _ _ _ _ _ _ Hsize); fold cm.
    + apply (first_pixel_needs_face (FM := exact) cm output_size FACE_NEG_Z img
               (of_int 0) (of_int 0) (fneg (of_int 1)) half half);
        [lia | | exact back_pole_exact | exact Himg | exact Hnull].
      unfold pixel_direction.
      rewrite (Corners.corner_rev_p_negative output_size 0 0 Hn Hcorner). reflexivity.
    + destruct (Z_lt_le_dec INT_MAX (output_size * output_size)) as [Hbig | Hsq].
      * intros buf. rewrite (generate_overflow cm output_size Hbig). discriminate.
      * apply (first_pixel_needs_face (FM := binary32) cm output_size FACE_NEG_Z img
                 (of_int 0) (of_int 0) (fneg (of_int 1)) half half);
          [lia | | exact Silhouette.back_pole_binary32 | exact Himg | exact Hnull].
        unfold pixel_direction.
        rewrite (corner_rev_p_binary32 output_size 0 0
                   ltac:(split; [lia | apply int_square_bound; lia]) Hcorner).
        reflexivity.
Qed.

Lemma missing_faces_crash_witness :
  (1 <= 8 ->
   (forall face, 0 <= face <= 5 ->
      test_load ["sky_back.png"] (face_filename "sky" "png" face) = None) ->
   forall FM : FloatModel,
     crashes (main (FM := FM) (test_load ["sky_back.png"]) test_unwritten test_stoi
                ["spheremap"; "sky"; "png"; "8"])) /\
  (4 <= 8 ->
   test_load ["sky_back.png"] (face_filename "sky" "png" FACE_NEG_Z) = None ->
   crashes (main (FM := exact) (test_load ["sky_back.png"]) test_unwritten test_stoi
              ["spheremap"; "sky"; "png"; "8"]) /\
   crashes (main (FM := binary32) (test_load ["sky_back.png"]) test_unwritten test_stoi
              ["spheremap"; "sky"; "png"; "8"])).
Proof.
  apply (missing_faces_crash (test_load ["sky_back.png"]) test_unwritten test_stoi
           "spheremap" "sky" "png" "8" 8).
  reflexivity.
Defined.

End ToolRuns.
